(** * Climate covariates fetcher: the resumable fetch-and-cache core

    A shallow embedding of [covariate_fetcher_serial.py] and
    [covariate_fetcher_threaded.py].

    - Coordinates are Python floats, i.e. IEEE binary64 numbers: they are
      modelled by Rocq's primitive floats, with Python's [round] and the
      int-to-float conversion written out on the float's mantissa and
      exponent.
    - Backend measurements (daily temperatures, precipitation, raw NDVI) are
      modelled by exact rationals: [np.mean] and [np.sum] are NumPy routines,
      and the rounding of their floating-point summation is not modelled.
    - Exceptions, [sys.exit] and the persisted files are explicit: every
      effectful function threads a [state] and returns an [outcome]. *)

From Stdlib Require Import ZArith QArith Qpower Lqa Floats.
From stdpp Require Import gmap strings list pretty.

#[local] Set Warnings "-inexact-float".

Local Open Scope Z_scope.

(** ** Configuration (class [Config]) *)

(** Python's two-argument [max]: the second argument wins only when it is
    strictly greater. *)
Definition py_max (a b : float) : float :=
  if PrimFloat.ltb a b then b else a.

Definition MIN_NDVI_RES_KM : float := 0.25%float.
Definition MIN_TEMP_PRECIP_RES_KM : float := 25%float.

(** The settings of class [Config] that the code below reads. The three
    column names are f-strings over the effective resolutions. *)
Record Config := {
  GRID_SIZE_KM : float;
  NDVI_COL : string;
  TEMP_COL : string;
  PRECIP_COL : string
}.

(** The values the two source files ship with. *)
Definition default_config : Config := {|
  GRID_SIZE_KM := 25%float;
  NDVI_COL := "ndvi_mean_(0–1)_(25x25km)";
  TEMP_COL := "temp_mean_(°C)_(25x25km)";
  PRECIP_COL := "precip_sum_(mm/year)_(25x25km)"
|}.

Definition NDVI_RES_KM (c : Config) : float :=
  py_max (GRID_SIZE_KM c) MIN_NDVI_RES_KM.
Definition TEMP_PRECIP_RES_KM (c : Config) : float :=
  py_max (GRID_SIZE_KM c) MIN_TEMP_PRECIP_RES_KM.

Definition NDVI_RES_DEG (c : Config) : float :=
  (NDVI_RES_KM c / 111)%float.
Definition TEMP_PRECIP_RES_DEG (c : Config) : float :=
  (TEMP_PRECIP_RES_KM c / 111)%float.

(** ** Exceptions *)

Inductive exn :=
| KeyboardInterrupt
| RuntimeError (msg : string)
| AttributeError
| TypeError
| ValueError
| OverflowError
| BackendError (msg : string).

(** [except Exception] catches everything but [KeyboardInterrupt], which
    derives from [BaseException] only. *)
Definition is_Exception (e : exn) : bool :=
  match e with KeyboardInterrupt => false | _ => true end.

Definition is_RuntimeError (e : exn) : bool :=
  match e with RuntimeError _ => true | _ => false end.

(** [str(e)] *)
Definition exn_str (e : exn) : string :=
  match e with
  | RuntimeError msg => msg
  | BackendError msg => msg
  | KeyboardInterrupt => ""
  | AttributeError => "object has no attribute 'items'"
  | TypeError => "unsupported operand type(s)"
  | ValueError => "cannot convert float NaN to integer"
  | OverflowError => "cannot convert float infinity to integer"
  end.

(** The result of an expression that may raise. *)
Inductive res (A : Type) :=
| Ok (a : A)
| Raise (e : exn).
Arguments Ok {A} a.
Arguments Raise {A} e.

#[export] Instance res_ret : MRet res := λ A a, Ok a.
#[export] Instance res_bind : MBind res := λ A B f r,
  match r with Ok a => f a | Raise e => Raise e end.

(** ** Grid quantizer *)

(** The integer nearest to [m / d], ties to the even one ([0 < d]). *)
Definition round_half_even (m d : Z) : Z :=
  let q := m / d in
  let r := m mod d in
  if 2 * r <? d then q
  else if d <? 2 * r then q + 1
  else if Z.even q then q else q + 1.

(** Python's one-argument [round] on a float: an [int], by rounding half to
    even; [OverflowError] on an infinity, [ValueError] on a NaN. *)
Definition py_round (x : float) : res Z :=
  match Prim2SF x with
  | S754_zero _ => Ok 0
  | S754_finite s m e =>
      let n := if 0 <=? e then Z.pos m * 2 ^ e
               else round_half_even (Z.pos m) (2 ^ (- e)) in
      Ok (if s then - n else n)
  | S754_infinity _ => Raise OverflowError
  | S754_nan => Raise ValueError
  end.

(** The conversion of the [int] operand of [int * float] to a float. *)
Definition float_of_Z (n : Z) : float :=
  SF2Prim (binary_normalize prec emax n 0 false).

(** [round(x / deg) * deg] *)
Definition round_to_grid (deg x : float) : res float :=
  n ← py_round (x / deg)%float; Ok (float_of_Z n * deg)%float.

(** The body shared by [round_coord_gee] and [round_coord_om]:
    [(round(lat / deg) * deg, round(lon / deg) * deg)]. *)
Definition round_coord (deg lat lon : float) : res (float * float) :=
  qlat ← round_to_grid deg lat;
  qlon ← round_to_grid deg lon;
  Ok (qlat, qlon).

Definition round_coord_gee (c : Config) (lat lon : float) : res (float * float) :=
  round_coord (NDVI_RES_DEG c) lat lon.

Definition round_coord_om (c : Config) (lat lon : float) : res (float * float) :=
  round_coord (TEMP_PRECIP_RES_DEG c) lat lon.

(** The grid index of a coordinate, and the indices that the exhaustive
    check of the fixed points covers. *)
Definition grid_index (deg x : float) : res Z := py_round (x / deg)%float.

Definition GRID_INDEX_BOUND : Z := 16384.

Definition in_grid_range (deg x : float) : Prop :=
  ∃ n, grid_index deg x = Ok n ∧ Z.abs n ≤ GRID_INDEX_BOUND.

Definition fixed_index (deg : float) (n : Z) : bool :=
  match grid_index deg (float_of_Z n * deg)%float with
  | Ok k => k =? n
  | Raise _ => false
  end.

Fixpoint check_from (k : nat) (n : Z) (f : Z → bool) : bool :=
  match k with
  | O => true
  | S k' => f n && f (- n) && check_from k' (n + 1) f
  end.

(** ** Values held by the table and the caches *)

#[local] Set Warnings "-register-all".

(** The Python values that reach a result column or a cache file: [None], a
    number, the float NaN, a string, a tuple or JSON array, a [dict] in
    insertion order. *)
Inductive pyval :=
| PNone
| PNum (q : Q)
| PNan
| PStr (s : string)
| PList (l : list pyval)
| PDict (d : list (string * pyval)).

#[local] Set Warnings "register-all".

Definition of_opt (o : option Q) : pyval :=
  match o with Some q => PNum q | None => PNone end.

(** [vals.items()]; only a [dict] has the attribute. *)
Definition items (v : pyval) : res (list (string * pyval)) :=
  match v with
  | PDict d => Ok d
  | _ => Raise AttributeError
  end.

(** [temp, precip = v]: unpacking needs an iterable of exactly two values;
    a [dict] iterates over its keys and a string over its characters. *)
Definition unpack2 (v : pyval) : res (pyval * pyval) :=
  match v with
  | PList [a; b] => Ok (a, b)
  | PDict [(a, _); (b, _)] => Ok (PStr a, PStr b)
  | PStr (String a (String b EmptyString)) =>
      Ok (PStr (String a EmptyString), PStr (String b EmptyString))
  | PList _ | PDict _ | PStr _ => Raise ValueError
  | PNone | PNum _ | PNan => Raise TypeError
  end.

(** ** Strings *)

(** [needle in hay] *)
Fixpoint contains (needle hay : string) : bool :=
  String.prefix needle hay ||
  match hay with
  | EmptyString => false
  | String _ rest => contains needle rest
  end.

Definition lower_ascii (a : Ascii.ascii) : Ascii.ascii :=
  let n := Ascii.N_of_ascii a in
  if ((65 <=? n) && (n <=? 90))%N then Ascii.ascii_of_N (n + 32) else a.

(** [s.lower()] *)
Fixpoint lower (s : string) : string :=
  match s with
  | EmptyString => EmptyString
  | String a rest => String (lower_ascii a) (lower rest)
  end.

(** ** Climate aggregates *)

(** The ["daily"] mapping of an Open-Meteo response, restricted to the three
    series the fetcher reads. A field is [None] when the key is missing; a day
    is [None] when the backend reports [null] for it. *)
Record daily := {
  temperature_2m_max : option (list (option Q));
  temperature_2m_min : option (list (option Q));
  precipitation_sum : option (list (option Q))
}.

(** [js.get(key, [])] *)
Definition get_or_empty (series : option (list (option Q))) : list (option Q) :=
  default [] series.

(** [[(a + b) / 2 for a, b in zip(max, min) if a is not None and b is not None]] *)
Definition temps (js : daily) : list Q :=
  omap (λ ab, match ab with
              | (Some a, Some b) => Some ((a + b) / 2)%Q
              | _ => None
              end)
       (zip (get_or_empty (temperature_2m_max js))
            (get_or_empty (temperature_2m_min js))).

Definition sum_list (l : list Q) : Q := foldr Qplus 0%Q l.

(** [np.mean] of a non-empty list of numbers. *)
Definition np_mean (l : list Q) : Q :=
  (sum_list l / inject_Z (Z.of_nat (length l)))%Q.

(** [np.mean(temps) if temps else None] *)
Definition temp_mean (js : daily) : option Q :=
  match temps js with
  | [] => None
  | t :: ts => Some (np_mean (t :: ts))
  end.

(** Python's [+] on two entries of a series: undefined on [None]. *)
Definition py_add (a b : option Q) : res (option Q) :=
  match a, b with
  | Some x, Some y => Ok (Some (x + y)%Q)
  | _, _ => Raise TypeError
  end.

(** [np.sum] of a list. A list of numbers is summed (0.0 when empty). A list
    that holds a [None] becomes an object array, which NumPy reduces with
    Python's [+] starting from its first element. *)
Definition np_sum (l : list (option Q)) : res (option Q) :=
  match l with
  | [] => Ok (Some 0%Q)
  | x :: rest => foldl (λ acc y, a ← acc; py_add a y) (Ok x) rest
  end.

(** [np.sum(js.get("precipitation_sum", [])) if "precipitation_sum" in js else None] *)
Definition precip_sum (js : daily) : res (option Q) :=
  match precipitation_sum js with
  | Some series => np_sum series
  | None => Ok None
  end.

(** The two aggregates, in the order the fetchers evaluate them. *)
Definition aggregates (js : daily) : res (option Q * option Q) :=
  let t := temp_mean js in
  p ← precip_sum js;
  Ok (t, p).

(** ** Backends and effects *)

Inductive source := GEE | OM.

#[export] Instance source_eq_dec : EqDecision source.
Proof. solve_decision. Defined.

(** What the run does to the outside: a request to a backend, a
    [time.sleep], a write of the checkpoint or of a cache file. *)
Inductive event :=
| Request (src : source) (year : Z) (lat lon : float)
| Sleep (secs : Z)
| SaveCheckpoint
| SaveCache (src : source).

(** One attempt on Earth Engine: the collection is empty, or the reduced
    region has this value (possibly null), or a call raises an exception
    whose text is [msg]. *)
Inductive gee_reply :=
| GeeNoImages
| GeeReduced (ndvi_mean : option Q)
| GeeRaises (msg : string).

(** One attempt on Open-Meteo: status 429, or another failure
    ([requests.get], [raise_for_status] or [r.json()] raises), or a body. *)
Inductive om_reply :=
| OmStatus429
| OmRaises (msg : string)
| OmJson (js : daily).

Definition max_retries : nat := 3.

(** ** The working table *)

Definition cell : Type := float * float.

(** [a == b] on two [(lat, lon)] tuples. *)
Definition cell_eqb (a b : cell) : bool :=
  PrimFloat.eqb a.1 b.1 && PrimFloat.eqb a.2 b.2.

(** One record of the table. [gee_cell] and [om_cell] are the column pairs
    [gee_lat, gee_lon] and [om_lat, om_lon], absent until a pipeline has
    added them; [cols] holds every other column by name. *)
Record row := {
  lat_center : float;
  lon_center : float;
  year : Z;
  gee_cell : option cell;
  om_cell : option cell;
  cols : gmap string pyval
}.

Definition row_cell (src : source) (r : row) : option cell :=
  match src with GEE => gee_cell r | OM => om_cell r end.

Definition set_row_cell (src : source) (c : cell) (r : row) : row :=
  match src with
  | GEE => {| lat_center := lat_center r; lon_center := lon_center r;
              year := year r; gee_cell := Some c; om_cell := om_cell r;
              cols := cols r |}
  | OM => {| lat_center := lat_center r; lon_center := lon_center r;
             year := year r; gee_cell := gee_cell r; om_cell := Some c;
             cols := cols r |}
  end.

Definition set_col (col : string) (v : pyval) (r : row) : row :=
  {| lat_center := lat_center r; lon_center := lon_center r;
     year := year r; gee_cell := gee_cell r; om_cell := om_cell r;
     cols := <[col := v]> (cols r) |}.

(** [(df["year"] == year) & (df[lat_col] == lat) & (df[lon_col] == lon)] *)
Definition mask (src : source) (y : Z) (c : cell) (r : row) : bool :=
  (year r =? y) &&
  match row_cell src r with
  | Some c' => cell_eqb c' c
  | None => false
  end.

(** What a selected cell holds after [df.loc[mask, col] = v]. [None], a
    number or a string is broadcast as it is. A [dict] is not: pandas turns
    it into a Series and aligns that on the row labels, which the keys of a
    JSON object (strings) never match, so the cell is left NaN. *)
Definition loc_value (v : pyval) : pyval :=
  match v with
  | PDict _ => PNan
  | _ => v
  end.

(** [df.loc[mask, col] = v]. A list is kept whole here, where pandas
    spreads it over the selected cells or rejects it by its length: no
    statement below says what a cell holds after a list was assigned. *)
Definition loc_set (m : row → bool) (col : string) (v : pyval)
    (df : list row) : list row :=
  (λ r, if m r then set_col col (loc_value v) r else r) <$> df.

(** [for k, v in vals.items(): df.loc[mask, k] = v] *)
Definition loc_set_items (m : row → bool) (kvs : list (string * pyval))
    (df : list row) : list row :=
  foldl (λ d kv, loc_set m kv.1 kv.2 d) df kvs.

(** [df.apply(lambda r: round_coord(r["lat_center"], r["lon_center"]), axis=1)]:
    the rounded coordinates of every record. A coordinate that [round]
    rejects raises. *)
Definition rounded_cells (src : source) (c : Config) (df : list row)
    : res (list row) :=
  mapM (λ r,
    q ← match src with
        | GEE => round_coord_gee c (lat_center r) (lon_center r)
        | OM => round_coord_om c (lat_center r) (lon_center r)
        end;
    Ok (set_row_cell src q r)) df.

(** The first statement of each pipeline: the rounded coordinates are
    transposed by [zip] and unpacked into the two new columns. On a table
    without records [zip] yields nothing, and unpacking it into the two
    targets raises [ValueError]. *)
Definition assign_cells (src : source) (c : Config) (df : list row)
    : res (list row) :=
  match df with
  | [] => Raise ValueError
  | _ :: _ => rounded_cells src c df
  end.

(** [sorted(unique_points.keys(), reverse=True)] *)
Fixpoint insert_desc (y : Z) (l : list Z) : list Z :=
  match l with
  | [] => [y]
  | x :: rest =>
      if x <? y then y :: l
      else if x =? y then l
      else x :: insert_desc y rest
  end.

Definition years_desc (df : list row) : list Z :=
  foldr insert_desc [] (year <$> df).

(** The distinct elements of a list of tuples, as [set] keeps them. *)
Fixpoint dedup_cells (l : list cell) : list cell :=
  match l with
  | [] => []
  | c :: rest =>
      if existsb (cell_eqb c) rest then dedup_cells rest
      else c :: dedup_cells rest
  end.

(** [range(0, len(coords), size)] with [coords[i:i+size]] *)
Fixpoint batches_from (fuel size i : nat) (coords : list cell)
    : list (nat * list cell) :=
  match fuel with
  | O => []
  | S fuel' =>
      if (i <? length coords)%nat
      then (i, take size (drop i coords))
             :: batches_from fuel' size (i + size) coords
      else []
  end.

Definition batches (size : nat) (coords : list cell) : list (nat * list cell) :=
  batches_from (length coords) size 0 coords.

(** ** The world around a run *)

(** The points of a batch at which a user interrupt can arrive. *)
Inductive phase := PhLookup | PhDispatch | PhPersist.

(** What one run does not decide itself: how Python prints a float, what
    each backend answers to attempt [n] for a point, in which order a set is
    listed and in which order futures complete, and whether the user
    interrupts at a given point (pipeline, year, batch offset, phase). *)
Record world := {
  repr_float : float → string;
  gee : Z → float → float → nat → gee_reply;
  om : Z → float → float → nat → om_reply;
  list_of_set : list cell → list cell;
  as_completed : list (cell * res pyval) → list (cell * res pyval);
  interrupt : source → Z → nat → phase → bool
}.

(** [f"{year},{lat},{lon}"] *)
Definition cache_key (w : world) (y : Z) (c : cell) : string :=
  pretty y +:+ "," +:+ repr_float w c.1 +:+ "," +:+ repr_float w c.2.

(** [df.groupby("year")[[lat, lon]].apply(lambda x: list(set(...)))] at one
    year. *)
Definition unique_points (w : world) (src : source) (df : list row) (y : Z)
    : list cell :=
  list_of_set w
    (dedup_cells (omap (λ r, if year r =? y then row_cell src r else None) df)).

(** ** State, termination and the run monad *)

(** The memory of a run (table and the two caches), the files it reads and
    writes, and the trace of its effects. A file is [None] when it does not
    exist. *)
Record state := {
  df : list row;
  gee_cache : gmap string pyval;
  om_cache : gmap string pyval;
  SRC_CSV : list row;
  CHECKPOINT_CSV : option (list row);
  GEE_CACHE : option (gmap string pyval);
  OM_CACHE : option (gmap string pyval);
  log : list event
}.

(** How a run ends early: [sys.exit(code)] or an exception nobody catches. *)
Inductive stop :=
| SysExit (code : Z)
| Uncaught (e : exn).

Inductive outcome (A : Type) :=
| Done (a : A)
| Stop (s : stop).
Arguments Done {A} a.
Arguments Stop {A} s.

Definition M (A : Type) : Type := state → outcome A * state.

#[export] Instance M_ret : MRet M := λ A a st, (Done a, st).
#[export] Instance M_bind : MBind M := λ A B f m st,
  match m st with
  | (Done a, st') => f a st'
  | (Stop s, st') => (Stop s, st')
  end.

Definition raise {A} (e : exn) : M A := λ st, (Stop (Uncaught e), st).
Definition sys_exit {A} (code : Z) : M A := λ st, (Stop (SysExit code), st).
Definition get_state : M state := λ st, (Done st, st).

(** An expression that may raise, evaluated where nothing catches it. *)
Definition lift {A} (r : res A) : M A :=
  match r with Ok a => mret a | Raise e => raise e end.

Definition cache_of (src : source) (st : state) : gmap string pyval :=
  match src with GEE => gee_cache st | OM => om_cache st end.

Definition set_df (d : list row) : M unit := λ st,
  (Done (), {| df := d; gee_cache := gee_cache st; om_cache := om_cache st;
               SRC_CSV := SRC_CSV st; CHECKPOINT_CSV := CHECKPOINT_CSV st;
               GEE_CACHE := GEE_CACHE st; OM_CACHE := OM_CACHE st;
               log := log st |}).

Definition set_cache (src : source) (c : gmap string pyval) : M unit := λ st,
  (Done (),
   match src with
   | GEE => {| df := df st; gee_cache := c; om_cache := om_cache st;
               SRC_CSV := SRC_CSV st; CHECKPOINT_CSV := CHECKPOINT_CSV st;
               GEE_CACHE := GEE_CACHE st; OM_CACHE := OM_CACHE st;
               log := log st |}
   | OM => {| df := df st; gee_cache := gee_cache st; om_cache := c;
              SRC_CSV := SRC_CSV st; CHECKPOINT_CSV := CHECKPOINT_CSV st;
              GEE_CACHE := GEE_CACHE st; OM_CACHE := OM_CACHE st;
              log := log st |}
   end).

Definition emit (evs : list event) : M unit := λ st,
  (Done (), {| df := df st; gee_cache := gee_cache st; om_cache := om_cache st;
               SRC_CSV := SRC_CSV st; CHECKPOINT_CSV := CHECKPOINT_CSV st;
               GEE_CACHE := GEE_CACHE st; OM_CACHE := OM_CACHE st;
               log := log st ++ evs |}).

(** [time.sleep(secs)] *)
Definition sleep (secs : Z) : M unit := emit [Sleep secs].

(** [df.to_csv(Config.CHECKPOINT_CSV, index=False)] *)
Definition save_checkpoint : M unit := λ st,
  (Done (), {| df := df st; gee_cache := gee_cache st; om_cache := om_cache st;
               SRC_CSV := SRC_CSV st; CHECKPOINT_CSV := Some (df st);
               GEE_CACHE := GEE_CACHE st; OM_CACHE := OM_CACHE st;
               log := log st ++ [SaveCheckpoint] |}).

(** [save_cache(cache, path)] with the cache and the path of one pipeline.
    The write is taken to succeed and to be whole: a value that [json.dump]
    rejects, or an interrupt while the file is open, is not modelled. *)
Definition save_cache (src : source) : M unit := λ st,
  (Done (),
   match src with
   | GEE => {| df := df st; gee_cache := gee_cache st; om_cache := om_cache st;
               SRC_CSV := SRC_CSV st; CHECKPOINT_CSV := CHECKPOINT_CSV st;
               GEE_CACHE := Some (gee_cache st); OM_CACHE := OM_CACHE st;
               log := log st ++ [SaveCache GEE] |}
   | OM => {| df := df st; gee_cache := gee_cache st; om_cache := om_cache st;
              SRC_CSV := SRC_CSV st; CHECKPOINT_CSV := CHECKPOINT_CSV st;
              GEE_CACHE := GEE_CACHE st; OM_CACHE := Some (om_cache st);
              log := log st ++ [SaveCache OM] |}
   end).

(** [KeyboardInterrupt] is raised where the world says the user interrupts. *)
Definition check_interrupt (w : world) (src : source) (y : Z) (i : nat)
    (ph : phase) : M unit :=
  if interrupt w src y i ph then raise KeyboardInterrupt else mret ().

(** [for x in l: body(x)] *)
Fixpoint for_each {A} (body : A → M unit) (l : list A) : M unit :=
  match l with
  | [] => mret ()
  | x :: rest => body x ≫= λ _, for_each body rest
  end.

(** The status the operating system sees: 0 when [main] returns, the argument
    of [sys.exit], 1 for an uncaught exception, and 130 for an uncaught
    [KeyboardInterrupt] (the interpreter dies from SIGINT). *)
Definition exit_status {A} (r : outcome A) : Z :=
  match r with
  | Done _ => 0
  | Stop (SysExit code) => code
  | Stop (Uncaught KeyboardInterrupt) => 130
  | Stop (Uncaught _) => 1
  end.

(** [load_or_create_checkpoint] *)
Definition load_or_create_checkpoint (c : Config) : M unit :=
  st ← get_state;
  match CHECKPOINT_CSV st with
  | None =>
      let add col (r : row) :=
        match cols r !! col with
        | Some _ => r
        | None => set_col col PNone r
        end in
      set_df ((λ r, add (PRECIP_COL c) (add (TEMP_COL c) (add (NDVI_COL c) r)))
                <$> SRC_CSV st) ≫= λ _,
      save_checkpoint
  | Some table => set_df table
  end.

(** [load_or_create_cache] followed by the binding of its result in [main]. *)
Definition load_or_create_cache (src : source) : M unit :=
  st ← get_state;
  match (match src with GEE => GEE_CACHE st | OM => OM_CACHE st end) with
  | None => set_cache src ∅ ≫= λ _, save_cache src
  | Some file => set_cache src file
  end.

(** ** The serial variant ([covariate_fetcher_serial.py]) *)

Module Serial.

(** ["429" in str(e) or "quota" in str(e).lower()] *)
Definition is_rate_limit (msg : string) : bool :=
  contains "429" msg || contains "quota" (lower msg).

Section Fetchers.
Context (c : Config) (w : world).

(** The retry loop of [fetch_ndvi], from attempt [attempt] with
    [remaining] iterations left. Falling off the loop returns [None]. *)
Fixpoint fetch_ndvi_loop (lat lon : float) (y : Z)
    (remaining attempt : nat) (delay : Z) : list event * option Q :=
  match remaining with
  | O => ([], None)
  | S remaining' =>
      let req := Request GEE y lat lon in
      match gee w y lat lon attempt with
      | GeeNoImages => ([req], None)
      | GeeReduced None => ([req], None)
      | GeeReduced (Some ndvi_mean) => ([req], Some (ndvi_mean / 10000)%Q)
      | GeeRaises msg =>
          if is_rate_limit msg then
            let '(evs, r) :=
              fetch_ndvi_loop lat lon y remaining' (S attempt) (delay * 2) in
            (req :: Sleep delay :: evs, r)
          else if (attempt =? max_retries - 1)%nat then ([req], None)
          else
            let '(evs, r) :=
              fetch_ndvi_loop lat lon y remaining' (S attempt) delay in
            (req :: evs, r)
      end
  end.

Definition fetch_ndvi (lat lon : float) (y : Z) : list event * option Q :=
  fetch_ndvi_loop lat lon y max_retries 0 10.

(** The [try] body of [fetch_temp_precip]. *)
Definition fetch_temp_precip_body (reply : om_reply)
    : res (option Q * option Q) :=
  match reply with
  | OmStatus429 => Raise (RuntimeError "Open-Meteo rate limit hit")
  | OmRaises msg => Raise (BackendError msg)
  | OmJson js => aggregates js
  end.

(** [fetch_temp_precip]: one request, and [(None, None)] on any
    exception. *)
Definition fetch_temp_precip (lat lon : float) (y : Z)
    : list event * (option Q * option Q) :=
  ([Request OM y lat lon],
   match fetch_temp_precip_body (om w y lat lon 0) with
   | Ok r => r
   | Raise e => (None, None)
   end).

(** The body of the loop over a batch in [process_ndvi]. *)
Definition ndvi_step (y : Z) (i : nat) (pt : cell) : M unit :=
  let cache_key := cache_key w y pt in
  let mask := mask GEE y pt in
  st ← get_state;
  match gee_cache st !! cache_key with
  | Some cached => set_df (loc_set mask (NDVI_COL c) cached (df st))
  | None =>
      check_interrupt w GEE y i PhDispatch ≫= λ _,
      let '(evs, ndvi) := fetch_ndvi pt.1 pt.2 y in
      emit evs ≫= λ _,
      set_cache GEE (<[cache_key := of_opt ndvi]> (gee_cache st)) ≫= λ _,
      set_df (loc_set mask (NDVI_COL c) (of_opt ndvi) (df st))
  end.

(** The body of the loop over a batch in [process_temp_precip]. *)
Definition temp_precip_step (y : Z) (i : nat) (pt : cell) : M unit :=
  let cache_key := cache_key w y pt in
  let mask := mask OM y pt in
  st ← get_state;
  match om_cache st !! cache_key with
  | Some cached =>
      '(temp, precip) ← lift (unpack2 cached);
      set_df (loc_set mask (PRECIP_COL c) precip
                (loc_set mask (TEMP_COL c) temp (df st)))
  | None =>
      check_interrupt w OM y i PhDispatch ≫= λ _,
      let '(evs, (temp, precip)) := fetch_temp_precip pt.1 pt.2 y in
      emit evs ≫= λ _,
      set_cache OM (<[cache_key := PList [of_opt temp; of_opt precip]]>
                      (om_cache st)) ≫= λ _,
      set_df (loc_set mask (PRECIP_COL c) (of_opt precip)
                (loc_set mask (TEMP_COL c) (of_opt temp) (df st)))
  end.

(** One batch: its points in turn, then the two writes and the pause. *)
Definition batch (src : source) (step : Z → nat → cell → M unit)
    (pause : Z) (y : Z) (b : nat * list cell) : M unit :=
  check_interrupt w src y b.1 PhLookup ≫= λ _,
  for_each (step y b.1) b.2 ≫= λ _,
  check_interrupt w src y b.1 PhPersist ≫= λ _,
  save_checkpoint ≫= λ _,
  save_cache src ≫= λ _,
  sleep pause.

(** The shape shared by [process_ndvi] and [process_temp_precip]. *)
Definition process (src : source) (step : Z → nat → cell → M unit)
    (pause : Z) : M unit :=
  st ← get_state;
  table ← lift (assign_cells src c (df st));
  set_df table ≫= λ _,
  for_each (λ y, for_each (batch src step pause y)
                   (batches 50 (unique_points w src table y)))
           (years_desc table).

Definition process_ndvi : M unit := process GEE ndvi_step 2.

Definition process_temp_precip : M unit := process OM temp_precip_step 1.

Definition main : M unit :=
  load_or_create_checkpoint c ≫= λ _,
  load_or_create_cache GEE ≫= λ _,
  load_or_create_cache OM ≫= λ _,
  process_ndvi ≫= λ _,
  process_temp_precip ≫= λ _,
  save_checkpoint.

End Fetchers.

End Serial.

(** ** The threaded variant ([covariate_fetcher_threaded.py]) *)

Module Threaded.

(** ["429" in msg or "quota" in msg.lower() or "rate" in msg.lower()] *)
Definition is_rate_limit (msg : string) : bool :=
  contains "429" msg || contains "quota" (lower msg)
  || contains "rate" (lower msg).

Definition GEE_BATCH_SIZE : nat := 200.
Definition OM_BATCH_SIZE : nat := 100.

Section Fetchers.
Context (c : Config) (w : world).

(** The retry loop of [fetch_ndvi_single]. The function returns a [dict],
    raises [RuntimeError("GEE_RATE_LIMIT")], or falls off the loop and
    returns [None]. *)
Fixpoint fetch_ndvi_single_loop (lat lon : float) (y : Z)
    (remaining attempt : nat) (delay : Z) : list event * res pyval :=
  match remaining with
  | O => ([], Ok PNone)
  | S remaining' =>
      let req := Request GEE y lat lon in
      match gee w y lat lon attempt with
      | GeeNoImages => ([req], Ok (PDict [(NDVI_COL c, PNone)]))
      | GeeReduced None => ([req], Ok (PDict [(NDVI_COL c, PNone)]))
      | GeeReduced (Some ndvi_mean) =>
          ([req], Ok (PDict [(NDVI_COL c, PNum (ndvi_mean / 10000)%Q)]))
      | GeeRaises msg =>
          if is_rate_limit msg then
            if (attempt <? max_retries - 1)%nat then
              let '(evs, r) :=
                fetch_ndvi_single_loop lat lon y remaining' (S attempt)
                  (delay * 2) in
              (req :: Sleep delay :: evs, r)
            else ([req], Raise (RuntimeError "GEE_RATE_LIMIT"))
          else if (attempt =? max_retries - 1)%nat then
            ([req], Ok (PDict [(NDVI_COL c, PNone)]))
          else
            let '(evs, r) :=
              fetch_ndvi_single_loop lat lon y remaining' (S attempt) delay in
            (req :: evs, r)
      end
  end.

Definition fetch_ndvi_single (lat lon : float) (y : Z)
    : list event * res pyval :=
  fetch_ndvi_single_loop lat lon y max_retries 0 10.

(** What one iteration of [fetch_temp_precip_single] does after a
    response that is not a 429: the [try] body up to its [return]. *)
Definition fetch_temp_precip_body (reply : om_reply)
    : res (option Q * option Q) :=
  match reply with
  | OmStatus429 => Raise (RuntimeError "OM_RATE_LIMIT")
  | OmRaises msg => Raise (BackendError msg)
  | OmJson js => aggregates js
  end.

Definition absent_temp_precip : pyval :=
  PDict [(TEMP_COL c, PNone); (PRECIP_COL c, PNone)].

(** The retry loop of [fetch_temp_precip_single]. *)
Fixpoint fetch_temp_precip_single_loop (lat lon : float) (y : Z)
    (remaining attempt : nat) : list event * res pyval :=
  match remaining with
  | O => ([], Ok PNone)
  | S remaining' =>
      let req := Request OM y lat lon in
      match om w y lat lon attempt with
      | OmStatus429 =>
          if (attempt <? max_retries - 1)%nat then
            let '(evs, r) :=
              fetch_temp_precip_single_loop lat lon y remaining' (S attempt) in
            (req :: Sleep (10 * 2 ^ Z.of_nat attempt) :: evs, r)
          else ([req], Raise (RuntimeError "OM_RATE_LIMIT"))
      | reply =>
          match fetch_temp_precip_body reply with
          | Ok (temp_mean, precip_sum) =>
              ([req], Ok (PDict [(TEMP_COL c, of_opt temp_mean);
                                 (PRECIP_COL c, of_opt precip_sum)]))
          | Raise e =>
              if is_RuntimeError e then ([req], Raise e)
              else if (attempt =? max_retries - 1)%nat then
                ([req], Ok absent_temp_precip)
              else
                let '(evs, r) :=
                  fetch_temp_precip_single_loop lat lon y remaining'
                    (S attempt) in
                (req :: Sleep 5 :: evs, r)
          end
      end
  end.

Definition fetch_temp_precip_single (lat lon : float) (y : Z)
    : list event * res pyval :=
  fetch_temp_precip_single_loop lat lon y max_retries 0.

(** What distinguishes the two pipelines of this variant. *)
Record pipeline := {
  p_src : source;
  p_batch_size : nat;
  p_fetch : float → float → Z → list event * res pyval;
  p_marker : string;
  p_absent : pyval;
  p_pause : Z
}.

Definition ndvi_pipeline : pipeline := {|
  p_src := GEE;
  p_batch_size := GEE_BATCH_SIZE;
  p_fetch := fetch_ndvi_single;
  p_marker := "GEE_RATE_LIMIT";
  p_absent := PDict [(NDVI_COL c, PNone)];
  p_pause := 2
|}.

Definition temp_precip_pipeline : pipeline := {|
  p_src := OM;
  p_batch_size := OM_BATCH_SIZE;
  p_fetch := fetch_temp_precip_single;
  p_marker := "OM_RATE_LIMIT";
  p_absent := absent_temp_precip;
  p_pause := 1
|}.

Section Pipeline.
Context (p : pipeline).

(** "Check cache first": one point of the batch. The points to fetch
    are accumulated in [to_fetch]. *)
Definition lookup_step (y : Z) (to_fetch : list cell) (pt : cell)
    : M (list cell) :=
  let cache_key := cache_key w y pt in
  st ← get_state;
  match cache_of (p_src p) st !! cache_key with
  | Some vals =>
      kvs ← lift (items vals);
      set_df (loc_set_items (mask (p_src p) y pt) kvs (df st)) ≫= λ _,
      mret to_fetch
  | None => mret (to_fetch ++ [pt])
  end.

Fixpoint lookup_all (y : Z) (to_fetch : list cell) (pts : list cell)
    : M (list cell) :=
  match pts with
  | [] => mret to_fetch
  | pt :: rest =>
      lookup_step y to_fetch pt ≫= λ to_fetch', lookup_all y to_fetch' rest
  end.

(** The submitted calls: every point of [to_fetch] is fetched. *)
Definition submit_all (y : Z) (to_fetch : list cell)
    : list event * list (cell * res pyval) :=
  foldr (λ pt acc,
           let '(evs, r) := p_fetch p pt.1 pt.2 y in
           (evs ++ acc.1, (pt, r) :: acc.2))
        ([], []) to_fetch.

(** [new_data[(year, lat, lon)] = vals] on a [dict] in insertion
    order. *)
Fixpoint dict_set (k : cell) (v : pyval) (d : list (cell * pyval))
    : list (cell * pyval) :=
  match d with
  | [] => [(k, v)]
  | (k', v') :: rest =>
      if cell_eqb k' k then (k', v) :: rest
      else (k', v') :: dict_set k v rest
  end.

(** The two writes and [sys.exit(code)] of the abort handlers. *)
Definition flush_and_exit {A} (code : Z) : M A :=
  save_checkpoint ≫= λ _,
  save_cache (p_src p) ≫= λ _,
  sys_exit code.

(** The loop over [as_completed(futures)], inside the [try] whose
    handler turns a [KeyboardInterrupt] into a flush and
    [sys.exit(0)]. *)
Fixpoint collect (new_data : list (cell * pyval))
    (done : list (cell * res pyval)) : M (list (cell * pyval)) :=
  match done with
  | [] => mret new_data
  | (pt, Ok vals) :: rest => collect (dict_set pt vals new_data) rest
  | (pt, Raise e) :: rest =>
      if is_RuntimeError e then
        if contains (p_marker p) (exn_str e) then flush_and_exit 1
        else collect new_data rest
      else if is_Exception e then
        collect (dict_set pt (p_absent p) new_data) rest
      else flush_and_exit 0
  end.

(** "Write results to dataframe and cache": one entry of [new_data]. *)
Definition merge_step (y : Z) (entry : cell * pyval) : M unit :=
  let cache_key := cache_key w y entry.1 in
  st ← get_state;
  set_cache (p_src p)
    (<[cache_key := entry.2]> (cache_of (p_src p) st)) ≫= λ _,
  kvs ← lift (items entry.2);
  set_df (loc_set_items (mask (p_src p) y entry.1) kvs (df st)).

(** The rest of a batch once the lookups have left [to_fetch]: the
    parallel fetch inside its [try], the merge, the two writes and the
    pause. All submitted calls run before an abort handler does, since
    leaving the [with] block waits for them. *)
Definition dispatch (y : Z) (i : nat) (to_fetch : list cell) : M unit :=
  let '(evs, results) := submit_all y to_fetch in
  emit evs ≫= λ _,
  new_data ←
    (if interrupt w (p_src p) y i PhDispatch
     then flush_and_exit 0
     else collect [] (as_completed w results));
  for_each (merge_step y) new_data ≫= λ _,
  check_interrupt w (p_src p) y i PhPersist ≫= λ _,
  save_checkpoint ≫= λ _,
  save_cache (p_src p) ≫= λ _,
  sleep (p_pause p).

(** One batch; [if not to_fetch: continue] skips the writes. *)
Definition batch (y : Z) (b : nat * list cell) : M unit :=
  check_interrupt w (p_src p) y b.1 PhLookup ≫= λ _,
  to_fetch ← lookup_all y [] b.2;
  match to_fetch with
  | [] => mret ()
  | _ :: _ => dispatch y b.1 to_fetch
  end.

Definition process : M unit :=
  st ← get_state;
  table ← lift (assign_cells (p_src p) c (df st));
  set_df table ≫= λ _,
  for_each (λ y, for_each (batch y)
                   (batches (p_batch_size p)
                      (unique_points w (p_src p) table y)))
           (years_desc table).

End Pipeline.

Definition process_ndvi : M unit := process ndvi_pipeline.

Definition process_temp_precip : M unit := process temp_precip_pipeline.

Definition main : M unit :=
  load_or_create_checkpoint c ≫= λ _,
  load_or_create_cache GEE ≫= λ _,
  load_or_create_cache OM ≫= λ _,
  process_ndvi ≫= λ _,
  process_temp_precip ≫= λ _,
  save_checkpoint.

End Fetchers.

End Threaded.

(** * Definitions used by the statements *)

(** ** The quantizer on a range of grid indices *)

(** The resolutions in degrees that the grid sizes named in the source
    (11, 25 and 50 km) give to either backend. *)
Definition checked_degrees : list float :=
  [(11 / 111)%float; (25 / 111)%float; (50 / 111)%float].

Definition named_grid_size (c : Config) : Prop :=
  GRID_SIZE_KM c = 11%float ∨ GRID_SIZE_KM c = 25%float ∨ GRID_SIZE_KM c = 50%float.

(** ** Floats as rationals, and the range of the quantizer *)

(** The float that [binary_round_aux] makes of a rounded mantissa and its
    exponent: a zero, a finite number, or an infinity once the exponent
    passes the largest one. *)
Definition rounded (s : bool) (m e : Z) : spec_float :=
  match m with
  | Z0 => S754_zero s
  | Zpos p => if e <=? 971 then S754_finite s p e else S754_infinity s
  | Zneg _ => S754_nan
  end.

(** A finite float as [Prim2SF] returns it: the mantissa is below [2 ^ 53],
    and at least [2 ^ 52] unless the exponent is the least one. *)
Definition canonical (m : positive) (e : Z) : Prop :=
  Z.pos m < 2 ^ 53 ∧ -1074 ≤ e ≤ 971 ∧ (2 ^ 52 ≤ Z.pos m ∨ e = -1074).

(** The magnitude of a float, as a rational. *)
Definition SFmag (f : spec_float) : Q :=
  match f with
  | S754_finite _ m e => (inject_Z (Z.pos m) * 2 ^ e)%Q
  | _ => 0%Q
  end.

(** The magnitude that [py_round] returns for a finite float. *)
Definition round_mag (m : positive) (e : Z) : Z :=
  if 0 <=? e then Z.pos m * 2 ^ e
  else round_half_even (Z.pos m) (2 ^ (- e)).

(** Coordinates in degrees: latitudes (at most 90 in magnitude) and
    longitudes (at most 180, or up to 360 when counted eastwards only) are
    floats of magnitude at most 360. *)
Definition in_degrees (x : float) : Prop := (abs x <=? 360)%float = true.

(** A resolution in degrees as [Config] can give it: positive, and at
    least [2 ^ -9] degrees. The finest one, of 0.25 km, is about 0.00225
    degrees. *)
Definition fine_enough (d : float) : Prop :=
  ∃ m e, Prim2SF d = S754_finite false m e ∧ -61 ≤ e.

(** ** Spec side of the temperature aggregate *)

(** The midpoint of day [i], when both its maximum and its minimum are
    present. *)
Definition day_midpoint (js : daily) (i : nat) : option Q :=
  match get_or_empty (temperature_2m_max js) !! i,
        get_or_empty (temperature_2m_min js) !! i with
  | Some (Some a), Some (Some b) => Some ((a + b) / 2)%Q
  | _, _ => None
  end.

Definition n_days (js : daily) : nat :=
  length (get_or_empty (temperature_2m_max js))
  `max` length (get_or_empty (temperature_2m_min js)).

(** The midpoints of the days that have one, in day order. *)
Definition spec_midpoints (js : daily) : list Q :=
  omap (day_midpoint js) (seq 0 (n_days js)).

(** Their arithmetic mean, absent when there is no such day. *)
Definition spec_temp_mean (js : daily) : option Q :=
  match spec_midpoints js with
  | [] => None
  | m :: ms =>
      Some (sum_list (m :: ms) / inject_Z (Z.of_nat (length (m :: ms))))%Q
  end.

(** The filter of [temps] on a zipped pair, and [day_midpoint] on two bare
    series. *)
Definition midpoint_of (ab : option Q * option Q) : option Q :=
  match ab with
  | (Some a, Some b) => Some ((a + b) / 2)%Q
  | _ => None
  end.

Definition midpoint_at (l1 l2 : list (option Q)) (i : nat) : option Q :=
  match l1 !! i, l2 !! i with
  | Some (Some a), Some (Some b) => Some ((a + b) / 2)%Q
  | _, _ => None
  end.

(** ** Relations between the states of a run *)

Definition cache_file (src : source) (st : state) : option (gmap string pyval) :=
  match src with GEE => GEE_CACHE st | OM => OM_CACHE st end.

(** Every request of [evs] to backend [src] is for a key that [cache] does
    not hold. *)
Definition fresh_requests (src : source) (w : world)
    (cache : gmap string pyval) (evs : list event) : Prop :=
  ∀ y lat lon, Request src y lat lon ∈ evs →
               cache !! cache_key w y (lat, lon) = None.

(** From [st] to [st'] the cache of [src] only gained entries, its file (when
    it held a part of the cache) only gained entries, and the requests made
    in between were for keys that the cache did not hold. *)
Record grows (src : source) (w : world) (st st' : state) : Prop := {
  grows_cache : cache_of src st ⊆ cache_of src st';
  grows_file : ∀ f, cache_file src st = Some f → f ⊆ cache_of src st →
               ∃ f', cache_file src st' = Some f' ∧ f ⊆ f' ∧
                     f' ⊆ cache_of src st';
  grows_log : ∃ evs, log st' = log st ++ evs ∧
                     fresh_requests src w (cache_of src st) evs
}.

(** From the cache file [f] that a run of [main] finds to the one it leaves. *)
Definition file_grows (src : source) (w : world) (f : gmap string pyval)
    (st st' : state) : Prop :=
  (∃ f', cache_file src st' = Some f' ∧ f ⊆ f') ∧
  ∃ evs, log st' = log st ++ evs ∧ fresh_requests src w f evs.

(** Only the table differs. *)
Definition same_store (st st' : state) : Prop :=
  gee_cache st' = gee_cache st ∧ om_cache st' = om_cache st ∧
  GEE_CACHE st' = GEE_CACHE st ∧ OM_CACHE st' = OM_CACHE st ∧
  log st' = log st.

(** Every entry of the cache of [src] in [st'] was there in [st] or
    satisfies [P]. *)
Definition new_entries (P : pyval → Prop) (src : source) (st st' : state)
    : Prop :=
  ∀ k v, cache_of src st' !! k = Some v → cache_of src st !! k = Some v ∨ P v.

(** The three formats of a cache entry. *)
Definition is_scalar (v : pyval) : Prop := ∃ x, v = of_opt x.
Definition is_pair (v : pyval) : Prop := ∃ t p, v = PList [of_opt t; of_opt p].
Definition is_dict (v : pyval) : Prop := ∃ d, v = PDict d.

(** Every run of [m] relates its initial and final state by [R], however it
    ends. *)
Definition preserves {A} (R : state → state → Prop) (m : M A) : Prop :=
  ∀ st r st', m st = (r, st') → R st st'.

(** [m] never ends by [sys.exit]. *)
Definition never_exits {A} (m : M A) : Prop :=
  ∀ st s st', m st = (Stop s, st') → ∀ code, s ≠ SysExit code.

(** The state after [emit evs], and after the two writes of an abort
    handler. *)
Definition logged (evs : list event) (st : state) : state := (emit evs st).2.

Definition flushed (src : source) (st : state) : state :=
  (save_cache src (save_checkpoint st).2).2.

(** ** Fetchers and backends *)

(** The events of one fetch: requests for that point, and sleeps. *)
Definition only_requests (src : source) (y : Z) (pt : cell)
    (evs : list event) : Prop :=
  ∀ ev, ev ∈ evs → ev = Request src y pt.1 pt.2 ∨ ∃ secs, ev = Sleep secs.

(** What [Threaded.process] relies on in a pipeline's fetcher: it logs
    requests for its own point only, what it returns is a [dict], and what it
    raises is an [Exception]. *)
Record well_behaved (p : Threaded.pipeline) : Prop := {
  wb_events : ∀ lat lon y,
    only_requests (Threaded.p_src p) y (lat, lon) (Threaded.p_fetch p lat lon y).1;
  wb_returns : ∀ lat lon y v,
    (Threaded.p_fetch p lat lon y).2 = Ok v → ∃ d, v = PDict d;
  wb_raises : ∀ lat lon y e,
    (Threaded.p_fetch p lat lon y).2 = Raise e → is_Exception e = true;
  wb_absent : ∃ d, Threaded.p_absent p = PDict d
}.

(** What the two threaded fetchers return or raise. *)
Definition ndvi_result (c : Config) (r : res pyval) : Prop :=
  (∃ x, r = Ok (PDict [(NDVI_COL c, x)])) ∨
  r = Raise (RuntimeError "GEE_RATE_LIMIT").

Definition temp_precip_result (c : Config) (r : res pyval) : Prop :=
  (∃ t p, r = Ok (PDict [(TEMP_COL c, t); (PRECIP_COL c, p)])) ∨
  r = Raise (RuntimeError "OM_RATE_LIMIT").

(** The two pipelines of the threaded variant. *)
Definition is_pipeline (c : Config) (w : world) (p : Threaded.pipeline) : Prop :=
  p = Threaded.ndvi_pipeline c w ∨ p = Threaded.temp_precip_pipeline c w.

(** [as_completed] yields the submitted futures, each once, in some order. *)
Definition completes_submitted (w : world) : Prop :=
  ∀ l, as_completed w l ≡ₚ l.

(** Every attempt for the point meets a rate-limit signal, one that both
    variants recognise. *)
Definition gee_rate_limited (w : world) (y : Z) (pt : cell) : Prop :=
  ∀ attempt, (attempt < max_retries)%nat →
    ∃ msg, gee w y pt.1 pt.2 attempt = GeeRaises msg ∧
           Serial.is_rate_limit msg = true.

Definition om_rate_limited (w : world) (y : Z) (pt : cell) : Prop :=
  ∀ attempt, (attempt < max_retries)%nat →
    om w y pt.1 pt.2 attempt = OmStatus429.

Definition rate_limited (w : world) (src : source) (y : Z) (pt : cell) : Prop :=
  match src with
  | GEE => gee_rate_limited w y pt
  | OM => om_rate_limited w y pt
  end.

(** Every attempt for the point meets an error that is no rate-limit
    signal. *)
Definition gee_failing (w : world) (y : Z) (pt : cell) : Prop :=
  ∀ attempt, (attempt < max_retries)%nat →
    ∃ msg, gee w y pt.1 pt.2 attempt = GeeRaises msg ∧
           Serial.is_rate_limit msg = false ∧
           Threaded.is_rate_limit msg = false.

Definition om_failing (w : world) (y : Z) (pt : cell) : Prop :=
  ∀ attempt, (attempt < max_retries)%nat →
    ∃ msg, om w y pt.1 pt.2 attempt = OmRaises msg.

(** ** Sample inputs *)

(** A printer of floats for the examples: sign, mantissa and exponent. It
    stands for Python's [repr], which the development leaves open. *)
Definition sample_repr (x : float) : string :=
  match Prim2SF x with
  | S754_zero s => if s then "-0.0" else "0.0"
  | S754_infinity s => if s then "-inf" else "inf"
  | S754_nan => "nan"
  | S754_finite s m e =>
      (if s then "-" else "") +:+ pretty (Z.pos m) +:+ "p" +:+ pretty e
  end.

(** A world whose backends answer by the attempt number alone, whose sets
    and futures keep their order, and where the user interrupts at the given
    phases. *)
Definition sample_world (gee_reply : nat → gee_reply)
    (om_reply : nat → om_reply) (interrupted : phase → bool) : world := {|
  repr_float := sample_repr;
  gee := λ _ _ _ attempt, gee_reply attempt;
  om := λ _ _ _ attempt, om_reply attempt;
  list_of_set := id;
  as_completed := id;
  interrupt := λ _ _ _ ph, interrupted ph
|}.

(** The body of the spec's climate scenario, with the given precipitation
    series. *)
Definition scenario_daily (precip : option (list (option Q))) : daily := {|
  temperature_2m_max := Some [Some 20; Some 22]%Q;
  temperature_2m_min := Some [Some 10; Some 12]%Q;
  precipitation_sum := precip
|}.

(** Both backends answer every attempt with a value. *)
Definition healthy_world : world :=
  sample_world (λ _, GeeReduced (Some 5000%Q))
    (λ _, OmJson (scenario_daily (Some [Some 5; Some 0]%Q)))
    (λ _, false).

(** Both backends answer every attempt with a rate-limit signal. *)
Definition quota_world : world :=
  sample_world (λ _, GeeRaises "Quota exceeded") (λ _, OmStatus429) (λ _, false).

(** Earth Engine times out on every attempt; Open-Meteo times out on the
    first attempt and would answer the second. *)
Definition timeout_world : world :=
  sample_world (λ _, GeeRaises "Connection timed out")
    (λ attempt, match attempt with
                | O => OmRaises "Connection timed out"
                | S _ => OmJson (scenario_daily (Some [Some 5; Some 0]%Q))
                end)
    (λ _, false).

(** Both backends time out on every attempt. *)
Definition failing_world : world :=
  sample_world (λ _, GeeRaises "Connection timed out")
    (λ _, OmRaises "Connection timed out") (λ _, false).

(** Open-Meteo answers with a precipitation series that misses a day. *)
Definition missing_day_world : world :=
  sample_world (λ _, GeeNoImages)
    (λ _, OmJson (scenario_daily (Some [Some 5%Q; None]))) (λ _, false).

(** The user interrupts at every point, or during the dispatch only. *)
Definition interrupted_world : world :=
  sample_world (gee healthy_world 0 0 0) (om healthy_world 0 0 0) (λ _, true).

Definition dispatch_interrupted_world : world :=
  sample_world (gee healthy_world 0 0 0) (om healthy_world 0 0 0)
    (λ ph, match ph with PhDispatch => true | _ => false end).

(** The row of the spec's quantization scenario, and its cell at 25 km. *)
Definition los_angeles : row := {|
  lat_center := 34.05; lon_center := -118.25; year := 2020;
  gee_cell := None; om_cell := None; cols := ∅
|}.

Definition la_cell : cell := (34.009009009009013, -118.24324324324324)%float.


(** The state before a first run over the given source table. *)
Definition first_run (rows : list row) : state := {|
  df := []; gee_cache := ∅; om_cache := ∅; SRC_CSV := rows;
  CHECKPOINT_CSV := None; GEE_CACHE := None; OM_CACHE := None; log := []
|}.

(** A table whose cells are assigned and whose caches are empty. *)
Definition cold_state : state := {|
  df := [set_row_cell OM la_cell (set_row_cell GEE la_cell los_angeles)];
  gee_cache := ∅; om_cache := ∅; SRC_CSV := [los_angeles];
  CHECKPOINT_CSV := None; GEE_CACHE := Some ∅; OM_CACHE := Some ∅; log := []
|}.

(** A state whose NDVI cache and cache file hold the cell of [los_angeles]
    with the given entry. *)
Definition warm_state (cached : pyval) : state := {|
  df := [set_row_cell GEE la_cell los_angeles];
  gee_cache := {[ cache_key healthy_world 2020 la_cell := cached ]};
  om_cache := ∅; SRC_CSV := [los_angeles]; CHECKPOINT_CSV := None;
  GEE_CACHE := Some {[ cache_key healthy_world 2020 la_cell := cached ]};
  OM_CACHE := Some ∅; log := []
|}.

(** ** Statements about runs that stop *)

(** [m] run from [st] raises [ValueError] or [OverflowError] to the top and
    leaves the state as it was. *)
Definition aborts_on_rounding (m : M unit) (st : state) : Prop :=
  ∃ e, (e = ValueError ∨ e = OverflowError) ∧ m st = (Stop (Uncaught e), st).

(** A table of one record with a missing latitude, as [read_csv] delivers
    it. *)
Definition missing_latitude_state : state := {|
  df := [{| lat_center := nan; lon_center := -118.25; year := 2020;
            gee_cell := None; om_cell := None; cols := ∅ |}];
  gee_cache := ∅; om_cache := ∅; SRC_CSV := []; CHECKPOINT_CSV := None;
  GEE_CACHE := Some ∅; OM_CACHE := Some ∅; log := []
|}.

(** ** Statements about the cost of a fetch *)

(** The number of backend requests in a trace, and the seconds slept. *)
Fixpoint requests (evs : list event) : nat :=
  match evs with
  | [] => 0
  | Request _ _ _ _ :: rest => S (requests rest)
  | _ :: rest => requests rest
  end.

Fixpoint slept (evs : list event) : Z :=
  match evs with
  | [] => 0
  | Sleep secs :: rest => secs + slept rest
  | _ :: rest => slept rest
  end.

(** A trace with at least one and at most [n] requests and at most [secs]
    seconds of sleep. *)
Definition costs_at_most (n : nat) (secs : Z) (evs : list event) : Prop :=
  (1 ≤ requests evs ≤ n)%nat ∧ 0 ≤ slept evs ≤ secs.

(** Earth Engine fails every attempt with a message that only the threaded
    variant takes for a rate-limit signal. *)
Definition gee_rate_lookalike (w : world) (y : Z) (lat lon : float) : Prop :=
  ∀ attempt, (attempt < max_retries)%nat →
    ∃ msg, gee w y lat lon attempt = GeeRaises msg ∧
           Serial.is_rate_limit msg = false ∧
           Threaded.is_rate_limit msg = true.

(** Earth Engine cannot build the image, on every attempt. *)
Definition generate_world : world :=
  sample_world (λ _, GeeRaises "Failed to generate image")
    (λ _, OmRaises "Connection timed out") (λ _, false).

(** ** Statements about the loops over the table *)

(** [list(set(...))] lists the elements of the set, each once, in some
    order. *)
Definition lists_the_set (w : world) : Prop :=
  ∀ l, list_of_set w l ≡ₚ l.

(** No two entries of the list are equal as Python tuples. *)
Definition pairwise_distinct (l : list cell) : Prop :=
  ∀ i j a b, i ≠ j → l !! i = Some a → l !! j = Some b → cell_eqb a b = false.

(** Each entry of the list is greater than every later one. *)
Definition strictly_descending (l : list Z) : Prop :=
  ∀ i j a b, (i < j)%nat → l !! i = Some a → l !! j = Some b → b < a.

(** ** Statements about the table *)

(** Record [r'] is record [r] with, at most, other values in the columns
    [touched] and other rounded coordinates. *)
Definition same_record (touched : string → Prop) (r r' : row) : Prop :=
  lat_center r' = lat_center r ∧ lon_center r' = lon_center r ∧
  year r' = year r ∧
  ∀ col, ¬ touched col → cols r' !! col = cols r !! col.

(** Table [table'] holds the records of [table], as many and in the same
    order. *)
Definition keeps_records (touched : string → Prop) (table table' : list row)
    : Prop :=
  Forall2 (same_record touched) table table'.

(** The three result columns. *)
Definition covariate (c : Config) (col : string) : Prop :=
  col = NDVI_COL c ∨ col = TEMP_COL c ∨ col = PRECIP_COL c.

(** The table that [load_or_create_checkpoint] starts from. *)
Definition loaded (st : state) : list row :=
  default (SRC_CSV st) (CHECKPOINT_CSV st).

(** The same, between the tables of two states. *)
Definition keeps (touched : string → Prop) (st st' : state) : Prop :=
  keeps_records touched (df st) (df st').

(** ** Statements about the files *)

(** The three files are as they were. *)
Definition same_files (st st' : state) : Prop :=
  CHECKPOINT_CSV st' = CHECKPOINT_CSV st ∧ GEE_CACHE st' = GEE_CACHE st ∧
  OM_CACHE st' = OM_CACHE st.

(** The checkpoint file holds the table and the cache file of [src] holds
    its cache. *)
Definition saved (src : source) (st : state) : Prop :=
  CHECKPOINT_CSV st = Some (df st) ∧ cache_file src st = Some (cache_of src st).

(** What a batch that completes, or exits through a handler, leaves on
    disk: the checkpoint file holds the table, the cache file of [src] holds
    its cache, and the other cache file is as it was. *)
Definition saved_at_end (src : source) (st : state) (r : outcome unit)
    (st' : state) : Prop :=
  match r with
  | Done _ | Stop (SysExit _) =>
      saved src st' ∧ ∀ s, s ≠ src → cache_file s st' = cache_file s st
  | Stop (Uncaught _) => True
  end.

(** The three files hold what is in memory. *)
Definition persisted (st : state) : Prop :=
  CHECKPOINT_CSV st = Some (df st) ∧ GEE_CACHE st = Some (gee_cache st) ∧
  OM_CACHE st = Some (om_cache st).

(** A run ends in order when [main] returns or calls [sys.exit]. *)
Definition orderly (r : outcome unit) : Prop :=
  match r with
  | Done _ | Stop (SysExit _) => True
  | Stop (Uncaught _) => False
  end.

(** The cache file of [src] holds its cache. *)
Definition in_sync (src : source) (st : state) : Prop :=
  cache_file src st = Some (cache_of src st).

(** The cache and the cache file of the other pipeline are as they were. *)
Definition other_untouched (src : source) (st st' : state) : Prop :=
  ∀ s, s ≠ src →
    cache_of s st' = cache_of s st ∧ cache_file s st' = cache_file s st.

(** ** Pre- and postconditions of a run *)

(** From a state satisfying [P], [m] returns [a] in a state satisfying
    [Q a], or stops with [s] in a state satisfying [E s]. *)
Definition triple {A} (P : state → Prop) (m : M A) (Q : A → state → Prop)
    (E : stop → state → Prop) : Prop :=
  ∀ st r st', P st → m st = (r, st') →
    match r with Done a => Q a st' | Stop s => E s st' end.

(** From a state whose cache file of [src] holds its cache, [m] keeps it so
    when it returns, leaves the checkpoint and the cache saved when it
    exits, and in any case leaves the other pipeline's cache and file
    alone. *)
Definition ends_in_sync (src : source) (m : M unit) : Prop :=
  ∀ st r st', in_sync src st → m st = (r, st') →
    other_untouched src st st' ∧
    match r with
    | Done _ => in_sync src st'
    | Stop (SysExit _) => saved src st'
    | Stop (Uncaught _) => True
    end.

(** ** Statements about the coverage of a cache *)

(** The cache holds an entry for every unique point of every year of the
    table. *)
Definition covers (w : world) (src : source) (cache : gmap string pyval)
    (table : list row) : Prop :=
  ∀ y pt, y ∈ years_desc table → pt ∈ unique_points w src table y →
          is_Some (cache !! cache_key w y pt).

(** Since [st0] the cache of [src] has not changed and no backend has been
    asked. *)
Definition no_request_since (src : source) (st0 st : state) : Prop :=
  cache_of src st = cache_of src st0 ∧
  ∃ evs, log st = log st0 ++ evs ∧ requests evs = 0%nat.

(** Record [r'] has the coordinates, the year and the rounded coordinates of
    record [r]. *)
Definition same_place (r r' : row) : Prop :=
  lat_center r' = lat_center r ∧ lon_center r' = lon_center r ∧
  year r' = year r ∧ gee_cell r' = gee_cell r ∧ om_cell r' = om_cell r.

Definition same_places (st st' : state) : Prop :=
  Forall2 same_place (df st) (df st').

(** ** Statements about the table and the cache together *)

(** The points of a table in the order the loops visit them. *)
Definition all_points (w : world) (src : source) (table : list row)
    : list (Z * cell) :=
  y ← years_desc table; pair y <$> unique_points w src table y.

(** Every record selected by a visited point holds, in the NDVI column, what
    the assignment of the cache entry of that point leaves there. *)
Definition ndvi_agrees (c : Config) (w : world) (visited : list (Z * cell))
    (st : state) : Prop :=
  ∀ y pt r, (y, pt) ∈ visited → r ∈ df st → mask GEE y pt r = true →
    ∃ v, gee_cache st !! cache_key w y pt = Some v ∧
         cols r !! NDVI_COL c = Some (loc_value v).

(** Every entry of the cache of [src] satisfies [P]. *)
Definition entries_are (P : pyval → Prop) (src : source) (st : state) : Prop :=
  ∀ k v, cache_of src st !! k = Some v → P v.

(** No visited point selects a record that point [pt] of year [y] selects:
    it is of another year or another cell. *)
Definition apart (visited : list (Z * cell)) (y : Z) (pt : cell) : Prop :=
  ∀ y' pt', (y', pt') ∈ visited → y' ≠ y ∨ cell_eqb pt' pt = false.

(** ** Statements about what a lookup leaves in the table *)

(** Table [table'] is [table] with [v] in column [col] of every record that
    [m] selects: a selected record holds [v] there and is otherwise as it
    was, and no other record changed. *)
Definition broadcast (m : row → bool) (col : string) (v : pyval)
    (table table' : list row) : Prop :=
  Forall2 (λ r r',
             if m r
             then cols r' !! col = Some v ∧
                  same_record (λ k, k = col) r r' ∧ same_place r r'
             else r' = r)
          table table'.

(** The same for the entries of a [dict], each in the column it names. *)
Definition broadcast_all (m : row → bool) (d : list (string * pyval))
    (table table' : list row) : Prop :=
  Forall2 (λ r r',
             if m r
             then (∀ k v, (k, v) ∈ d → cols r' !! k = Some v) ∧
                  same_record (λ k, k ∈ d.*1) r r' ∧ same_place r r'
             else r' = r)
          table table'.

(** The columns of a record after the assignments of a [dict], one entry
    after the other. *)
Definition set_cols (kvs : list (string * pyval)) (r : row) : row :=
  foldl (λ r kv, set_col kv.1 (loc_value kv.2) r) r kvs.

(** An NDVI entry as the threaded variant writes it. *)
Definition threaded_entry : pyval :=
  PDict [(NDVI_COL default_config, PNum (1 / 2))].

(** The records that the two threaded fetchers return. *)
Definition is_ndvi_record (c : Config) (v : pyval) : Prop :=
  ∃ x, v = PDict [(NDVI_COL c, x)].
Definition is_climate_record (c : Config) (v : pyval) : Prop :=
  ∃ t p, v = PDict [(TEMP_COL c, t); (PRECIP_COL c, p)].

(** A point that the pipeline of [src] visits over the table of [st], and
    whose key the cache of [st] does not hold. *)
Definition uncached_point (c : Config) (w : world) (src : source)
    (st : state) (y : Z) (pt : cell) : Prop :=
  ∃ table, assign_cells src c (df st) = Ok table ∧
           y ∈ years_desc table ∧ pt ∈ unique_points w src table y ∧
           cache_of src st !! cache_key w y pt = None.

(** * Properties *)

(** ** Grid quantizer *)

Lemma check_from_sound (f : Z → bool) (k : nat) (n : Z) :
  check_from k n f = true →
  ∀ m, n ≤ m < n + Z.of_nat k → f m = true ∧ f (- m) = true.
Proof.
  revert n. induction k as [|k IH]; intros n Hc m Hm.
  - lia.
  - cbn [check_from] in Hc.
    apply andb_prop in Hc as [Hc Hrest]. apply andb_prop in Hc as [Hpos Hneg].
    destruct (decide (m = n)) as [->|Hne]; [done|].
    apply (IH (n + 1)); [done | lia].
Qed.

Lemma check_from_range (f : Z → bool) (bound : Z) :
  check_from (Z.to_nat (bound + 1)) 0 f = true →
  ∀ n, Z.abs n ≤ bound → f n = true.
Proof.
  intros Hc n Hn.
  destruct (Z.abs_spec n) as [[Hpos Habs]|[Hneg Habs]].
  - apply (check_from_sound f _ 0 Hc n). lia.
  - replace n with (- - n) by lia.
    apply (check_from_sound f _ 0 Hc (- n)). lia.
Qed.

Lemma fixed_index_checked (deg : float) (n : Z) :
  deg ∈ checked_degrees → Z.abs n ≤ GRID_INDEX_BOUND → fixed_index deg n = true.
Proof.
  intros Hdeg. revert n. apply check_from_range.
  unfold checked_degrees in Hdeg.
  repeat (apply elem_of_cons in Hdeg as [->|Hdeg]);
    [| | |by apply elem_of_nil in Hdeg];
    vm_cast_no_check (eq_refl true).
Qed.

Lemma round_to_grid_index (deg x : float) (n : Z) :
  grid_index deg x = Ok n → round_to_grid deg x = Ok (float_of_Z n * deg)%float.
Proof. unfold grid_index, round_to_grid. intros ->. reflexivity. Qed.

Lemma round_to_grid_fixed (deg : float) (n : Z) :
  fixed_index deg n = true →
  round_to_grid deg (float_of_Z n * deg)%float = Ok (float_of_Z n * deg)%float.
Proof.
  unfold fixed_index. intros H.
  destruct (grid_index deg (float_of_Z n * deg)%float) as [k|e] eqn:Hk; [|done].
  apply Z.eqb_eq in H as ->. by apply round_to_grid_index.
Qed.

Lemma named_grid_degrees (c : Config) :
  named_grid_size c →
  NDVI_RES_DEG c ∈ checked_degrees ∧ TEMP_PRECIP_RES_DEG c ∈ checked_degrees.
Proof.
  unfold NDVI_RES_DEG, TEMP_PRECIP_RES_DEG, NDVI_RES_KM, TEMP_PRECIP_RES_KM.
  intros [Hg|[Hg|Hg]]; rewrite Hg; split; vm_compute; set_solver.
Qed.

Lemma in_grid_range_compute (deg x : float) (n : Z) :
  grid_index deg x = Ok n → (Z.abs n <=? GRID_INDEX_BOUND) = true →
  in_grid_range deg x.
Proof. intros Hn Hb. exists n. split; [done | by apply Z.leb_le]. Qed.

(** The poles and the date line are well inside the range, already at the
    finest of the three resolutions. *)
Example geographic_bounds_in_range :
  grid_index (11 / 111) 90 = Ok 908 ∧ grid_index (11 / 111) (-90) = Ok (-908) ∧
  grid_index (11 / 111) 180 = Ok 1816 ∧
  grid_index (11 / 111) (-180) = Ok (-1816) ∧
  grid_index (25 / 111) 180 = Ok 799 ∧ grid_index (50 / 111) 180 = Ok 400.
Proof. repeat apply conj; vm_compute; reflexivity. Qed.

(** *** Rounding of the binary64 operations *)

Lemma digits2_pos_bounds (p : positive) :
  2 ^ (Z.pos (digits2_pos p) - 1) ≤ Z.pos p < 2 ^ Z.pos (digits2_pos p).
Proof.
  induction p as [p IH|p IH|]; cbn [digits2_pos].
  1,2: rewrite Pos2Z.inj_succ;
    replace (Z.succ (Z.pos (digits2_pos p)) - 1)
      with (Z.succ (Z.pos (digits2_pos p) - 1)) by lia;
    rewrite !Z.pow_succ_r by lia; lia.
  cbn. lia.
Qed.

Lemma pow2_pos (k : Z) : 0 ≤ k → 0 < 2 ^ k.
Proof. intros. by apply Z.pow_pos_nonneg. Qed.

Lemma pow2_le (a b : Z) : 0 ≤ a ≤ b → 2 ^ a ≤ 2 ^ b.
Proof. intros. apply Z.pow_le_mono_r; lia. Qed.

Lemma shr_1_m (mrs : shr_record) :
  0 ≤ shr_m mrs → shr_m (shr_1 mrs) = shr_m mrs / 2.
Proof.
  destruct mrs as [m r s]. cbn [shr_m]. intros Hm.
  destruct m as [|[p|p|]|p]; cbn [shr_1 shr_m]; [done| | |done|lia].
  - apply (Z.div_unique _ _ _ 1); lia.
  - apply (Z.div_unique _ _ _ 0); lia.
Qed.

Lemma iter_shr_1_m (p : positive) (mrs : shr_record) :
  0 ≤ shr_m mrs → shr_m (SpecFloat.iter_pos shr_1 p mrs) = shr_m mrs / 2 ^ Z.pos p.
Proof.
  revert mrs. induction p as [p IH|p IH|]; intros mrs Hm; cbn [SpecFloat.iter_pos].
  - assert (0 ≤ shr_m (shr_1 mrs)) as H1
      by (rewrite shr_1_m by done; apply Z.div_pos; lia).
    assert (0 ≤ shr_m (SpecFloat.iter_pos shr_1 p (shr_1 mrs))) as H2
      by (rewrite IH by done; apply Z.div_pos; [done | by apply pow2_pos]).
    rewrite IH, IH, shr_1_m by done.
    pose proof (pow2_pos (Z.pos p) ltac:(lia)).
    rewrite !Z.div_div by lia.
    f_equal.
    replace (Z.pos p~1) with (1 + Z.pos p + Z.pos p) by lia.
    rewrite !Z.pow_add_r by lia. lia.
  - assert (0 ≤ shr_m (SpecFloat.iter_pos shr_1 p mrs)) as H2
      by (rewrite IH by done; apply Z.div_pos; [done | by apply pow2_pos]).
    rewrite IH, IH by done.
    pose proof (pow2_pos (Z.pos p) ltac:(lia)).
    rewrite !Z.div_div by lia.
    f_equal.
    replace (Z.pos p~0) with (Z.pos p + Z.pos p) by lia.
    rewrite !Z.pow_add_r by lia. lia.
  - by apply shr_1_m.
Qed.

Lemma Zdigits2_bounds (m : Z) :
  0 < m → 2 ^ (Zdigits2 m - 1) ≤ m < 2 ^ Zdigits2 m ∧ 0 < Zdigits2 m.
Proof.
  destruct m as [|p|p]; [lia| |lia]. intros _. cbn [Zdigits2].
  split; [apply digits2_pos_bounds | lia].
Qed.

Lemma loc_of_shr_record_of_loc (m : Z) (l : location) :
  loc_of_shr_record (shr_record_of_loc m l) = l.
Proof. by destruct l as [|[]]. Qed.

Lemma shr_m_of_loc (m : Z) (l : location) : shr_m (shr_record_of_loc m l) = m.
Proof. by destruct l as [|[]]. Qed.

(** What [shr_fexp] leaves of a mantissa: the quotient by a power of two,
    below [2 ^ 53], and normal unless the exponent is the least one. *)
Lemma shr_fexp_spec (m e : Z) (l : location) :
  0 ≤ m → 2 ^ 52 ≤ m ∨ e ≤ -1074 →
  ∃ k, 0 ≤ k ∧ (shr_fexp prec emax m e l).2 = e + k ∧
       shr_m (shr_fexp prec emax m e l).1 = m / 2 ^ k ∧
       m / 2 ^ k < 2 ^ 53 ∧ -1074 ≤ e + k ∧
       (2 ^ 52 ≤ m / 2 ^ k ∨ e + k = -1074).
Proof.
  intros Hm Hin. unfold shr_fexp, shr.
  set (fe := fexp prec emax (Zdigits2 m + e)).
  assert (fe = Z.max (Zdigits2 m + e - 53) (-1074)) as Hfe by done.
  clearbody fe.
  assert (m = 0 ∧ Zdigits2 m = 0 ∨
          0 < m ∧ 2 ^ (Zdigits2 m - 1) ≤ m < 2 ^ Zdigits2 m ∧ 0 < Zdigits2 m)
    as Hd.
  { destruct (decide (m = 0)) as [->|]; [by left|right].
    split; [lia|]. apply Zdigits2_bounds. lia. }
  destruct (fe - e) as [|p|p] eqn:Hk.
  - exists 0. cbn [fst snd]. rewrite shr_m_of_loc, Z.div_1_r.
    split; [done|]. split; [lia|]. split; [done|].
    destruct Hd as [[-> Hd]|(Hpos & [Hlo Hhi] & Hd)]; [lia|].
    assert (Zdigits2 m ≤ 53) by lia.
    pose proof (pow2_le (Zdigits2 m) 53 ltac:(lia)). lia.
  - exists (Z.pos p). cbn [fst snd]. rewrite iter_shr_1_m, shr_m_of_loc
      by by rewrite shr_m_of_loc.
    split; [lia|]. split; [done|]. split; [done|].
    pose proof (pow2_pos (Z.pos p) ltac:(lia)) as Hp.
    destruct Hd as [[-> Hd]|(Hpos & [Hlo Hhi] & Hd)].
    { rewrite Z.div_0_l by lia. lia. }
    split; [|split; [lia|]].
    + apply Z.div_lt_upper_bound; [done|].
      rewrite <- Z.pow_add_r by lia.
      pose proof (pow2_le (Zdigits2 m) (Z.pos p + 53) ltac:(lia)). lia.
    + destruct (decide (e + Z.pos p = -1074)) as [|Hne]; [by right|left].
      assert (Z.pos p = Zdigits2 m - 53) as Hpd by lia.
      apply Z.div_le_lower_bound; [done|].
      rewrite <- Z.pow_add_r by lia.
      replace (Z.pos p + 52) with (Zdigits2 m - 1) by lia. done.
  - exists 0. cbn [fst snd]. rewrite shr_m_of_loc, Z.div_1_r.
    split; [done|]. split; [lia|]. split; [done|].
    destruct Hd as [[-> Hd]|(Hpos & [Hlo Hhi] & Hd)]; [lia|].
    assert (Zdigits2 m ≤ 53) by lia.
    pose proof (pow2_le (Zdigits2 m) 53 ltac:(lia)). lia.
Qed.

Lemma round_nearest_even_bounds (m : Z) (l : location) :
  m ≤ round_nearest_even m l ≤ m + 1.
Proof. destruct l as [|[]]; cbn; [lia| |lia|lia]. destruct (Z.even m); lia. Qed.

(** What [binary_round_aux] returns, by its mantissa [m] and the number [K]
    of bits it drops: the mantissa is within two units of the exact
    quotient, and it is normal unless the exponent is the least one. *)
Lemma binary_round_aux_spec (s : bool) (mx ex : Z) (lx : location) :
  0 ≤ mx → 2 ^ 52 ≤ mx ∨ ex ≤ -1074 →
  ∃ m K, 0 ≤ K ∧ 0 ≤ m < 2 ^ 53 ∧ -1074 ≤ ex + K ∧
         (2 ^ 52 ≤ m ∨ ex + K = -1074) ∧
         mx - 2 * 2 ^ K < m * 2 ^ K ≤ mx + 2 ^ K ∧
         binary_round_aux prec emax s mx ex lx = rounded s m (ex + K).
Proof.
  intros Hmx Hin. unfold binary_round_aux.
  destruct (shr_fexp_spec mx ex lx Hmx Hin)
    as (k1 & Hk1 & He1 & Hm1 & Hlt1 & Hge1 & Hn1).
  destruct (shr_fexp prec emax mx ex lx) as [mrs1 e1]. cbn [fst snd] in *.
  subst e1.
  set (m2 := round_nearest_even (shr_m mrs1) (loc_of_shr_record mrs1)).
  pose proof (round_nearest_even_bounds (shr_m mrs1) (loc_of_shr_record mrs1))
    as Hm2. fold m2 in Hm2. rewrite Hm1 in Hm2. clearbody m2.
  pose proof (pow2_pos k1 Hk1) as Hp1.
  assert (0 ≤ mx / 2 ^ k1) as Hq1 by (apply Z.div_pos; lia).
  destruct (shr_fexp_spec m2 (ex + k1) loc_Exact ltac:(lia) ltac:(lia))
    as (k2 & Hk2 & He2 & Hm3 & Hlt2 & Hge2 & Hn2).
  destruct (shr_fexp prec emax m2 (ex + k1) loc_Exact) as [mrs2 e2].
  cbn [fst snd] in *. subst e2.
  pose proof (pow2_pos k2 Hk2) as Hp2.
  assert (0 ≤ m2 / 2 ^ k2) as Hq2 by (apply Z.div_pos; lia).
  exists (m2 / 2 ^ k2), (k1 + k2).
  split; [lia|]. split; [lia|]. split; [lia|]. split; [lia|].
  split.
  - rewrite Z.pow_add_r by lia.
    pose proof (Z.div_mod mx (2 ^ k1) ltac:(lia)) as Hd1.
    pose proof (Z.mod_pos_bound mx (2 ^ k1) Hp1) as Hr1.
    pose proof (Z.div_mod m2 (2 ^ k2) ltac:(lia)) as Hd2.
    pose proof (Z.mod_pos_bound m2 (2 ^ k2) Hp2) as Hr2.
    set (a := 2 ^ k1) in *. set (b := 2 ^ k2) in *.
    set (q1 := mx / a) in *. set (q2 := m2 / b) in *.
    clearbody a b q1 q2. nia.
  - rewrite Hm3. replace (ex + k1 + k2) with (ex + (k1 + k2)) by lia.
    unfold rounded. by destruct (m2 / 2 ^ k2).
Qed.

Lemma bounded_canonical (m : positive) (e : Z) :
  bounded prec emax m e = true ↔ canonical m e.
Proof.
  unfold bounded, canonical_mantissa, canonical.
  rewrite andb_true_iff, Z.eqb_eq, Z.leb_le.
  change (fexp prec emax (Z.pos (digits2_pos m) + e))
    with (Z.max (Z.pos (digits2_pos m) + e - 53) (-1074)).
  change (emax - prec) with 971.
  pose proof (digits2_pos_bounds m) as [Hlo Hhi].
  split.
  - intros [Hc He].
    assert (Z.pos (digits2_pos m) ≤ 53) as Hd by lia.
    pose proof (pow2_le (Z.pos (digits2_pos m)) 53 ltac:(lia)).
    split; [lia|]. split; [lia|].
    destruct (decide (e = -1074)) as [|Hne]; [by right|left].
    assert (Z.pos (digits2_pos m) = 53) as Hd53 by lia.
    by rewrite Hd53 in Hlo.
  - intros (Hm & He & Hn). split; [|lia].
    assert (Z.pos (digits2_pos m) ≤ 53) as Hd.
    { destruct (decide (Z.pos (digits2_pos m) ≤ 53)) as [|Hgt]; [done|].
      pose proof (pow2_le 53 (Z.pos (digits2_pos m) - 1) ltac:(lia)). lia. }
    destruct Hn as [Hn| ->]; [|lia].
    assert (53 ≤ Z.pos (digits2_pos m)) as Hd'.
    { destruct (decide (53 ≤ Z.pos (digits2_pos m))) as [|Hlt]; [done|].
      pose proof (pow2_le (Z.pos (digits2_pos m)) 52 ltac:(lia)). lia. }
    lia.
Qed.

Lemma Prim2SF_canonical (x : float) (s : bool) (m : positive) (e : Z) :
  Prim2SF x = S754_finite s m e → canonical m e.
Proof.
  intros Hx. apply bounded_canonical.
  pose proof (Prim2SF_valid x) as Hv. by rewrite Hx in Hv.
Qed.

(** The product of two finite floats. *)
Lemma SFmul_spec (sa sb : bool) (ma mb : positive) (ea eb : Z) :
  canonical ma ea → canonical mb eb →
  ∃ m K, 0 ≤ K ∧ 0 ≤ m < 2 ^ 53 ∧ -1074 ≤ ea + eb + K ∧
         (2 ^ 52 ≤ m ∨ ea + eb + K = -1074) ∧
         Z.pos ma * Z.pos mb - 2 * 2 ^ K < m * 2 ^ K
           ≤ Z.pos ma * Z.pos mb + 2 ^ K ∧
         SF64mul (S754_finite sa ma ea) (S754_finite sb mb eb)
         = rounded (xorb sa sb) m (ea + eb + K).
Proof.
  intros (Ha & Hea & Hna) (Hb & Heb & Hnb).
  unfold SF64mul, SFmul. rewrite Pos2Z.inj_mul.
  apply binary_round_aux_spec; [lia|].
  destruct Hna as [Hna|Hna]; [|destruct Hnb as [Hnb|Hnb]]; [left; nia..|right; lia].
Qed.

(** The quotient of two finite floats: its integer part [q] at the exponent
    that [SFdiv_core_binary] chooses. *)
Lemma SFdiv_core_spec (ma mb : positive) (ea eb : Z) :
  canonical ma ea →
  ∃ q e l s,
    SFdiv_core_binary prec emax (Z.pos ma) ea (Z.pos mb) eb = (q, e, l) ∧
    0 ≤ s ∧ ea - eb = e + s ∧ 0 ≤ q ∧
    q * Z.pos mb ≤ Z.pos ma * 2 ^ s < (q + 1) * Z.pos mb ∧
    (2 ^ 52 ≤ q ∨ e ≤ -1074).
Proof.
  intros (Ha & Hea & Hna). unfold SFdiv_core_binary.
  cbn [Zdigits2].
  set (d1 := Z.pos (digits2_pos ma)). set (d2 := Z.pos (digits2_pos mb)).
  pose proof (digits2_pos_bounds ma) as [Hlo1 Hhi1].
  pose proof (digits2_pos_bounds mb) as [Hlo2 Hhi2].
  fold d1 in Hlo1, Hhi1. fold d2 in Hlo2, Hhi2.
  assert (0 < d1 ∧ 0 < d2) as [Hd1 Hd2] by (unfold d1, d2; lia).
  assert (d1 ≤ 53) as Hd1'.
  { destruct (decide (d1 ≤ 53)) as [|Hgt]; [done|].
    pose proof (pow2_le 53 (d1 - 1) ltac:(lia)). lia. }
  clearbody d1 d2.
  change (fexp prec emax (d1 + ea - (d2 + eb)))
    with (Z.max (d1 + ea - (d2 + eb) - 53) (-1074)).
  set (e := Z.min (Z.max (d1 + ea - (d2 + eb) - 53) (-1074)) (ea - eb)).
  set (s := ea - eb - e).
  assert (0 ≤ s) as Hs by (unfold s, e; lia).
  set (m' := match s with
             | 0 => Z.pos ma
             | Z.pos _ => Z.shiftl (Z.pos ma) s
             | Z.neg _ => 0
             end).
  assert (m' = Z.pos ma * 2 ^ s) as Hm'.
  { unfold m'. destruct s as [|p|p]; [lia| |lia].
    by rewrite Z.shiftl_mul_pow2. }
  clearbody m'.
  pose proof (Z_div_mod m' (Z.pos mb) ltac:(lia)) as Hdm.
  destruct (Z.div_eucl m' (Z.pos mb)) as [q r]. destruct Hdm as [Hq Hr].
  exists q, e, (new_location (Z.pos mb) r), s.
  pose proof (pow2_pos s Hs) as Hps.
  split; [done|]. split; [done|]. split; [unfold s; lia|].
  split; [nia|]. split; [nia|].
  destruct (decide (e ≤ -1074)) as [|Hgt]; [by right|left].
  assert (s = 53 - d1 + d2) as Hs' by (unfold s, e in *; lia).
  assert (2 ^ 52 * Z.pos mb < m') as Hbig.
  { rewrite Hm', Hs'.
    replace (53 - d1 + d2) with (52 + d2 - (d1 - 1)) by lia.
    pose proof (pow2_pos (d1 - 1) ltac:(lia)).
    pose proof (pow2_pos (52 + d2 - (d1 - 1)) ltac:(lia)).
    assert (2 ^ (d1 - 1) * 2 ^ (52 + d2 - (d1 - 1)) = 2 ^ 52 * 2 ^ d2) as Hpow.
    { rewrite <- !Z.pow_add_r by lia. f_equal. lia. }
    nia. }
  nia.
Qed.

(** The quotient of two finite floats, rounded. *)
Lemma SFdiv_spec (sa sb : bool) (ma mb : positive) (ea eb : Z) :
  canonical ma ea →
  ∃ q e s m K,
    0 ≤ s ∧ ea - eb = e + s ∧ 0 ≤ q ∧
    q * Z.pos mb ≤ Z.pos ma * 2 ^ s < (q + 1) * Z.pos mb ∧
    0 ≤ K ∧ 0 ≤ m < 2 ^ 53 ∧ -1074 ≤ e + K ∧
    (2 ^ 52 ≤ m ∨ e + K = -1074) ∧
    q - 2 * 2 ^ K < m * 2 ^ K ≤ q + 2 ^ K ∧
    SF64div (S754_finite sa ma ea) (S754_finite sb mb eb)
    = rounded (xorb sa sb) m (e + K).
Proof.
  intros Ha. unfold SF64div, SFdiv.
  destruct (SFdiv_core_spec ma mb ea eb Ha)
    as (q & e & l & s & -> & Hs & He & Hq & Hqq & Hin).
  destruct (binary_round_aux_spec (xorb sa sb) q e l Hq Hin)
    as (m & K & HK & Hm & HeK & Hn & Herr & ->).
  by exists q, e, s, m, K.
Qed.

(** *** Powers of two among the rationals *)

Lemma Qpow2_pos (e : Z) : (0 < 2 ^ e)%Q.
Proof. by apply Qpower_0_lt. Qed.

Lemma Qpow2_add (a b : Z) : (2 ^ (a + b) == 2 ^ a * 2 ^ b)%Q.
Proof. by apply Qpower_plus. Qed.

Lemma Qpow2_Z (k : Z) : 0 ≤ k → (2 ^ k == inject_Z (2 ^ k))%Q.
Proof. intros Hk. by rewrite Zpower_Qpower. Qed.

Lemma Qpow2_le (a b : Z) : a ≤ b → (2 ^ a <= 2 ^ b)%Q.
Proof. intros Hab. by apply Qpower_le_compat_l. Qed.

Lemma Qpow2_lt (a b : Z) : a < b → (2 ^ a < 2 ^ b)%Q.
Proof. intros Hab. by apply Qpower_lt_compat_l. Qed.

Lemma inject_Z_le (a b : Z) : a ≤ b → (inject_Z a <= inject_Z b)%Q.
Proof. by rewrite <- Zle_Qle. Qed.

Lemma inject_Z_lt (a b : Z) : a < b → (inject_Z a < inject_Z b)%Q.
Proof. by rewrite <- Zlt_Qlt. Qed.

(** An integer inequality between mantissas, at an exponent. *)
Lemma scaled_le (a b e : Z) :
  a ≤ b → (inject_Z a * 2 ^ e <= inject_Z b * 2 ^ e)%Q.
Proof.
  intros Hab. apply Qmult_le_compat_r; [by apply inject_Z_le|].
  apply Qlt_le_weak, Qpow2_pos.
Qed.

Lemma scaled_lt (a b e : Z) :
  a < b → (inject_Z a * 2 ^ e < inject_Z b * 2 ^ e)%Q.
Proof.
  intros Hab. apply Qmult_lt_compat_r; [apply Qpow2_pos|by apply inject_Z_lt].
Qed.

(** *** The operations, on magnitudes *)

Ltac push_inject_Z H :=
  repeat first [rewrite inject_Z_plus in H | rewrite inject_Z_mult in H].

(** The product of two finite floats is their exact product, rounded: the
    result is within three units in the last place. *)
Lemma SFmul_value (sa sb : bool) (ma mb : positive) (ea eb : Z) :
  canonical ma ea → canonical mb eb →
  ∃ m e, -1074 ≤ e ∧ 0 ≤ m < 2 ^ 53 ∧ (2 ^ 52 ≤ m ∨ e = -1074) ∧
         SF64mul (S754_finite sa ma ea) (S754_finite sb mb eb)
         = rounded (xorb sa sb) m e ∧
         (SFmag (S754_finite sa ma ea) * SFmag (S754_finite sb mb eb)
          - 3 * 2 ^ e < inject_Z m * 2 ^ e)%Q ∧
         (inject_Z m * 2 ^ e
          <= SFmag (S754_finite sa ma ea) * SFmag (S754_finite sb mb eb)
             + 2 ^ e)%Q.
Proof.
  intros Ha Hb.
  destruct (SFmul_spec sa sb ma mb ea eb Ha Hb)
    as (m & K & HK & Hm & He & Hn & [Hlo Hhi] & Hr).
  exists m, (ea + eb + K). do 4 (split; [done|]).
  cbn [SFmag].
  pose proof (Qpow2_pos (ea + eb)) as HP.
  pose proof (pow2_pos K HK) as HT.
  assert (Z.pos ma * Z.pos mb < m * 2 ^ K + (2 ^ K + 2 ^ K)) as Hlo' by lia.
  clear Hlo. apply inject_Z_lt in Hlo', HT. apply inject_Z_le in Hhi.
  push_inject_Z Hlo'. push_inject_Z Hhi.
  assert (2 ^ (ea + eb + K) == 2 ^ (ea + eb) * inject_Z (2 ^ K))%Q as ->
    by (by rewrite Qpow2_add, (Qpow2_Z K)).
  assert (2 ^ ea * 2 ^ eb == 2 ^ (ea + eb))%Q as HPe
    by (by rewrite Qpow2_add).
  set (P := (2 ^ (ea + eb))%Q) in *. set (T := inject_Z (2 ^ K)) in *.
  set (A := inject_Z (Z.pos ma)) in *. set (B := inject_Z (Z.pos mb)) in *.
  set (M := inject_Z m) in *.
  assert (A * 2 ^ ea * (B * 2 ^ eb) == A * B * P)%Q as ->
    by (rewrite <- HPe; ring).
  change (inject_Z 2) with 2%Q in *. change (inject_Z 0) with 0%Q in *.
  clearbody P T A B M. clear HPe.
  assert (A * B * P < (M * T + (T + T)) * P)%Q
    by by apply Qmult_lt_compat_r.
  assert (M * T * P <= (A * B + T) * P)%Q
    by (apply Qmult_le_compat_r; [done | by apply Qlt_le_weak]).
  assert (0 < P * T)%Q by nra.
  split; lra.
Qed.

(** The quotient of two finite floats is their exact quotient, rounded. *)
Lemma SFdiv_value (sa sb : bool) (ma mb : positive) (ea eb : Z) :
  canonical ma ea →
  ∃ m e, -1074 ≤ e ∧ 0 ≤ m < 2 ^ 53 ∧ (2 ^ 52 ≤ m ∨ e = -1074) ∧
         SF64div (S754_finite sa ma ea) (S754_finite sb mb eb)
         = rounded (xorb sa sb) m e ∧
         (SFmag (S754_finite sa ma ea)
          - 3 * 2 ^ e * SFmag (S754_finite sb mb eb)
          < inject_Z m * 2 ^ e * SFmag (S754_finite sb mb eb))%Q ∧
         (inject_Z m * 2 ^ e * SFmag (S754_finite sb mb eb)
          <= SFmag (S754_finite sa ma ea)
             + 2 ^ e * SFmag (S754_finite sb mb eb))%Q.
Proof.
  intros Ha.
  destruct (SFdiv_spec sa sb ma mb ea eb Ha)
    as (q & e & s & m & K & Hs & He & Hq & [Hq1 Hq2] & HK & Hm & HeK & Hn
        & [Hlo Hhi] & Hr).
  exists m, (e + K). do 4 (split; [done|]).
  cbn [SFmag].
  pose proof (pow2_pos K HK) as HT. pose proof (pow2_pos s Hs) as HS.
  assert (Z.pos ma * 2 ^ s
          < m * (2 ^ K * Z.pos mb)
            + (2 ^ K * Z.pos mb + (2 ^ K * Z.pos mb + 2 ^ K * Z.pos mb)))
    as Hlo' by nia.
  assert (m * (2 ^ K * Z.pos mb) ≤ Z.pos ma * 2 ^ s + 2 ^ K * Z.pos mb)
    as Hhi' by nia.
  apply inject_Z_lt in Hlo'. apply inject_Z_le in Hhi'.
  push_inject_Z Hlo'. push_inject_Z Hhi'.
  assert (2 ^ (e + K) == 2 ^ e * inject_Z (2 ^ K))%Q as ->
    by (by rewrite Qpow2_add, (Qpow2_Z K)).
  assert (2 ^ ea == inject_Z (2 ^ s) * (2 ^ e * 2 ^ eb))%Q as ->.
  { replace ea with (s + (e + eb)) by lia.
    by rewrite !Qpow2_add, (Qpow2_Z s). }
  pose proof (Qpow2_pos e) as HP1. pose proof (Qpow2_pos eb) as HP2.
  set (P := (2 ^ e)%Q) in *. set (R := (2 ^ eb)%Q) in *.
  set (T := inject_Z (2 ^ K)) in *. set (S := inject_Z (2 ^ s)) in *.
  set (A := inject_Z (Z.pos ma)) in *. set (B := inject_Z (Z.pos mb)) in *.
  set (M := inject_Z m) in *.
  clearbody P R T S A B M.
  assert (0 < P * R)%Q as HPR by nra.
  split.
  - assert (A * S * (P * R)
            < (M * (T * B) + (T * B + (T * B + T * B))) * (P * R))%Q
      by by apply Qmult_lt_compat_r.
    nra.
  - assert (M * (T * B) * (P * R) <= (A * S + T * B) * (P * R))%Q
      by (apply Qmult_le_compat_r; [done | by apply Qlt_le_weak]).
    nra.
Qed.

Lemma rounded_cases (s : bool) (m e : Z) :
  0 ≤ m →
  m = 0 ∧ rounded s m e = S754_zero s ∨
  (∃ p, m = Z.pos p ∧ e ≤ 971 ∧ rounded s m e = S754_finite s p e) ∨
  0 < m ∧ 971 < e ∧ rounded s m e = S754_infinity s.
Proof.
  intros Hm. destruct m as [|p|p]; [by left| |lia]. right. cbn [rounded].
  destruct (Z.leb_spec e 971); [left; by exists p | right; split; [lia|done]].
Qed.

(** A rounded result with a normal mantissa has a relative error below
    [2 ^ -50]. *)
Lemma rounded_relative (m e : Z) (u w : Q) :
  2 ^ 52 ≤ m → (0 < w)%Q →
  (u - 3 * 2 ^ e * w < inject_Z m * 2 ^ e * w)%Q →
  (inject_Z m * 2 ^ e * w <= u + 2 ^ e * w)%Q →
  ((1 - (1 # 4503599627370496)) * (inject_Z m * 2 ^ e * w) <= u)%Q ∧
  (u <= (1 + (3 # 4503599627370496)) * (inject_Z m * 2 ^ e * w))%Q.
Proof.
  intros Hm Hw Hlo Hhi.
  pose proof (Qpow2_pos e) as HX.
  assert (inject_Z (2 ^ 52) * 2 ^ e <= inject_Z m * 2 ^ e)%Q as Hrel
    by by apply scaled_le.
  change (inject_Z (2 ^ 52)) with (4503599627370496 # 1)%Q in Hrel.
  set (X := (2 ^ e)%Q) in *. set (M := inject_Z m) in *. clearbody X M.
  assert ((4503599627370496 # 1) * X * w <= M * X * w)%Q
    by (apply Qmult_le_compat_r; [done | by apply Qlt_le_weak]).
  split; lra.
Qed.

(** A rounded result whose exact value [u / w] is not tiny is normal. *)
Lemma rounded_is_normal (m e : Z) (u w : Q) :
  2 ^ 52 ≤ m ∨ e = -1074 → (0 < w)%Q →
  (u - 3 * 2 ^ e * w < inject_Z m * 2 ^ e * w)%Q →
  (2 ^ (-1000) * w <= u)%Q →
  2 ^ 52 ≤ m.
Proof.
  intros Hn Hw Hlo Hulo.
  destruct (decide (2 ^ 52 ≤ m)) as [|Hsmall]; [done|exfalso].
  destruct Hn as [Hn| ->]; [done|].
  assert (inject_Z (m + 3) * 2 ^ (-1074) <= inject_Z (2 ^ 53) * 2 ^ (-1074))%Q
    as H1 by (apply scaled_le; lia).
  rewrite <- (Qpow2_Z 53), <- Qpow2_add in H1 by lia.
  rewrite inject_Z_plus in H1.
  pose proof (Qpow2_lt (53 + -1074) (-1000) ltac:(lia)) as H2.
  set (X := (2 ^ (-1074))%Q) in *. set (Y := (2 ^ (53 + -1074))%Q) in *.
  set (Z' := (2 ^ (-1000))%Q) in *. set (M := inject_Z m) in *.
  change (inject_Z 3) with 3%Q in H1. clearbody X Y Z' M.
  assert ((M + 3) * X * w <= Y * w)%Q
    by (apply Qmult_le_compat_r; [done | by apply Qlt_le_weak]).
  assert (Y * w < Z' * w)%Q by by apply Qmult_lt_compat_r.
  lra.
Qed.

(** A rounded result whose exact value [u / w] is not huge is finite. *)
Lemma rounded_is_finite (m e : Z) (u w : Q) :
  2 ^ 52 ≤ m ∨ e = -1074 → (0 < w)%Q →
  (inject_Z m * 2 ^ e * w <= u + 2 ^ e * w)%Q →
  (u <= 2 ^ 1020 * w)%Q →
  e ≤ 971.
Proof.
  intros Hn Hw Hhi Huhi.
  destruct (decide (e ≤ 971)) as [|Hbig]; [done|exfalso].
  destruct Hn as [Hm|]; [|lia].
  assert (inject_Z (2 ^ 51) * 2 ^ 972 <= inject_Z (m - 1) * 2 ^ 972)%Q as H1
    by (apply scaled_le; lia).
  assert (inject_Z (m - 1) * 2 ^ 972 <= inject_Z (m - 1) * 2 ^ e)%Q as H2.
  { apply Qmult_le_l; [|apply Qpow2_le; lia].
    change 0%Q with (inject_Z 0). apply inject_Z_lt. lia. }
  rewrite <- (Qpow2_Z 51), <- Qpow2_add in H1 by lia.
  pose proof (Qpow2_lt 1020 (51 + 972) ltac:(lia)) as H3.
  replace (m - 1) with (m + -1) in H1, H2 by lia.
  rewrite inject_Z_plus in H1, H2. change (inject_Z (-1)) with (-1)%Q in *.
  set (X := (2 ^ e)%Q) in *. set (Y := (2 ^ (51 + 972))%Q) in *.
  set (Z' := (2 ^ 1020)%Q) in *. set (M := inject_Z m) in *.
  set (W := (2 ^ 972)%Q) in *.
  clearbody X Y Z' M W.
  assert (Y * w <= (M + -1) * X * w)%Q
    by (apply Qmult_le_compat_r; [lra | by apply Qlt_le_weak]).
  assert (Z' * w < Y * w)%Q by by apply Qmult_lt_compat_r.
  lra.
Qed.

(** *** Python's [round] and the conversion of an [int], on magnitudes *)

Lemma round_half_even_near (m d n : Z) :
  0 < d → 2 * n * d - d < 2 * m < 2 * n * d + d → round_half_even m d = n.
Proof.
  intros Hd Hn. unfold round_half_even.
  pose proof (Z.div_mod m d ltac:(lia)) as Hdm.
  pose proof (Z.mod_pos_bound m d Hd) as Hr.
  set (q := m / d) in *. set (r := m mod d) in *. clearbody q r.
  assert (q = n ∨ q = n - 1) as [->| ->] by nia.
  - destruct (Z.ltb_spec (2 * r) d); [done|]. nia.
  - destruct (Z.ltb_spec (2 * r) d); [nia|].
    destruct (Z.ltb_spec d (2 * r)); [lia|]. nia.
Qed.

Lemma round_half_even_bound (m d : Z) :
  0 < d → 0 ≤ m →
  0 ≤ round_half_even m d ∧
  2 * round_half_even m d * d - d ≤ 2 * m ≤ 2 * round_half_even m d * d + d.
Proof.
  intros Hd Hm. unfold round_half_even.
  pose proof (Z.div_mod m d ltac:(lia)) as Hdm.
  pose proof (Z.mod_pos_bound m d Hd) as Hr.
  assert (0 ≤ m / d) as Hq by (apply Z.div_pos; lia).
  set (q := m / d) in *. set (r := m mod d) in *. clearbody q r.
  destruct (Z.ltb_spec (2 * r) d); [nia|].
  destruct (Z.ltb_spec d (2 * r)); [nia|].
  destruct (Z.even q); nia.
Qed.

Lemma py_round_finite (z : float) (s : bool) (m : positive) (e : Z) :
  Prim2SF z = S754_finite s m e →
  py_round z = Ok (if s then - round_mag m e else round_mag m e).
Proof. unfold py_round, round_mag. by intros ->. Qed.

Lemma py_round_zero (z : float) (s : bool) :
  Prim2SF z = S754_zero s → py_round z = Ok 0.
Proof. unfold py_round. by intros ->. Qed.

Lemma Qpow2_neg (e : Z) :
  e < 0 → (2 ^ e * inject_Z (2 ^ (- e)) == 1)%Q.
Proof.
  intros He. rewrite <- Qpow2_Z, <- Qpow2_add by lia.
  by replace (e + - e) with 0 by lia.
Qed.

(** [round_mag] is within one half of the magnitude. *)
Lemma round_mag_bound (m : positive) (e : Z) :
  0 ≤ round_mag m e ∧
  (inject_Z (round_mag m e) - (1 # 2) <= inject_Z (Z.pos m) * 2 ^ e)%Q ∧
  (inject_Z (Z.pos m) * 2 ^ e <= inject_Z (round_mag m e) + (1 # 2))%Q.
Proof.
  unfold round_mag. destruct (Z.leb_spec 0 e) as [He|He].
  - pose proof (pow2_pos e He). split; [lia|].
    rewrite inject_Z_mult, <- Qpow2_Z by done. split; lra.
  - pose proof (pow2_pos (- e) ltac:(lia)) as Hd.
    destruct (round_half_even_bound (Z.pos m) (2 ^ (- e)) Hd ltac:(lia))
      as (Hn & Hlo & Hhi).
    split; [done|].
    pose proof (Qpow2_neg e He) as Hinv. pose proof (Qpow2_pos e) as HX.
    set (n := round_half_even (Z.pos m) (2 ^ (- e))) in *.
    assert (n * 2 ^ (- e) + n * 2 ^ (- e) ≤ Z.pos m + Z.pos m + 2 ^ (- e))
      as Hlo' by lia.
    assert (Z.pos m + Z.pos m ≤ n * 2 ^ (- e) + n * 2 ^ (- e) + 2 ^ (- e))
      as Hhi' by lia.
    apply inject_Z_le in Hlo', Hhi'. push_inject_Z Hlo'. push_inject_Z Hhi'.
    set (D := inject_Z (2 ^ (- e))) in *. set (X := (2 ^ e)%Q) in *.
    set (M := inject_Z (Z.pos m)) in *. set (N := inject_Z n) in *.
    clearbody D X M N.
    assert ((N * D + N * D) * X <= (M + M + D) * X)%Q
      by (apply Qmult_le_compat_r; [done | by apply Qlt_le_weak]).
    assert ((M + M) * X <= (N * D + N * D + D) * X)%Q
      by (apply Qmult_le_compat_r; [done | by apply Qlt_le_weak]).
    assert (N * D * X == N)%Q by (rewrite <- Qmult_assoc, (Qmult_comm D), Hinv; ring).
    assert (D * X == 1)%Q by (by rewrite Qmult_comm).
    split; lra.
Qed.

(** A magnitude less than one half away from an integer rounds to it. *)
Lemma round_mag_near (m : positive) (e N : Z) :
  (inject_Z N - (1 # 2) < inject_Z (Z.pos m) * 2 ^ e)%Q →
  (inject_Z (Z.pos m) * 2 ^ e < inject_Z N + (1 # 2))%Q →
  round_mag m e = N.
Proof.
  intros Hlo Hhi. unfold round_mag. destruct (Z.leb_spec 0 e) as [He|He].
  - rewrite (Qpow2_Z e), <- inject_Z_mult in Hlo, Hhi by done.
    assert (inject_Z (N + N) < inject_Z (Z.pos m * 2 ^ e + Z.pos m * 2 ^ e + 1))%Q
      as H1 by (rewrite !inject_Z_plus; change (inject_Z 1) with 1%Q; lra).
    assert (inject_Z (Z.pos m * 2 ^ e + Z.pos m * 2 ^ e) < inject_Z (N + N + 1))%Q
      as H2 by (rewrite !inject_Z_plus; change (inject_Z 1) with 1%Q; lra).
    rewrite <- Zlt_Qlt in H1, H2. lia.
  - pose proof (pow2_pos (- e) ltac:(lia)) as Hd.
    apply round_half_even_near; [done|].
    pose proof (Qpow2_neg e He) as Hinv. pose proof (Qpow2_pos e) as HX.
    assert (0 < inject_Z (2 ^ (- e)))%Q as HD
      by (change 0%Q with (inject_Z 0); by apply inject_Z_lt).
    assert (inject_Z (N * 2 ^ (- e) + N * 2 ^ (- e))
            < inject_Z (Z.pos m + Z.pos m + 2 ^ (- e)))%Q as H1.
    { push_inject_Z Hlo. rewrite !inject_Z_plus, !inject_Z_mult.
      set (D := inject_Z (2 ^ (- e))) in *. set (X := (2 ^ e)%Q) in *.
      set (M := inject_Z (Z.pos m)) in *. set (N' := inject_Z N) in *.
      clearbody D X M N'.
      assert ((N' - (1 # 2)) * D < M * X * D)%Q
        by by apply Qmult_lt_compat_r.
      assert (M * X * D == M)%Q by (rewrite <- Qmult_assoc, Hinv; ring).
      lra. }
    assert (inject_Z (Z.pos m + Z.pos m)
            < inject_Z (N * 2 ^ (- e) + N * 2 ^ (- e) + 2 ^ (- e)))%Q as H2.
    { rewrite !inject_Z_plus, !inject_Z_mult.
      set (D := inject_Z (2 ^ (- e))) in *. set (X := (2 ^ e)%Q) in *.
      set (M := inject_Z (Z.pos m)) in *. set (N' := inject_Z N) in *.
      clearbody D X M N'.
      assert (M * X * D < (N' + (1 # 2)) * D)%Q
        by by apply Qmult_lt_compat_r.
      assert (M * X * D == M)%Q by (rewrite <- Qmult_assoc, Hinv; ring).
      lra. }
    rewrite <- Zlt_Qlt in H1, H2. lia.
Qed.

Lemma iter_xO_spec (p d : positive) :
  Z.pos (Pos.iter xO p d) = Z.pos p * 2 ^ Z.pos d ∧
  digits2_pos (Pos.iter xO p d) = (digits2_pos p + d)%positive.
Proof.
  induction d as [|d [IH1 IH2]] using Pos.peano_ind.
  - cbn [Pos.iter digits2_pos]. split; lia.
  - rewrite Pos.iter_succ. cbn [digits2_pos]. rewrite IH2.
    rewrite Pos2Z.inj_xO, IH1, Pos2Z.inj_succ, Z.pow_succ_r by lia.
    split; lia.
Qed.

(** A mantissa of 53 bits is left as it is. *)
Lemma binary_round_aux_exact (s : bool) (m : positive) (e : Z) :
  Z.pos (digits2_pos m) = 53 → -1074 ≤ e ≤ 971 →
  binary_round_aux prec emax s (Z.pos m) e loc_Exact = S754_finite s m e.
Proof.
  intros Hd He. unfold binary_round_aux, shr_fexp. cbn [Zdigits2].
  rewrite Hd.
  assert (fexp prec emax (53 + e) - e = 0) as ->
    by (change (fexp prec emax (53 + e)) with (Z.max (53 + e - 53) (-1074)); lia).
  cbn [shr shr_record_of_loc shr_m loc_of_shr_record round_nearest_even
       Zdigits2].
  rewrite Hd.
  assert (fexp prec emax (53 + e) - e = 0) as ->
    by (change (fexp prec emax (53 + e)) with (Z.max (53 + e - 53) (-1074)); lia).
  cbn [shr shr_record_of_loc shr_m].
  change (emax - prec) with 971.
  by destruct (Z.leb_spec e 971); [|lia].
Qed.

Lemma binary_round_int (s : bool) (p : positive) :
  Z.pos p < 2 ^ 53 →
  ∃ m e, binary_round prec emax s p 0 = S754_finite s m e ∧
         canonical m e ∧ 2 ^ 52 ≤ Z.pos m ∧
         (inject_Z (Z.pos m) * 2 ^ e == inject_Z (Z.pos p))%Q.
Proof.
  intros Hp. unfold binary_round.
  pose proof (digits2_pos_bounds p) as [Hlo Hhi].
  assert (Z.pos (digits2_pos p) ≤ 53) as Hd.
  { destruct (decide (Z.pos (digits2_pos p) ≤ 53)) as [|Hgt]; [done|].
    pose proof (pow2_le 53 (Z.pos (digits2_pos p) - 1) ltac:(lia)). lia. }
  assert (fexp prec emax (Z.pos (digits2_pos p) + 0)
          = Z.pos (digits2_pos p) - 53) as ->.
  { change (fexp prec emax (Z.pos (digits2_pos p) + 0))
      with (Z.max (Z.pos (digits2_pos p) + 0 - 53) (-1074)). lia. }
  unfold shl_align.
  destruct (Z.pos (digits2_pos p) - 53 - 0) as [|d|d] eqn:Hk; [|lia|].
  - assert (Z.pos (digits2_pos p) = 53) as Hd53 by lia.
    rewrite binary_round_aux_exact by (done || lia).
    exists p, 0. split; [done|]. rewrite Hd53 in Hlo.
    split; [split; [done | split; [lia | by left]]|].
    split; [done|]. change (2 ^ 0)%Q with 1%Q. ring.
  - destruct (iter_xO_spec p d) as [Hv Hdig].
    assert (Z.pos d = 53 - Z.pos (digits2_pos p)) as Hdd by lia.
    rewrite binary_round_aux_exact by (rewrite ?Hdig; lia).
    exists (Pos.iter xO p d), (Z.pos (digits2_pos p) - 53).
    split; [done|].
    assert (2 ^ 52 ≤ Z.pos (Pos.iter xO p d) < 2 ^ 53) as [Hm1 Hm2].
    { pose proof (digits2_pos_bounds (Pos.iter xO p d)) as Hb.
      rewrite Hdig, Pos2Z.inj_add in Hb.
      by replace (Z.pos (digits2_pos p) + Z.pos d) with 53 in Hb by lia. }
    split; [split; [done | split; [lia | by left]]|].
    split; [done|].
    rewrite Hv, inject_Z_mult, <- Qpow2_Z, <- Qmult_assoc, <- Qpow2_add by lia.
    replace (Z.pos d + (Z.pos (digits2_pos p) - 53)) with 0 by lia.
    change (2 ^ 0)%Q with 1%Q. ring.
Qed.

(** The conversion of a nonzero [int] below [2 ^ 53] is exact. *)
Lemma float_of_Z_spec (n : Z) :
  0 < Z.abs n < 2 ^ 53 →
  ∃ m e, Prim2SF (float_of_Z n) = S754_finite (n <? 0) m e ∧
         canonical m e ∧ 2 ^ 52 ≤ Z.pos m ∧
         (inject_Z (Z.pos m) * 2 ^ e == inject_Z (Z.abs n))%Q.
Proof.
  intros Hn. unfold float_of_Z.
  destruct n as [|p|p]; [lia| |]; cbn [binary_normalize Z.abs Z.ltb Z.compare].
  - destruct (binary_round_int false p ltac:(lia)) as (m & e & -> & Hc & Hm & Hv).
    exists m, e. split; [|done].
    apply Prim2SF_SF2Prim. cbn [valid_binary]. by apply bounded_canonical.
  - destruct (binary_round_int true p ltac:(lia)) as (m & e & -> & Hc & Hm & Hv).
    exists m, e. split; [|done].
    apply Prim2SF_SF2Prim. cbn [valid_binary]. by apply bounded_canonical.
Qed.

Lemma float_of_Z_0 : Prim2SF (float_of_Z 0) = S754_zero false.
Proof. reflexivity. Qed.

(** *** Comparisons *)

Lemma is_finite_cases (x : float) :
  PrimFloat.is_finite x = true →
  (∃ s, Prim2SF x = S754_zero s) ∨ ∃ s m e, Prim2SF x = S754_finite s m e.
Proof.
  unfold PrimFloat.is_finite, PrimFloat.is_nan, PrimFloat.is_infinity.
  rewrite !FloatAxioms.eqb_spec, FloatAxioms.abs_spec.
  replace (Prim2SF infinity) with (S754_infinity false) by reflexivity.
  destruct (Prim2SF x) as [s|s| |s m e];
    [left; by exists s|by destruct s|done|right; by exists s, m, e].
Qed.

(** A float of magnitude at most [c] is a zero, or finite with an exponent
    at most that of [c]. *)
Lemma abs_leb_cases (x c : float) (mc : positive) (ec : Z) :
  Prim2SF c = S754_finite false mc ec → (abs x <=? c)%float = true →
  (∃ s, Prim2SF x = S754_zero s) ∨
  ∃ s m e, Prim2SF x = S754_finite s m e ∧ e ≤ ec.
Proof.
  intros Hc. rewrite FloatAxioms.leb_spec, FloatAxioms.abs_spec, Hc.
  destruct (Prim2SF x) as [s|s| |s m e]; [left; by exists s|done|done|].
  intros Hle. right. exists s, m, e. split; [done|].
  unfold SFleb, SFcompare, SFabs in Hle.
  destruct (Z.compare_spec e ec); [lia|lia|done].
Qed.

(** A finite float that is not below a positive [c] is positive, with an
    exponent at least that of [c]. *)
Lemma not_ltb_cases (x c : float) (mc : positive) (ec : Z) :
  Prim2SF c = S754_finite false mc ec →
  PrimFloat.is_finite x = true → (x <? c)%float = false →
  ∃ m e, Prim2SF x = S754_finite false m e ∧ ec ≤ e.
Proof.
  intros Hc Hfin. rewrite FloatAxioms.ltb_spec, Hc.
  destruct (is_finite_cases x Hfin) as [[s ->]|(s & m & e & ->)]; [done|].
  unfold SFltb, SFcompare. destruct s; [done|]. intros Hlt.
  exists m, e. split; [done|].
  destruct (Z.compare_spec e ec); [lia|done|lia].
Qed.

Lemma SFmag_lt (s : bool) (m : positive) (e : Z) :
  canonical m e → (SFmag (S754_finite s m e) < 2 ^ (53 + e))%Q.
Proof.
  intros (Hm & _). cbn [SFmag]. rewrite Qpow2_add, (Qpow2_Z 53) by lia.
  by apply scaled_lt.
Qed.

Lemma SFmag_ge (s : bool) (m : positive) (e : Z) :
  2 ^ 52 ≤ Z.pos m → (2 ^ (52 + e) <= SFmag (S754_finite s m e))%Q.
Proof.
  intros Hm. cbn [SFmag]. rewrite Qpow2_add, (Qpow2_Z 52) by lia.
  by apply scaled_le.
Qed.

Lemma SFmag_pos (s : bool) (m : positive) (e : Z) :
  (0 < SFmag (S754_finite s m e))%Q.
Proof.
  cbn [SFmag]. apply Qmult_lt_0_compat; [|apply Qpow2_pos].
  change 0%Q with (inject_Z 0). by apply inject_Z_lt.
Qed.

(** *** The resolutions *)

Lemma km_to_degrees (k : float) (m : positive) (e : Z) :
  Prim2SF k = S754_finite false m e → -54 ≤ e → fine_enough (k / 111).
Proof.
  intros Hk He. pose proof (Prim2SF_canonical _ _ _ _ Hk) as Hc.
  unfold fine_enough. rewrite FloatAxioms.div_spec, Hk.
  replace (Prim2SF 111) with (S754_finite false 7810930603720704 (-46))
    by reflexivity.
  destruct (SFdiv_value false false m 7810930603720704 e (-46) Hc)
    as (r & er & Her & Hr & Hn & -> & Hlo & Hhi).
  set (u := SFmag (S754_finite false m e)) in *.
  set (w := SFmag (S754_finite false 7810930603720704 (-46))) in *.
  assert (w == 111)%Q as Hw by reflexivity.
  assert (0 < w)%Q as Hwpos by (rewrite Hw; lra).
  assert (2 ^ (-2) <= u)%Q as Hu1.
  { eapply Qle_trans; [|apply SFmag_ge]; [apply Qpow2_le; lia|].
    destruct Hc as (_ & _ & [Hm|Hm]); [done|lia]. }
  assert (u < 2 ^ 1024)%Q as Hu2.
  { eapply Qlt_le_trans; [by apply SFmag_lt|]. apply Qpow2_le.
    destruct Hc as (_ & ? & _). lia. }
  assert (2 ^ (-1000) * w <= u)%Q as Hlow.
  { pose proof (Qpow2_le (-1000) (-9) ltac:(lia)) as H1.
    assert (2 ^ (-9) == 1 # 512)%Q as H9 by reflexivity.
    assert (2 ^ (-2) == 1 # 4)%Q as H2 by reflexivity.
    rewrite H9 in H1. rewrite H2 in Hu1. rewrite Hw.
    set (X := (2 ^ (-1000))%Q) in *. clearbody X. lra. }
  assert (u <= 2 ^ 1020 * w)%Q as Hupp.
  { assert (2 ^ 1024 == 2 ^ 1020 * 16)%Q as H4
      by (by rewrite (Qpow2_add 1020 4)).
    pose proof (Qpow2_pos 1020). rewrite H4 in Hu2. rewrite Hw.
    set (X := (2 ^ 1020)%Q) in *. clearbody X. lra. }
  pose proof (rounded_is_normal r er u w Hn Hwpos Hlo Hlow) as Hr52.
  pose proof (rounded_is_finite r er u w Hn Hwpos Hhi Hupp) as Her'.
  destruct (rounded_relative r er u w Hr52 Hwpos Hlo Hhi) as [_ Hrel].
  destruct (rounded_cases false r er ltac:(lia))
    as [[-> _]|[(p & -> & _ & Hres)|(_ & ? & _)]]; [lia| |lia].
  cbn [xorb]. rewrite Hres. exists p, er. split; [done|].
  assert (inject_Z (Z.pos p) * 2 ^ er < 2 ^ (53 + er))%Q as Hlt
    by (apply (SFmag_lt false); split; [lia | split; [lia | by left]]).
  destruct (decide (-61 ≤ er)) as [|Hsmall]; [done|exfalso].
  pose proof (Qpow2_le (53 + er) (-9) ltac:(lia)) as H9.
  assert (2 ^ (-9) == 1 # 512)%Q as H9' by reflexivity.
  assert (2 ^ (-2) == 1 # 4)%Q as H2 by reflexivity.
  rewrite H9' in H9. rewrite H2 in Hu1. rewrite Hw in Hrel.
  set (F := (inject_Z (Z.pos p) * 2 ^ er)%Q) in *.
  set (X := (2 ^ (53 + er))%Q) in *. clearbody F X u. lra.
Qed.

Lemma resolution_fine_enough (g c : float) (mc : positive) (ec : Z) :
  Prim2SF c = S754_finite false mc ec → -54 ≤ ec →
  PrimFloat.is_finite g = true →
  fine_enough (py_max g c / 111).
Proof.
  intros Hc Hec Hg. unfold py_max.
  destruct (g <? c)%float eqn:Hlt.
  - by apply (km_to_degrees c mc ec).
  - destruct (not_ltb_cases g c mc ec Hc Hg Hlt) as (m & e & Hm & He).
    apply (km_to_degrees g m e); [done | lia].
Qed.

(** *** Every grid index is a fixed point *)

Lemma grid_index_zero (d : float) (md : positive) (ed : Z) :
  Prim2SF d = S754_finite false md ed →
  grid_index d (float_of_Z 0 * d) = Ok 0.
Proof.
  intros Hd. unfold grid_index. apply (py_round_zero _ false).
  by rewrite FloatAxioms.div_spec, FloatAxioms.mul_spec, float_of_Z_0, Hd.
Qed.

(** The index [n] of magnitude [N]: the product [n * d] is within
    [2 ^ -50] of its exact value, and so is its quotient by [d]; the
    quotient is thus less than one half away from [N]. *)
Lemma grid_index_nonzero (d : float) (md : positive) (ed : Z) (s : bool)
    (N : Z) :
  Prim2SF d = S754_finite false md ed →
  (1 # 512 <= SFmag (Prim2SF d))%Q → (SFmag (Prim2SF d) <= 2048)%Q →
  1 ≤ N < 2 ^ 19 →
  grid_index d (float_of_Z (if s then - N else N) * d)
  = Ok (if s then - N else N).
Proof.
  intros Hd Hd1 Hd2 HN. unfold grid_index.
  pose proof (Prim2SF_canonical _ _ _ _ Hd) as Hcd.
  set (n := if s then - N else N).
  assert (Z.abs n = N ∧ (n <? 0) = s) as [Habs Hsign].
  { unfold n. destruct s; (split; [lia|]).
    - apply Z.ltb_lt. lia.
    - apply Z.ltb_ge. lia. }
  destruct (float_of_Z_spec n) as (mn & en & Hfn & Hcn & Hmn & Hvn);
    [rewrite Habs; lia|].
  rewrite Hsign, Habs in *.
  (* the product *)
  destruct (SFmul_value s false mn md en ed Hcn Hcd)
    as (m1 & e1 & He1 & Hm1 & Hn1 & Hr1 & Hlo1 & Hhi1).
  rewrite Hd in Hd1, Hd2.
  set (vd := SFmag (S754_finite false md ed)) in *.
  assert (SFmag (S754_finite s mn en) == inject_Z N)%Q as Hvn'
    by (by cbn [SFmag]).
  rewrite Hvn' in Hlo1, Hhi1. clear Hvn'.
  assert (0 < vd)%Q as Hvd by lra.
  assert (1 <= inject_Z N)%Q as HN1
    by (change 1%Q with (inject_Z 1); apply inject_Z_le; lia).
  assert (inject_Z N <= 524288)%Q as HN2
    by (change 524288%Q with (inject_Z (2 ^ 19)); apply inject_Z_le; lia).
  set (Nq := inject_Z N) in *.
  assert (1 * vd <= Nq * vd)%Q as HY1
    by (apply Qmult_le_compat_r; [done | by apply Qlt_le_weak]).
  assert (Nq * vd <= 524288 * vd)%Q as HY2
    by (apply Qmult_le_compat_r; [done | by apply Qlt_le_weak]).
  set (Y := (Nq * vd)%Q) in *.
  assert (2 ^ (-1000) <= 1 # 512)%Q as Htiny
    by (change (1 # 512)%Q with (2 ^ (-9))%Q; apply Qpow2_le; lia).
  assert (1099511627776 <= 2 ^ 1020)%Q as Hhuge
    by (change 1099511627776%Q with (2 ^ 40)%Q; apply Qpow2_le; lia).
  assert (2 ^ 52 ≤ m1) as Hm1'.
  { apply (rounded_is_normal m1 e1 Y 1); [done|done| |].
    - clearbody Y. lra.
    - clearbody Y vd. set (T := (2 ^ (-1000))%Q) in *. clearbody T. lra. }
  assert (e1 ≤ 971) as He1'.
  { apply (rounded_is_finite m1 e1 Y 1); [done|done| |].
    - clearbody Y. lra.
    - clearbody Y vd. set (T := (2 ^ 1020)%Q) in *. clearbody T. lra. }
  destruct (rounded_relative m1 e1 Y 1 Hm1' ltac:(done)) as [Hrel1 Hrel2];
    [clearbody Y; lra..|].
  destruct (rounded_cases (xorb s false) m1 e1 ltac:(lia))
    as [[-> _]|[(p1 & -> & _ & Hres1)|(_ & ? & _)]]; [lia| |lia].
  rewrite Hres1 in Hr1. clear Hres1.
  assert (xorb s false = s) as Hxor by by destruct s.
  rewrite Hxor in Hr1.
  assert (canonical p1 e1) as Hcp
    by (split; [lia | split; [lia | by left]]).
  (* the quotient *)
  destruct (SFdiv_value s false p1 md e1 ed Hcp)
    as (m2 & e2 & He2 & Hm2 & Hn2 & Hr2 & Hlo2 & Hhi2).
  fold vd in Hlo2, Hhi2. cbn [SFmag] in Hlo2, Hhi2.
  set (F1 := (inject_Z (Z.pos p1) * 2 ^ e1)%Q) in *.
  assert (2 ^ (-1000) * vd <= F1)%Q as Hlow2.
  { clearbody Y vd F1. set (T := (2 ^ (-1000))%Q) in *.
    assert (T * vd <= (1 # 512) * vd)%Q
      by (apply Qmult_le_compat_r; [done | by apply Qlt_le_weak]).
    clearbody T. lra. }
  assert (F1 <= 2 ^ 1020 * vd)%Q as Hupp2.
  { clearbody Y vd F1. set (T := (2 ^ 1020)%Q) in *.
    assert (1099511627776 * vd <= T * vd)%Q
      by (apply Qmult_le_compat_r; [done | by apply Qlt_le_weak]).
    clearbody T. lra. }
  pose proof (rounded_is_normal m2 e2 F1 vd Hn2 Hvd Hlo2 Hlow2) as Hm2'.
  pose proof (rounded_is_finite m2 e2 F1 vd Hn2 Hvd Hhi2 Hupp2) as He2'.
  destruct (rounded_relative m2 e2 F1 vd Hm2' Hvd Hlo2 Hhi2) as [Hrel3 Hrel4].
  destruct (rounded_cases (xorb s false) m2 e2 ltac:(lia))
    as [[-> _]|[(p2 & -> & _ & Hres2)|(_ & ? & _)]]; [lia| |lia].
  rewrite Hres2, Hxor in Hr2. clear Hres2.
  assert (Prim2SF (float_of_Z n * d / d) = S754_finite s p2 e2) as Hz
    by (by rewrite FloatAxioms.div_spec, FloatAxioms.mul_spec, Hfn, Hd, Hr1).
  rewrite (py_round_finite _ _ _ _ Hz).
  assert (round_mag p2 e2 = N) as ->; [|by unfold n; destruct s].
  set (F2 := (inject_Z (Z.pos p2) * 2 ^ e2)%Q) in *.
  apply round_mag_near; fold Nq F2.
  - apply (Qmult_lt_r _ _ vd Hvd). unfold Y in *. clearbody F2 F1 Nq vd. lra.
  - apply (Qmult_lt_r _ _ vd Hvd). unfold Y in *. clearbody F2 F1 Nq vd. lra.
Qed.

Lemma fine_enough_mag (d : float) :
  fine_enough d →
  ∃ m e, Prim2SF d = S754_finite false m e ∧ canonical m e ∧
         (1 # 512 <= SFmag (Prim2SF d))%Q.
Proof.
  intros (m & e & Hd & He). exists m, e.
  pose proof (Prim2SF_canonical _ _ _ _ Hd) as Hc.
  split; [done|]. split; [done|]. rewrite Hd.
  eapply Qle_trans; [|apply SFmag_ge].
  - change (1 # 512)%Q with (2 ^ (-9))%Q. apply Qpow2_le. lia.
  - destruct Hc as (_ & _ & [Hm|Hm]); [done|lia].
Qed.

(** The index of a coordinate of magnitude below 512, at a resolution of at
    least [2 ^ -9] degrees, is a fixed point of the quantizer. *)
Lemma grid_index_fixed (d x : float) :
  fine_enough d →
  (∃ s, Prim2SF x = S754_zero s) ∨
  (∃ s m e, Prim2SF x = S754_finite s m e ∧ e ≤ -44) →
  ∃ n, grid_index d x = Ok n ∧ grid_index d (float_of_Z n * d) = Ok n.
Proof.
  intros (md & ed & Hd & Hcd & Hd1)%fine_enough_mag Hx.
  assert (∀ s, Prim2SF (x / d) = S754_zero s →
               ∃ n, grid_index d x = Ok n ∧
                    grid_index d (float_of_Z n * d) = Ok n) as Hzero.
  { intros s Hy. exists 0. split; [by apply (py_round_zero _ s)|].
    by apply (grid_index_zero d md ed). }
  destruct Hx as [[s Hx]|(s & mx & ex & Hx & Hex)].
  { apply (Hzero (xorb s false)).
    by rewrite FloatAxioms.div_spec, Hx, Hd. }
  pose proof (Prim2SF_canonical _ _ _ _ Hx) as Hcx.
  destruct (SFdiv_value s false mx md ex ed Hcx)
    as (r & er & Her & Hr & Hn & Hres & Hlo & Hhi).
  assert (xorb s false = s) as Hxor by by destruct s.
  rewrite Hxor, <- Hd, <- Hx, <- FloatAxioms.div_spec in Hres.
  pose proof (SFmag_lt s mx ex Hcx) as Hvx.
  pose proof (Qpow2_le (53 + ex) 9 ltac:(lia)) as Hvx'.
  change (2 ^ 9)%Q with 512%Q in Hvx'.
  rewrite Hd in Hd1.
  set (vx := SFmag (S754_finite s mx ex)) in *.
  set (vd := SFmag (S754_finite false md ed)) in *.
  assert (0 < vd)%Q as Hvd by lra.
  assert (262144 <= 2 ^ 1020)%Q as Hhuge
    by (change 262144%Q with (2 ^ 18)%Q; apply Qpow2_le; lia).
  assert (er ≤ 971) as Her'.
  { apply (rounded_is_finite r er vx vd); [done..|].
    set (T := (2 ^ 1020)%Q) in *. set (X := (2 ^ (53 + ex))%Q) in *.
    assert (262144 * vd <= T * vd)%Q
      by (apply Qmult_le_compat_r; [done | by apply Qlt_le_weak]).
    clearbody vx vd T X. lra. }
  destruct (rounded_cases s r er ltac:(lia))
    as [[-> Hrz]|[(p & -> & _ & Hrf)|(_ & ? & _)]]; [| |lia].
  { apply (Hzero s). by rewrite Hres. }
  rewrite Hrf in Hres. clear Hrf.
  destruct (round_mag_bound p er) as (HN0 & HNlo & HNhi).
  set (N := round_mag p er) in *.
  exists (if s then - N else N).
  split; [by apply py_round_finite|].
  destruct (decide (N = 0)) as [->|HN].
  { replace (if s then - 0 else 0) with 0 by by destruct s.
    by apply (grid_index_zero d md ed). }
  set (vy := (inject_Z (Z.pos p) * 2 ^ er)%Q) in *.
  assert (1 <= inject_Z N)%Q as HN1
    by (change 1%Q with (inject_Z 1); apply inject_Z_le; lia).
  assert (2 ^ 52 ≤ Z.pos p) as Hp52.
  { destruct Hn as [Hn|Hn]; [done|exfalso]. subst er.
    assert (vy < 2 ^ (53 + -1074))%Q as Hsub
      by (apply (SFmag_lt false); split; [lia | split; [lia | by right]]).
    pose proof (Qpow2_le (53 + -1074) (-1) ltac:(lia)) as Hhalf.
    change (2 ^ (-1))%Q with (1 # 2)%Q in Hhalf.
    set (X := (2 ^ (53 + -1074))%Q) in *. set (Nq := inject_Z N) in *.
    clearbody X vy Nq. lra. }
  destruct (rounded_relative (Z.pos p) er vx vd Hp52 Hvd Hlo Hhi)
    as [Hrel _]. fold vy in Hrel.
  assert ((1 # 2) * vd <= vy * vd)%Q as Hyd1.
  { apply Qmult_le_compat_r; [|by apply Qlt_le_weak].
    set (Nq := inject_Z N) in *. clearbody vy Nq. lra. }
  assert (vy * (1 # 512) <= vy * vd)%Q as Hyd2.
  { apply Qmult_le_l; [|done].
    set (Nq := inject_Z N) in *. clearbody vy Nq. lra. }
  set (X := (2 ^ (53 + ex))%Q) in *.
  apply (grid_index_nonzero d md ed s N Hd).
  - by rewrite Hd.
  - rewrite Hd. fold vd. clearbody vx vd vy X. lra.
  - split; [lia|].
    assert (inject_Z N < inject_Z (2 ^ 19))%Q as HN2.
    { change (inject_Z (2 ^ 19)) with 524288%Q.
      set (Nq := inject_Z N) in *. clearbody vx vd vy X Nq. lra. }
    by rewrite <- Zlt_Qlt in HN2.
Qed.

(** *** The quantizer is idempotent *)

Lemma round_to_grid_idempotent (d x : float) :
  fine_enough d →
  (∃ s, Prim2SF x = S754_zero s) ∨
  (∃ s m e, Prim2SF x = S754_finite s m e ∧ e ≤ -44) →
  ∃ q, round_to_grid d x = Ok q ∧ round_to_grid d q = Ok q.
Proof.
  intros Hd Hx. destruct (grid_index_fixed d x Hd Hx) as (n & Hn & Hfix).
  exists (float_of_Z n * d)%float.
  by rewrite (round_to_grid_index _ _ _ Hn), (round_to_grid_index _ _ _ Hfix).
Qed.

Lemma in_degrees_cases (x : float) :
  in_degrees x →
  (∃ s, Prim2SF x = S754_zero s) ∨
  (∃ s m e, Prim2SF x = S754_finite s m e ∧ e ≤ -44).
Proof. by apply (abs_leb_cases x 360 6333186975989760 (-44)). Qed.

Lemma round_coord_idempotent (d lat lon : float) :
  fine_enough d → in_degrees lat → in_degrees lon →
  ∃ q, round_coord d lat lon = Ok q ∧ round_coord d q.1 q.2 = Ok q.
Proof.
  intros Hd Hlat%in_degrees_cases Hlon%in_degrees_cases.
  destruct (round_to_grid_idempotent d lat Hd Hlat) as (qlat & Hq1 & Hq1').
  destruct (round_to_grid_idempotent d lon Hd Hlon) as (qlon & Hq2 & Hq2').
  exists (qlat, qlon). unfold round_coord. cbn [fst snd].
  by rewrite Hq1, Hq2, Hq1', Hq2'.
Qed.

(** C8: quantization is idempotent. For every finite grid size and every
    latitude and longitude, i.e. every pair of coordinates of magnitude at
    most 360 degrees, [round_coord_gee] and [round_coord_om] return, and
    applied to their own output they return that output again. *)
Theorem quantization_idempotent (c : Config) (lat lon : float) :
  PrimFloat.is_finite (GRID_SIZE_KM c) = true →
  in_degrees lat → in_degrees lon →
  (∃ q, round_coord_gee c lat lon = Ok q ∧ round_coord_gee c q.1 q.2 = Ok q) ∧
  (∃ q, round_coord_om c lat lon = Ok q ∧ round_coord_om c q.1 q.2 = Ok q).
Proof.
  intros Hg Hlat Hlon. unfold round_coord_gee, round_coord_om.
  split; apply round_coord_idempotent; try done.
  - by apply (resolution_fine_enough _ _ 4503599627370496 (-54)).
  - by apply (resolution_fine_enough _ _ 7036874417766400 (-48)).
Qed.

Lemma quantization_idempotent_witness :
  ∃ q, round_coord_gee default_config 34.05 (-118.25) = Ok q ∧
       round_coord_gee default_config q.1 q.2 = Ok q.
Proof.
  by apply (quantization_idempotent default_config 34.05 (-118.25)).
Defined.

(** ** Climate aggregates *)

Lemma omap_fmap_compose {A B C} (f : A → B) (g : B → option C) (l : list A) :
  omap g (f <$> l) = omap (g ∘ f) l.
Proof. induction l as [|x l IH]; [done|]. cbn. by rewrite IH. Qed.

Lemma omap_all_None {A B} (g : A → option B) (l : list A) :
  (∀ x, g x = None) → omap g l = [].
Proof. intros Hg. induction l as [|x l IH]; [done|]. cbn. by rewrite Hg, IH. Qed.

Lemma zip_midpoints_by_day (l1 l2 : list (option Q)) (n : nat) :
  (length l1 `min` length l2 ≤ n)%nat →
  omap (midpoint_at l1 l2) (seq 0 n) = omap midpoint_of (zip l1 l2).
Proof.
  revert l2 n. induction l1 as [|a l1 IH]; intros l2 n Hn.
  - cbn. apply omap_all_None. intros i. unfold midpoint_at. by rewrite lookup_nil.
  - destruct l2 as [|b l2].
    + cbn. apply omap_all_None. intros i. unfold midpoint_at.
      rewrite lookup_nil. by destruct ((a :: l1) !! i) as [[?|]|].
    + destruct n as [|n]; [cbn in Hn; lia|].
      rewrite <- cons_seq, <- fmap_S_seq. cbn [zip zip_with omap list_omap].
      rewrite (omap_fmap_compose S), <- (IH l2 n) by (cbn in Hn; lia).
      assert (omap (midpoint_at (a :: l1) (b :: l2) ∘ S) (seq 0 n)
              = omap (midpoint_at l1 l2) (seq 0 n)) as -> by done.
      unfold midpoint_at at 1, midpoint_of. cbn. by destruct a, b.
Qed.

Lemma temps_by_day (js : daily) : temps js = spec_midpoints js.
Proof.
  unfold temps, spec_midpoints, n_days. symmetry.
  apply (zip_midpoints_by_day _ _ _). lia.
Qed.

(** The expression [np.mean(temps) if temps else None] alone: it is the
    arithmetic mean of the midpoints of exactly the days whose maximum and
    minimum are both present, it is absent exactly when no day has both, and
    for max=[20,22], min=[10,12] it is 16. *)
Lemma temp_mean_of_valid_midpoints (js : daily) :
  temp_mean js = spec_temp_mean js ∧
  (temp_mean js = None ↔ ∀ i, day_midpoint js i = None) ∧
  (∀ precip, ∃ m, temp_mean (scenario_daily precip) = Some m ∧ (m == 16)%Q).
Proof.
  split; [|split].
  - unfold temp_mean, spec_temp_mean, np_mean. by rewrite temps_by_day.
  - unfold temp_mean. rewrite temps_by_day. split.
    + intros Hnone i.
      destruct (spec_midpoints js) as [|m ms] eqn:Hm; [|done].
      destruct (day_midpoint js i) as [q|] eqn:Hq; [|done].
      assert (q ∈ spec_midpoints js) as Hin.
      { apply list_elem_of_omap. exists i. split; [|done].
        apply elem_of_seq. split; [lia|]. cbn.
        unfold day_midpoint, n_days in *.
        destruct (get_or_empty (temperature_2m_max js) !! i) eqn:H1; [|done].
        apply lookup_lt_Some in H1. lia. }
      rewrite Hm in Hin. by apply elem_of_nil in Hin.
    + intros Hall. unfold spec_midpoints. by rewrite omap_all_None.
  - intros precip. eexists. split; [reflexivity|]. vm_compute. reflexivity.
Qed.

(** The fetchers return this mean whenever the precipitation sum does not
    raise. *)
Lemma aggregates_temp (js : daily) (p : option Q) :
  precip_sum js = Ok p → aggregates js = Ok (temp_mean js, p).
Proof. unfold aggregates. by intros ->. Qed.

Lemma np_sum_present (l : list Q) :
  ∃ s, np_sum (Some <$> l) = Ok (Some s) ∧ (s == sum_list l)%Q.
Proof.
  destruct l as [|x l]; [by exists 0%Q|].
  cbn [fmap list_fmap np_sum].
  revert x. induction l as [|y l IH]; intros x.
  - exists x. split; [done|]. unfold sum_list. cbn. ring.
  - cbn [fmap list_fmap foldl]. cbn [mbind res_bind py_add].
    destruct (IH (x + y)%Q) as (s & Hs & Heq). exists s. split; [done|].
    rewrite Heq. unfold sum_list. cbn. ring.
Qed.

Lemma foldl_py_add_raise (e : exn) (l : list (option Q)) :
  foldl (λ acc y, a ← acc; py_add a y) (Raise e) l = Raise e.
Proof. induction l as [|y l IH]; [done|]. cbn. apply IH. Qed.

Lemma np_sum_missing_day (l1 l2 : list (option Q)) :
  (1 ≤ length l1 + length l2)%nat → np_sum (l1 ++ None :: l2) = Raise TypeError.
Proof.
  intros Hlen. destruct l1 as [|x l1].
  - destruct l2 as [|y l2]; [cbn in Hlen; lia|]. cbn.
    apply foldl_py_add_raise.
  - cbn [app np_sum]. clear Hlen. revert x.
    induction l1 as [|z l1 IH]; intros x.
    + cbn. destruct x; apply foldl_py_add_raise.
    + cbn [app foldl]. destruct x as [x|], z as [z|]; cbn [mbind res_bind py_add];
        try apply foldl_py_add_raise.
      apply IH.
Qed.

(** The precipitation aggregate: absent when the key is missing, the sum of
    the days when all are present, an exception when a day is missing among
    two or more. *)
Lemma precip_sum_cases (js : daily) :
  (precipitation_sum js = None → precip_sum js = Ok None) ∧
  (∀ days, precipitation_sum js = Some (Some <$> days) →
     ∃ s, precip_sum js = Ok (Some s) ∧ (s == sum_list days)%Q) ∧
  (∀ l1 l2, precipitation_sum js = Some (l1 ++ None :: l2) →
     (1 ≤ length l1 + length l2)%nat → precip_sum js = Raise TypeError).
Proof.
  unfold precip_sum. split; [by intros ->|]. split.
  - intros days ->. apply np_sum_present.
  - intros l1 l2 -> Hlen. by apply np_sum_missing_day.
Qed.

(** C3: at the response max=[20,22], min=[10,12], precipitation=[5, null]
    the precipitation sum raises [TypeError]; the serial fetcher turns it
    into [(None, None)] and the threaded one, after three attempts, into the
    all-absent record. So the aggregate is absent although the key is
    present, and the mean temperature 16 is lost with it. *)
Theorem precip_sum_missing_day_fails (c : Config) (w : world)
    (lat lon : float) (y : Z) :
  let js := scenario_daily (Some [Some 5%Q; None]) in
  (∀ attempt, om w y lat lon attempt = OmJson js) →
  precip_sum js = Raise TypeError ∧
  (∃ t, temp_mean js = Some t ∧ (t == 16)%Q) ∧
  Serial.fetch_temp_precip w lat lon y
  = ([Request OM y lat lon], (None, None)) ∧
  Threaded.fetch_temp_precip_single c w lat lon y
  = ([Request OM y lat lon; Sleep 5; Request OM y lat lon; Sleep 5;
      Request OM y lat lon],
     Ok (PDict [(TEMP_COL c, PNone); (PRECIP_COL c, PNone)])).
Proof.
  intros js Hom. split; [done|]. split; [|split].
  - eexists. split; [reflexivity|]. vm_compute. reflexivity.
  - unfold Serial.fetch_temp_precip. by rewrite Hom.
  - unfold Threaded.fetch_temp_precip_single. cbn. by rewrite !Hom.
Qed.

(** C7: at the response max=[20,22], min=[10,12], precipitation=[5, null],
    the scenario of the spec, both days have a maximum and a minimum and the
    mean of their midpoints is 16; yet neither fetcher returns it. The mean
    is computed first, the sum of the precipitation series raises in the
    same [try], and the handler drops both aggregates: the serial fetcher
    returns an absent temperature at once, the threaded one after three
    attempts. With the precipitation series complete, the same temperatures
    give 16 in both fetchers. *)
Theorem mean_temperature_lost_with_precipitation (c : Config) (w : world)
    (lat lon : float) (y : Z) :
  let js := scenario_daily (Some [Some 5%Q; None]) in
  (∀ attempt, om w y lat lon attempt = OmJson js) →
  (∀ i, i ∈ [0; 1]%nat → ∃ t, day_midpoint js i = Some t) ∧
  (∃ m, spec_temp_mean js = Some m ∧ (m == 16)%Q) ∧
  (Serial.fetch_temp_precip w lat lon y).2.1 = None ∧
  (Threaded.fetch_temp_precip_single c w lat lon y).2
  = Ok (PDict [(TEMP_COL c, PNone); (PRECIP_COL c, PNone)]) ∧
  (∀ w', om w' y lat lon 0
         = OmJson (scenario_daily (Some [Some 5%Q; Some 0%Q])) →
     ∃ m, (m == 16)%Q ∧
          (Serial.fetch_temp_precip w' lat lon y).2.1 = Some m ∧
          ∃ p, (Threaded.fetch_temp_precip_single c w' lat lon y).2
               = Ok (PDict [(TEMP_COL c, PNum m); (PRECIP_COL c, p)])).
Proof.
  intros js Hom. refine (conj _ (conj _ (conj _ (conj _ _)))).
  - intros i Hi. repeat (apply elem_of_cons in Hi as [->|Hi]);
      [by eexists | by eexists | by apply elem_of_nil in Hi].
  - eexists. split; [reflexivity|]. vm_compute. reflexivity.
  - unfold Serial.fetch_temp_precip. by rewrite Hom.
  - unfold Threaded.fetch_temp_precip_single. cbn. by rewrite !Hom.
  - intros w' Hom'. eexists. split; [|split].
    + instantiate (1 := np_mean [(20 + 10) / 2; (22 + 12) / 2]%Q).
      vm_compute. reflexivity.
    + unfold Serial.fetch_temp_precip. by rewrite Hom'.
    + eexists. unfold Threaded.fetch_temp_precip_single, max_retries.
      cbn [Threaded.fetch_temp_precip_single_loop]. by rewrite Hom'.
Qed.

Lemma mean_temperature_lost_witness :
  (Serial.fetch_temp_precip missing_day_world 34.05 (-118.25) 2020).2.1 = None ∧
  (Threaded.fetch_temp_precip_single default_config missing_day_world
     34.05 (-118.25) 2020).2
  = Ok (PDict [(TEMP_COL default_config, PNone);
               (PRECIP_COL default_config, PNone)]).
Proof.
  destruct (mean_temperature_lost_with_precipitation default_config
              missing_day_world 34.05 (-118.25) 2020) as (_ & _ & Hs & Ht & _).
  - intros attempt. reflexivity.
  - by split.
Defined.

(** ** The run monad *)

Ltac unfold_M :=
  unfold mbind, mret, M_bind, M_ret, lift, raise, sys_exit, get_state,
    check_interrupt, sleep in *.

Section Preserves.
Context (R : state → state → Prop).
Context (R_refl : ∀ st, R st st).
Context (R_trans : ∀ st1 st2 st3, R st1 st2 → R st2 st3 → R st1 st3).

Lemma preserves_ret {A} (a : A) : preserves R (mret a).
Proof using R_refl. intros st r st' [= <- <-]. apply R_refl. Qed.

Lemma preserves_raise {A} (e : exn) : preserves R (raise (A:=A) e).
Proof using R_refl. intros st r st' [= <- <-]. apply R_refl. Qed.

Lemma preserves_sys_exit {A} (code : Z) : preserves R (sys_exit (A:=A) code).
Proof using R_refl. intros st r st' [= <- <-]. apply R_refl. Qed.

Lemma preserves_get_state : preserves R get_state.
Proof using R_refl. intros st r st' [= <- <-]. apply R_refl. Qed.

Lemma preserves_lift {A} (x : res A) : preserves R (lift x).
Proof using R_refl.
  destruct x; [apply preserves_ret | apply preserves_raise].
Qed.

Lemma preserves_bind {A B} (m : M A) (f : A → M B) :
  preserves R m → (∀ a, preserves R (f a)) → preserves R (m ≫= f).
Proof using R_trans.
  intros Hm Hf st r st' Hrun. unfold mbind, M_bind in Hrun.
  destruct (m st) as [[a|s] st1] eqn:Hst1.
  - exact (R_trans _ _ _ (Hm _ _ _ Hst1) (Hf _ _ _ _ Hrun)).
  - injection Hrun as <- <-. exact (Hm _ _ _ Hst1).
Qed.

(** The state read by [get_state] is the one the rest starts from. *)
Lemma preserves_get_bind {B} (f : state → M B) :
  (∀ st r st', f st st = (r, st') → R st st') →
  preserves R (get_state ≫= f).
Proof. intros Hf st r st' Hrun. exact (Hf _ _ _ Hrun). Qed.

Lemma preserves_check_interrupt w src y i ph :
  preserves R (check_interrupt w src y i ph).
Proof using R_refl.
  unfold check_interrupt. destruct (interrupt w src y i ph);
    [apply preserves_raise | apply preserves_ret].
Qed.

Lemma preserves_for_each {A} (body : A → M unit) (l : list A) :
  (∀ x, x ∈ l → preserves R (body x)) → preserves R (for_each body l).
Proof using R_refl R_trans.
  induction l as [|x l IH]; intros Hbody; cbn [for_each].
  - apply preserves_ret.
  - apply preserves_bind; [apply Hbody; left|].
    intros _. apply IH. intros x' Hx'. apply Hbody. by right.
Qed.
End Preserves.

Section NeverExits.
Lemma never_exits_ret {A} (a : A) : never_exits (mret a).
Proof. by intros st s st' [=]. Qed.

Lemma never_exits_raise {A} (e : exn) : never_exits (raise (A:=A) e).
Proof. by intros st s st' [= <- <-] code. Qed.

Lemma never_exits_lift {A} (x : res A) : never_exits (lift x).
Proof. destruct x; [apply never_exits_ret | apply never_exits_raise]. Qed.

Lemma never_exits_bind {A B} (m : M A) (f : A → M B) :
  never_exits m → (∀ a, never_exits (f a)) → never_exits (m ≫= f).
Proof.
  intros Hm Hf st s st' Hrun. unfold mbind, M_bind in Hrun.
  destruct (m st) as [[a|s1] st1] eqn:Hst1.
  - exact (Hf _ _ _ _ Hrun).
  - injection Hrun as <- <-. exact (Hm _ _ _ Hst1).
Qed.

Lemma never_exits_state {A} (f : state → A * state) :
  never_exits (λ st, (Done (f st).1, (f st).2)).
Proof. by intros st s st' [=]. Qed.

Lemma never_exits_check_interrupt w src y i ph :
  never_exits (check_interrupt w src y i ph).
Proof.
  unfold check_interrupt. destruct (interrupt w src y i ph);
    [apply never_exits_raise | apply never_exits_ret].
Qed.

Lemma never_exits_for_each {A} (body : A → M unit) (l : list A) :
  (∀ x, never_exits (body x)) → never_exits (for_each body l).
Proof.
  intros Hbody. induction l as [|x l IH]; cbn [for_each].
  - apply never_exits_ret.
  - apply never_exits_bind; [apply Hbody | intros _; apply IH].
Qed.

Lemma never_exits_set_df d : never_exits (set_df d).
Proof. by intros st s st' [=]. Qed.
Lemma never_exits_set_cache src c : never_exits (set_cache src c).
Proof. by intros st s st' [=]. Qed.
Lemma never_exits_emit evs : never_exits (emit evs).
Proof. by intros st s st' [=]. Qed.
Lemma never_exits_save_checkpoint : never_exits save_checkpoint.
Proof. by intros st s st' [=]. Qed.
Lemma never_exits_save_cache src : never_exits (save_cache src).
Proof. by intros st s st' [=]. Qed.
Lemma never_exits_get_state : never_exits get_state.
Proof. by intros st s st' [=]. Qed.
End NeverExits.

(** A loop stops where its first stopping iteration stops. *)
Lemma for_each_stop {A} (body : A → M unit) (x : A) (rest : list A)
    (st st' : state) (s : stop) :
  body x st = (Stop s, st') → for_each body (x :: rest) st = (Stop s, st').
Proof. intros H. cbn [for_each]. unfold mbind, M_bind. by rewrite H. Qed.

Lemma for_each_continue {A} (body : A → M unit) (x : A) (rest : list A)
    (st st' : state) :
  body x st = (Done (), st') →
  for_each body (x :: rest) st = for_each body rest st'.
Proof. intros H. cbn [for_each]. unfold mbind, M_bind. by rewrite H. Qed.

Lemma for_each_stops_at {A} (body : A → M unit) (before : list A) (x : A)
    (after : list A) (st st1 st2 : state) (s : stop) :
  for_each body before st = (Done (), st1) →
  body x st1 = (Stop s, st2) →
  for_each body (before ++ x :: after) st = (Stop s, st2).
Proof.
  revert st. induction before as [|x0 before IH]; intros st Hbefore Hx.
  - injection Hbefore as ->. by apply for_each_stop.
  - cbn [for_each app] in *. unfold mbind, M_bind in *.
    destruct (body x0 st) as [[[]|s0] st0]; [by apply IH | done].
Qed.

(** ** The cache only grows: shared facts *)

Lemma grows_refl src w st : grows src w st st.
Proof.
  split; [done| |].
  - intros f Hf Hsub. by exists f.
  - exists []. split; [by rewrite app_nil_r|]. intros y lat lon Hin.
    by apply elem_of_nil in Hin.
Qed.

Lemma grows_trans src w st1 st2 st3 :
  grows src w st1 st2 → grows src w st2 st3 → grows src w st1 st3.
Proof.
  intros [Hc1 Hf1 (evs1 & Hl1 & Hq1)] [Hc2 Hf2 (evs2 & Hl2 & Hq2)].
  split.
  - by trans (cache_of src st2).
  - intros f Hf Hsub.
    destruct (Hf1 f Hf Hsub) as (f1 & Hfile1 & Hsub1 & Hmem1).
    destruct (Hf2 f1 Hfile1 Hmem1) as (f2 & Hfile2 & Hsub2 & Hmem2).
    exists f2. split; [done|]. split; [by trans f1 | done].
  - exists (evs1 ++ evs2). split; [by rewrite Hl2, Hl1, app_assoc|].
    intros y lat lon Hin. apply elem_of_app in Hin as [Hin|Hin].
    + by apply Hq1.
    + eapply lookup_weaken_None; [by apply Hq2 | done].
Qed.

Lemma only_requests_nil src y pt : only_requests src y pt [].
Proof. intros ev Hin. by apply elem_of_nil in Hin. Qed.

Lemma only_requests_cons src y pt ev evs :
  (ev = Request src y pt.1 pt.2 ∨ ∃ secs, ev = Sleep secs) →
  only_requests src y pt evs → only_requests src y pt (ev :: evs).
Proof. intros Hev Hevs ev' [->|Hin]%elem_of_cons; [done | by apply Hevs]. Qed.

Lemma only_requests_fresh src src' w y pt cache evs :
  only_requests src y pt evs →
  (src' = src → cache !! cache_key w y pt = None) →
  fresh_requests src' w cache evs.
Proof.
  intros Hevs Hmiss y' lat lon Hin.
  destruct (Hevs _ Hin) as [Heq|[secs Heq]]; [|done].
  injection Heq as -> -> -> ->. destruct pt as [plat plon]. by apply Hmiss.
Qed.

(** A transition that leaves the cache files alone, adds at most the entry of
    a missing key to the cache of [src], and logs one fetch of that key. *)
Lemma grows_fetch src' src w y pt st st' evs :
  cache_of src st !! cache_key w y pt = None →
  (cache_of src st' = cache_of src st ∨
   ∃ v, cache_of src st' = <[cache_key w y pt := v]> (cache_of src st)) →
  (src' ≠ src → cache_of src' st' = cache_of src' st) →
  cache_file src' st' = cache_file src' st →
  log st' = log st ++ evs →
  only_requests src y pt evs →
  grows src' w st st'.
Proof.
  intros Hmiss Hcache Hother Hfile Hlog Hevs.
  assert (cache_of src' st ⊆ cache_of src' st') as Hsub.
  { destruct (decide (src' = src)) as [->|Hne]; [|by rewrite Hother].
    destruct Hcache as [->|[v ->]]; [done | by apply insert_subseteq]. }
  split; [done | |].
  - intros f Hf Hmem. exists f. rewrite Hfile. split; [done|].
    split; [done | by trans (cache_of src' st)].
  - exists evs. split; [done|].
    eapply only_requests_fresh; [done|]. by intros ->.
Qed.

(** A transition that touches neither a cache nor its file and logs no
    request. *)
Lemma grows_quiet src w st st' evs :
  cache_of src st' = cache_of src st →
  cache_file src st' = cache_file src st →
  log st' = log st ++ evs →
  (∀ ev, ev ∈ evs → ∀ s y lat lon, ev ≠ Request s y lat lon) →
  grows src w st st'.
Proof.
  intros Hcache Hfile Hlog Hevs. split.
  - by rewrite Hcache.
  - intros f Hf Hmem. exists f. by rewrite Hfile, Hcache.
  - exists evs. split; [done|]. intros y lat lon Hin. by destruct (Hevs _ Hin src y lat lon).
Qed.

Lemma preserves_grows_set_df src w d : preserves (grows src w) (set_df d).
Proof.
  intros st r st' [= <- <-].
  apply (grows_quiet _ _ _ _ []); [by destruct src | by destruct src | |].
  - cbn. by rewrite app_nil_r.
  - intros ev Hin. by apply elem_of_nil in Hin.
Qed.

Lemma preserves_grows_sleep src w secs : preserves (grows src w) (sleep secs).
Proof.
  intros st r st' [= <- <-].
  apply (grows_quiet _ _ _ _ [Sleep secs]); [by destruct src | by destruct src | done |].
  by intros ev ->%list_elem_of_singleton.
Qed.

Lemma preserves_grows_save_checkpoint src w :
  preserves (grows src w) save_checkpoint.
Proof.
  intros st r st' [= <- <-].
  apply (grows_quiet _ _ _ _ [SaveCheckpoint]); [by destruct src | by destruct src | done |].
  by intros ev ->%list_elem_of_singleton.
Qed.

Lemma preserves_grows_save_cache src w src' :
  preserves (grows src w) (save_cache src').
Proof.
  intros st r st' [= <- <-]. split.
  - by destruct src, src'.
  - intros f Hf Hmem. destruct src, src'; cbn in *; eauto.
  - exists [SaveCache src']. split; [by destruct src'|].
    by intros y lat lon [=]%list_elem_of_singleton.
Qed.

Ltac grows_bind :=
  apply preserves_bind; [apply grows_trans | | intros ?].

Ltac grows_step :=
  first
    [ apply preserves_check_interrupt, grows_refl
    | apply preserves_grows_save_checkpoint
    | apply preserves_grows_save_cache
    | apply preserves_grows_sleep
    | apply preserves_grows_set_df
    | apply preserves_lift, grows_refl
    | apply preserves_ret, grows_refl
    | apply preserves_sys_exit, grows_refl
    | apply preserves_raise, grows_refl ].

(** ** The serial variant *)

Lemma serial_fetch_ndvi_loop_events w lat lon y remaining attempt delay :
  only_requests GEE y (lat, lon)
    (Serial.fetch_ndvi_loop w lat lon y remaining attempt delay).1.
Proof.
  revert attempt delay.
  induction remaining as [|remaining IH]; intros attempt delay;
    cbn [Serial.fetch_ndvi_loop].
  - apply only_requests_nil.
  - destruct (gee w y lat lon attempt) as [|[ndvi|]|msg]; cbn [fst];
      try (apply only_requests_cons; [by left | apply only_requests_nil]).
    destruct (Serial.is_rate_limit msg).
    + specialize (IH (S attempt) (delay * 2)).
      destruct (Serial.fetch_ndvi_loop w lat lon y remaining (S attempt) (delay * 2))
        as [evs r]. cbn [fst] in *.
      apply only_requests_cons; [by left|].
      apply only_requests_cons; [right; by eexists | done].
    + destruct (attempt =? max_retries - 1)%nat; cbn [fst].
      * apply only_requests_cons; [by left | apply only_requests_nil].
      * specialize (IH (S attempt) delay).
        destruct (Serial.fetch_ndvi_loop w lat lon y remaining (S attempt) delay)
          as [evs r]. cbn [fst] in *.
        by apply only_requests_cons; [left|].
Qed.

Lemma serial_fetch_ndvi_events w lat lon y :
  only_requests GEE y (lat, lon) (Serial.fetch_ndvi w lat lon y).1.
Proof. apply serial_fetch_ndvi_loop_events. Qed.

Lemma serial_fetch_temp_precip_events w lat lon y :
  only_requests OM y (lat, lon) (Serial.fetch_temp_precip w lat lon y).1.
Proof. apply only_requests_cons; [by left | apply only_requests_nil]. Qed.

(** A hit in [process_ndvi]: the cached value goes to every matching record;
    the cache, the files and the trace are untouched. *)
Lemma serial_ndvi_hit c w y i pt st cached :
  gee_cache st !! cache_key w y pt = Some cached →
  Serial.ndvi_step c w y i pt st
  = (Done (), {| df := loc_set (mask GEE y pt) (NDVI_COL c) cached (df st);
                 gee_cache := gee_cache st; om_cache := om_cache st;
                 SRC_CSV := SRC_CSV st; CHECKPOINT_CSV := CHECKPOINT_CSV st;
                 GEE_CACHE := GEE_CACHE st; OM_CACHE := OM_CACHE st;
                 log := log st |}).
Proof. intros Hhit. unfold Serial.ndvi_step. unfold_M. by rewrite Hhit. Qed.

(** A miss in [process_ndvi]: the fetched value goes to the cache and to
    every matching record. *)
Lemma serial_ndvi_miss c w y i pt st :
  gee_cache st !! cache_key w y pt = None →
  interrupt w GEE y i PhDispatch = false →
  let fetched := Serial.fetch_ndvi w pt.1 pt.2 y in
  Serial.ndvi_step c w y i pt st
  = (Done (),
     {| df := loc_set (mask GEE y pt) (NDVI_COL c) (of_opt fetched.2) (df st);
        gee_cache := <[cache_key w y pt := of_opt fetched.2]> (gee_cache st);
        om_cache := om_cache st;
        SRC_CSV := SRC_CSV st; CHECKPOINT_CSV := CHECKPOINT_CSV st;
        GEE_CACHE := GEE_CACHE st; OM_CACHE := OM_CACHE st;
        log := log st ++ fetched.1 |}).
Proof.
  intros Hmiss Hintr fetched. unfold Serial.ndvi_step. unfold_M.
  rewrite Hmiss, Hintr. subst fetched.
  by destruct (Serial.fetch_ndvi w pt.1 pt.2 y) as [evs ndvi].
Qed.

Lemma serial_ndvi_step_grows src c w y i pt :
  preserves (grows src w) (Serial.ndvi_step c w y i pt).
Proof.
  intros st r st' Hrun.
  destruct (gee_cache st !! cache_key w y pt) as [cached|] eqn:Hlook.
  - rewrite (serial_ndvi_hit _ _ _ _ _ _ _ Hlook) in Hrun.
    injection Hrun as <- <-.
    apply (grows_quiet _ _ _ _ []); [by destruct src | by destruct src | |].
    + cbn. by rewrite app_nil_r.
    + intros ev Hin. by apply elem_of_nil in Hin.
  - destruct (interrupt w GEE y i PhDispatch) eqn:Hintr.
    + unfold Serial.ndvi_step in Hrun. unfold_M. rewrite Hlook, Hintr in Hrun.
      injection Hrun as <- <-. apply grows_refl.
    + rewrite (serial_ndvi_miss _ _ _ _ _ _ Hlook Hintr) in Hrun.
      injection Hrun as <- <-.
      eapply (grows_fetch src GEE w y pt); [done | right; by eexists | | | done |].
      * by destruct src.
      * by destruct src.
      * destruct pt. apply serial_fetch_ndvi_events.
Qed.

Lemma serial_temp_precip_step_grows src c w y i pt :
  preserves (grows src w) (Serial.temp_precip_step c w y i pt).
Proof.
  intros st r st' Hrun. unfold Serial.temp_precip_step in Hrun. unfold_M.
  destruct (om_cache st !! cache_key w y pt) as [cached|] eqn:Hlook.
  - destruct (unpack2 cached) as [[temp precip]|e]; injection Hrun as <- <-.
    + apply (grows_quiet _ _ _ _ []); [by destruct src | by destruct src | |].
      * cbn. by rewrite app_nil_r.
      * intros ev Hin. by apply elem_of_nil in Hin.
    + apply grows_refl.
  - destruct (interrupt w OM y i PhDispatch) eqn:Hintr.
    + injection Hrun as <- <-. apply grows_refl.
    + pose proof (serial_fetch_temp_precip_events w pt.1 pt.2 y) as Hevs.
      destruct (Serial.fetch_temp_precip w pt.1 pt.2 y) as [evs [temp precip]].
      injection Hrun as <- <-.
      eapply (grows_fetch src OM w y pt); [done | right; by eexists | | | done |].
      * by destruct src.
      * by destruct src.
      * by destruct pt.
Qed.

Lemma serial_batch_grows src w src' step pause y b :
  (∀ i pt, preserves (grows src w) (step y i pt)) →
  preserves (grows src w) (Serial.batch w src' step pause y b).
Proof.
  intros Hstep. unfold Serial.batch.
  grows_bind; [grows_step|].
  grows_bind.
  { apply preserves_for_each; [apply grows_refl | apply grows_trans |].
    intros pt _. apply Hstep. }
  repeat (grows_bind; [grows_step|]). grows_step.
Qed.

Lemma serial_process_grows src c w src' step pause :
  (∀ y i pt, preserves (grows src w) (step y i pt)) →
  preserves (grows src w) (Serial.process c w src' step pause).
Proof.
  intros Hstep. unfold Serial.process.
  apply preserves_get_bind. intros st r st'.
  grows_bind; [grows_step|]. grows_bind; [grows_step|].
  apply preserves_for_each; [apply grows_refl | apply grows_trans |].
  intros y _. apply preserves_for_each; [apply grows_refl | apply grows_trans |].
  intros b _. by apply serial_batch_grows.
Qed.

Lemma serial_process_ndvi_grows src c w :
  preserves (grows src w) (Serial.process_ndvi c w).
Proof. apply serial_process_grows. intros y i pt. apply serial_ndvi_step_grows. Qed.

Lemma serial_process_temp_precip_grows src c w :
  preserves (grows src w) (Serial.process_temp_precip c w).
Proof.
  apply serial_process_grows. intros y i pt. apply serial_temp_precip_step_grows.
Qed.

(** ** The threaded variant: fetchers *)

Lemma threaded_fetch_ndvi_loop_spec c w lat lon y remaining attempt delay :
  (attempt + remaining = max_retries)%nat → (1 ≤ remaining)%nat →
  let r := Threaded.fetch_ndvi_single_loop c w lat lon y remaining attempt delay in
  only_requests GEE y (lat, lon) r.1 ∧ ndvi_result c r.2.
Proof.
  revert attempt delay.
  induction remaining as [|remaining IH]; intros attempt delay Hsum Hpos;
    [lia|].
  cbn [Threaded.fetch_ndvi_single_loop].
  assert (only_requests GEE y (lat, lon) [Request GEE y lat lon]) as Hone
    by (apply only_requests_cons; [by left | apply only_requests_nil]).
  destruct (gee w y lat lon attempt) as [|[ndvi|]|msg]; cbn [fst snd];
    try (split; [done | left; by eexists]).
  destruct (Threaded.is_rate_limit msg).
  - destruct (attempt <? max_retries - 1)%nat eqn:Hlt; cbn [fst snd];
      [|split; [done | by right]].
    apply Nat.ltb_lt in Hlt.
    destruct (IH (S attempt) (delay * 2)) as [Hevs Hres]; [lia..|].
    destruct (Threaded.fetch_ndvi_single_loop c w lat lon y remaining
                (S attempt) (delay * 2)) as [evs r]. cbn [fst snd] in *.
    split; [|done].
    apply only_requests_cons; [by left|].
    apply only_requests_cons; [right; by eexists | done].
  - destruct (attempt =? max_retries - 1)%nat eqn:Heq; cbn [fst snd];
      [split; [done | left; by eexists]|].
    apply Nat.eqb_neq in Heq.
    destruct (IH (S attempt) delay) as [Hevs Hres]; [lia..|].
    destruct (Threaded.fetch_ndvi_single_loop c w lat lon y remaining
                (S attempt) delay) as [evs r]. cbn [fst snd] in *.
    split; [|done]. by apply only_requests_cons; [left|].
Qed.

Lemma threaded_fetch_ndvi_spec c w lat lon y :
  only_requests GEE y (lat, lon) (Threaded.fetch_ndvi_single c w lat lon y).1 ∧
  ndvi_result c (Threaded.fetch_ndvi_single c w lat lon y).2.
Proof.
  apply (threaded_fetch_ndvi_loop_spec c w lat lon y max_retries 0 10);
    unfold max_retries; lia.
Qed.

Lemma foldl_py_add_raises (l : list (option Q)) (acc : res (option Q)) e :
  foldl (λ acc y, a ← acc; py_add a y) acc l = Raise e →
  acc = Raise e ∨ e = TypeError.
Proof.
  revert acc. induction l as [|y l IH]; intros acc Hfold; [by left|].
  cbn [foldl] in Hfold. apply IH in Hfold as [Hstep | ->]; [|by right].
  destruct acc as [a|e']; [|by left].
  cbn in Hstep. destruct a, y; cbn in Hstep; try done; injection Hstep as <-; by right.
Qed.

Lemma aggregates_raises js e : aggregates js = Raise e → e = TypeError.
Proof.
  unfold aggregates, precip_sum. destruct (precipitation_sum js) as [l|]; [|done].
  destruct (np_sum l) as [p|e'] eqn:Hsum; [done|]. intros [= <-].
  destruct l as [|x l]; [done|]. cbn in Hsum.
  by apply foldl_py_add_raises in Hsum as [?|?].
Qed.

Lemma threaded_fetch_temp_precip_loop_spec c w lat lon y remaining attempt :
  (attempt + remaining = max_retries)%nat → (1 ≤ remaining)%nat →
  let r := Threaded.fetch_temp_precip_single_loop c w lat lon y remaining attempt in
  only_requests OM y (lat, lon) r.1 ∧ temp_precip_result c r.2.
Proof.
  revert attempt.
  induction remaining as [|remaining IH]; intros attempt Hsum Hpos; [lia|].
  cbn [Threaded.fetch_temp_precip_single_loop].
  assert (only_requests OM y (lat, lon) [Request OM y lat lon]) as Hone
    by (apply only_requests_cons; [by left | apply only_requests_nil]).
  assert (∀ reply, reply ≠ OmStatus429 →
    let r := match Threaded.fetch_temp_precip_body reply with
             | Ok (temp_mean, precip_sum) =>
                 ([Request OM y lat lon],
                  Ok (PDict [(TEMP_COL c, of_opt temp_mean);
                             (PRECIP_COL c, of_opt precip_sum)]))
             | Raise e =>
                 if is_RuntimeError e then ([Request OM y lat lon], Raise e)
                 else if (attempt =? max_retries - 1)%nat
                 then ([Request OM y lat lon], Ok (Threaded.absent_temp_precip c))
                 else
                   let '(evs, r) :=
                     Threaded.fetch_temp_precip_single_loop c w lat lon y
                       remaining (S attempt) in
                   (Request OM y lat lon :: Sleep 5 :: evs, r)
             end in
    only_requests OM y (lat, lon) r.1 ∧ temp_precip_result c r.2) as Hbody.
  { intros reply Hreply.
    destruct (Threaded.fetch_temp_precip_body reply) as [[t p]|e] eqn:Hb;
      cbn [fst snd]; [split; [done | left; by do 2 eexists]|].
    assert (is_RuntimeError e = false) as ->.
    { destruct reply as [|msg|js]; [done|by injection Hb as <-|].
      cbn in Hb. by apply aggregates_raises in Hb as ->. }
    destruct (attempt =? max_retries - 1)%nat eqn:Heq; cbn [fst snd];
      [split; [done | left; by do 2 eexists]|].
    apply Nat.eqb_neq in Heq.
    destruct (IH (S attempt)) as [Hevs Hres]; [lia..|].
    destruct (Threaded.fetch_temp_precip_single_loop c w lat lon y remaining
                (S attempt)) as [evs r]. cbn [fst snd] in *.
    split; [|done].
    apply only_requests_cons; [by left|].
    apply only_requests_cons; [right; by eexists | done]. }
  destruct (om w y lat lon attempt) as [|msg|js] eqn:Hom;
    [|by apply Hbody..].
  destruct (attempt <? max_retries - 1)%nat eqn:Hlt; cbn [fst snd];
    [|split; [done | by right]].
  apply Nat.ltb_lt in Hlt.
  destruct (IH (S attempt)) as [Hevs Hres]; [lia..|].
  destruct (Threaded.fetch_temp_precip_single_loop c w lat lon y remaining
              (S attempt)) as [evs r]. cbn [fst snd] in *.
  split; [|done].
  apply only_requests_cons; [by left|].
  apply only_requests_cons; [right; by eexists | done].
Qed.

Lemma threaded_fetch_temp_precip_spec c w lat lon y :
  only_requests OM y (lat, lon) (Threaded.fetch_temp_precip_single c w lat lon y).1 ∧
  temp_precip_result c (Threaded.fetch_temp_precip_single c w lat lon y).2.
Proof.
  apply (threaded_fetch_temp_precip_loop_spec c w lat lon y max_retries 0);
    unfold max_retries; lia.
Qed.

Lemma ndvi_pipeline_well_behaved c w : well_behaved (Threaded.ndvi_pipeline c w).
Proof.
  split; cbn [Threaded.ndvi_pipeline Threaded.p_fetch Threaded.p_src
              Threaded.p_absent].
  - intros lat lon y. apply threaded_fetch_ndvi_spec.
  - intros lat lon y v Hv.
    destruct (threaded_fetch_ndvi_spec c w lat lon y) as [_ [[x Hx]|Hx]];
      rewrite Hx in Hv; [|done]. injection Hv as <-. by eexists.
  - intros lat lon y e He.
    destruct (threaded_fetch_ndvi_spec c w lat lon y) as [_ [[x Hx]|Hx]];
      rewrite Hx in He; [done|]. by injection He as <-.
  - by eexists.
Qed.

Lemma temp_precip_pipeline_well_behaved c w :
  well_behaved (Threaded.temp_precip_pipeline c w).
Proof.
  split; cbn [Threaded.temp_precip_pipeline Threaded.p_fetch Threaded.p_src
              Threaded.p_absent].
  - intros lat lon y. apply threaded_fetch_temp_precip_spec.
  - intros lat lon y v Hv.
    destruct (threaded_fetch_temp_precip_spec c w lat lon y) as [_ [(t & p & Hx)|Hx]];
      rewrite Hx in Hv; [|done]. injection Hv as <-. by eexists.
  - intros lat lon y e He.
    destruct (threaded_fetch_temp_precip_spec c w lat lon y) as [_ [(t & p & Hx)|Hx]];
      rewrite Hx in He; [done|]. by injection He as <-.
  - by eexists.
Qed.

(** ** The threaded variant: one batch *)

Lemma same_store_refl st : same_store st st.
Proof. by repeat split. Qed.

Lemma same_store_trans st1 st2 st3 :
  same_store st1 st2 → same_store st2 st3 → same_store st1 st3.
Proof.
  intros (?&?&?&?&?) (?&?&?&?&?). repeat split; congruence.
Qed.

Lemma same_store_cache src st st' :
  same_store st st' → cache_of src st' = cache_of src st.
Proof. intros (?&?&?&?&?). by destruct src. Qed.

Lemma same_store_file src st st' :
  same_store st st' → cache_file src st' = cache_file src st.
Proof. intros (?&?&?&?&?). by destruct src. Qed.

Lemma same_store_grows src w st st' : same_store st st' → grows src w st st'.
Proof.
  intros Hsame. apply (grows_quiet _ _ _ _ []).
  - by apply same_store_cache.
  - by apply same_store_file.
  - destruct Hsame as (?&?&?&?&->). by rewrite app_nil_r.
  - intros ev Hin. by apply elem_of_nil in Hin.
Qed.

Section ThreadedBatch.
Context (c : Config) (w : world) (p : Threaded.pipeline).
#[local] Abbreviation src := (Threaded.p_src p).

Lemma threaded_lookup_hit y to_fetch pt st d :
  cache_of src st !! cache_key w y pt = Some (PDict d) →
  Threaded.lookup_step w p y to_fetch pt st
  = (Done to_fetch,
     {| df := loc_set_items (mask src y pt) d (df st);
        gee_cache := gee_cache st; om_cache := om_cache st;
        SRC_CSV := SRC_CSV st; CHECKPOINT_CSV := CHECKPOINT_CSV st;
        GEE_CACHE := GEE_CACHE st; OM_CACHE := OM_CACHE st;
        log := log st |}).
Proof. intros Hhit. unfold Threaded.lookup_step. unfold_M. by rewrite Hhit. Qed.

Lemma threaded_lookup_not_dict y to_fetch pt st v :
  cache_of src st !! cache_key w y pt = Some v →
  items v = Raise AttributeError →
  Threaded.lookup_step w p y to_fetch pt st = (Stop (Uncaught AttributeError), st).
Proof.
  intros Hhit Hitems. unfold Threaded.lookup_step. unfold_M.
  by rewrite Hhit, Hitems.
Qed.

Lemma threaded_lookup_miss y to_fetch pt st :
  cache_of src st !! cache_key w y pt = None →
  Threaded.lookup_step w p y to_fetch pt st = (Done (to_fetch ++ [pt]), st).
Proof. intros Hmiss. unfold Threaded.lookup_step. unfold_M. by rewrite Hmiss. Qed.

Lemma threaded_lookup_step_run y to_fetch pt st r st' :
  Threaded.lookup_step w p y to_fetch pt st = (r, st') →
  same_store st st' ∧
  ∀ to_fetch', r = Done to_fetch' →
    to_fetch' = to_fetch ∨
    (to_fetch' = to_fetch ++ [pt] ∧
     cache_of src st !! cache_key w y pt = None).
Proof.
  intros Hrun.
  destruct (cache_of src st !! cache_key w y pt) as [v|] eqn:Hlook.
  - unfold Threaded.lookup_step in Hrun. unfold_M. rewrite Hlook in Hrun.
    destruct (items v) as [d|e]; injection Hrun as <- <-.
    + split; [by repeat split|]. intros ? [= <-]. by left.
    + split; [apply same_store_refl | done].
  - rewrite (threaded_lookup_miss _ _ _ _ Hlook) in Hrun.
    injection Hrun as <- <-. split; [apply same_store_refl|].
    intros ? [= <-]. by right.
Qed.

Lemma threaded_lookup_all_run y pts to_fetch st r st' :
  Threaded.lookup_all w p y to_fetch pts st = (r, st') →
  same_store st st' ∧
  ∀ to_fetch', r = Done to_fetch' →
    ∀ pt, pt ∈ to_fetch' →
      pt ∈ to_fetch ∨ cache_of src st !! cache_key w y pt = None.
Proof.
  revert to_fetch st. induction pts as [|pt pts IH]; intros to_fetch st Hrun.
  - injection Hrun as <- <-. split; [apply same_store_refl|].
    intros ? [= <-] pt Hin. by left.
  - cbn [Threaded.lookup_all] in Hrun. unfold mbind, M_bind in Hrun.
    destruct (Threaded.lookup_step w p y to_fetch pt st) as [[tf1|s] st1] eqn:Hstep.
    + apply threaded_lookup_step_run in Hstep as [Hsame1 Htf1].
      apply IH in Hrun as [Hsame2 Htf2].
      split; [by eapply same_store_trans|].
      intros tf' -> pt' Hin.
      destruct (Htf2 _ eq_refl pt' Hin) as [Hin1|Hnone].
      * destruct (Htf1 _ eq_refl) as [->|[-> Hmiss]]; [by left|].
        apply elem_of_app in Hin1 as [?| ->%list_elem_of_singleton];
          [by left | by right].
      * right. by rewrite <- (same_store_cache src _ _ Hsame1).
    + injection Hrun as <- <-.
      apply threaded_lookup_step_run in Hstep as [Hsame1 _]. by split.
Qed.

(** Every submitted point is fetched; the events are those of the
    fetches. *)
Lemma threaded_submit_all_spec y to_fetch :
  well_behaved p →
  let submitted := Threaded.submit_all p y to_fetch in
  (∀ ev, ev ∈ submitted.1 →
     (∃ pt, pt ∈ to_fetch ∧ ev = Request src y pt.1 pt.2) ∨
     ∃ secs, ev = Sleep secs) ∧
  (∀ pt r, (pt, r) ∈ submitted.2 →
     pt ∈ to_fetch ∧ r = (Threaded.p_fetch p pt.1 pt.2 y).2) ∧
  (∀ pt, pt ∈ to_fetch →
     (pt, (Threaded.p_fetch p pt.1 pt.2 y).2) ∈ submitted.2).
Proof.
  intros Hwb. induction to_fetch as [|pt to_fetch IH]; cbn zeta.
  - split; [|split]; cbn; intros; by decompose_list_elem_of.
  - destruct IH as (IHev & IHres & IHin).
    cbn [Threaded.submit_all foldr].
    fold (Threaded.submit_all p y to_fetch).
    pose proof (wb_events p Hwb pt.1 pt.2 y) as Hevs.
    destruct (Threaded.p_fetch p pt.1 pt.2 y) as [evs r] eqn:Hfetch.
    cbn [fst snd] in *. split; [|split].
    + intros ev [Hin|Hin]%elem_of_app.
      * destruct (Hevs _ Hin) as [->|?]; [|by right].
        left. exists pt. split; [by left | done].
      * destruct (IHev _ Hin) as [(pt' & Hpt' & ->)|?]; [|by right].
        left. exists pt'. split; [by right | done].
    + intros pt' r' [[= -> ->]|Hin]%elem_of_cons.
      * split; [by left | by rewrite Hfetch].
      * destruct (IHres _ _ Hin). split; [by right | done].
    + intros pt' [->|Hin]%elem_of_cons.
      * rewrite Hfetch. by left.
      * right. by apply IHin.
Qed.

Lemma dict_set_elem k v d entry :
  entry ∈ Threaded.dict_set k v d →
  (entry ∈ d ∨ entry.2 = v) ∧ (entry.1 = k ∨ entry.1 ∈ d.*1).
Proof.
  induction d as [|[k' v'] d IH]; cbn [Threaded.dict_set].
  - intros ->%list_elem_of_singleton. split; [by right | by left].
  - destruct (cell_eqb k' k).
    + intros [->|Hin]%elem_of_cons.
      * split; [by right | right; cbn; by left].
      * split; [left; by right | right; cbn; right; by apply list_elem_of_fmap_2].
    + intros [->|Hin]%elem_of_cons.
      * split; [left; by left | right; cbn; by left].
      * destruct (IH Hin) as [Hv Hk]. split.
        -- destruct Hv; [left; by right | by right].
        -- destruct Hk; [by left | right; cbn; by right].
Qed.

(** The loop over the completed futures either returns entries for
    completed points, each holding a [dict], or flushes and exits. *)
Lemma threaded_collect_run done new_data st r st' :
  (∀ pt res, (pt, res) ∈ done →
     (∀ v, res = Ok v → ∃ d, v = PDict d) ∧
     (∀ e, res = Raise e → is_Exception e = true)) →
  (∃ d, Threaded.p_absent p = PDict d) →
  Threaded.collect p new_data done st = (r, st') →
  (∃ new_data', r = Done new_data' ∧ st' = st ∧
     ∀ entry, entry ∈ new_data' →
       (entry ∈ new_data ∨ ∃ d, entry.2 = PDict d) ∧
       (entry.1 ∈ new_data.*1 ∨ entry.1 ∈ done.*1)) ∨
  (r = Stop (SysExit 1) ∧ st' = flushed src st).
Proof.
  intros Hdone Habsent. revert new_data.
  induction done as [|[pt res] done IH]; intros new_data Hrun.
  - injection Hrun as <- <-. left. eexists. split; [done|]. split; [done|].
    intros entry Hin. split; [by left | left; by apply list_elem_of_fmap_2].
  - assert (∀ nd, Threaded.collect p nd done st = (r, st') →
              (∀ entry, entry ∈ nd →
                 (entry ∈ new_data ∨ ∃ d, entry.2 = PDict d) ∧
                 (entry.1 ∈ new_data.*1 ∨ entry.1 = pt)) →
              (∃ new_data', r = Done new_data' ∧ st' = st ∧
                 ∀ entry, entry ∈ new_data' →
                   (entry ∈ new_data ∨ ∃ d, entry.2 = PDict d) ∧
                   (entry.1 ∈ new_data.*1 ∨ entry.1 ∈ ((pt, res) :: done).*1)) ∨
              (r = Stop (SysExit 1) ∧ st' = flushed src st)) as Hrest.
    { intros nd Hnd Hentries.
      assert (∀ pt' res', (pt', res') ∈ done →
                (∀ v, res' = Ok v → ∃ d, v = PDict d) ∧
                (∀ e, res' = Raise e → is_Exception e = true)) as Hdone'.
      { intros pt' res' Hin. apply (Hdone pt' res'). by right. }
      destruct (IH Hdone' _ Hnd) as [(nd' & -> & -> & Hnd')|?]; [|by right].
      left. eexists. split; [done|]. split; [done|].
      intros entry Hin. destruct (Hnd' _ Hin) as [Hv Hk]. split.
      - destruct Hv as [Hv|?]; [|by right]. by destruct (Hentries _ Hv).
      - destruct Hk as [Hk|Hk].
        + apply list_elem_of_fmap in Hk as (e' & -> & He').
          destruct (Hentries _ He') as [_ [?| ->]];
            [by left | right; cbn; by left].
        + right. cbn. by right. }
    destruct (Hdone pt res) as [Hok Hraise]; [by left|].
    cbn [Threaded.collect] in Hrun. destruct res as [vals|e].
    + apply Hrest in Hrun; [done|].
      intros entry [Hv Hk]%dict_set_elem. split.
      * destruct Hv as [?| ->]; [by left | right; by apply Hok].
      * destruct Hk; [by right | by left].
    + rewrite (Hraise e eq_refl) in Hrun.
      destruct (is_RuntimeError e).
      * destruct (contains (Threaded.p_marker p) (exn_str e)).
        -- injection Hrun as <- <-. by right.
        -- apply Hrest in Hrun; [done|]. intros entry Hin.
           split; [by left|]. left. by apply list_elem_of_fmap_2.
      * apply Hrest in Hrun; [done|].
        intros entry [Hv Hk]%dict_set_elem. split.
        -- destruct Hv as [?| ->]; [by left | by right].
        -- destruct Hk; [by right | by left].
Qed.

(** An exhausted rate limit among the completed futures stops the loop:
    flush, then [sys.exit(1)]. *)
Lemma threaded_collect_rate_limit done new_data st pt msg :
  (∀ pt res e, (pt, res) ∈ done → res = Raise e → is_Exception e = true) →
  (pt, Raise (RuntimeError msg)) ∈ done →
  contains (Threaded.p_marker p) msg = true →
  Threaded.collect p new_data done st = (Stop (SysExit 1), flushed src st).
Proof.
  intros Hexc Hin Hmarker. revert new_data.
  induction done as [|[pt' res] done IH]; intros new_data;
    [by apply elem_of_nil in Hin|].
  assert (∀ nd, (pt, Raise (RuntimeError msg)) ∈ done →
            Threaded.collect p nd done st = (Stop (SysExit 1), flushed src st))
    as Hrest.
  { intros nd Hin'. apply IH; [|done].
    intros pt1 res1 e1 Hin1. apply (Hexc pt1). by right. }
  cbn [Threaded.collect]. destruct res as [vals|e].
  - apply elem_of_cons in Hin as [[=]|Hin]. by apply Hrest.
  - rewrite (Hexc pt' (Raise e) e) by (done || by left).
    destruct (is_RuntimeError e) eqn:Hrt.
    + destruct (contains (Threaded.p_marker p) (exn_str e)) eqn:Hm; [done|].
      apply elem_of_cons in Hin as [[= -> <-]|Hin]; [|by apply Hrest].
      cbn in Hm. congruence.
    + apply elem_of_cons in Hin as [[= -> <-]|Hin]; [done | by apply Hrest].
Qed.

Lemma threaded_merge_run y new_data cache0 st r st' :
  (∀ entry, entry ∈ new_data → cache0 !! cache_key w y entry.1 = None) →
  cache0 ⊆ cache_of src st →
  for_each (Threaded.merge_step w p y) new_data st = (r, st') →
  cache0 ⊆ cache_of src st' ∧
  (∀ s, s ≠ src → cache_of s st' = cache_of s st) ∧
  (∀ s, cache_file s st' = cache_file s st) ∧
  log st' = log st.
Proof.
  revert st. induction new_data as [|entry new_data IH]; intros st Hnew Hsub Hrun.
  - by injection Hrun as <- <-.
  - cbn [for_each] in Hrun. unfold mbind at 1, M_bind at 1 in Hrun.
    assert (∀ r1 st1, Threaded.merge_step w p y entry st = (r1, st1) →
              cache0 ⊆ cache_of src st1 ∧
              (∀ s, s ≠ src → cache_of s st1 = cache_of s st) ∧
              (∀ s, cache_file s st1 = cache_file s st) ∧
              log st1 = log st) as Hstep.
    { intros r1 st1 Hstep. unfold Threaded.merge_step in Hstep. unfold_M.
      assert (cache0 ⊆ <[cache_key w y entry.1 := entry.2]> (cache_of src st))
        as Hins by (apply insert_subseteq_r; [apply Hnew; by left | done]).
      destruct (items entry.2) as [kvs|e]; injection Hstep as <- <-;
        (split; [by destruct src|]); (split; [intros s Hs; by destruct s, src|]);
        (split; [intros s; by destruct s, src | by destruct src]). }
    destruct (Threaded.merge_step w p y entry st) as [[[]|s] st1] eqn:Hm;
      cbn [fst snd] in Hrun.
    + destruct (Hstep _ _ eq_refl) as (Hsub1 & Hother1 & Hfile1 & Hlog1).
      apply IH in Hrun as (Hsub2 & Hother2 & Hfile2 & Hlog2);
        [|intros e He; apply Hnew; by right | done].
      split; [done|]. split; [|split].
      * intros s Hs. by rewrite Hother2, Hother1.
      * intros s. by rewrite Hfile2, Hfile1.
      * by rewrite Hlog2, Hlog1.
    + injection Hrun as <- <-. by apply (Hstep _ _ eq_refl).
Qed.

Lemma threaded_merge_grows src' y new_data st r st' :
  (∀ entry, entry ∈ new_data →
     cache_of src st !! cache_key w y entry.1 = None) →
  for_each (Threaded.merge_step w p y) new_data st = (r, st') →
  grows src' w st st'.
Proof.
  intros Hnew Hrun.
  apply (threaded_merge_run _ _ (cache_of src st)) in Hrun
    as (Hsub & Hother & Hfile & Hlog); [|done..].
  assert (cache_of src' st ⊆ cache_of src' st') as Hsub'.
  { destruct (decide (src' = src)) as [->|Hne]; [done | by rewrite Hother]. }
  split; [done| |].
  - intros f Hf Hmem. exists f. rewrite Hfile. split; [done|].
    split; [done | by trans (cache_of src' st)].
  - exists []. rewrite Hlog, app_nil_r. split; [done|].
    intros y' lat lon Hin. by apply elem_of_nil in Hin.
Qed.

Lemma grows_flushed src' st : grows src' w st (flushed src st).
Proof.
  unfold flushed. eapply grows_trans.
  - by apply (preserves_grows_save_checkpoint src' w st (Done ())).
  - by apply (preserves_grows_save_cache src' w src _ (Done ())).
Qed.

Lemma threaded_batch_unfold y b st :
  Threaded.batch w p y b st
  = if interrupt w src y b.1 PhLookup then (Stop (Uncaught KeyboardInterrupt), st)
    else match Threaded.lookup_all w p y [] b.2 st with
         | (Done [], st1) => (Done (), st1)
         | (Done (pt :: to_fetch), st1) =>
             Threaded.dispatch w p y b.1 (pt :: to_fetch) st1
         | (Stop s, st1) => (Stop s, st1)
         end.
Proof.
  unfold Threaded.batch. unfold mbind at 1, M_bind at 1.
  unfold check_interrupt. destruct (interrupt w src y b.1 PhLookup); [done|].
  cbn. unfold mbind at 1, M_bind at 1.
  by destruct (Threaded.lookup_all w p y [] b.2 st) as [[[|pt tf]|s] st1].
Qed.

Lemma threaded_dispatch_interrupted y i to_fetch st :
  interrupt w src y i PhDispatch = true →
  Threaded.dispatch w p y i to_fetch st
  = (Stop (SysExit 0),
     flushed src (logged (Threaded.submit_all p y to_fetch).1 st)).
Proof.
  intros Hintr. unfold Threaded.dispatch.
  destruct (Threaded.submit_all p y to_fetch) as [evs results].
  by rewrite Hintr.
Qed.

Lemma threaded_dispatch_rate_limited y i to_fetch st pt msg :
  well_behaved p → completes_submitted w →
  interrupt w src y i PhDispatch = false →
  pt ∈ to_fetch →
  (Threaded.p_fetch p pt.1 pt.2 y).2 = Raise (RuntimeError msg) →
  contains (Threaded.p_marker p) msg = true →
  Threaded.dispatch w p y i to_fetch st
  = (Stop (SysExit 1),
     flushed src (logged (Threaded.submit_all p y to_fetch).1 st)).
Proof.
  intros Hwb Hperm Hintr Hpt Hfetch Hmarker. unfold Threaded.dispatch.
  unfold completes_submitted in Hperm.
  destruct (threaded_submit_all_spec y to_fetch Hwb) as (_ & Hres & Hin).
  destruct (Threaded.submit_all p y to_fetch) as [evs results].
  cbn [fst snd] in *. rewrite Hintr.
  unfold mbind at 1, M_bind at 1. cbn [emit].
  unfold mbind at 1, M_bind at 1.
  rewrite (threaded_collect_rate_limit _ _ _ pt msg); [done| | |done].
  - intros pt' res e Hdone ->. rewrite Hperm in Hdone.
    destruct (Hres _ _ Hdone) as [_ He].
    by apply (wb_raises p Hwb pt'.1 pt'.2 y).
  - rewrite Hperm. rewrite <- Hfetch. by apply Hin.
Qed.

Lemma threaded_dispatch_grows src' y i to_fetch :
  well_behaved p → completes_submitted w →
  ∀ st r st',
    (∀ pt, pt ∈ to_fetch → cache_of src st !! cache_key w y pt = None) →
    Threaded.dispatch w p y i to_fetch st = (r, st') → grows src' w st st'.
Proof.
  intros Hwb Hperm st r st' Hmiss Hrun. unfold Threaded.dispatch in Hrun.
  unfold completes_submitted in Hperm.
  destruct (threaded_submit_all_spec y to_fetch Hwb) as (Hevs & Hres & _).
  destruct (Threaded.submit_all p y to_fetch) as [evs results].
  cbn [fst snd] in *.
  unfold mbind at 1, M_bind at 1 in Hrun. cbn [emit] in Hrun.
  set (st2 := {| df := df st; gee_cache := gee_cache st;
                 om_cache := om_cache st; SRC_CSV := SRC_CSV st;
                 CHECKPOINT_CSV := CHECKPOINT_CSV st;
                 GEE_CACHE := GEE_CACHE st; OM_CACHE := OM_CACHE st;
                 log := log st ++ evs |}) in *.
  assert (grows src' w st st2) as G2.
  { split; [by destruct src' | |].
    - intros f Hf Hmem. exists f. by destruct src'.
    - exists evs. split; [done|]. intros y' lat lon Hin.
      destruct (Hevs _ Hin) as [(pt & Hpt & Heq)|[secs Heq]]; [|done].
      injection Heq as -> -> -> ->. destruct pt as [plat plon].
      by apply Hmiss. }
  apply (grows_trans _ _ _ _ _ G2).
  unfold mbind at 1, M_bind at 1 in Hrun.
  destruct (interrupt w src y i PhDispatch).
  { injection Hrun as <- <-. apply grows_flushed. }
  destruct (Threaded.collect p [] (as_completed w results) st2)
    as [[new_data|s] st3] eqn:Hcollect.
  - apply threaded_collect_run in Hcollect
      as [(nd' & [= <-] & -> & Hnd')|[[=] _]].
    2:{ intros pt res Hdone. rewrite Hperm in Hdone.
        destruct (Hres _ _ Hdone) as [_ ->]. split.
        - intros v. apply (wb_returns p Hwb).
        - intros e. apply (wb_raises p Hwb). }
    2:{ apply (wb_absent p Hwb). }
    unfold mbind at 1, M_bind at 1 in Hrun.
    destruct (for_each (Threaded.merge_step w p y) new_data st2)
      as [[[]|s] st4] eqn:Hmerge.
    + eapply grows_trans.
      * eapply threaded_merge_grows; [|done].
        intros entry Hentry. destruct (Hnd' _ Hentry) as [_ [Hk|Hk]];
          [by apply elem_of_nil in Hk|].
        apply list_elem_of_fmap in Hk as ([pt res] & -> & Hdone).
        rewrite Hperm in Hdone. destruct (Hres _ _ Hdone) as [Hpt _].
        change (cache_of src st !! cache_key w y pt = None). by apply Hmiss.
      * revert Hrun. generalize st4 r st'. change (preserves (grows src' w)
          (check_interrupt w src y i PhPersist ≫= λ _,
           save_checkpoint ≫= λ _, save_cache src ≫= λ _,
           sleep (Threaded.p_pause p))).
        repeat (grows_bind; [grows_step|]). grows_step.
    + injection Hrun as <- <-. eapply threaded_merge_grows; [|done].
      intros entry Hentry. destruct (Hnd' _ Hentry) as [_ [Hk|Hk]];
        [by apply elem_of_nil in Hk|].
      apply list_elem_of_fmap in Hk as ([pt res] & -> & Hdone).
      rewrite Hperm in Hdone. destruct (Hres _ _ Hdone) as [Hpt _].
      change (cache_of src st !! cache_key w y pt = None). by apply Hmiss.
  - injection Hrun as <- <-.
    apply threaded_collect_run in Hcollect
      as [(nd' & [=] & _)|[_ ->]]; [apply grows_flushed| |].
    + intros pt res Hdone. rewrite Hperm in Hdone.
      destruct (Hres _ _ Hdone) as [_ ->]. split.
      * intros v. apply (wb_returns p Hwb).
      * intros e. apply (wb_raises p Hwb).
    + apply (wb_absent p Hwb).
Qed.

Lemma threaded_batch_grows src' y b :
  well_behaved p → completes_submitted w →
  preserves (grows src' w) (Threaded.batch w p y b).
Proof.
  intros Hwb Hperm st r st'. rewrite threaded_batch_unfold.
  destruct (interrupt w src y b.1 PhLookup).
  { intros [= <- <-]. apply grows_refl. }
  destruct (Threaded.lookup_all w p y [] b.2 st) as [[to_fetch|s] st1] eqn:Hlook.
  - apply threaded_lookup_all_run in Hlook as [Hsame Hmiss].
    pose proof (same_store_grows src' w _ _ Hsame) as G1.
    destruct to_fetch as [|pt to_fetch]; [by intros [= <- <-]|].
    intros Hrun. apply (grows_trans _ _ _ _ _ G1).
    eapply threaded_dispatch_grows; [done..| |done].
    intros pt' Hpt'. rewrite (same_store_cache src _ _ Hsame).
    destruct (Hmiss _ eq_refl pt' Hpt') as [Hnil|?]; [|done].
    by apply elem_of_nil in Hnil.
  - apply threaded_lookup_all_run in Hlook as [Hsame _].
    intros [= <- <-]. by apply same_store_grows.
Qed.

Lemma threaded_process_grows src' :
  well_behaved p → completes_submitted w →
  preserves (grows src' w) (Threaded.process c w p).
Proof.
  intros Hwb Hperm. unfold Threaded.process.
  apply preserves_get_bind. intros st r st'.
  grows_bind; [grows_step|]. grows_bind; [grows_step|].
  apply preserves_for_each; [apply grows_refl | apply grows_trans |].
  intros y _. apply preserves_for_each; [apply grows_refl | apply grows_trans |].
  intros b _. by apply threaded_batch_grows.
Qed.
End ThreadedBatch.

(** ** Whole runs *)

(** The three loads at the start of [main] leave the cache files as they
    found them, and the cache in memory equal to its file. *)
Lemma loads_run c src f (rest : M unit) st r st' :
  cache_file src st = Some f →
  (load_or_create_checkpoint c ≫= λ _,
   load_or_create_cache GEE ≫= λ _,
   load_or_create_cache OM ≫= λ _, rest) st = (r, st') →
  ∃ evs st1, rest st1 = (r, st') ∧
    cache_file src st1 = Some f ∧ cache_of src st1 = f ∧
    log st1 = log st ++ evs ∧
    ∀ ev, ev ∈ evs → ∀ s y lat lon, ev ≠ Request s y lat lon.
Proof.
  intros Hfile Hrun.
  unfold load_or_create_checkpoint, load_or_create_cache in Hrun.
  unfold_M. unfold set_df, set_cache, save_checkpoint, save_cache in Hrun.
  exists ((if CHECKPOINT_CSV st is Some _ then [] else [SaveCheckpoint]) ++
          (if GEE_CACHE st is Some _ then [] else [SaveCache GEE]) ++
          (if OM_CACHE st is Some _ then [] else [SaveCache OM])).
  destruct (CHECKPOINT_CSV st) as [table|] eqn:Hck; cbn in Hrun;
    destruct (GEE_CACHE st) as [g|] eqn:Hg; cbn in Hrun;
    destruct (OM_CACHE st) as [o|] eqn:Ho; cbn in Hrun;
    (eexists; split; [exact Hrun|]);
    destruct src; cbn in *; simplify_eq; (split; [done|]); (split; [done|]).
  all: split; [by rewrite <- ?app_assoc, ?app_nil_r|].
  all: intros ev Hin s y lat lon ->.
  all: repeat (apply elem_of_cons in Hin as [Hin|Hin]; [discriminate|]).
  all: by apply elem_of_nil in Hin.
Qed.

Lemma main_file_grows c w src f (process_ndvi process_temp_precip : M unit)
    st r st' :
  preserves (grows src w) process_ndvi →
  preserves (grows src w) process_temp_precip →
  cache_file src st = Some f →
  (load_or_create_checkpoint c ≫= λ _,
   load_or_create_cache GEE ≫= λ _,
   load_or_create_cache OM ≫= λ _,
   process_ndvi ≫= λ _,
   process_temp_precip ≫= λ _,
   save_checkpoint) st = (r, st') →
  file_grows src w f st st'.
Proof.
  intros Hn Ht Hfile Hrun.
  apply (loads_run c src f) in Hrun
    as (evs0 & st1 & Hrun & Hfile1 & Hcache1 & Hlog1 & Hevs0); [|done].
  assert (preserves (grows src w)
            (process_ndvi ≫= λ _, process_temp_precip ≫= λ _, save_checkpoint))
    as Hrest.
  { grows_bind; [done|]. grows_bind; [done|]. grows_step. }
  destruct (Hrest _ _ _ Hrun) as [Hc Hf (evs & Hlog & Hfresh)].
  destruct (Hf f Hfile1) as (f' & Hfile' & Hsub & _); [by rewrite Hcache1|].
  split; [by exists f'|].
  exists (evs0 ++ evs). split; [by rewrite Hlog, Hlog1, app_assoc|].
  intros y lat lon [Hin|Hin]%elem_of_app.
  - by destruct (Hevs0 _ Hin src y lat lon).
  - rewrite <- Hcache1. by apply Hfresh.
Qed.

Lemma never_exits_get_bind {B} (f : state → M B) :
  (∀ st, never_exits (f st)) → never_exits (get_state ≫= f).
Proof. intros Hf. apply never_exits_bind; [apply never_exits_get_state | done]. Qed.

Ltac never_exits_step :=
  first
    [ apply never_exits_check_interrupt
    | apply never_exits_save_checkpoint
    | apply never_exits_save_cache
    | apply never_exits_set_df
    | apply never_exits_set_cache
    | apply never_exits_emit
    | apply never_exits_lift
    | apply never_exits_ret
    | apply never_exits_raise ].

Ltac never_exits_bind :=
  apply never_exits_bind; [| intros ?].

Lemma serial_ndvi_step_never_exits c w y i pt :
  never_exits (Serial.ndvi_step c w y i pt).
Proof.
  unfold Serial.ndvi_step. apply never_exits_get_bind. intros st.
  destruct (gee_cache st !! cache_key w y pt); [never_exits_step|].
  never_exits_bind; [never_exits_step|].
  destruct (Serial.fetch_ndvi w pt.1 pt.2 y) as [evs ndvi].
  repeat (never_exits_bind; [never_exits_step|]). never_exits_step.
Qed.

Lemma serial_temp_precip_step_never_exits c w y i pt :
  never_exits (Serial.temp_precip_step c w y i pt).
Proof.
  unfold Serial.temp_precip_step. apply never_exits_get_bind. intros st.
  destruct (om_cache st !! cache_key w y pt).
  - never_exits_bind; [never_exits_step|]. destruct a. never_exits_step.
  - never_exits_bind; [never_exits_step|].
    destruct (Serial.fetch_temp_precip w pt.1 pt.2 y) as [evs [temp precip]].
    repeat (never_exits_bind; [never_exits_step|]). never_exits_step.
Qed.

Lemma serial_process_never_exits c w src step pause :
  (∀ y i pt, never_exits (step y i pt)) →
  never_exits (Serial.process c w src step pause).
Proof.
  intros Hstep. unfold Serial.process. apply never_exits_get_bind. intros st.
  repeat (never_exits_bind; [never_exits_step|]).
  apply never_exits_for_each. intros y. apply never_exits_for_each. intros b.
  unfold Serial.batch.
  never_exits_bind; [never_exits_step|].
  never_exits_bind; [by apply never_exits_for_each|].
  repeat (never_exits_bind; [never_exits_step|]). apply never_exits_emit.
Qed.

Lemma load_or_create_checkpoint_never_exits c :
  never_exits (load_or_create_checkpoint c).
Proof.
  unfold load_or_create_checkpoint. apply never_exits_get_bind. intros st.
  destruct (CHECKPOINT_CSV st); [never_exits_step|].
  never_exits_bind; never_exits_step.
Qed.

Lemma load_or_create_cache_never_exits src :
  never_exits (load_or_create_cache src).
Proof.
  unfold load_or_create_cache. apply never_exits_get_bind. intros st.
  destruct src; [destruct (GEE_CACHE st) | destruct (OM_CACHE st)];
    try never_exits_step; never_exits_bind; never_exits_step.
Qed.

Lemma serial_main_never_exits c w : never_exits (Serial.main c w).
Proof.
  unfold Serial.main.
  never_exits_bind; [apply load_or_create_checkpoint_never_exits|].
  do 2 (never_exits_bind; [apply load_or_create_cache_never_exits|]).
  never_exits_bind.
  { apply serial_process_never_exits. intros y i pt.
    apply serial_ndvi_step_never_exits. }
  never_exits_bind.
  { apply serial_process_never_exits. intros y i pt.
    apply serial_temp_precip_step_never_exits. }
  never_exits_step.
Qed.

(** ** Formats of the cache entries *)

Lemma new_entries_refl P src st : new_entries P src st st.
Proof. intros k v Hk. by left. Qed.

Lemma new_entries_trans P src st1 st2 st3 :
  new_entries P src st1 st2 → new_entries P src st2 st3 →
  new_entries P src st1 st3.
Proof.
  intros H12 H23 k v Hk. destruct (H23 _ _ Hk) as [Hk2|?]; [|by right].
  by apply H12.
Qed.

Lemma new_entries_same_cache P src st st' :
  cache_of src st' = cache_of src st → new_entries P src st st'.
Proof. intros Heq k v Hk. left. by rewrite <- Heq. Qed.

Lemma new_entries_insert P src st st' key v :
  cache_of src st' = <[key := v]> (cache_of src st) → P v →
  new_entries P src st st'.
Proof.
  intros Heq Hv k v' Hk. rewrite Heq in Hk.
  destruct (decide (key = k)) as [->|Hne].
  - rewrite lookup_insert_eq in Hk. injection Hk as <-. by right.
  - rewrite lookup_insert_ne in Hk by done. by left.
Qed.

Ltac entries_bind :=
  apply preserves_bind; [apply new_entries_trans | | intros ?].

Lemma preserves_entries_check_interrupt P src w s y i ph :
  preserves (new_entries P src) (check_interrupt w s y i ph).
Proof. apply preserves_check_interrupt, new_entries_refl. Qed.
Lemma preserves_entries_set_df P src d :
  preserves (new_entries P src) (set_df d).
Proof. intros st r st' [= <- <-]. by apply new_entries_same_cache; destruct src. Qed.
Lemma preserves_entries_sleep P src secs :
  preserves (new_entries P src) (sleep secs).
Proof. intros st r st' [= <- <-]. by apply new_entries_same_cache; destruct src. Qed.
Lemma preserves_entries_emit P src evs :
  preserves (new_entries P src) (emit evs).
Proof. intros st r st' [= <- <-]. by apply new_entries_same_cache; destruct src. Qed.
Lemma preserves_entries_save_checkpoint P src :
  preserves (new_entries P src) save_checkpoint.
Proof. intros st r st' [= <- <-]. by apply new_entries_same_cache; destruct src. Qed.
Lemma preserves_entries_save_cache P src s :
  preserves (new_entries P src) (save_cache s).
Proof.
  intros st r st' [= <- <-]. by apply new_entries_same_cache; destruct src, s.
Qed.

Ltac entries_step :=
  first
    [ apply preserves_entries_check_interrupt
    | apply preserves_entries_save_checkpoint
    | apply preserves_entries_save_cache
    | apply preserves_entries_sleep
    | apply preserves_entries_emit
    | apply preserves_entries_set_df
    | apply preserves_lift, new_entries_refl
    | apply preserves_ret, new_entries_refl
    | apply preserves_sys_exit, new_entries_refl
    | apply preserves_raise, new_entries_refl ].

Lemma serial_ndvi_step_entries c w y i pt :
  preserves (new_entries is_scalar GEE) (Serial.ndvi_step c w y i pt).
Proof.
  intros st r st' Hrun.
  destruct (gee_cache st !! cache_key w y pt) as [cached|] eqn:Hlook.
  - rewrite (serial_ndvi_hit _ _ _ _ _ _ _ Hlook) in Hrun.
    injection Hrun as <- <-. by apply new_entries_same_cache.
  - destruct (interrupt w GEE y i PhDispatch) eqn:Hintr.
    + unfold Serial.ndvi_step in Hrun. unfold_M. rewrite Hlook, Hintr in Hrun.
      injection Hrun as <- <-. apply new_entries_refl.
    + rewrite (serial_ndvi_miss _ _ _ _ _ _ Hlook Hintr) in Hrun.
      injection Hrun as <- <-.
      eapply new_entries_insert; [done | by eexists].
Qed.

Lemma serial_temp_precip_step_entries c w y i pt :
  preserves (new_entries is_pair OM) (Serial.temp_precip_step c w y i pt).
Proof.
  intros st r st' Hrun. unfold Serial.temp_precip_step in Hrun. unfold_M.
  destruct (om_cache st !! cache_key w y pt) as [cached|] eqn:Hlook.
  - destruct (unpack2 cached) as [[temp precip]|e]; injection Hrun as <- <-;
      by apply new_entries_same_cache.
  - destruct (interrupt w OM y i PhDispatch) eqn:Hintr.
    + injection Hrun as <- <-. apply new_entries_refl.
    + destruct (Serial.fetch_temp_precip w pt.1 pt.2 y) as [evs [temp precip]].
      injection Hrun as <- <-.
      eapply new_entries_insert; [done | by do 2 eexists].
Qed.

Lemma serial_process_entries P c w src step pause :
  (∀ y i pt, preserves (new_entries P src) (step y i pt)) →
  preserves (new_entries P src) (Serial.process c w src step pause).
Proof.
  intros Hstep. unfold Serial.process.
  apply preserves_get_bind. intros st r st'.
  entries_bind; [entries_step|]. entries_bind; [entries_step|].
  apply preserves_for_each; [apply new_entries_refl | apply new_entries_trans |].
  intros y _.
  apply preserves_for_each; [apply new_entries_refl | apply new_entries_trans |].
  intros b _. unfold Serial.batch.
  entries_bind; [entries_step|].
  entries_bind.
  { apply preserves_for_each; [apply new_entries_refl | apply new_entries_trans |].
    intros pt _. apply Hstep. }
  repeat (entries_bind; [entries_step|]). entries_step.
Qed.

Section ThreadedEntries.
Context (c : Config) (w : world) (p : Threaded.pipeline).
#[local] Abbreviation src := (Threaded.p_src p).

Lemma threaded_lookup_all_entries y pts to_fetch :
  preserves (new_entries is_dict src) (Threaded.lookup_all w p y to_fetch pts).
Proof.
  intros st r st' Hrun. apply threaded_lookup_all_run in Hrun as [Hsame _].
  apply new_entries_same_cache. by apply same_store_cache.
Qed.

Lemma threaded_merge_entries y new_data :
  (∀ entry, entry ∈ new_data → is_dict entry.2) →
  preserves (new_entries is_dict src)
    (for_each (Threaded.merge_step w p y) new_data).
Proof.
  intros Hdict.
  apply preserves_for_each; [apply new_entries_refl | apply new_entries_trans |].
  intros entry Hentry st r st' Hrun. unfold Threaded.merge_step in Hrun.
  unfold_M. destruct (Hdict _ Hentry) as [d Hd].
  destruct (items entry.2) as [kvs|e]; injection Hrun as <- <-;
    (eapply new_entries_insert; [by destruct src | by exists d]).
Qed.

Lemma threaded_batch_entries y b :
  well_behaved p → completes_submitted w →
  preserves (new_entries is_dict src) (Threaded.batch w p y b).
Proof.
  intros Hwb Hperm. unfold Threaded.batch.
  entries_bind; [entries_step|].
  apply preserves_bind;
    [apply new_entries_trans | apply threaded_lookup_all_entries |].
  intros [|pt to_fetch]; [entries_step|]. unfold Threaded.dispatch.
  destruct (threaded_submit_all_spec p y (pt :: to_fetch) Hwb) as (_ & Hres & _).
  destruct (Threaded.submit_all p y (pt :: to_fetch)) as [evs results].
  cbn [fst snd] in Hres.
  entries_bind; [entries_step|].
  intros st r st' Hrun. unfold mbind at 1, M_bind at 1 in Hrun.
  assert (∀ pt' res, (pt', res) ∈ as_completed w results →
            (∀ v, res = Ok v → ∃ d, v = PDict d) ∧
            (∀ e, res = Raise e → is_Exception e = true)) as Hdone.
  { intros pt' res Hin. rewrite (Hperm results) in Hin.
    destruct (Hres _ _ Hin) as [_ ->]. split.
    - intros v. apply (wb_returns p Hwb).
    - intros e. apply (wb_raises p Hwb). }
  destruct (interrupt w src y b.1 PhDispatch).
  { revert Hrun. unfold Threaded.flush_and_exit. unfold_M.
    intros [= <- <-]. by apply new_entries_same_cache; destruct src. }
  destruct (Threaded.collect p [] (as_completed w results) st)
    as [[new_data|s] st1] eqn:Hcollect.
  - apply threaded_collect_run in Hcollect
      as [(nd' & [= <-] & -> & Hnd')|[[=] _]];
      [|done | apply (wb_absent p Hwb)].
    revert Hrun. generalize st r st'.
    change (preserves (new_entries is_dict src)
      (for_each (Threaded.merge_step w p y) new_data ≫= λ _,
       check_interrupt w src y b.1 PhPersist ≫= λ _,
       save_checkpoint ≫= λ _, save_cache src ≫= λ _,
       sleep (Threaded.p_pause p))).
    entries_bind.
    { apply threaded_merge_entries. intros entry Hentry.
      destruct (Hnd' _ Hentry) as [[Hnil|Hd] _]; [|done].
      by apply elem_of_nil in Hnil. }
    repeat (entries_bind; [entries_step|]). entries_step.
  - injection Hrun as <- <-.
    apply threaded_collect_run in Hcollect
      as [(nd' & [=] & _)|[_ ->]]; [|done | apply (wb_absent p Hwb)].
    by apply new_entries_same_cache; destruct src.
Qed.

Lemma threaded_process_entries :
  well_behaved p → completes_submitted w →
  preserves (new_entries is_dict src) (Threaded.process c w p).
Proof.
  intros Hwb Hperm. unfold Threaded.process.
  apply preserves_get_bind. intros st r st'.
  entries_bind; [entries_step|]. entries_bind; [entries_step|].
  apply preserves_for_each; [apply new_entries_refl | apply new_entries_trans |].
  intros y _.
  apply preserves_for_each; [apply new_entries_refl | apply new_entries_trans |].
  intros b _. by apply threaded_batch_entries.
Qed.
End ThreadedEntries.

(** ** Retry policies of the four fetchers *)

Lemma threaded_is_rate_limit_of_serial msg :
  Serial.is_rate_limit msg = true → Threaded.is_rate_limit msg = true.
Proof.
  unfold Serial.is_rate_limit, Threaded.is_rate_limit. intros ->. done.
Qed.

Lemma serial_fetch_ndvi_rate_limited w y pt :
  gee_rate_limited w y pt →
  Serial.fetch_ndvi w pt.1 pt.2 y
  = ([Request GEE y pt.1 pt.2; Sleep 10; Request GEE y pt.1 pt.2; Sleep 20;
      Request GEE y pt.1 pt.2; Sleep 40], None).
Proof.
  intros H. unfold gee_rate_limited, max_retries in H.
  destruct (H 0%nat) as (m0 & H0 & R0); [lia|].
  destruct (H 1%nat) as (m1 & H1 & R1); [lia|].
  destruct (H 2%nat) as (m2 & H2 & R2); [lia|].
  unfold Serial.fetch_ndvi, max_retries. cbn [Serial.fetch_ndvi_loop].
  by rewrite H0, R0, H1, R1, H2, R2.
Qed.

Lemma serial_fetch_temp_precip_rate_limited w y pt :
  om_rate_limited w y pt →
  Serial.fetch_temp_precip w pt.1 pt.2 y = ([Request OM y pt.1 pt.2], (None, None)).
Proof.
  intros H. unfold Serial.fetch_temp_precip.
  by rewrite (H 0%nat) by (unfold max_retries; lia).
Qed.

Lemma threaded_fetch_ndvi_rate_limited c w y pt :
  gee_rate_limited w y pt →
  Threaded.fetch_ndvi_single c w pt.1 pt.2 y
  = ([Request GEE y pt.1 pt.2; Sleep 10; Request GEE y pt.1 pt.2; Sleep 20;
      Request GEE y pt.1 pt.2], Raise (RuntimeError "GEE_RATE_LIMIT")).
Proof.
  intros H. unfold gee_rate_limited, max_retries in H.
  destruct (H 0%nat) as (m0 & H0 & R0%threaded_is_rate_limit_of_serial); [lia|].
  destruct (H 1%nat) as (m1 & H1 & R1%threaded_is_rate_limit_of_serial); [lia|].
  destruct (H 2%nat) as (m2 & H2 & R2%threaded_is_rate_limit_of_serial); [lia|].
  unfold Threaded.fetch_ndvi_single, max_retries.
  cbn [Threaded.fetch_ndvi_single_loop].
  by rewrite H0, R0, H1, R1, H2, R2.
Qed.

Lemma threaded_fetch_temp_precip_rate_limited c w y pt :
  om_rate_limited w y pt →
  Threaded.fetch_temp_precip_single c w pt.1 pt.2 y
  = ([Request OM y pt.1 pt.2; Sleep 10; Request OM y pt.1 pt.2; Sleep 20;
      Request OM y pt.1 pt.2], Raise (RuntimeError "OM_RATE_LIMIT")).
Proof.
  intros H. unfold om_rate_limited, max_retries in H.
  unfold Threaded.fetch_temp_precip_single, max_retries.
  cbn [Threaded.fetch_temp_precip_single_loop].
  by rewrite (H 0%nat), (H 1%nat), (H 2%nat) by lia.
Qed.

(** C5 (as amended): when every attempt fails with an error that is no
    rate-limit signal, each fetcher returns its all-absent result and none
    raises. Both NDVI fetchers make three attempts with no pause between
    them; the threaded climate fetcher makes three attempts five seconds
    apart; the serial climate fetcher makes one attempt only. *)
Theorem other_errors_end_in_absent_result (c : Config) (w : world)
    (y : Z) (pt : cell) :
  gee_failing w y pt → om_failing w y pt →
  Serial.fetch_ndvi w pt.1 pt.2 y
  = ([Request GEE y pt.1 pt.2; Request GEE y pt.1 pt.2;
      Request GEE y pt.1 pt.2], None) ∧
  Threaded.fetch_ndvi_single c w pt.1 pt.2 y
  = ([Request GEE y pt.1 pt.2; Request GEE y pt.1 pt.2;
      Request GEE y pt.1 pt.2], Ok (PDict [(NDVI_COL c, PNone)])) ∧
  Threaded.fetch_temp_precip_single c w pt.1 pt.2 y
  = ([Request OM y pt.1 pt.2; Sleep 5; Request OM y pt.1 pt.2; Sleep 5;
      Request OM y pt.1 pt.2],
     Ok (PDict [(TEMP_COL c, PNone); (PRECIP_COL c, PNone)])) ∧
  Serial.fetch_temp_precip w pt.1 pt.2 y
  = ([Request OM y pt.1 pt.2], (None, None)).
Proof.
  intros Hgee Hom. unfold gee_failing, om_failing, max_retries in *.
  destruct (Hgee 0%nat) as (g0 & G0 & S0 & T0); [lia|].
  destruct (Hgee 1%nat) as (g1 & G1 & S1 & T1); [lia|].
  destruct (Hgee 2%nat) as (g2 & G2 & S2 & T2); [lia|].
  destruct (Hom 0%nat) as (o0 & O0); [lia|].
  destruct (Hom 1%nat) as (o1 & O1); [lia|].
  destruct (Hom 2%nat) as (o2 & O2); [lia|].
  repeat split.
  - unfold Serial.fetch_ndvi, max_retries. cbn [Serial.fetch_ndvi_loop].
    by rewrite G0, S0, G1, S1, G2, S2.
  - unfold Threaded.fetch_ndvi_single, max_retries.
    cbn [Threaded.fetch_ndvi_single_loop].
    by rewrite G0, T0, G1, T1, G2, T2.
  - unfold Threaded.fetch_temp_precip_single, max_retries.
    cbn [Threaded.fetch_temp_precip_single_loop].
    by rewrite O0, O1, O2.
  - unfold Serial.fetch_temp_precip. by rewrite O0.
Qed.

(** ** The claims about the scheduler *)

Lemma later_run_keeps_entry src w st st' y pt v :
  grows src w st st' →
  cache_of src st !! cache_key w y pt = Some v →
  cache_of src st' !! cache_key w y pt = Some v ∧
  ∀ evs, log st' = log st ++ evs → Request src y pt.1 pt.2 ∉ evs.
Proof.
  intros [Hsub _ (evs' & Hlog & Hfresh)] Hhit. split.
  - by eapply lookup_weaken.
  - intros evs Hevs Hin. rewrite Hlog in Hevs. apply app_inv_head in Hevs as ->.
    apply Hfresh in Hin. destruct pt. cbn in Hin. congruence.
Qed.

Lemma later_main_keeps_entry src w f st st' y pt v :
  file_grows src w f st st' →
  f !! cache_key w y pt = Some v →
  (∃ f', cache_file src st' = Some f' ∧ f' !! cache_key w y pt = Some v) ∧
  ∀ evs, log st' = log st ++ evs → Request src y pt.1 pt.2 ∉ evs.
Proof.
  intros [(f' & Hfile & Hsub) (evs' & Hlog & Hfresh)] Hhit. split.
  - exists f'. split; [done | by eapply lookup_weaken].
  - intros evs Hevs Hin. rewrite Hlog in Hevs. apply app_inv_head in Hevs as ->.
    apply Hfresh in Hin. destruct pt. cbn in Hin. congruence.
Qed.

Lemma serial_main_file_grows c w src f st r st' :
  cache_file src st = Some f → Serial.main c w st = (r, st') →
  file_grows src w f st st'.
Proof.
  apply main_file_grows;
    [apply serial_process_ndvi_grows | apply serial_process_temp_precip_grows].
Qed.

Lemma threaded_main_file_grows c w src f st r st' :
  completes_submitted w →
  cache_file src st = Some f → Threaded.main c w st = (r, st') →
  file_grows src w f st st'.
Proof.
  intros Hperm. apply main_file_grows.
  - apply threaded_process_grows; [apply ndvi_pipeline_well_behaved | done].
  - apply threaded_process_grows; [apply temp_precip_pipeline_well_behaved | done].
Qed.




Lemma quota_world_rate_limited y pt : gee_rate_limited quota_world y pt.
Proof. intros attempt _. eexists. split; reflexivity. Qed.


(** Two consecutive runs of the serial [main]: the first meets rate limits
    only, the second a healthy backend, which it never asks for NDVI. *)
Example serial_second_run_never_refetches :
  let run1 := Serial.main default_config quota_world (first_run [los_angeles]) in
  let run2 := Serial.main default_config healthy_world run1.2 in
  run1.1 = Done () ∧
  GEE_CACHE run1.2 = Some {[ cache_key quota_world 2020 la_cell := PNone ]} ∧
  run2.1 = Done () ∧
  GEE_CACHE run2.2 = GEE_CACHE run1.2 ∧
  log run2.2 = log run1.2 ++ [SaveCheckpoint; SaveCache GEE; Sleep 2;
                               SaveCheckpoint; SaveCache OM; Sleep 1;
                               SaveCheckpoint].
Proof. cbv zeta. repeat apply conj; vm_compute; reflexivity. Qed.


Lemma is_pipeline_well_behaved c w p : is_pipeline c w p → well_behaved p.
Proof.
  intros [->| ->];
    [apply ndvi_pipeline_well_behaved | apply temp_precip_pipeline_well_behaved].
Qed.

Lemma is_pipeline_exhausted c w p y pt :
  is_pipeline c w p → rate_limited w (Threaded.p_src p) y pt →
  (Threaded.p_fetch p pt.1 pt.2 y).2 = Raise (RuntimeError (Threaded.p_marker p)) ∧
  contains (Threaded.p_marker p) (Threaded.p_marker p) = true.
Proof.
  intros [->| ->] Hlimited;
    cbn [Threaded.p_fetch Threaded.p_src Threaded.p_marker rate_limited
         Threaded.ndvi_pipeline Threaded.temp_precip_pipeline] in *.
  - by rewrite threaded_fetch_ndvi_rate_limited.
  - by rewrite threaded_fetch_temp_precip_rate_limited.
Qed.

Lemma threaded_batch_rate_limited c w p y b st to_fetch st1 pt :
  is_pipeline c w p → completes_submitted w →
  interrupt w (Threaded.p_src p) y b.1 PhLookup = false →
  interrupt w (Threaded.p_src p) y b.1 PhDispatch = false →
  Threaded.lookup_all w p y [] b.2 st = (Done to_fetch, st1) →
  pt ∈ to_fetch →
  rate_limited w (Threaded.p_src p) y pt →
  Threaded.batch w p y b st
  = (Stop (SysExit 1),
     flushed (Threaded.p_src p) (logged (Threaded.submit_all p y to_fetch).1 st1)).
Proof.
  intros Hp Hperm Hlookup Hdispatch Hlook Hpt Hlimited.
  rewrite threaded_batch_unfold, Hlookup, Hlook.
  destruct to_fetch as [|pt0 to_fetch]; [by apply elem_of_nil in Hpt|].
  destruct (is_pipeline_exhausted c w p y pt Hp Hlimited) as [Hfetch Hmarker].
  by eapply threaded_dispatch_rate_limited;
    [apply (is_pipeline_well_behaved c w)|..].
Qed.

Lemma threaded_batch_interrupted w p y b st pt to_fetch st1 :
  interrupt w (Threaded.p_src p) y b.1 PhLookup = false →
  interrupt w (Threaded.p_src p) y b.1 PhDispatch = true →
  Threaded.lookup_all w p y [] b.2 st = (Done (pt :: to_fetch), st1) →
  Threaded.batch w p y b st
  = (Stop (SysExit 0),
     flushed (Threaded.p_src p)
       (logged (Threaded.submit_all p y (pt :: to_fetch)).1 st1)).
Proof.
  intros Hlookup Hdispatch Hlook.
  rewrite threaded_batch_unfold, Hlookup, Hlook.
  by apply threaded_dispatch_interrupted.
Qed.

(** A batch that stops ends the whole of [process]: the later batches of the
    year and the later years are not run. *)
Lemma threaded_process_stops c w p st table y years_before years_after
    b batches_before batches_after st_year st_batch s st' :
  assign_cells (Threaded.p_src p) c (df st) = Ok table →
  years_desc table = years_before ++ y :: years_after →
  for_each (λ y, for_each (Threaded.batch w p y)
                   (batches (Threaded.p_batch_size p)
                      (unique_points w (Threaded.p_src p) table y)))
    years_before (set_df table st).2 = (Done (), st_year) →
  batches (Threaded.p_batch_size p) (unique_points w (Threaded.p_src p) table y)
  = batches_before ++ b :: batches_after →
  for_each (Threaded.batch w p y) batches_before st_year = (Done (), st_batch) →
  Threaded.batch w p y b st_batch = (Stop s, st') →
  Threaded.process c w p st = (Stop s, st').
Proof.
  intros Hcells Hyears Hbefore Hbatches Hbatch Hstop.
  unfold Threaded.process. unfold_M. rewrite Hcells.
  unfold set_df in *. unfold_M. cbn [snd] in Hbefore. cbv beta iota.
  rewrite Hyears.
  eapply for_each_stops_at; [exact Hbefore|].
  rewrite Hbatches. by eapply for_each_stops_at.
Qed.

Lemma threaded_main_stops c w st s st1 st2 st3 st' :
  load_or_create_checkpoint c st = (Done (), st1) →
  load_or_create_cache GEE st1 = (Done (), st2) →
  load_or_create_cache OM st2 = (Done (), st3) →
  Threaded.process_ndvi c w st3 = (Stop s, st') →
  Threaded.main c w st = (Stop s, st').
Proof.
  intros H1 H2 H3 Hstop. unfold Threaded.main. unfold mbind, M_bind.
  by rewrite H1, H2, H3, Hstop.
Qed.

Lemma flushed_spec src st :
  df (flushed src st) = df st ∧
  cache_of src (flushed src st) = cache_of src st ∧
  CHECKPOINT_CSV (flushed src st) = Some (df st) ∧
  cache_file src (flushed src st) = Some (cache_of src st) ∧
  log (flushed src st) = log st ++ [SaveCheckpoint; SaveCache src].
Proof. destruct src; cbn; by rewrite <- app_assoc. Qed.

Lemma logged_spec evs st :
  df (logged evs st) = df st ∧
  (∀ src, cache_of src (logged evs st) = cache_of src st) ∧
  log (logged evs st) = log st ++ evs.
Proof. split; [done|]. split; [by intros []|done]. Qed.

Lemma serial_temp_precip_miss c w y i pt st :
  om_cache st !! cache_key w y pt = None →
  interrupt w OM y i PhDispatch = false →
  let fetched := Serial.fetch_temp_precip w pt.1 pt.2 y in
  Serial.temp_precip_step c w y i pt st
  = (Done (),
     {| df := loc_set (mask OM y pt) (PRECIP_COL c) (of_opt fetched.2.2)
                (loc_set (mask OM y pt) (TEMP_COL c) (of_opt fetched.2.1) (df st));
        gee_cache := gee_cache st;
        om_cache := <[cache_key w y pt :=
                        PList [of_opt fetched.2.1; of_opt fetched.2.2]]>
                      (om_cache st);
        SRC_CSV := SRC_CSV st; CHECKPOINT_CSV := CHECKPOINT_CSV st;
        GEE_CACHE := GEE_CACHE st; OM_CACHE := OM_CACHE st;
        log := log st ++ fetched.1 |}).
Proof.
  intros Hmiss Hintr fetched. unfold Serial.temp_precip_step. unfold_M.
  rewrite Hmiss, Hintr. subst fetched.
  by destruct (Serial.fetch_temp_precip w pt.1 pt.2 y) as [evs [temp precip]].
Qed.

(** C4: when every attempt for a point meets a rate-limit signal, the
    threaded variant writes the checkpoint and the cache as they stand after
    the lookups of the batch and ends the whole run with [sys.exit(1)],
    running no later batch; the serial variant stores an absent value for the
    point and goes on with the next point. *)
Theorem rate_limit_exhaustion_policies (c : Config) (w : world) (y : Z)
    (pt : cell) :
  (∀ p b rest st to_fetch st1,
     is_pipeline c w p → completes_submitted w →
     rate_limited w (Threaded.p_src p) y pt →
     interrupt w (Threaded.p_src p) y b.1 PhLookup = false →
     interrupt w (Threaded.p_src p) y b.1 PhDispatch = false →
     Threaded.lookup_all w p y [] b.2 st = (Done to_fetch, st1) →
     pt ∈ to_fetch →
     ∃ st2,
       for_each (Threaded.batch w p y) (b :: rest) st = (Stop (SysExit 1), st2) ∧
       df st2 = df st1 ∧
       cache_of (Threaded.p_src p) st2 = cache_of (Threaded.p_src p) st1 ∧
       CHECKPOINT_CSV st2 = Some (df st1) ∧
       cache_file (Threaded.p_src p) st2 = Some (cache_of (Threaded.p_src p) st1) ∧
       log st2 = log st1 ++ (Threaded.submit_all p y to_fetch).1
                         ++ [SaveCheckpoint; SaveCache (Threaded.p_src p)]) ∧
  (∀ i rest st,
     gee_rate_limited w y pt →
     gee_cache st !! cache_key w y pt = None →
     interrupt w GEE y i PhDispatch = false →
     ∃ st1,
       Serial.ndvi_step c w y i pt st = (Done (), st1) ∧
       gee_cache st1 = <[cache_key w y pt := PNone]> (gee_cache st) ∧
       df st1 = loc_set (mask GEE y pt) (NDVI_COL c) PNone (df st) ∧
       for_each (Serial.ndvi_step c w y i) (pt :: rest) st
       = for_each (Serial.ndvi_step c w y i) rest st1) ∧
  (∀ i rest st,
     om_rate_limited w y pt →
     om_cache st !! cache_key w y pt = None →
     interrupt w OM y i PhDispatch = false →
     ∃ st1,
       Serial.temp_precip_step c w y i pt st = (Done (), st1) ∧
       om_cache st1 = <[cache_key w y pt := PList [PNone; PNone]]> (om_cache st) ∧
       df st1 = loc_set (mask OM y pt) (PRECIP_COL c) PNone
                  (loc_set (mask OM y pt) (TEMP_COL c) PNone (df st)) ∧
       for_each (Serial.temp_precip_step c w y i) (pt :: rest) st
       = for_each (Serial.temp_precip_step c w y i) rest st1).
Proof.
  refine (conj _ (conj _ _)).
  - intros p b rest st to_fetch st1 Hp Hperm Hlimited Hlookup Hdispatch Hlook Hpt.
    eexists. split.
    { apply for_each_stop. by eapply threaded_batch_rate_limited. }
    destruct (flushed_spec (Threaded.p_src p)
                (logged (Threaded.submit_all p y to_fetch).1 st1))
      as (-> & -> & -> & -> & ->).
    destruct (logged_spec (Threaded.submit_all p y to_fetch).1 st1)
      as (-> & Hcache & ->).
    by rewrite Hcache, <- app_assoc.
  - intros i rest st Hlimited Hmiss Hintr.
    pose proof (serial_ndvi_miss c w y i pt st Hmiss Hintr) as Hstep.
    rewrite (serial_fetch_ndvi_rate_limited w y pt Hlimited) in Hstep.
    eexists. split; [exact Hstep|]. split; [done|]. split; [done|].
    by apply for_each_continue.
  - intros i rest st Hlimited Hmiss Hintr.
    pose proof (serial_temp_precip_miss c w y i pt st Hmiss Hintr) as Hstep.
    rewrite (serial_fetch_temp_precip_rate_limited w y pt Hlimited) in Hstep.
    eexists. split; [exact Hstep|]. split; [done|]. split; [done|].
    by apply for_each_continue.
Qed.


Lemma sample_world_completes g o i : completes_submitted (sample_world g o i).
Proof. intros l. reflexivity. Qed.

Lemma rate_limit_exhaustion_witness :
  (∃ st2,
     for_each (Threaded.batch quota_world
                 (Threaded.ndvi_pipeline default_config quota_world) 2020)
       [(0%nat, [la_cell])] cold_state = (Stop (SysExit 1), st2) ∧
     CHECKPOINT_CSV st2 = Some (df cold_state) ∧
     GEE_CACHE st2 = Some (gee_cache cold_state)) ∧
  (∃ st1,
     Serial.ndvi_step default_config quota_world 2020 0 la_cell cold_state
     = (Done (), st1) ∧
     gee_cache st1
     = <[cache_key quota_world 2020 la_cell := PNone]> (gee_cache cold_state)) ∧
  (∃ st1,
     Serial.temp_precip_step default_config quota_world 2020 0 la_cell cold_state
     = (Done (), st1) ∧
     om_cache st1
     = <[cache_key quota_world 2020 la_cell := PList [PNone; PNone]]>
         (om_cache cold_state)).
Proof.
  destruct (rate_limit_exhaustion_policies default_config quota_world 2020 la_cell)
    as (Hthreaded & Hndvi & Hclimate).
  split; [|split].
  - destruct (Hthreaded (Threaded.ndvi_pipeline default_config quota_world)
                (0%nat, [la_cell]) [] cold_state [la_cell] cold_state)
      as (st2 & Hrun & _ & _ & Hck & Hfile & _).
    + left. reflexivity.
    + apply sample_world_completes.
    + apply quota_world_rate_limited.
    + reflexivity.
    + reflexivity.
    + vm_compute. reflexivity.
    + left.
    + exists st2. split; [exact Hrun|]. split; [exact Hck | exact Hfile].
  - destruct (Hndvi 0%nat [] cold_state) as (st1 & Hstep & Hcache & _).
    + apply quota_world_rate_limited.
    + vm_compute. reflexivity.
    + reflexivity.
    + exists st1. split; [exact Hstep | exact Hcache].
  - destruct (Hclimate 0%nat [] cold_state) as (st1 & Hstep & Hcache & _).
    + intros attempt _. reflexivity.
    + vm_compute. reflexivity.
    + reflexivity.
    + exists st1. split; [exact Hstep | exact Hcache].
Defined.

(** C6 (as amended): a run that returns has status 0. In the threaded
    variant an interrupt during the dispatch of a batch flushes and exits
    with status 0, and an exhausted rate limit flushes and exits with status
    1. The serial variant never calls [sys.exit]: when its [main] stops
    early, an exception went uncaught and the status is not 0, as for an
    interrupt at the start of a batch, which gives 130. *)
Theorem exit_statuses (c : Config) (w : world) :
  (∀ st st', Serial.main c w st = (Done (), st') →
             exit_status (Serial.main c w st).1 = 0) ∧
  (∀ st st', Threaded.main c w st = (Done (), st') →
             exit_status (Threaded.main c w st).1 = 0) ∧
  (∀ p y b rest st pt to_fetch st1,
     interrupt w (Threaded.p_src p) y b.1 PhLookup = false →
     interrupt w (Threaded.p_src p) y b.1 PhDispatch = true →
     Threaded.lookup_all w p y [] b.2 st = (Done (pt :: to_fetch), st1) →
     ∃ st2,
       for_each (Threaded.batch w p y) (b :: rest) st = (Stop (SysExit 0), st2) ∧
       exit_status (for_each (Threaded.batch w p y) (b :: rest) st).1 = 0 ∧
       CHECKPOINT_CSV st2 = Some (df st1) ∧
       cache_file (Threaded.p_src p) st2
       = Some (cache_of (Threaded.p_src p) st1)) ∧
  (∀ p y pt b rest st to_fetch st1,
     is_pipeline c w p → completes_submitted w →
     rate_limited w (Threaded.p_src p) y pt →
     interrupt w (Threaded.p_src p) y b.1 PhLookup = false →
     interrupt w (Threaded.p_src p) y b.1 PhDispatch = false →
     Threaded.lookup_all w p y [] b.2 st = (Done to_fetch, st1) →
     pt ∈ to_fetch →
     ∃ st2,
       for_each (Threaded.batch w p y) (b :: rest) st = (Stop (SysExit 1), st2) ∧
       exit_status (for_each (Threaded.batch w p y) (b :: rest) st).1 = 1) ∧
  (∀ st s st', Serial.main c w st = (Stop s, st') →
               (∃ e, s = Uncaught e) ∧ exit_status (Serial.main c w st).1 ≠ 0) ∧
  (∀ src step pause y b rest st,
     interrupt w src y b.1 PhLookup = true →
     for_each (Serial.batch w src step pause y) (b :: rest) st
     = (Stop (Uncaught KeyboardInterrupt), st) ∧
     exit_status (for_each (Serial.batch w src step pause y) (b :: rest) st).1
     = 130).
Proof.
  refine (conj _ (conj _ (conj _ (conj _ (conj _ _))))).
  - intros st st' ->. reflexivity.
  - intros st st' ->. reflexivity.
  - intros p y b rest st pt to_fetch st1 Hlookup Hdispatch Hlook.
    pose proof (for_each_stop _ b rest _ _ _
                  (threaded_batch_interrupted w p y b st pt to_fetch st1
                     Hlookup Hdispatch Hlook)) as Hrun.
    eexists. split; [exact Hrun|]. rewrite Hrun. split; [reflexivity|].
    destruct (flushed_spec (Threaded.p_src p)
                (logged (Threaded.submit_all p y (pt :: to_fetch)).1 st1))
      as (_ & _ & -> & -> & _).
    destruct (logged_spec (Threaded.submit_all p y (pt :: to_fetch)).1 st1)
      as (-> & Hcache & _).
    by rewrite Hcache.
  - intros p y pt b rest st to_fetch st1 Hp Hperm Hlimited Hlookup Hdispatch
      Hlook Hpt.
    pose proof (for_each_stop _ b rest _ _ _
                  (threaded_batch_rate_limited c w p y b st to_fetch st1 pt
                     Hp Hperm Hlookup Hdispatch Hlook Hpt Hlimited)) as Hrun.
    eexists. split; [exact Hrun|]. by rewrite Hrun.
  - intros st s st' Hrun. rewrite Hrun. cbn [fst].
    pose proof (serial_main_never_exits c w st s st' Hrun) as Hnever.
    destruct s as [code|e]; [by destruct (Hnever code)|].
    split; [by exists e|]. by destruct e.
  - intros src step pause y b rest st Hintr.
    assert (Serial.batch w src step pause y b st
            = (Stop (Uncaught KeyboardInterrupt), st)) as Hbatch.
    { unfold Serial.batch. unfold_M. by rewrite Hintr. }
    rewrite (for_each_stop _ b rest _ _ _ Hbatch). by split.
Qed.

(** C6 (as stated) fails in the serial variant: an interrupted run ends with
    status 130, not 0, and a run that exhausts its retries on rate limits
    ends with status 0. *)
Lemma serial_exit_statuses :
  exit_status (Serial.main default_config interrupted_world
                 (first_run [los_angeles])).1 = 130 ∧
  gee_rate_limited quota_world 2020 la_cell ∧
  exit_status (Serial.main default_config quota_world
                 (first_run [los_angeles])).1 = 0.
Proof.
  split; [vm_compute; reflexivity|]. split; [apply quota_world_rate_limited|].
  vm_compute. reflexivity.
Qed.

Lemma exit_statuses_witness :
  exit_status (for_each (Threaded.batch dispatch_interrupted_world
                 (Threaded.ndvi_pipeline default_config dispatch_interrupted_world)
                 2020) [(0%nat, [la_cell])] cold_state).1 = 0 ∧
  exit_status (for_each (Threaded.batch quota_world
                 (Threaded.ndvi_pipeline default_config quota_world) 2020)
                 [(0%nat, [la_cell])] cold_state).1 = 1 ∧
  exit_status (for_each (Serial.batch interrupted_world GEE
                 (Serial.ndvi_step default_config interrupted_world) 2 2020)
                 [(0%nat, [la_cell])] cold_state).1 = 130.
Proof.
  split; [|split].
  - destruct (exit_statuses default_config dispatch_interrupted_world)
      as (_ & _ & Hintr & _).
    destruct (Hintr (Threaded.ndvi_pipeline default_config dispatch_interrupted_world)
                2020 (0%nat, [la_cell]) [] cold_state la_cell [] cold_state)
      as (st2 & _ & Hstatus & _).
    + reflexivity.
    + reflexivity.
    + vm_compute. reflexivity.
    + exact Hstatus.
  - destruct (exit_statuses default_config quota_world) as (_ & _ & _ & Hlim & _).
    destruct (Hlim (Threaded.ndvi_pipeline default_config quota_world)
                2020 la_cell (0%nat, [la_cell]) [] cold_state [la_cell] cold_state)
      as (st2 & _ & Hstatus).
    + left. reflexivity.
    + apply sample_world_completes.
    + apply quota_world_rate_limited.
    + reflexivity.
    + reflexivity.
    + vm_compute. reflexivity.
    + left.
    + exact Hstatus.
  - destruct (exit_statuses default_config interrupted_world)
      as (_ & _ & _ & _ & _ & Hserial).
    apply (Hserial GEE (Serial.ndvi_step default_config interrupted_world) 2 2020
             (0%nat, [la_cell]) [] cold_state).
    reflexivity.
Defined.

(** Whole runs of the threaded [main] on one record. *)
Example threaded_main_statuses :
  exit_status (Threaded.main default_config healthy_world
                 (first_run [los_angeles])).1 = 0 ∧
  exit_status (Threaded.main default_config dispatch_interrupted_world
                 (first_run [los_angeles])).1 = 0 ∧
  exit_status (Threaded.main default_config quota_world
                 (first_run [los_angeles])).1 = 1.
Proof. repeat apply conj; vm_compute; reflexivity. Qed.



(** The same key after one run of each variant over the same table. *)
Example serial_and_threaded_entries :
  gee_cache (Serial.main default_config healthy_world (first_run [los_angeles])).2
  = {[ cache_key healthy_world 2020 la_cell := PNum (5000 / 10000) ]} ∧
  gee_cache (Threaded.main default_config healthy_world (first_run [los_angeles])).2
  = {[ cache_key healthy_world 2020 la_cell :=
         PDict [(NDVI_COL default_config, PNum (5000 / 10000))] ]} ∧
  (Threaded.main default_config healthy_world
     (Serial.main default_config healthy_world (first_run [los_angeles])).2).1
  = Stop (Uncaught AttributeError).
Proof. repeat apply conj; vm_compute; reflexivity. Qed.

Lemma failing_world_failing y pt :
  gee_failing failing_world y pt ∧ om_failing failing_world y pt.
Proof.
  split; intros attempt _; eexists; [|reflexivity].
  split; [reflexivity|]. split; vm_compute; reflexivity.
Qed.

Lemma other_errors_witness :
  Serial.fetch_ndvi failing_world la_cell.1 la_cell.2 2020
  = ([Request GEE 2020 la_cell.1 la_cell.2; Request GEE 2020 la_cell.1 la_cell.2;
      Request GEE 2020 la_cell.1 la_cell.2], None) ∧
  Threaded.fetch_ndvi_single default_config failing_world la_cell.1 la_cell.2 2020
  = ([Request GEE 2020 la_cell.1 la_cell.2; Request GEE 2020 la_cell.1 la_cell.2;
      Request GEE 2020 la_cell.1 la_cell.2],
     Ok (PDict [(NDVI_COL default_config, PNone)])) ∧
  Threaded.fetch_temp_precip_single default_config failing_world
    la_cell.1 la_cell.2 2020
  = ([Request OM 2020 la_cell.1 la_cell.2; Sleep 5;
      Request OM 2020 la_cell.1 la_cell.2; Sleep 5;
      Request OM 2020 la_cell.1 la_cell.2],
     Ok (PDict [(TEMP_COL default_config, PNone);
                (PRECIP_COL default_config, PNone)])) ∧
  Serial.fetch_temp_precip failing_world la_cell.1 la_cell.2 2020
  = ([Request OM 2020 la_cell.1 la_cell.2], (None, None)).
Proof.
  apply (other_errors_end_in_absent_result default_config failing_world
           2020 la_cell);
    apply failing_world_failing.
Defined.

(** C5 (as stated) fails for the serial climate fetcher: after one failed
    attempt it returns the all-absent pair without a second attempt, which
    here would have succeeded. *)
Lemma serial_climate_fetcher_never_retries :
  om timeout_world 2020 la_cell.1 la_cell.2 0 = OmRaises "Connection timed out" ∧
  (∃ t p, Serial.fetch_temp_precip_body (om timeout_world 2020 la_cell.1 la_cell.2 1)
          = Ok (Some t, Some p)) ∧
  Serial.fetch_temp_precip timeout_world la_cell.1 la_cell.2 2020
  = ([Request OM 2020 la_cell.1 la_cell.2], (None, None)).
Proof.
  split; [reflexivity|]. split; [|reflexivity].
  do 2 eexists. vm_compute. reflexivity.
Qed.

Lemma precip_sum_missing_day_witness :
  precip_sum (scenario_daily (Some [Some 5%Q; None])) = Raise TypeError ∧
  Serial.fetch_temp_precip missing_day_world la_cell.1 la_cell.2 2020
  = ([Request OM 2020 la_cell.1 la_cell.2], (None, None)).
Proof.
  destruct (precip_sum_missing_day_fails default_config missing_day_world
              la_cell.1 la_cell.2 2020) as (Hsum & _ & Hserial & _).
  - intros attempt. reflexivity.
  - split; [exact Hsum | exact Hserial].
Defined.





(** * Further properties of the code *)

(** ** Further properties of the grid quantizer *)

Lemma grid_index_of_fixed (deg : float) (n : Z) :
  fixed_index deg n = true → grid_index deg (float_of_Z n * deg)%float = Ok n.
Proof.
  unfold fixed_index.
  destruct (grid_index deg (float_of_Z n * deg)%float) as [k|e]; [|done].
  by intros ->%Z.eqb_eq.
Qed.

Lemma same_quantized_iff_same_index (deg x x' : float) :
  deg ∈ checked_degrees → in_grid_range deg x → in_grid_range deg x' →
  round_to_grid deg x = round_to_grid deg x' ↔ grid_index deg x = grid_index deg x'.
Proof.
  intros Hdeg (n & Hn & Hnb) (m & Hm & Hmb).
  rewrite (round_to_grid_index _ _ _ Hn), (round_to_grid_index _ _ _ Hm), Hn, Hm.
  split; [|by intros [= ->]].
  intros [= Heq].
  pose proof (grid_index_of_fixed deg n (fixed_index_checked _ _ Hdeg Hnb)) as H1.
  pose proof (grid_index_of_fixed deg m (fixed_index_checked _ _ Hdeg Hmb)) as H2.
  rewrite Heq in H1. congruence.
Qed.

Lemma round_coord_eq_iff (deg lat lon lat' lon' : float) :
  deg ∈ checked_degrees →
  in_grid_range deg lat → in_grid_range deg lon →
  in_grid_range deg lat' → in_grid_range deg lon' →
  round_coord deg lat lon = round_coord deg lat' lon' ↔
  grid_index deg lat = grid_index deg lat' ∧
  grid_index deg lon = grid_index deg lon'.
Proof.
  intros Hdeg Hlat Hlon Hlat' Hlon'.
  rewrite <- !(same_quantized_iff_same_index deg) by done.
  destruct Hlat as (a & Ha & _), Hlon as (b & Hb & _),
    Hlat' as (a' & Ha' & _), Hlon' as (b' & Hb' & _).
  unfold round_coord.
  rewrite (round_to_grid_index _ _ _ Ha), (round_to_grid_index _ _ _ Hb),
    (round_to_grid_index _ _ _ Ha'), (round_to_grid_index _ _ _ Hb').
  cbn. split; [by intros [= -> ->] | by intros [[= ->] [= ->]]].
Qed.

(** X1: for a grid size of 11, 25 or 50 km and coordinates in the checked
    range, two coordinate pairs are quantized to the same cell exactly when
    their grid indices [round(x / deg)] agree, for either backend: distinct
    cells of the grid are never merged, and one cell never gets two
    values. *)
Theorem same_cell_iff_same_grid_indices (c : Config)
    (lat lon lat' lon' : float) :
  named_grid_size c →
  (in_grid_range (NDVI_RES_DEG c) lat → in_grid_range (NDVI_RES_DEG c) lon →
   in_grid_range (NDVI_RES_DEG c) lat' → in_grid_range (NDVI_RES_DEG c) lon' →
   round_coord_gee c lat lon = round_coord_gee c lat' lon' ↔
   grid_index (NDVI_RES_DEG c) lat = grid_index (NDVI_RES_DEG c) lat' ∧
   grid_index (NDVI_RES_DEG c) lon = grid_index (NDVI_RES_DEG c) lon') ∧
  (in_grid_range (TEMP_PRECIP_RES_DEG c) lat →
   in_grid_range (TEMP_PRECIP_RES_DEG c) lon →
   in_grid_range (TEMP_PRECIP_RES_DEG c) lat' →
   in_grid_range (TEMP_PRECIP_RES_DEG c) lon' →
   round_coord_om c lat lon = round_coord_om c lat' lon' ↔
   grid_index (TEMP_PRECIP_RES_DEG c) lat
   = grid_index (TEMP_PRECIP_RES_DEG c) lat' ∧
   grid_index (TEMP_PRECIP_RES_DEG c) lon
   = grid_index (TEMP_PRECIP_RES_DEG c) lon').
Proof.
  intros Hc. destruct (named_grid_degrees c Hc) as [Hg Ho].
  split; intros; by apply round_coord_eq_iff.
Qed.

Lemma same_cell_iff_same_grid_indices_witness :
  round_coord_gee default_config 34.05 (-118.25)
  = round_coord_gee default_config 34.1 (-118.3) ↔
  grid_index (NDVI_RES_DEG default_config) 34.05
  = grid_index (NDVI_RES_DEG default_config) 34.1 ∧
  grid_index (NDVI_RES_DEG default_config) (-118.25)
  = grid_index (NDVI_RES_DEG default_config) (-118.3).
Proof.
  apply (same_cell_iff_same_grid_indices default_config).
  - right; left; reflexivity.
  - by apply (in_grid_range_compute _ _ 151).
  - by apply (in_grid_range_compute _ _ (-525)).
  - by apply (in_grid_range_compute _ _ 151).
  - by apply (in_grid_range_compute _ _ (-525)).
Defined.

Lemma not_finite_cases (x : float) :
  PrimFloat.is_finite x = false →
  Prim2SF x = S754_nan ∨ ∃ s, Prim2SF x = S754_infinity s.
Proof.
  unfold PrimFloat.is_finite, PrimFloat.is_nan, PrimFloat.is_infinity.
  rewrite !FloatAxioms.eqb_spec, FloatAxioms.abs_spec.
  destruct (Prim2SF x) as [s|s| |s m e] eqn:Hx; [|by right; eexists|by left|].
  - by destruct s.
  - intros H. exfalso. revert H. replace (Prim2SF infinity) with (S754_infinity false) by reflexivity.
    unfold SFeqb, SFcompare, SFabs.
    rewrite Z.compare_refl.
    assert (Pos.compare_cont Eq m m = Eq) as Hm by apply Pos.compare_cont_refl.
    destruct s; cbn; rewrite ?Hm; done.
Qed.

Lemma py_round_not_finite (x : float) :
  Prim2SF x = S754_nan ∨ (∃ s, Prim2SF x = S754_infinity s) →
  ∃ e, py_round x = Raise e.
Proof. unfold py_round. intros [->|[s ->]]; by eexists. Qed.

Lemma div_not_finite (x deg : float) :
  PrimFloat.is_finite x = false →
  Prim2SF (x / deg) = S754_nan ∨ ∃ s, Prim2SF (x / deg) = S754_infinity s.
Proof.
  intros Hx%not_finite_cases. rewrite FloatAxioms.div_spec. unfold SF64div, SFdiv.
  destruct Hx as [->|[s ->]]; [by left|].
  destruct (Prim2SF deg); eauto.
Qed.

Lemma round_to_grid_not_finite (deg x : float) :
  PrimFloat.is_finite x = false → ∃ e, round_to_grid deg x = Raise e.
Proof.
  intros Hx. unfold round_to_grid.
  destruct (py_round_not_finite _ (div_not_finite x deg Hx)) as [e ->].
  by exists e.
Qed.

Lemma py_round_raises (x : float) (e : exn) :
  py_round x = Raise e → e = ValueError ∨ e = OverflowError.
Proof.
  unfold py_round. destruct (Prim2SF x); intros [=]; auto.
Qed.

Lemma round_to_grid_raises (deg x : float) (e : exn) :
  round_to_grid deg x = Raise e → e = ValueError ∨ e = OverflowError.
Proof.
  unfold round_to_grid. destruct (py_round (x / deg)) as [n|e'] eqn:Hn; [done|].
  intros [= <-]. by eapply py_round_raises.
Qed.

Lemma round_coord_raises (deg lat lon : float) (e : exn) :
  round_coord deg lat lon = Raise e → e = ValueError ∨ e = OverflowError.
Proof.
  unfold round_coord.
  destruct (round_to_grid deg lat) as [a|e1] eqn:H1;
    [|intros [= <-]; by eapply round_to_grid_raises].
  destruct (round_to_grid deg lon) as [b|e2] eqn:H2; [done|].
  intros [= <-]. by eapply round_to_grid_raises.
Qed.

Lemma round_coord_not_finite (deg lat lon : float) :
  PrimFloat.is_finite lat = false ∨ PrimFloat.is_finite lon = false →
  ∃ e, round_coord deg lat lon = Raise e.
Proof.
  intros H. unfold round_coord.
  destruct (round_to_grid deg lat) as [a|e1] eqn:H1; [|by exists e1].
  destruct H as [H|H].
  - destruct (round_to_grid_not_finite deg lat H) as [e He]. congruence.
  - destruct (round_to_grid_not_finite deg lon H) as [e ->]. by exists e.
Qed.

Lemma mapM_res_raises {A B} (f : A → res B) (l : list A) (x : A) (e0 : exn) :
  x ∈ l → f x = Raise e0 →
  ∃ e x', x' ∈ l ∧ f x' = Raise e ∧ mapM f l = Raise e.
Proof.
  intros Hin Hx. induction l as [|a l IH]; [by apply elem_of_nil in Hin|].
  cbn [mapM]. destruct (f a) as [b|e] eqn:Ha.
  - apply elem_of_cons in Hin as [->|Hin]; [congruence|].
    destruct (IH Hin) as (e & x' & Hx' & Hfx' & Hmap).
    exists e, x'. split; [by apply list_elem_of_further|]. split; [done|].
    cbn [mbind res_bind]. by rewrite Hmap.
  - exists e, a. split; [apply list_elem_of_here|]. by split.
Qed.

Lemma assign_cells_raises (src : source) (c : Config) (table : list row) :
  (∃ r, r ∈ table ∧
        (PrimFloat.is_finite (lat_center r) = false ∨
         PrimFloat.is_finite (lon_center r) = false)) →
  ∃ e, (e = ValueError ∨ e = OverflowError) ∧
       assign_cells src c table = Raise e.
Proof.
  intros (r & Hin & Hr). unfold assign_cells.
  destruct table as [|r0 table0] eqn:Htable; [by apply elem_of_nil in Hin|].
  rewrite <- Htable in *. clear Htable r0 table0. unfold rounded_cells.
  destruct (round_coord_not_finite
              (match src with GEE => NDVI_RES_DEG c | OM => TEMP_PRECIP_RES_DEG c end)
              _ _ Hr) as [e0 He0].
  edestruct (mapM_res_raises
               (λ r, q ← match src with
                         | GEE => round_coord_gee c (lat_center r) (lon_center r)
                         | OM => round_coord_om c (lat_center r) (lon_center r)
                         end; Ok (set_row_cell src q r)) table r e0 Hin)
    as (e & r' & _ & Hr' & Hmap).
  { destruct src; unfold round_coord_gee, round_coord_om; by rewrite He0. }
  exists e. split; [|done].
  apply (round_coord_raises
           (match src with GEE => NDVI_RES_DEG c | OM => TEMP_PRECIP_RES_DEG c end)
           (lat_center r') (lon_center r')).
  destruct src; unfold round_coord_gee, round_coord_om in Hr';
    match type of Hr' with
    | context [round_coord ?d ?a ?b] =>
        destruct (round_coord d a b); [done | by injection Hr' as ->]
    end.
Qed.

Lemma serial_process_raises c w src step pause st e :
  assign_cells src c (df st) = Raise e →
  Serial.process c w src step pause st = (Stop (Uncaught e), st).
Proof. intros H. unfold Serial.process. unfold_M. by rewrite H. Qed.

Lemma threaded_process_raises c w p st e :
  assign_cells (Threaded.p_src p) c (df st) = Raise e →
  Threaded.process c w p st = (Stop (Uncaught e), st).
Proof. intros H. unfold Threaded.process. unfold_M. by rewrite H. Qed.

(** X2: a record whose latitude or longitude is not a finite number (a
    missing value read as NaN, or an infinity) makes each of the four
    pipelines raise [ValueError] or [OverflowError] while it rounds the
    coordinates: nothing is fetched, nothing is written, and the table and
    the caches are as they were. *)
Theorem non_finite_coordinate_aborts_pipeline (c : Config) (w : world)
    (st : state) (r : row) :
  r ∈ df st →
  PrimFloat.is_finite (lat_center r) = false ∨
  PrimFloat.is_finite (lon_center r) = false →
  aborts_on_rounding (Serial.process_ndvi c w) st ∧
  aborts_on_rounding (Serial.process_temp_precip c w) st ∧
  aborts_on_rounding (Threaded.process_ndvi c w) st ∧
  aborts_on_rounding (Threaded.process_temp_precip c w) st.
Proof.
  intros Hin Hr.
  destruct (assign_cells_raises GEE c (df st)) as (e1 & He1 & H1); [by eauto|].
  destruct (assign_cells_raises OM c (df st)) as (e2 & He2 & H2); [by eauto|].
  repeat apply conj.
  - exists e1. split; [done|]. by apply serial_process_raises.
  - exists e2. split; [done|]. by apply serial_process_raises.
  - exists e1. split; [done|]. by apply threaded_process_raises.
  - exists e2. split; [done|]. by apply threaded_process_raises.
Qed.

Lemma non_finite_coordinate_witness :
  aborts_on_rounding (Serial.process_ndvi default_config healthy_world)
    missing_latitude_state ∧
  aborts_on_rounding (Serial.process_temp_precip default_config healthy_world)
    missing_latitude_state ∧
  aborts_on_rounding (Threaded.process_ndvi default_config healthy_world)
    missing_latitude_state ∧
  aborts_on_rounding (Threaded.process_temp_precip default_config healthy_world)
    missing_latitude_state.
Proof.
  eapply (non_finite_coordinate_aborts_pipeline default_config healthy_world
            missing_latitude_state).
  - apply list_elem_of_here.
  - left. reflexivity.
Defined.

(** ** Further properties of the climate aggregates *)

(** X3: when the body of the first response reports every day of its
    precipitation series, both climate fetchers answer after that one
    request, without a pause, with the same two aggregates: the mean
    temperature and the sum of the days (0 for an empty series). *)
Theorem complete_body_one_request (c : Config) (w : world) (lat lon : float)
    (y : Z) (js : daily) (days : list Q) :
  om w y lat lon 0 = OmJson js →
  precipitation_sum js = Some (Some <$> days) →
  ∃ s, (s == sum_list days)%Q ∧
    Serial.fetch_temp_precip w lat lon y
    = ([Request OM y lat lon], (temp_mean js, Some s)) ∧
    Threaded.fetch_temp_precip_single c w lat lon y
    = ([Request OM y lat lon],
       Ok (PDict [(TEMP_COL c, of_opt (temp_mean js)); (PRECIP_COL c, PNum s)])).
Proof.
  intros Hom Hdays.
  destruct (np_sum_present days) as (s & Hs & Heq).
  assert (aggregates js = Ok (temp_mean js, Some s)) as Hagg.
  { apply aggregates_temp. unfold precip_sum. by rewrite Hdays. }
  exists s. split; [done|]. split.
  - unfold Serial.fetch_temp_precip, Serial.fetch_temp_precip_body.
    by rewrite Hom, Hagg.
  - unfold Threaded.fetch_temp_precip_single, max_retries.
    cbn [Threaded.fetch_temp_precip_single_loop].
    rewrite Hom. cbn [Threaded.fetch_temp_precip_body]. by rewrite Hagg.
Qed.

Lemma complete_body_one_request_witness :
  ∃ s, (s == sum_list [5; 0])%Q ∧
    Serial.fetch_temp_precip healthy_world 34.05 (-118.25) 2020
    = ([Request OM 2020 34.05 (-118.25)],
       (temp_mean (scenario_daily (Some [Some 5; Some 0]%Q)), Some s)) ∧
    Threaded.fetch_temp_precip_single default_config healthy_world
      34.05 (-118.25) 2020
    = ([Request OM 2020 34.05 (-118.25)],
       Ok (PDict [(TEMP_COL default_config,
                   of_opt (temp_mean (scenario_daily (Some [Some 5; Some 0]%Q))));
                  (PRECIP_COL default_config, PNum s)])).
Proof.
  apply (complete_body_one_request default_config healthy_world
           34.05 (-118.25) 2020 _ [5; 0]%Q); reflexivity.
Defined.

(** ** Further properties of the fetchers *)

Ltac fetch_cases :=
  repeat match goal with
         | |- context [match ?x with _ => _ end] =>
             lazymatch x with
             | gee _ _ _ _ _ => destruct x as [|[?|]|?] eqn:?
             | om _ _ _ _ _ => destruct x as [| |?] eqn:?
             | Serial.is_rate_limit _ => destruct x eqn:?
             | Threaded.is_rate_limit _ => destruct x eqn:?
             | aggregates _ => destruct x as [[??]|?] eqn:?
             | is_RuntimeError _ => destruct x eqn:?
             end
         | |- context [if ?x then _ else _] =>
             lazymatch x with
             | Serial.is_rate_limit _ => destruct x eqn:?
             | Threaded.is_rate_limit _ => destruct x eqn:?
             | is_RuntimeError _ => destruct x eqn:?
             end
         end; cbn.

(** X4: what one point can cost. Every fetch tries its backend at least
    once and at most three times (the serial climate fetcher exactly once);
    the serial NDVI fetcher sleeps at most 70 s, the two threaded fetchers at
    most 30 s, and the serial climate fetcher never sleeps. *)
Theorem fetch_costs_are_bounded (c : Config) (w : world) (lat lon : float)
    (y : Z) :
  costs_at_most 3 70 (Serial.fetch_ndvi w lat lon y).1 ∧
  costs_at_most 1 0 (Serial.fetch_temp_precip w lat lon y).1 ∧
  costs_at_most 3 30 (Threaded.fetch_ndvi_single c w lat lon y).1 ∧
  costs_at_most 3 30 (Threaded.fetch_temp_precip_single c w lat lon y).1.
Proof.
  unfold costs_at_most.
  unfold Serial.fetch_ndvi, Serial.fetch_temp_precip,
    Threaded.fetch_ndvi_single, Threaded.fetch_temp_precip_single, max_retries.
  repeat apply conj; cbn; fetch_cases; lia.
Qed.

(** X5: the two NDVI fetchers agree wherever the threaded one returns: the
    value of its one-entry record is the value the serial fetcher returns
    for the same point and the same backend replies, after the same number
    of attempts. *)
Theorem ndvi_fetchers_agree (c : Config) (w : world) (lat lon : float) (y : Z)
    (v : pyval) :
  (Threaded.fetch_ndvi_single c w lat lon y).2 = Ok v →
  v = PDict [(NDVI_COL c, of_opt (Serial.fetch_ndvi w lat lon y).2)] ∧
  requests (Threaded.fetch_ndvi_single c w lat lon y).1
  = requests (Serial.fetch_ndvi w lat lon y).1.
Proof.
  unfold Serial.fetch_ndvi, Threaded.fetch_ndvi_single, max_retries.
  cbn [Serial.fetch_ndvi_loop Threaded.fetch_ndvi_single_loop].
  repeat match goal with
         | |- context [gee ?w ?y ?a ?b ?n] =>
             destruct (gee w y a b n) as [|[?|]|?]; cbn
         | |- context [Serial.is_rate_limit ?m] =>
             let H := fresh in
             destruct (Serial.is_rate_limit m) eqn:H;
             [apply threaded_is_rate_limit_of_serial in H; rewrite ?H|]; cbn
         | |- context [Threaded.is_rate_limit ?m] =>
             destruct (Threaded.is_rate_limit m); cbn
         end;
    intros [= Hv]; by rewrite <- ?Hv.
Qed.

Lemma ndvi_fetchers_agree_witness :
  PDict [(NDVI_COL default_config, PNum (5000 / 10000))]
  = PDict [(NDVI_COL default_config,
            of_opt (Serial.fetch_ndvi healthy_world 34.05 (-118.25) 2020).2)] ∧
  requests (Threaded.fetch_ndvi_single default_config healthy_world
              34.05 (-118.25) 2020).1
  = requests (Serial.fetch_ndvi healthy_world 34.05 (-118.25) 2020).1.
Proof.
  apply (ndvi_fetchers_agree default_config healthy_world 34.05 (-118.25) 2020).
  reflexivity.
Defined.

(** X6: an Earth Engine error whose text merely contains "rate" (as in
    "generate") is no rate-limit signal for the serial fetcher, which
    retries at once and returns [None] after three attempts, but is one for
    the threaded fetcher, which sleeps 10 s and 20 s and then raises
    [RuntimeError("GEE_RATE_LIMIT")], the exception that aborts the run. *)
Theorem rate_lookalike_aborts_threaded_only (c : Config) (w : world)
    (lat lon : float) (y : Z) :
  gee_rate_lookalike w y lat lon →
  Serial.fetch_ndvi w lat lon y
  = ([Request GEE y lat lon; Request GEE y lat lon; Request GEE y lat lon],
     None) ∧
  Threaded.fetch_ndvi_single c w lat lon y
  = ([Request GEE y lat lon; Sleep 10; Request GEE y lat lon; Sleep 20;
      Request GEE y lat lon],
     Raise (RuntimeError "GEE_RATE_LIMIT")).
Proof.
  intros H.
  destruct (H 0%nat) as (m0 & H0 & Hs0 & Ht0); [unfold max_retries; lia|].
  destruct (H 1%nat) as (m1 & H1 & Hs1 & Ht1); [unfold max_retries; lia|].
  destruct (H 2%nat) as (m2 & H2 & Hs2 & Ht2); [unfold max_retries; lia|].
  unfold Serial.fetch_ndvi, Threaded.fetch_ndvi_single, max_retries.
  cbn [Serial.fetch_ndvi_loop Threaded.fetch_ndvi_single_loop].
  rewrite H0, H1, H2, Hs0, Hs1, Hs2, Ht0, Ht1, Ht2. done.
Qed.

Lemma rate_lookalike_witness :
  Serial.fetch_ndvi generate_world 34.05 (-118.25) 2020
  = ([Request GEE 2020 34.05 (-118.25); Request GEE 2020 34.05 (-118.25);
      Request GEE 2020 34.05 (-118.25)], None) ∧
  Threaded.fetch_ndvi_single default_config generate_world 34.05 (-118.25) 2020
  = ([Request GEE 2020 34.05 (-118.25); Sleep 10;
      Request GEE 2020 34.05 (-118.25); Sleep 20;
      Request GEE 2020 34.05 (-118.25)],
     Raise (RuntimeError "GEE_RATE_LIMIT")).
Proof.
  apply (rate_lookalike_aborts_threaded_only default_config generate_world).
  intros attempt _. exists "Failed to generate image". by vm_compute.
Defined.

(** ** The loops over the table *)

Lemma batches_from_spec (fuel size i : nat) (coords : list cell) :
  (0 < size)%nat → (length coords ≤ i + fuel * size)%nat →
  concat (snd <$> batches_from fuel size i coords) = drop i coords ∧
  Forall (λ b, (0 < length b.2 ≤ size)%nat ∧ (b.1 + length b.2 ≤ length coords)%nat ∧
               b.2 = take size (drop b.1 coords) ∧ ∃ k, b.1 = (i + k * size)%nat)
         (batches_from fuel size i coords).
Proof.
  intros Hsize. revert i. induction fuel as [|fuel IH]; intros i Hlen.
  - cbn. split; [|done]. rewrite drop_ge; [done | lia].
  - cbn [batches_from]. destruct (i <? length coords)%nat eqn:Hi.
    + apply Nat.ltb_lt in Hi.
      destruct (IH (i + size)%nat) as [Hcat Hall]; [lia|].
      cbn [fmap list_fmap concat snd]. split.
      * rewrite Hcat, <- drop_drop. apply take_drop.
      * constructor.
        -- cbn [fst snd]. rewrite length_take, length_drop.
           repeat split; [lia | lia | lia |]. exists 0%nat. lia.
        -- eapply Forall_impl; [exact Hall|].
           intros b (H1 & H2 & H3 & k & Hk). repeat split; [lia | lia | done | done |].
           exists (S k). lia.
    + apply Nat.ltb_ge in Hi. cbn. split; [|done]. rewrite drop_ge; [done | lia].
Qed.

Lemma batches_spec (size : nat) (coords : list cell) :
  (0 < size)%nat →
  concat (snd <$> batches size coords) = coords ∧
  Forall (λ b, (0 < length b.2 ≤ size)%nat ∧
               b.2 = take size (drop b.1 coords) ∧
               ∃ k, b.1 = (k * size)%nat)
         (batches size coords).
Proof.
  intros Hsize. unfold batches.
  destruct (batches_from_spec (length coords) size 0 coords Hsize) as [Hcat Hall];
    [nia|].
  split; [done|].
  eapply Forall_impl; [exact Hall|]. intros b (H1 & _ & H3 & k & Hk).
  repeat split; [lia | lia | done |]. by exists k.
Qed.

(** X7: the batches of a year partition its unique points: taken in order
    they give back the list, every batch is non-empty and has at most
    [size] points, and the batch at offset [i] is the slice
    [coords[i:i+size]] at a multiple of [size]. So every point is visited
    exactly once. *)
Theorem batches_partition (size : nat) (coords : list cell) :
  (0 < size)%nat →
  concat (snd <$> batches size coords) = coords ∧
  Forall (λ b, (0 < length b.2 ≤ size)%nat ∧
               b.2 = take size (drop b.1 coords) ∧
               ∃ k, b.1 = (k * size)%nat)
         (batches size coords).
Proof. apply batches_spec. Qed.

Lemma batches_partition_witness :
  concat (snd <$> batches 2 [la_cell; (0, 0)%float; la_cell])
  = [la_cell; (0, 0)%float; la_cell] ∧
  Forall (λ b, (0 < length b.2 ≤ 2)%nat ∧
               b.2 = take 2 (drop b.1 [la_cell; (0, 0)%float; la_cell]) ∧
               ∃ k, b.1 = (k * 2)%nat)
         (batches 2 [la_cell; (0, 0)%float; la_cell]).
Proof. apply (batches_partition 2). lia. Defined.

Lemma insert_desc_elem (y x : Z) (l : list Z) :
  x ∈ insert_desc y l ↔ x = y ∨ x ∈ l.
Proof.
  induction l as [|a l IH]; cbn [insert_desc].
  - rewrite list_elem_of_singleton, elem_of_nil. tauto.
  - destruct (a <? y) eqn:H1; [by rewrite elem_of_cons|].
    destruct (a =? y) eqn:H2.
    + apply Z.eqb_eq in H2 as ->. rewrite elem_of_cons. tauto.
    + rewrite !elem_of_cons, IH. tauto.
Qed.

Lemma strictly_descending_cons (a : Z) (l : list Z) :
  strictly_descending (a :: l) ↔
  Forall (λ x, x < a) l ∧ strictly_descending l.
Proof.
  unfold strictly_descending. split.
  - intros H. split.
    + apply Forall_lookup. intros j b Hb. by apply (H 0%nat (S j) a b); [lia| |].
    + intros i j x z Hij Hx Hz. by apply (H (S i) (S j)); [lia| |].
  - intros [Hall H] i j x z Hij Hx Hz.
    destruct j as [|j]; [lia|]. cbn in Hz. destruct i as [|i].
    + injection Hx as <-. by eapply (Forall_lookup_1 _ _ _ _ Hall).
    + cbn in Hx. apply (H i j); [lia|done|done].
Qed.

Lemma insert_desc_sorted (y : Z) (l : list Z) :
  strictly_descending l → strictly_descending (insert_desc y l).
Proof.
  induction l as [|a l IH]; cbn [insert_desc]; intros Hl.
  - apply strictly_descending_cons. split; [constructor|].
    intros i j x z Hij Hx. by rewrite lookup_nil in Hx.
  - destruct (a <? y) eqn:H1.
    + apply Z.ltb_lt in H1. apply strictly_descending_cons. split; [|done].
      apply strictly_descending_cons in Hl as [Hall _].
      constructor; [done|]. eapply Forall_impl; [exact Hall|]. cbn. lia.
    + destruct (a =? y) eqn:H2; [done|].
      apply Z.ltb_ge in H1. apply Z.eqb_neq in H2.
      apply strictly_descending_cons in Hl as [Hall Hl].
      apply strictly_descending_cons. split; [|by apply IH].
      apply Forall_forall. intros x Hx.
      apply insert_desc_elem in Hx as [->|Hx]; [lia|].
      by eapply Forall_forall in Hall.
Qed.

Lemma years_desc_elem (table : list row) (y : Z) :
  y ∈ years_desc table ↔ ∃ r, r ∈ table ∧ year r = y.
Proof.
  unfold years_desc. induction table as [|r table IH].
  - cbn. split.
    + by intros ?%elem_of_nil.
    + by intros (r & ?%elem_of_nil & _).
  - cbn [fmap list_fmap foldr]. rewrite insert_desc_elem, IH. split.
    + intros [->|(r' & Hr' & <-)].
      * exists r. split; [apply list_elem_of_here | done].
      * exists r'. split; [by apply list_elem_of_further | done].
    + intros (r' & [->|Hr']%elem_of_cons & <-); [by left|]. right. by exists r'.
Qed.

Lemma years_desc_descending (table : list row) :
  strictly_descending (years_desc table).
Proof.
  unfold years_desc. induction table as [|r table IH].
  - intros i j x z Hij Hx. cbn in Hx. by rewrite lookup_nil in Hx.
  - cbn [fmap list_fmap foldr]. by apply insert_desc_sorted.
Qed.

(** X8: the years are processed in strictly descending order, each year of
    the table exactly once and no other year. *)
Theorem years_desc_sorted_and_complete (table : list row) :
  strictly_descending (years_desc table) ∧
  ∀ y, y ∈ years_desc table ↔ ∃ r, r ∈ table ∧ year r = y.
Proof. split; [apply years_desc_descending | apply years_desc_elem]. Qed.

(** *** Equality of floats and of cells *)

Lemma SFeqb_cases (x y : spec_float) :
  SFeqb x y = true →
  (∃ s s', x = S754_zero s ∧ y = S754_zero s') ∨ (x = y ∧ SFeqb x x = true).
Proof.
  unfold SFeqb, SFcompare.
  destruct x as [s|s| |s m e], y as [s'|s'| |s' m' e']; try done;
    try (by left; eauto); try (by destruct s); try (by destruct s, s').
  - destruct s, s'; try done; by right.
  - assert (∀ p q, Pos.compare_cont Eq p q = Eq → p = q) as Hpos.
    { intros p q. apply Pos.compare_eq. }
    destruct s, s'; try done.
    + destruct (Z.compare_spec e e') as [->| |]; try done.
      destruct (Pos.compare_cont Eq m m') eqn:Hm; try done.
      apply Hpos in Hm as ->. intros _. right. split; [done|].
      by rewrite Z.compare_refl, Pos.compare_cont_refl.
    + destruct (Z.compare_spec e e') as [->| |]; try done.
      destruct (Pos.compare_cont Eq m m') eqn:Hm; try done.
      apply Hpos in Hm as ->. intros _. right. split; [done|].
      by rewrite Z.compare_refl, Pos.compare_cont_refl.
Qed.

Lemma SFeqb_zero (s s' : bool) : SFeqb (S754_zero s) (S754_zero s') = true.
Proof. done. Qed.

Lemma float_eqb_sym (x y : float) :
  PrimFloat.eqb x y = true → PrimFloat.eqb y x = true.
Proof.
  rewrite !FloatAxioms.eqb_spec.
  intros [(s & s' & -> & ->)|[-> H]]%SFeqb_cases; [apply SFeqb_zero | done].
Qed.

Lemma float_eqb_trans (x y z : float) :
  PrimFloat.eqb x y = true → PrimFloat.eqb y z = true →
  PrimFloat.eqb x z = true.
Proof.
  rewrite !FloatAxioms.eqb_spec.
  intros [(s & s' & -> & ->)|[-> H]]%SFeqb_cases; [|done].
  intros [(t & t' & _ & ->)|[<- _]]%SFeqb_cases; apply SFeqb_zero.
Qed.

Lemma cell_eqb_sym (a b : cell) : cell_eqb a b = true → cell_eqb b a = true.
Proof.
  unfold cell_eqb. intros [H1 H2]%andb_prop.
  by rewrite (float_eqb_sym _ _ H1), (float_eqb_sym _ _ H2).
Qed.

Lemma cell_eqb_trans (a b c : cell) :
  cell_eqb a b = true → cell_eqb b c = true → cell_eqb a c = true.
Proof.
  unfold cell_eqb. intros [H1 H2]%andb_prop [H3 H4]%andb_prop.
  by rewrite (float_eqb_trans _ _ _ H1 H3), (float_eqb_trans _ _ _ H2 H4).
Qed.

Lemma cell_eqb_sym_false (a b : cell) :
  cell_eqb a b = false → cell_eqb b a = false.
Proof.
  intros H. destruct (cell_eqb b a) eqn:Hba; [|done].
  apply cell_eqb_sym in Hba. congruence.
Qed.

(** *** The unique points of a year *)

Lemma dedup_cells_elem (c : cell) (l : list cell) :
  c ∈ dedup_cells l → c ∈ l.
Proof.
  induction l as [|a l IH]; [done|]. cbn [dedup_cells].
  destruct (existsb (cell_eqb a) l).
  - intros H. by apply list_elem_of_further, IH.
  - intros [->|H]%elem_of_cons; [apply list_elem_of_here|].
    by apply list_elem_of_further, IH.
Qed.

Lemma dedup_cells_covers (c : cell) (l : list cell) :
  c ∈ l → cell_eqb c c = true →
  ∃ c', c' ∈ dedup_cells l ∧ cell_eqb c c' = true.
Proof.
  revert c. induction l as [|a l IH]; intros c Hin Hc;
    [by apply elem_of_nil in Hin|].
  cbn [dedup_cells]. apply elem_of_cons in Hin as [->|Hin].
  - destruct (existsb (cell_eqb a) l) eqn:Hex.
    + apply existsb_exists in Hex as (x & Hx%list_elem_of_In & Hax).
      destruct (IH x Hx) as (c' & Hc' & Hxc').
      { eapply cell_eqb_trans; [by apply cell_eqb_sym|done]. }
      exists c'. split; [done|]. by eapply cell_eqb_trans.
    + exists a. split; [apply list_elem_of_here | done].
  - destruct (IH c Hin Hc) as (c' & Hc' & Hcc'). exists c'. split; [|done].
    destruct (existsb (cell_eqb a) l); [done | by apply list_elem_of_further].
Qed.

Lemma pairwise_distinct_cons (a : cell) (l : list cell) :
  pairwise_distinct (a :: l) ↔
  Forall (λ b, cell_eqb a b = false) l ∧ pairwise_distinct l.
Proof.
  unfold pairwise_distinct. split.
  - intros H. split.
    + apply Forall_lookup. intros j b Hb. by apply (H 0%nat (S j)).
    + intros i j x z Hij Hx Hz. apply (H (S i) (S j)); [lia|done|done].
  - intros [Hall H] i j x z Hij Hx Hz.
    destruct i as [|i], j as [|j]; [done| | |].
    + injection Hx as <-. cbn in Hz. by eapply (Forall_lookup_1 _ _ _ _ Hall).
    + injection Hz as <-. cbn in Hx. apply cell_eqb_sym_false.
      by eapply (Forall_lookup_1 _ _ _ _ Hall).
    + cbn in Hx, Hz. apply (H i j); [lia|done|done].
Qed.

Lemma dedup_cells_distinct (l : list cell) : pairwise_distinct (dedup_cells l).
Proof.
  induction l as [|a l IH];
    [intros i j x z _ Hx; cbn in Hx; by rewrite lookup_nil in Hx|].
  cbn [dedup_cells]. destruct (existsb (cell_eqb a) l) eqn:Hex; [done|].
  apply pairwise_distinct_cons. split; [|done].
  apply Forall_forall. intros b Hb%dedup_cells_elem.
  destruct (cell_eqb a b) eqn:Hab; [|done].
  assert (existsb (cell_eqb a) l = true); [|congruence].
  apply existsb_exists. exists b. by rewrite <- list_elem_of_In.
Qed.

Lemma pairwise_distinct_perm (l l' : list cell) :
  l ≡ₚ l' → pairwise_distinct l → pairwise_distinct l'.
Proof.
  induction 1 as [|a l l' Hperm IH|a b l|l1 l2 l3 _ IH1 _ IH2]; [done| | |auto].
  - rewrite !pairwise_distinct_cons. intros [Hall Hl]. split; [|by apply IH].
    by rewrite <- Hperm.
  - rewrite !pairwise_distinct_cons, !Forall_cons.
    intros [[Hab Ha] [Hb Hl]]. repeat split; try done.
    by apply cell_eqb_sym_false.
Qed.

Lemma pairwise_distinct_same (l : list cell) (k pt : cell) :
  pairwise_distinct l → k ∈ l → pt ∈ l → cell_eqb k pt = true → k = pt.
Proof.
  intros Hd [i Hi]%list_elem_of_lookup [j Hj]%list_elem_of_lookup Heq.
  destruct (decide (i = j)) as [->|Hne]; [congruence|].
  pose proof (Hd i j k pt Hne Hi Hj). congruence.
Qed.

Lemma unique_points_from (w : world) (src : source) (table : list row)
    (y : Z) (pt : cell) :
  lists_the_set w → pt ∈ unique_points w src table y →
  ∃ r, r ∈ table ∧ year r = y ∧ row_cell src r = Some pt.
Proof.
  intros Hset Hpt. unfold unique_points in Hpt. rewrite (Hset _) in Hpt.
  apply dedup_cells_elem in Hpt.
  apply list_elem_of_omap in Hpt as (r & Hr & Hpt). exists r.
  destruct (year r =? y) eqn:Hy; [|done]. by apply Z.eqb_eq in Hy.
Qed.

Lemma unique_points_distinct (w : world) (src : source) (table : list row)
    (y : Z) :
  lists_the_set w → pairwise_distinct (unique_points w src table y).
Proof.
  intros Hset. unfold unique_points.
  eapply pairwise_distinct_perm; [symmetry; apply Hset|].
  apply dedup_cells_distinct.
Qed.

Lemma unique_points_covers (w : world) (src : source) (table : list row)
    (y : Z) (r : row) (own : cell) :
  lists_the_set w →
  r ∈ table → year r = y → row_cell src r = Some own →
  cell_eqb own own = true →
  ∃ pt, pt ∈ unique_points w src table y ∧ mask src y pt r = true ∧
        ∀ pt', pt' ∈ unique_points w src table y →
               mask src y pt' r = true → pt' = pt.
Proof.
  intros Hset Hr Hy Hown Hself.
  pose proof (unique_points_distinct w src table y Hset) as Hdist.
  unfold unique_points in *.
  set (cells := omap (λ r, if year r =? y then row_cell src r else None) table)
    in *.
  assert (own ∈ cells) as Hin.
  { apply list_elem_of_omap. exists r. split; [done|].
    by rewrite (proj2 (Z.eqb_eq _ _) Hy). }
  destruct (dedup_cells_covers own cells Hin Hself) as (pt & Hpt & Heq).
  rewrite <- (Hset _) in Hpt.
  exists pt. split; [done|].
  assert (∀ p, mask src y p r = cell_eqb own p) as Hmask.
  { intros p. unfold mask. by rewrite (proj2 (Z.eqb_eq _ _) Hy), Hown. }
  split; [by rewrite Hmask|].
  intros pt' Hpt' Hm. rewrite Hmask in Hm.
  eapply pairwise_distinct_same; [exact Hdist|done..|].
  eapply cell_eqb_trans; [by apply cell_eqb_sym|done].
Qed.

(** X9: the unique points of a year. When [list(set(...))] lists its set,
    every point is the cell of a record of that year, no two points are
    equal, and every record of the year whose cell is a pair of numbers is
    selected by the mask of exactly one point: each record is written by
    one step of the loop and no other. *)
Theorem unique_points_select_each_record_once (w : world) (src : source)
    (table : list row) (y : Z) :
  lists_the_set w →
  (∀ pt, pt ∈ unique_points w src table y →
         ∃ r, r ∈ table ∧ year r = y ∧ row_cell src r = Some pt) ∧
  pairwise_distinct (unique_points w src table y) ∧
  (∀ r own, r ∈ table → year r = y → row_cell src r = Some own →
            cell_eqb own own = true →
     ∃ pt, pt ∈ unique_points w src table y ∧ mask src y pt r = true ∧
           ∀ pt', pt' ∈ unique_points w src table y →
                  mask src y pt' r = true → pt' = pt).
Proof.
  intros Hset. split; [|split].
  - intros pt. by apply unique_points_from.
  - by apply unique_points_distinct.
  - intros r own. by apply unique_points_covers.
Qed.

Lemma unique_points_witness :
  (∀ pt, pt ∈ unique_points healthy_world GEE (df cold_state) 2020 →
         ∃ r, r ∈ df cold_state ∧ year r = 2020 ∧ row_cell GEE r = Some pt) ∧
  pairwise_distinct (unique_points healthy_world GEE (df cold_state) 2020) ∧
  (∀ r own, r ∈ df cold_state → year r = 2020 → row_cell GEE r = Some own →
            cell_eqb own own = true →
     ∃ pt, pt ∈ unique_points healthy_world GEE (df cold_state) 2020 ∧
           mask GEE 2020 pt r = true ∧
           ∀ pt', pt' ∈ unique_points healthy_world GEE (df cold_state) 2020 →
                  mask GEE 2020 pt' r = true → pt' = pt).
Proof.
  apply (unique_points_select_each_record_once healthy_world GEE
           (df cold_state) 2020).
  intros l. reflexivity.
Defined.

(** ** Pre- and postconditions *)

Lemma triple_bind {A B} (P : state → Prop) (m : M A) (Q1 : A → state → Prop)
    (f : A → M B) (Q : B → state → Prop) (E : stop → state → Prop) :
  triple P m Q1 E → (∀ a, triple (Q1 a) (f a) Q E) → triple P (m ≫= f) Q E.
Proof.
  intros Hm Hf st r st' HP Hrun. unfold mbind, M_bind in Hrun.
  destruct (m st) as [[a|s] st1] eqn:Hst1.
  - exact (Hf a st1 r st' (Hm st _ _ HP Hst1) Hrun).
  - injection Hrun as Hr Hs. subst r st'. exact (Hm st _ _ HP Hst1).
Qed.

Lemma triple_weaken {A} (P P' : state → Prop) (m : M A)
    (Q Q' : A → state → Prop) (E E' : stop → state → Prop) :
  triple P m Q E →
  (∀ st, P' st → P st) → (∀ a st, Q a st → Q' a st) →
  (∀ s st, E s st → E' s st) →
  triple P' m Q' E'.
Proof.
  intros Hm HP HQ HE st r st' HP' Hrun.
  specialize (Hm st r st' (HP st HP') Hrun). destruct r; auto.
Qed.

Lemma triple_for_each {A} (I : state → Prop) (E : stop → state → Prop)
    (body : A → M unit) (l : list A) :
  (∀ x, x ∈ l → triple I (body x) (λ _, I) E) →
  triple I (for_each body l) (λ _, I) E.
Proof.
  induction l as [|x l IH]; intros Hbody; cbn [for_each].
  - intros st r st' HI Hrun. injection Hrun as Hr Hs. by subst r st'.
  - eapply triple_bind; [apply Hbody; by left|].
    intros []. apply IH. intros x' Hx'. apply Hbody. by right.
Qed.

(** A loop whose invariant is indexed by the elements already visited. *)
Lemma triple_for_each_visited {A} (I : list A → state → Prop)
    (E : stop → state → Prop) (body : A → M unit) (seen l : list A) :
  (∀ before x after, l = before ++ x :: after →
     triple (I (seen ++ before)) (body x) (λ _, I (seen ++ before ++ [x])) E) →
  triple (I seen) (for_each body l) (λ _, I (seen ++ l)) E.
Proof.
  revert seen. induction l as [|x l IH]; intros seen Hbody; cbn [for_each].
  - intros st r st' HI Hrun. injection Hrun as Hr Hs. subst r st'.
    by rewrite app_nil_r.
  - eapply triple_bind.
    + specialize (Hbody [] x l eq_refl). rewrite app_nil_r in Hbody.
      exact Hbody.
    + intros []. cbn [app].
      replace (seen ++ x :: l) with ((seen ++ [x]) ++ l)
        by (by rewrite <- app_assoc).
      apply IH. intros before x' after ->.
      specialize (Hbody (x :: before) x' after eq_refl).
      by rewrite <- !app_assoc.
Qed.

(** ** The records of the table *)

Lemma same_record_refl touched r : same_record touched r r.
Proof. by repeat split. Qed.

Lemma same_record_trans touched r1 r2 r3 :
  same_record touched r1 r2 → same_record touched r2 r3 →
  same_record touched r1 r3.
Proof.
  intros (H1 & H2 & H3 & H4) (K1 & K2 & K3 & K4).
  repeat split; [congruence..|]. intros col Hcol. by rewrite K4, H4.
Qed.

Lemma same_record_mono (touched touched' : string → Prop) r r' :
  (∀ col, touched col → touched' col) →
  same_record touched r r' → same_record touched' r r'.
Proof.
  intros Hsub (H1 & H2 & H3 & H4). repeat split; [done..|].
  intros col Hcol. apply H4. intros ?. by apply Hcol, Hsub.
Qed.

Lemma keeps_records_refl touched table : keeps_records touched table table.
Proof. apply Forall2_same_length_lookup_2; [done|]. intros i r r' H1 H2.
  assert (r = r') as -> by congruence. apply same_record_refl. Qed.

Lemma keeps_records_trans touched t1 t2 t3 :
  keeps_records touched t1 t2 → keeps_records touched t2 t3 →
  keeps_records touched t1 t3.
Proof.
  unfold keeps_records. intros H12. revert t3.
  induction H12 as [|r1 r2 t1 t2 Hr H12 IH]; intros t3 H23.
  - by apply Forall2_nil_inv_l in H23 as ->.
  - apply Forall2_cons_inv_l in H23 as (r3 & t3' & Hr' & H23 & ->).
    constructor; [by eapply same_record_trans | by apply IH].
Qed.

Lemma keeps_records_mono (touched touched' : string → Prop) t t' :
  (∀ col, touched col → touched' col) →
  keeps_records touched t t' → keeps_records touched' t t'.
Proof.
  intros Hsub H. eapply Forall2_impl; [exact H|].
  intros r r'. by apply same_record_mono.
Qed.

Lemma set_col_same_record (touched : string → Prop) col v r :
  touched col → same_record touched r (set_col col v r).
Proof.
  intros Hcol. repeat split. intros col' Hcol'. cbn.
  apply lookup_insert_ne. by intros ->.
Qed.

Lemma loc_set_keeps_records (touched : string → Prop) m col v table :
  touched col → keeps_records touched table (loc_set m col v table).
Proof.
  intros Hcol. unfold keeps_records, loc_set.
  induction table as [|r table IH]; [constructor|].
  cbn [fmap list_fmap]. constructor; [|done].
  destruct (m r); [by apply set_col_same_record | apply same_record_refl].
Qed.

Lemma loc_set_items_keeps_records (touched : string → Prop) m kvs table :
  (∀ kv, kv ∈ kvs → touched kv.1) →
  keeps_records touched table (loc_set_items m kvs table).
Proof.
  unfold loc_set_items. revert table.
  induction kvs as [|kv kvs IH]; intros table Hkvs; [apply keeps_records_refl|].
  cbn [foldl]. eapply keeps_records_trans.
  - apply (loc_set_keeps_records touched m kv.1 kv.2). apply Hkvs. by left.
  - apply IH. intros kv' Hkv'. apply Hkvs. by right.
Qed.

Lemma mapM_res_Forall2 {A B} (f : A → res B) (l : list A) (k : list B) :
  mapM f l = Ok k → Forall2 (λ a b, f a = Ok b) l k.
Proof.
  revert k. induction l as [|a l IH]; intros k.
  - intros [= <-]. constructor.
  - cbn [mapM]. destruct (f a) as [b|e] eqn:Ha; [|done].
    cbn [mbind res_bind]. destruct (mapM f l) as [k'|e]; [|done].
    intros [= <-]. constructor; [done | by apply IH].
Qed.

Lemma assign_cells_rounded src c table table' :
  assign_cells src c table = Ok table' →
  table ≠ [] ∧ rounded_cells src c table = Ok table'.
Proof. unfold assign_cells. by destruct table. Qed.

Lemma assign_cells_keeps_records touched src c table table' :
  assign_cells src c table = Ok table' → keeps_records touched table table'.
Proof.
  intros [_ H%mapM_res_Forall2]%assign_cells_rounded.
  eapply Forall2_impl; [exact H|].
  intros r r' Hr. cbn in Hr.
  destruct src;
    [destruct (round_coord_gee c (lat_center r) (lon_center r))
    |destruct (round_coord_om c (lat_center r) (lon_center r))];
    cbn in Hr; try done; injection Hr as <-; by repeat split.
Qed.

Lemma keeps_refl touched st : keeps touched st st.
Proof. apply keeps_records_refl. Qed.

Lemma keeps_trans touched st1 st2 st3 :
  keeps touched st1 st2 → keeps touched st2 st3 → keeps touched st1 st3.
Proof. apply keeps_records_trans. Qed.

Lemma preserves_keeps_quiet touched (m : M unit) :
  (∀ st, ∃ st', m st = (Done (), st') ∧ df st' = df st) →
  preserves (keeps touched) m.
Proof.
  intros Hm st r st' Hrun. destruct (Hm st) as (st1 & Hst1 & Hdf).
  rewrite Hst1 in Hrun. injection Hrun as <- <-.
  unfold keeps. rewrite Hdf. apply keeps_records_refl.
Qed.

Ltac keeps_bind :=
  apply preserves_bind; [apply keeps_trans | | intros ?].

Ltac keeps_step :=
  first
    [ apply preserves_check_interrupt, keeps_refl
    | apply preserves_keeps_quiet; intros ?;
      first [ eexists; split; reflexivity
            | match goal with
              | |- context [save_cache ?s] => destruct s
              end; eexists; split; reflexivity ]
    | apply preserves_lift, keeps_refl
    | apply preserves_ret, keeps_refl
    | apply preserves_sys_exit, keeps_refl
    | apply preserves_raise, keeps_refl ].

Lemma serial_ndvi_step_keeps (touched : string → Prop) c w y i pt :
  touched (NDVI_COL c) → preserves (keeps touched) (Serial.ndvi_step c w y i pt).
Proof.
  intros Hcol st r st' Hrun. unfold Serial.ndvi_step in Hrun. unfold_M.
  destruct (gee_cache st !! cache_key w y pt) as [cached|].
  - injection Hrun as <- <-. by apply loc_set_keeps_records.
  - destruct (interrupt w GEE y i PhDispatch).
    + injection Hrun as <- <-. apply keeps_refl.
    + destruct (Serial.fetch_ndvi w pt.1 pt.2 y) as [evs ndvi].
      injection Hrun as <- <-. by apply loc_set_keeps_records.
Qed.

Lemma serial_temp_precip_step_keeps (touched : string → Prop) c w y i pt :
  touched (TEMP_COL c) → touched (PRECIP_COL c) →
  preserves (keeps touched) (Serial.temp_precip_step c w y i pt).
Proof.
  intros Ht Hp st r st' Hrun. unfold Serial.temp_precip_step in Hrun. unfold_M.
  assert (∀ t p, keeps_records touched (df st)
            (loc_set (mask OM y pt) (PRECIP_COL c) p
               (loc_set (mask OM y pt) (TEMP_COL c) t (df st)))) as Hset.
  { intros t p. eapply keeps_records_trans; by apply loc_set_keeps_records. }
  destruct (om_cache st !! cache_key w y pt) as [cached|].
  - destruct (unpack2 cached) as [[temp precip]|e]; injection Hrun as <- <-.
    + apply Hset.
    + apply keeps_refl.
  - destruct (interrupt w OM y i PhDispatch).
    + injection Hrun as <- <-. apply keeps_refl.
    + destruct (Serial.fetch_temp_precip w pt.1 pt.2 y) as [evs [temp precip]].
      injection Hrun as <- <-. apply Hset.
Qed.

Lemma serial_batch_keeps touched w src step pause y b :
  (∀ i pt, preserves (keeps touched) (step y i pt)) →
  preserves (keeps touched) (Serial.batch w src step pause y b).
Proof.
  intros Hstep. unfold Serial.batch.
  keeps_bind; [keeps_step|]. keeps_bind.
  { apply preserves_for_each; [apply keeps_refl | apply keeps_trans |].
    intros pt _. apply Hstep. }
  repeat (keeps_bind; [keeps_step|]). keeps_step.
Qed.

Lemma serial_process_keeps touched c w src step pause :
  (∀ y i pt, preserves (keeps touched) (step y i pt)) →
  preserves (keeps touched) (Serial.process c w src step pause).
Proof.
  intros Hstep st r st' Hrun. unfold Serial.process in Hrun. unfold_M.
  destruct (assign_cells src c (df st)) as [table|e] eqn:Hcells.
  - unfold set_df in Hrun. unfold_M. cbv beta iota in Hrun.
    assert (preserves (keeps touched)
              (for_each (λ y, for_each (Serial.batch w src step pause y)
                                (batches 50 (unique_points w src table y)))
                 (years_desc table))) as Hloop.
    { apply preserves_for_each; [apply keeps_refl | apply keeps_trans |].
      intros y _.
      apply preserves_for_each; [apply keeps_refl | apply keeps_trans |].
      intros b _. by apply serial_batch_keeps. }
    eapply keeps_trans; [|exact (Hloop _ _ _ Hrun)].
    by eapply assign_cells_keeps_records.
  - injection Hrun as <- <-. apply keeps_refl.
Qed.

Lemma load_or_create_checkpoint_keeps c st r st' :
  load_or_create_checkpoint c st = (r, st') →
  keeps_records (covariate c) (loaded st) (df st').
Proof.
  unfold load_or_create_checkpoint, loaded. unfold_M.
  destruct (CHECKPOINT_CSV st) as [table|]; intros [= <- <-]; cbn.
  - apply keeps_records_refl.
  - induction (SRC_CSV st) as [|r0 rows IH]; [constructor|].
    cbn [fmap list_fmap]. constructor; [|done].
    assert (∀ col r1, covariate c col →
              same_record (covariate c) r1
                match cols r1 !! col with
                | Some _ => r1
                | None => set_col col PNone r1
                end) as Hadd.
    { intros col r1 Hcol. destruct (cols r1 !! col);
        [apply same_record_refl | by apply set_col_same_record]. }
    eapply same_record_trans; [|apply Hadd; unfold covariate; tauto].
    eapply same_record_trans; [|apply Hadd; unfold covariate; tauto].
    apply Hadd. unfold covariate; tauto.
Qed.

Lemma load_or_create_cache_keeps touched src :
  preserves (keeps touched) (load_or_create_cache src).
Proof.
  intros st r st'. unfold load_or_create_cache. unfold_M.
  destruct src; [destruct (GEE_CACHE st) | destruct (OM_CACHE st)];
    intros [= <- <-]; apply keeps_records_refl.
Qed.

(** X10: the serial variant keeps every record. Each pipeline leaves the
    table with the same records in the same order, with their coordinates
    and year and with every column except its own result column(s); and
    however [main] ends, its table holds the records of the checkpoint it
    loaded (of the source table on a first run), with every column except
    the three result columns as it was read. *)
Theorem serial_run_keeps_every_record (c : Config) (w : world) (st : state)
    (r : outcome unit) (st' : state) :
  (Serial.process_ndvi c w st = (r, st') →
   keeps_records (λ col, col = NDVI_COL c) (df st) (df st')) ∧
  (Serial.process_temp_precip c w st = (r, st') →
   keeps_records (λ col, col = TEMP_COL c ∨ col = PRECIP_COL c)
     (df st) (df st')) ∧
  (Serial.main c w st = (r, st') →
   keeps_records (covariate c) (loaded st) (df st')).
Proof.
  assert (∀ touched, touched (NDVI_COL c) →
            preserves (keeps touched) (Serial.process_ndvi c w)) as Hndvi.
  { intros touched H. apply serial_process_keeps. intros y i pt.
    by apply serial_ndvi_step_keeps. }
  assert (∀ touched, touched (TEMP_COL c) → touched (PRECIP_COL c) →
            preserves (keeps touched) (Serial.process_temp_precip c w)) as Hom.
  { intros touched H1 H2. apply serial_process_keeps. intros y i pt.
    by apply serial_temp_precip_step_keeps. }
  split; [|split].
  - by apply Hndvi.
  - apply Hom; tauto.
  - unfold Serial.main. unfold mbind at 1, M_bind at 1.
    destruct (load_or_create_checkpoint c st) as [[[]|s] st1] eqn:Hload.
    + apply load_or_create_checkpoint_keeps in Hload. intros Hrun.
      eapply keeps_records_trans; [exact Hload|]. revert Hrun.
      generalize st1 r st'.
      change (preserves (keeps (covariate c))
                (load_or_create_cache GEE ≫= λ _,
                 load_or_create_cache OM ≫= λ _,
                 Serial.process_ndvi c w ≫= λ _,
                 Serial.process_temp_precip c w ≫= λ _, save_checkpoint)).
      keeps_bind; [apply load_or_create_cache_keeps|].
      keeps_bind; [apply load_or_create_cache_keeps|].
      keeps_bind; [apply Hndvi; unfold covariate; tauto|].
      keeps_bind; [apply Hom; unfold covariate; tauto|].
      keeps_step.
    + intros [= <- <-]. by apply load_or_create_checkpoint_keeps in Hload.
Qed.

(** ** What a batch leaves on disk *)

Lemma same_files_refl st : same_files st st.
Proof. by repeat split. Qed.

Lemma same_files_trans st1 st2 st3 :
  same_files st1 st2 → same_files st2 st3 → same_files st1 st3.
Proof. intros (?&?&?) (?&?&?). repeat split; congruence. Qed.

Lemma serial_ndvi_step_same_files c w y i pt :
  preserves same_files (Serial.ndvi_step c w y i pt).
Proof.
  intros st r st' Hrun. unfold Serial.ndvi_step in Hrun. unfold_M.
  destruct (gee_cache st !! cache_key w y pt) as [cached|].
  - injection Hrun as <- <-. by repeat split.
  - destruct (interrupt w GEE y i PhDispatch);
      [injection Hrun as <- <-; by repeat split|].
    destruct (Serial.fetch_ndvi w pt.1 pt.2 y) as [evs ndvi].
    injection Hrun as <- <-. by repeat split.
Qed.

Lemma serial_temp_precip_step_same_files c w y i pt :
  preserves same_files (Serial.temp_precip_step c w y i pt).
Proof.
  intros st r st' Hrun. unfold Serial.temp_precip_step in Hrun. unfold_M.
  destruct (om_cache st !! cache_key w y pt) as [cached|].
  - destruct (unpack2 cached) as [[temp precip]|e]; injection Hrun as <- <-;
      by repeat split.
  - destruct (interrupt w OM y i PhDispatch);
      [injection Hrun as <- <-; by repeat split|].
    destruct (Serial.fetch_temp_precip w pt.1 pt.2 y) as [evs [temp precip]].
    injection Hrun as <- <-. by repeat split.
Qed.

(** A batch of the serial variant is its loop followed by the two writes
    and the pause, which cannot fail. *)
Lemma serial_batch_run w src step pause y b st :
  Serial.batch w src step pause y b st
  = if interrupt w src y b.1 PhLookup
    then (Stop (Uncaught KeyboardInterrupt), st)
    else match for_each (step y b.1) b.2 st with
         | (Done _, st1) =>
             if interrupt w src y b.1 PhPersist
             then (Stop (Uncaught KeyboardInterrupt), st1)
             else (Done (), (sleep pause (flushed src st1)).2)
         | (Stop s, st1) => (Stop s, st1)
         end.
Proof.
  unfold Serial.batch, flushed, check_interrupt. unfold_M.
  destruct (interrupt w src y b.1 PhLookup); [done|].
  destruct (for_each (step y b.1) b.2 st) as [[[]|s] st1]; [|done].
  destruct (interrupt w src y b.1 PhPersist); [done|].
  by destruct src.
Qed.

Lemma saved_after_flush src pause st :
  saved src (sleep pause (flushed src st)).2 ∧
  ∀ s, s ≠ src →
       cache_file s (sleep pause (flushed src st)).2 = cache_file s st.
Proof. split; [by destruct src | intros s Hs; by destruct s, src]. Qed.

Lemma serial_batch_saved_at_end w src step pause y b st r st' :
  (∀ i pt, preserves same_files (step y i pt)) →
  (∀ i pt, never_exits (step y i pt)) →
  Serial.batch w src step pause y b st = (r, st') →
  saved_at_end src st r st'.
Proof.
  intros Hstep Hne. rewrite serial_batch_run.
  destruct (interrupt w src y b.1 PhLookup).
  { by intros [= <- <-]. }
  destruct (for_each (step y b.1) b.2 st) as [[[]|s] st1] eqn:Hloop.
  - apply (preserves_for_each same_files same_files_refl same_files_trans)
      in Hloop as (H1 & H2 & H3); [|intros pt _; apply Hstep].
    destruct (interrupt w src y b.1 PhPersist).
    { by intros [= <- <-]. }
    intros [= <- <-]. destruct (saved_after_flush src pause st1) as [Hs Ho].
    split; [done|]. intros s Hs'. etrans; [exact (Ho s Hs')|]. by destruct s.
  - intros [= <- <-].
    pose proof (never_exits_for_each (step y b.1) b.2 (Hne b.1) _ _ _ Hloop)
      as Hcode.
    destruct s as [code|e]; [by destruct (Hcode code) | done].
Qed.

(** X11: the work of a batch of the serial variant reaches the disk only at
    its end. However the loop over the points of a batch ends, the three
    files are as they were before it; and a batch that completes has written
    the checkpoint file, which holds the table, and the cache file of its
    pipeline, which holds the cache, and has left the other pipeline's cache
    file as it was. *)
Theorem serial_batch_saves_at_its_end (c : Config) (w : world) (y : Z)
    (b : nat * list cell) (st : state) (r : outcome unit) (st' : state) :
  (for_each (Serial.ndvi_step c w y b.1) b.2 st = (r, st') →
   same_files st st') ∧
  (for_each (Serial.temp_precip_step c w y b.1) b.2 st = (r, st') →
   same_files st st') ∧
  (Serial.batch w GEE (Serial.ndvi_step c w) 2 y b st = (Done (), st') →
   saved GEE st' ∧ OM_CACHE st' = OM_CACHE st) ∧
  (Serial.batch w OM (Serial.temp_precip_step c w) 1 y b st = (Done (), st') →
   saved OM st' ∧ GEE_CACHE st' = GEE_CACHE st).
Proof.
  refine (conj _ (conj _ (conj _ _))).
  - apply (preserves_for_each same_files same_files_refl same_files_trans).
    intros pt _. apply serial_ndvi_step_same_files.
  - apply (preserves_for_each same_files same_files_refl same_files_trans).
    intros pt _. apply serial_temp_precip_step_same_files.
  - intros Hrun. apply serial_batch_saved_at_end in Hrun as [Hs Ho].
    + split; [done|]. by apply (Ho OM).
    + intros i pt. apply serial_ndvi_step_same_files.
    + intros i pt. apply serial_ndvi_step_never_exits.
  - intros Hrun. apply serial_batch_saved_at_end in Hrun as [Hs Ho].
    + split; [done|]. by apply (Ho GEE).
    + intros i pt. apply serial_temp_precip_step_same_files.
    + intros i pt. apply serial_temp_precip_step_never_exits.
Qed.

Section ThreadedDisk.
Context (w : world) (p : Threaded.pipeline).
#[local] Abbreviation src := (Threaded.p_src p).

Lemma threaded_lookup_step_same_files y to_fetch pt st r st' :
  Threaded.lookup_step w p y to_fetch pt st = (r, st') →
  same_files st st' ∧ cache_of src st' = cache_of src st ∧
  ∀ s, r = Stop s → ∃ e, s = Uncaught e.
Proof.
  unfold Threaded.lookup_step. unfold_M.
  destruct (cache_of src st !! cache_key w y pt) as [vals|].
  - destruct (items vals) as [kvs|e]; intros [= <- <-].
    + split; [by repeat split|]. split; [by destruct src | done].
    + split; [by repeat split|]. split; [done|]. intros s [= <-]. by eexists.
  - intros [= <- <-]. split; [by repeat split|]. by split.
Qed.

Lemma threaded_lookup_all_same_files y pts to_fetch st r st' :
  Threaded.lookup_all w p y to_fetch pts st = (r, st') →
  same_files st st' ∧ cache_of src st' = cache_of src st ∧
  ∀ s, r = Stop s → ∃ e, s = Uncaught e.
Proof.
  revert to_fetch st. induction pts as [|pt pts IH]; intros to_fetch st.
  - intros [= <- <-]. split; [apply same_files_refl|]. by split.
  - cbn [Threaded.lookup_all]. unfold mbind, M_bind.
    destruct (Threaded.lookup_step w p y to_fetch pt st) as [[tf|s] st1] eqn:H1.
    + apply threaded_lookup_step_same_files in H1 as (Hf1 & Hc1 & _).
      intros (Hf2 & Hc2 & Hs2)%IH.
      split; [by eapply same_files_trans|]. split; [congruence | done].
    + intros [= <- <-].
      apply threaded_lookup_step_same_files in H1 as (Hf1 & Hc1 & Hs1).
      split; [done|]. split; [done|]. intros s' [= <-]. by apply Hs1.
Qed.

Lemma threaded_collect_outcome new_data done st r st' :
  Threaded.collect p new_data done st = (r, st') →
  (∃ nd, r = Done nd ∧ st' = st) ∨
  (∃ code, r = Stop (SysExit code) ∧ st' = flushed src st).
Proof.
  revert new_data. induction done as [|[pt res] done IH]; intros new_data.
  - intros [= <- <-]. left. by eexists.
  - cbn [Threaded.collect]. destruct res as [vals|e]; [apply IH|].
    destruct (is_RuntimeError e).
    + destruct (contains (Threaded.p_marker p) (exn_str e)); [|apply IH].
      intros [= <- <-]. right. by eexists.
    + destruct (is_Exception e); [apply IH|].
      intros [= <- <-]. right. by eexists.
Qed.

Lemma threaded_merge_step_same_files y entry st r st' :
  Threaded.merge_step w p y entry st = (r, st') →
  same_files st st' ∧ ∀ s, r = Stop s → ∃ e, s = Uncaught e.
Proof.
  unfold Threaded.merge_step. unfold_M.
  destruct (items entry.2) as [kvs|e]; intros [= <- <-].
  - split; [by destruct src|done].
  - split; [by destruct src|]. intros s [= <-]. by eexists.
Qed.

Lemma threaded_merge_same_files y new_data st r st' :
  for_each (Threaded.merge_step w p y) new_data st = (r, st') →
  same_files st st' ∧ ∀ s, r = Stop s → ∃ e, s = Uncaught e.
Proof.
  revert st. induction new_data as [|entry new_data IH]; intros st.
  - intros [= <- <-]. split; [apply same_files_refl | done].
  - cbn [for_each]. unfold mbind, M_bind.
    destruct (Threaded.merge_step w p y entry st) as [[[]|s] st1] eqn:H1;
      apply threaded_merge_step_same_files in H1 as [Hf1 Hs1].
    + intros [Hf2 Hs2]%IH. split; [by eapply same_files_trans | done].
    + intros [= <- <-]. split; [done|]. intros s' [= <-]. by apply Hs1.
Qed.

(** The rest of a batch after the lookups, step by step. *)
Lemma threaded_dispatch_run y i to_fetch st :
  Threaded.dispatch w p y i to_fetch st
  = let st1 := logged (Threaded.submit_all p y to_fetch).1 st in
    if interrupt w src y i PhDispatch
    then (Stop (SysExit 0), flushed src st1)
    else match Threaded.collect p []
                 (as_completed w (Threaded.submit_all p y to_fetch).2) st1 with
         | (Done new_data, st2) =>
             match for_each (Threaded.merge_step w p y) new_data st2 with
             | (Done _, st3) =>
                 if interrupt w src y i PhPersist
                 then (Stop (Uncaught KeyboardInterrupt), st3)
                 else (Done (),
                       (sleep (Threaded.p_pause p) (flushed src st3)).2)
             | (Stop s, st3) => (Stop s, st3)
             end
         | (Stop s, st2) => (Stop s, st2)
         end.
Proof.
  unfold Threaded.dispatch, logged, flushed, check_interrupt,
    Threaded.flush_and_exit.
  destruct (Threaded.submit_all p y to_fetch) as [evs results]. cbn [fst snd].
  unfold_M. cbn [emit]. cbv zeta.
  destruct (interrupt w src y i PhDispatch).
  { by destruct src. }
  destruct (Threaded.collect p [] (as_completed w results) _)
    as [[new_data|s] st2]; [|done].
  destruct (for_each (Threaded.merge_step w p y) new_data st2)
    as [[[]|s] st3]; [|done].
  destruct (interrupt w src y i PhPersist); [done|]. by destruct src.
Qed.

Lemma saved_flushed st :
  saved src (flushed src st) ∧
  ∀ s, s ≠ src → cache_file s (flushed src st) = cache_file s st.
Proof. split; [by destruct src | intros s Hs; by destruct s, src]. Qed.

Lemma same_files_other st st' s :
  same_files st st' → cache_file s st' = cache_file s st.
Proof. intros (?&?&?). by destruct s. Qed.

Lemma threaded_batch_saved_at_end y b st r st' :
  Threaded.batch w p y b st = (r, st') →
  saved_at_end src st r st' ∨
  (r = Done () ∧ same_files st st' ∧ cache_of src st' = cache_of src st).
Proof.
  rewrite threaded_batch_unfold.
  destruct (interrupt w src y b.1 PhLookup).
  { intros [= <- <-]. by left. }
  destruct (Threaded.lookup_all w p y [] b.2 st) as [[to_fetch|s] st1] eqn:Hlook;
    apply threaded_lookup_all_same_files in Hlook as (Hf1 & Hc1 & Hs1).
  2:{ intros [= <- <-]. left. by destruct (Hs1 s eq_refl) as [e ->]. }
  destruct to_fetch as [|pt to_fetch]; [intros [= <- <-]; by right|].
  rewrite threaded_dispatch_run. cbv zeta.
  set (st2 := logged _ st1).
  assert (same_files st st2) as Hf2 by (by destruct Hf1 as (?&?&?)).
  assert (∀ st3, same_files st st3 →
            saved src (flushed src st3) ∧
            ∀ s, s ≠ src → cache_file s (flushed src st3) = cache_file s st)
    as Hflush.
  { intros st3 Hf3. destruct (saved_flushed st3) as [Hs Ho]. split; [done|].
    intros s Hs'. rewrite (Ho s Hs'). by apply same_files_other. }
  intros Hrun. left. revert Hrun.
  destruct (interrupt w src y b.1 PhDispatch).
  { intros [= <- <-]. by apply Hflush. }
  destruct (Threaded.collect p [] _ st2) as [[new_data|s] st3] eqn:Hcollect;
    apply threaded_collect_outcome in Hcollect
      as [(nd & [= <-] & ->)|(code & [= ->] & ->)].
  2:{ intros [= <- <-]. by apply Hflush. }
  destruct (for_each (Threaded.merge_step w p y) new_data st2)
    as [[[]|s] st4] eqn:Hmerge;
    apply threaded_merge_same_files in Hmerge as [Hf4 Hs4].
  2:{ intros [= <- <-]. by destruct (Hs4 s eq_refl) as [e ->]. }
  assert (same_files st st4) as Hf by (by eapply same_files_trans).
  destruct (interrupt w src y b.1 PhPersist); intros [= <- <-]; [done|].
  destruct (saved_after_flush src (Threaded.p_pause p) st4) as [Hs Ho].
  split; [done|]. intros s Hs'. etrans; [exact (Ho s Hs')|].
  by apply same_files_other.
Qed.
End ThreadedDisk.


(** ** What a run leaves on disk *)

Lemma other_untouched_refl src st : other_untouched src st st.
Proof. by intros s Hs. Qed.

Lemma other_untouched_trans src st1 st2 st3 :
  other_untouched src st1 st2 → other_untouched src st2 st3 →
  other_untouched src st1 st3.
Proof.
  intros H1 H2 s Hs. destruct (H1 s Hs) as [? ?], (H2 s Hs) as [? ?].
  split; congruence.
Qed.

Lemma ends_in_sync_for_each {A} src (body : A → M unit) (l : list A) :
  (∀ x, x ∈ l → ends_in_sync src (body x)) →
  ends_in_sync src (for_each body l).
Proof.
  induction l as [|x l IH]; intros Hbody st r st' Hsync; cbn [for_each].
  - intros Hrun. injection Hrun as Hr Hs. subst r st'.
    split; [apply other_untouched_refl | done].
  - unfold mbind, M_bind.
    destruct (body x st) as [[[]|s] st1] eqn:Hx;
      destruct (Hbody x (list_elem_of_here _ _) _ _ _ Hsync Hx) as [Ho1 Hs1].
    + intros Hrun.
      destruct (IH (λ x' Hx', Hbody x' (list_elem_of_further _ _ _ Hx'))
                  _ _ _ Hs1 Hrun) as [Ho2 Hs2].
      split; [by eapply other_untouched_trans | done].
    + intros Hrun. injection Hrun as Hr Hs. subst r st'. by split.
Qed.

Lemma serial_ndvi_step_other c w y i pt :
  preserves (other_untouched GEE) (Serial.ndvi_step c w y i pt).
Proof.
  intros st r st' Hrun. unfold Serial.ndvi_step in Hrun. unfold_M.
  destruct (gee_cache st !! cache_key w y pt) as [cached|].
  - injection Hrun as <- <-. by intros [] Hs.
  - destruct (interrupt w GEE y i PhDispatch);
      [injection Hrun as <- <-; by intros [] Hs|].
    destruct (Serial.fetch_ndvi w pt.1 pt.2 y) as [evs ndvi].
    injection Hrun as <- <-. by intros [] Hs.
Qed.

Lemma serial_temp_precip_step_other c w y i pt :
  preserves (other_untouched OM) (Serial.temp_precip_step c w y i pt).
Proof.
  intros st r st' Hrun. unfold Serial.temp_precip_step in Hrun. unfold_M.
  destruct (om_cache st !! cache_key w y pt) as [cached|].
  - destruct (unpack2 cached) as [[temp precip]|e]; injection Hrun as <- <-;
      by intros [] Hs.
  - destruct (interrupt w OM y i PhDispatch);
      [injection Hrun as <- <-; by intros [] Hs|].
    destruct (Serial.fetch_temp_precip w pt.1 pt.2 y) as [evs [temp precip]].
    injection Hrun as <- <-. by intros [] Hs.
Qed.

Lemma other_untouched_flush src pause st :
  other_untouched src st (sleep pause (flushed src st)).2.
Proof. intros s Hs. by destruct s, src. Qed.

Lemma serial_batch_ends_in_sync w src step pause y b :
  (∀ i pt, preserves same_files (step y i pt)) →
  (∀ i pt, preserves (other_untouched src) (step y i pt)) →
  (∀ i pt, never_exits (step y i pt)) →
  ends_in_sync src (Serial.batch w src step pause y b).
Proof.
  intros Hfiles Hother Hne st r st' Hsync Hrun.
  pose proof (serial_batch_saved_at_end _ _ _ _ _ _ _ _ _ Hfiles Hne Hrun)
    as Hall.
  split.
  - revert Hrun. rewrite serial_batch_run.
    destruct (interrupt w src y b.1 PhLookup).
    { intros [= <- <-]. apply other_untouched_refl. }
    destruct (for_each (step y b.1) b.2 st) as [[[]|s] st1] eqn:Hloop;
      apply (preserves_for_each (other_untouched src)
               (other_untouched_refl src) (other_untouched_trans src))
        in Hloop; try (intros pt _; apply Hother).
    + destruct (interrupt w src y b.1 PhPersist); intros [= <- <-]; [done|].
      eapply other_untouched_trans; [done | apply other_untouched_flush].
    + by intros [= <- <-].
  - destruct r as [[]|[code|e]];
      [by destruct Hall as [[_ ?] _] | by destruct Hall as [? _] | done].
Qed.

Lemma serial_process_ends_in_sync c w src step pause :
  (∀ y i pt, preserves same_files (step y i pt)) →
  (∀ y i pt, preserves (other_untouched src) (step y i pt)) →
  (∀ y i pt, never_exits (step y i pt)) →
  ends_in_sync src (Serial.process c w src step pause).
Proof.
  intros Hfiles Hother Hne st r st' Hsync Hrun.
  unfold Serial.process in Hrun. unfold_M.
  destruct (assign_cells src c (df st)) as [table|e] eqn:Hcells.
  - unfold set_df in Hrun. unfold_M. cbv beta iota in Hrun.
    assert (ends_in_sync src
              (for_each (λ y, for_each (Serial.batch w src step pause y)
                                (batches 50 (unique_points w src table y)))
                 (years_desc table))) as Hloop.
    { apply ends_in_sync_for_each. intros y _.
      apply ends_in_sync_for_each. intros b _.
      by apply serial_batch_ends_in_sync. }
    apply Hloop in Hrun as [Ho Hr]; [|by destruct src].
    split; [|done]. intros s Hs. destruct (Ho s Hs). by destruct s.
  - injection Hrun as <- <-. split; [apply other_untouched_refl | done].
Qed.

Section ThreadedSync.
Context (c : Config) (w : world) (p : Threaded.pipeline).
#[local] Abbreviation src := (Threaded.p_src p).

Lemma same_store_other st st' : same_store st st' → other_untouched src st st'.
Proof. intros (?&?&?&?&?) s Hs. by destruct s. Qed.

Lemma other_untouched_flushed st : other_untouched src st (flushed src st).
Proof. intros s Hs. by destruct s, src. Qed.

Lemma threaded_merge_other y new_data st r st' :
  for_each (Threaded.merge_step w p y) new_data st = (r, st') →
  other_untouched src st st'.
Proof.
  intros Hrun.
  apply (threaded_merge_run w p y new_data ∅) in Hrun as (_ & Hc & Hf & _).
  - intros s Hs. by split; [apply Hc | apply Hf].
  - intros entry _. apply lookup_empty.
  - apply map_empty_subseteq.
Qed.

Lemma threaded_batch_other y b :
  preserves (other_untouched src) (Threaded.batch w p y b).
Proof.
  intros st r st'. rewrite threaded_batch_unfold.
  destruct (interrupt w src y b.1 PhLookup).
  { intros [= <- <-]. apply other_untouched_refl. }
  destruct (Threaded.lookup_all w p y [] b.2 st) as [[to_fetch|s] st1] eqn:Hlook;
    apply threaded_lookup_all_run in Hlook as [Hsame%same_store_other _].
  2:{ by intros [= <- <-]. }
  destruct to_fetch as [|pt to_fetch]; [by intros [= <- <-]|].
  rewrite threaded_dispatch_run. cbv zeta.
  set (st2 := logged _ st1).
  assert (other_untouched src st st2) as Ho2.
  { intros s Hs. destruct (Hsame s Hs). by destruct s. }
  destruct (interrupt w src y b.1 PhDispatch).
  { intros [= <- <-].
    eapply other_untouched_trans; [done | apply other_untouched_flushed]. }
  destruct (Threaded.collect p [] _ st2) as [[new_data|s] st3] eqn:Hcollect;
    apply threaded_collect_outcome in Hcollect
      as [(nd & [= <-] & ->)|(code & [= ->] & ->)].
  2:{ intros [= <- <-].
      eapply other_untouched_trans; [done | apply other_untouched_flushed]. }
  destruct (for_each (Threaded.merge_step w p y) new_data st2)
    as [[[]|s] st4] eqn:Hmerge; apply threaded_merge_other in Hmerge.
  2:{ intros [= <- <-]. by eapply other_untouched_trans. }
  assert (other_untouched src st st4) as Ho4
    by (by eapply other_untouched_trans).
  destruct (interrupt w src y b.1 PhPersist); intros [= <- <-]; [done|].
  eapply other_untouched_trans; [done | apply other_untouched_flush].
Qed.

Lemma threaded_batch_ends_in_sync y b :
  ends_in_sync src (Threaded.batch w p y b).
Proof.
  intros st r st' Hsync Hrun.
  split; [by eapply threaded_batch_other|].
  apply threaded_batch_saved_at_end in Hrun
    as [Hall|(-> & Hfiles & Hcache)].
  - destruct r as [[]|[code|e]];
      [by destruct Hall as [[_ ?] _] | by destruct Hall as [? _] | done].
  - unfold in_sync in *.
    by rewrite (same_files_other _ _ _ Hfiles), Hcache.
Qed.

Lemma threaded_process_ends_in_sync :
  ends_in_sync src (Threaded.process c w p).
Proof.
  intros st r st' Hsync Hrun. unfold Threaded.process in Hrun. unfold_M.
  destruct (assign_cells src c (df st)) as [table|e] eqn:Hcells.
  - unfold set_df in Hrun. unfold_M. cbv beta iota in Hrun.
    assert (ends_in_sync src
              (for_each (λ y, for_each (Threaded.batch w p y)
                                (batches (Threaded.p_batch_size p)
                                   (unique_points w src table y)))
                 (years_desc table))) as Hloop.
    { apply ends_in_sync_for_each. intros y _.
      apply ends_in_sync_for_each. intros b _.
      apply threaded_batch_ends_in_sync. }
    apply Hloop in Hrun as [Ho Hr]; [|by destruct src].
    split; [|done]. intros s Hs. destruct (Ho s Hs). by destruct s.
  - injection Hrun as <- <-. split; [apply other_untouched_refl | done].
Qed.
End ThreadedSync.

Lemma loads_in_sync c (rest : M unit) st r st' :
  (load_or_create_checkpoint c ≫= λ _,
   load_or_create_cache GEE ≫= λ _,
   load_or_create_cache OM ≫= λ _, rest) st = (r, st') →
  ∃ st1, rest st1 = (r, st') ∧ in_sync GEE st1 ∧ in_sync OM st1.
Proof.
  intros Hrun.
  unfold load_or_create_checkpoint, load_or_create_cache in Hrun.
  unfold_M. unfold set_df, set_cache, save_checkpoint, save_cache in Hrun.
  destruct (CHECKPOINT_CSV st) as [table|] eqn:Hck; cbn in Hrun;
    destruct (GEE_CACHE st) as [g|] eqn:Hg; cbn in Hrun;
    destruct (OM_CACHE st) as [o|] eqn:Ho; cbn in Hrun;
    (eexists; split; [exact Hrun|]); by split.
Qed.

Lemma mains_end_persisted c (process_ndvi process_temp_precip : M unit)
    st r st' :
  ends_in_sync GEE process_ndvi → ends_in_sync OM process_temp_precip →
  (load_or_create_checkpoint c ≫= λ _,
   load_or_create_cache GEE ≫= λ _,
   load_or_create_cache OM ≫= λ _,
   process_ndvi ≫= λ _,
   process_temp_precip ≫= λ _,
   save_checkpoint) st = (r, st') →
  orderly r → persisted st'.
Proof.
  intros Hn Ht Hrun Hr.
  apply loads_in_sync in Hrun as (st1 & Hrun & Hg1 & Ho1).
  unfold mbind at 1, M_bind at 1 in Hrun.
  destruct (process_ndvi st1) as [[[]|s] st2] eqn:H2;
    destruct (Hn _ _ _ Hg1 H2) as [Hother2 Hres2];
    destruct (Hother2 OM) as [Hoc2 Hof2]; try done.
  2:{ injection Hrun as Hr' Hs'. subst r st'.
      destruct s as [code|e]; [|done]. destruct Hres2 as [Hck Hgee].
      unfold persisted, in_sync in *. cbn in *.
      split; [done|]. split; [done | congruence]. }
  assert (in_sync OM st2) as Ho2.
  { unfold in_sync in *. cbn in *. congruence. }
  unfold mbind at 1, M_bind at 1 in Hrun.
  destruct (process_temp_precip st2) as [[[]|s] st3] eqn:H3;
    destruct (Ht _ _ _ Ho2 H3) as [Hother3 Hres3];
    destruct (Hother3 GEE) as [Hgc3 Hgf3]; try done.
  - injection Hrun as Hr' Hs'. subst r st'.
    unfold persisted, in_sync in *. cbn in *.
    split; [done|]. split; [congruence | done].
  - injection Hrun as Hr' Hs'. subst r st'.
    destruct s as [code|e]; [|done]. destruct Hres3 as [Hck Hom].
    unfold persisted, in_sync in *. cbn in *.
    split; [done|]. split; [congruence | done].
Qed.

(** X13: a run that ends in order loses nothing. Whenever [main] returns
    or exits with [sys.exit], in either variant, the checkpoint file holds
    the table and both cache files hold their caches as they are in memory
    at that point. *)
Theorem orderly_end_persists_everything (c : Config) (w : world) (st : state)
    (r : outcome unit) (st' : state) :
  (Serial.main c w st = (r, st') → orderly r → persisted st') ∧
  (Threaded.main c w st = (r, st') → orderly r → persisted st').
Proof.
  split.
  - apply mains_end_persisted; apply serial_process_ends_in_sync; intros y i pt.
    + apply serial_ndvi_step_same_files.
    + apply serial_ndvi_step_other.
    + apply serial_ndvi_step_never_exits.
    + apply serial_temp_precip_step_same_files.
    + apply serial_temp_precip_step_other.
    + apply serial_temp_precip_step_never_exits.
  - apply mains_end_persisted.
    + apply (threaded_process_ends_in_sync c w (Threaded.ndvi_pipeline c w)).
    + apply (threaded_process_ends_in_sync c w
               (Threaded.temp_precip_pipeline c w)).
Qed.

Lemma orderly_end_witness :
  ∃ st', Threaded.main default_config healthy_world (first_run [los_angeles])
         = (Done (), st') ∧ persisted st'.
Proof.
  eexists. split; [vm_compute; reflexivity|].
  eapply (proj2 (orderly_end_persists_everything default_config healthy_world
                   (first_run [los_angeles]) _ _)); [vm_compute; reflexivity|].
  exact I.
Defined.

(** ** A completed pipeline has cached every point *)

Lemma for_each_establishes {A} src w (C : A → state → Prop)
    (body : A → M unit) (l : list A) :
  (∀ x st st', C x st → grows src w st st' → C x st') →
  (∀ x, preserves (grows src w) (body x)) →
  (∀ x st st', x ∈ l → body x st = (Done (), st') → C x st') →
  ∀ st st', for_each body l st = (Done (), st') → ∀ x, x ∈ l → C x st'.
Proof.
  intros Hstable Hgrows. induction l as [|x0 l IH]; intros Hbody st st' Hrun x Hx;
    [by apply elem_of_nil in Hx|].
  cbn [for_each] in Hrun. unfold mbind, M_bind in Hrun.
  destruct (body x0 st) as [[[]|s] st1] eqn:H0; [|done].
  apply elem_of_cons in Hx as [->|Hx].
  - eapply Hstable; [eapply Hbody; [by left | done]|].
    eapply (preserves_for_each (grows src w)); [apply grows_refl|
      apply grows_trans | | exact Hrun].
    intros x' _. apply Hgrows.
  - eapply IH; [|done..]. intros x' st2 st3 Hx'. apply Hbody. by right.
Qed.

Lemma is_Some_grows src w k st st' :
  is_Some (cache_of src st !! k) → grows src w st st' →
  is_Some (cache_of src st' !! k).
Proof.
  intros [v Hv] [Hsub _ _]. exists v. by eapply lookup_weaken.
Qed.

Lemma serial_batch_covers w src step pause y b st st' :
  (∀ i pt, preserves (grows src w) (step y i pt)) →
  (∀ i pt st st', step y i pt st = (Done (), st') →
     is_Some (cache_of src st' !! cache_key w y pt)) →
  Serial.batch w src step pause y b st = (Done (), st') →
  ∀ pt, pt ∈ b.2 → is_Some (cache_of src st' !! cache_key w y pt).
Proof.
  intros Hgrows Hstep. rewrite serial_batch_run.
  destruct (interrupt w src y b.1 PhLookup); [done|].
  destruct (for_each (step y b.1) b.2 st) as [[[]|s] st1] eqn:Hloop; [|done].
  destruct (interrupt w src y b.1 PhPersist); [done|].
  intros [= <-] pt Hpt.
  assert (is_Some (cache_of src st1 !! cache_key w y pt)) as Hsome.
  { eapply (for_each_establishes src w
              (λ pt st, is_Some (cache_of src st !! cache_key w y pt)));
      [| |intros x st2 st3 _; apply Hstep|exact Hloop|exact Hpt].
    - intros x st2 st3. apply is_Some_grows.
    - intros x. apply Hgrows. }
  by destruct src.
Qed.

Lemma serial_process_covers c w src step pause st st' :
  (∀ y i pt, preserves (grows src w) (step y i pt)) →
  (∀ y i pt st st', step y i pt st = (Done (), st') →
     is_Some (cache_of src st' !! cache_key w y pt)) →
  Serial.process c w src step pause st = (Done (), st') →
  ∃ table, assign_cells src c (df st) = Ok table ∧
           covers w src (cache_of src st') table.
Proof.
  intros Hgrows Hstep Hrun. unfold Serial.process in Hrun. unfold_M.
  destruct (assign_cells src c (df st)) as [table|e] eqn:Hcells; [|done].
  exists table. split; [done|].
  unfold set_df in Hrun. unfold_M. cbv beta iota in Hrun.
  intros y pt Hy Hpt.
  eapply (for_each_establishes src w
            (λ y st, ∀ pt, pt ∈ unique_points w src table y →
                           is_Some (cache_of src st !! cache_key w y pt)));
    [| | |exact Hrun|exact Hy|exact Hpt].
  - intros y' st2 st3 Hc Hg pt' Hpt'. eapply is_Some_grows; [by apply Hc|done].
  - intros y'. apply preserves_for_each; [apply grows_refl | apply grows_trans|].
    intros b _. apply serial_batch_grows. intros i pt'. apply Hgrows.
  - clear y pt Hy Hpt. intros y st2 st3 _ Hyear pt Hpt.
    destruct (batches_spec 50 (unique_points w src table y)) as [Hcat _];
      [lia|].
    rewrite <- Hcat in Hpt.
    apply list_elem_of_In, in_concat in Hpt
      as (pts & Hpts%list_elem_of_In & Hpt%list_elem_of_In).
    apply list_elem_of_fmap in Hpts as (b & -> & Hb).
    eapply (for_each_establishes src w
              (λ b st, ∀ pt, pt ∈ b.2 →
                             is_Some (cache_of src st !! cache_key w y pt)));
      [| | |exact Hyear|exact Hb|exact Hpt].
    + intros b' st4 st5 Hc Hg pt' Hpt'.
      eapply is_Some_grows; [by apply Hc|done].
    + intros b'. apply serial_batch_grows. intros i pt'. apply Hgrows.
    + intros b' st4 st5 _ Hbatch.
      eapply serial_batch_covers; [intros i pt'; apply Hgrows| |exact Hbatch].
      intros i pt'. apply Hstep.
Qed.

Lemma serial_ndvi_step_caches c w y i pt st st' :
  Serial.ndvi_step c w y i pt st = (Done (), st') →
  is_Some (gee_cache st' !! cache_key w y pt).
Proof.
  unfold Serial.ndvi_step. unfold_M.
  destruct (gee_cache st !! cache_key w y pt) as [cached|] eqn:Hlook.
  - intros [= <-]. cbn. rewrite Hlook. by eexists.
  - destruct (interrupt w GEE y i PhDispatch); [done|].
    destruct (Serial.fetch_ndvi w pt.1 pt.2 y) as [evs ndvi].
    intros [= <-]. cbn. rewrite lookup_insert_eq. by eexists.
Qed.

Lemma serial_temp_precip_step_caches c w y i pt st st' :
  Serial.temp_precip_step c w y i pt st = (Done (), st') →
  is_Some (om_cache st' !! cache_key w y pt).
Proof.
  unfold Serial.temp_precip_step. unfold_M.
  destruct (om_cache st !! cache_key w y pt) as [cached|] eqn:Hlook.
  - destruct (unpack2 cached) as [[temp precip]|e]; [|done].
    intros [= <-]. cbn. rewrite Hlook. by eexists.
  - destruct (interrupt w OM y i PhDispatch); [done|].
    destruct (Serial.fetch_temp_precip w pt.1 pt.2 y) as [evs [temp precip]].
    intros [= <-]. cbn. rewrite lookup_insert_eq. by eexists.
Qed.

(** X14: a pipeline of the serial variant that returns has cached every
    point it was asked for: the rounding of the table succeeded, and the
    cache holds an entry for every unique point of every year of the
    rounded table. *)
Theorem serial_completed_pipeline_covers_table (c : Config) (w : world)
    (st st' : state) :
  (Serial.process_ndvi c w st = (Done (), st') →
   ∃ table, assign_cells GEE c (df st) = Ok table ∧
            covers w GEE (gee_cache st') table) ∧
  (Serial.process_temp_precip c w st = (Done (), st') →
   ∃ table, assign_cells OM c (df st) = Ok table ∧
            covers w OM (om_cache st') table).
Proof.
  split; apply serial_process_covers.
  - intros y i pt. apply serial_ndvi_step_grows.
  - intros y i pt. apply serial_ndvi_step_caches.
  - intros y i pt. apply serial_temp_precip_step_grows.
  - intros y i pt. apply serial_temp_precip_step_caches.
Qed.

Lemma serial_completed_pipeline_covers_witness :
  ∃ st', Serial.process_temp_precip default_config healthy_world cold_state
         = (Done (), st') ∧
    ∃ table, assign_cells OM default_config (df cold_state) = Ok table ∧
             covers healthy_world OM (om_cache st') table.
Proof.
  eexists. split; [vm_compute; reflexivity|].
  apply (serial_completed_pipeline_covers_table default_config healthy_world
           cold_state). vm_compute. reflexivity.
Defined.

(** ** A cached table needs no request *)

Lemma no_request_since_refl src st : no_request_since src st st.
Proof. split; [done|]. exists []. by rewrite app_nil_r. Qed.

Lemma requests_app evs1 evs2 :
  requests (evs1 ++ evs2) = (requests evs1 + requests evs2)%nat.
Proof.
  induction evs1 as [|ev evs1 IH]; [done|]. cbn.
  destruct ev; cbn; by rewrite IH.
Qed.

Lemma no_request_since_step src st0 st st' evs :
  no_request_since src st0 st →
  cache_of src st' = cache_of src st → log st' = log st ++ evs →
  requests evs = 0%nat →
  no_request_since src st0 st'.
Proof.
  intros [Hc (evs0 & Hlog & Hreq)] Hc' Hlog' Hreq'. split; [congruence|].
  exists (evs0 ++ evs). split; [by rewrite Hlog', Hlog, app_assoc|].
  rewrite requests_app. lia.
Qed.

Lemma batch_points_in_coords size coords b pt :
  (0 < size)%nat → b ∈ batches size coords → pt ∈ b.2 → pt ∈ coords.
Proof.
  intros Hsize Hb Hpt.
  destruct (batches_spec size coords Hsize) as [_ Hall].
  apply (proj1 (Forall_forall _ _) Hall) in Hb as (_ & Hslice & _).
  rewrite Hslice in Hpt.
  by apply subseteq_take, subseteq_drop in Hpt.
Qed.

Lemma serial_ndvi_step_cached c w y i pt st r st' :
  is_Some (gee_cache st !! cache_key w y pt) →
  Serial.ndvi_step c w y i pt st = (r, st') →
  gee_cache st' = gee_cache st ∧ log st' = log st.
Proof.
  intros [cached Hhit]. rewrite (serial_ndvi_hit _ _ _ _ _ _ _ Hhit).
  by intros [= <- <-].
Qed.

Lemma serial_temp_precip_step_cached c w y i pt st r st' :
  is_Some (om_cache st !! cache_key w y pt) →
  Serial.temp_precip_step c w y i pt st = (r, st') →
  om_cache st' = om_cache st ∧ log st' = log st.
Proof.
  intros [cached Hhit]. unfold Serial.temp_precip_step. unfold_M.
  rewrite Hhit. by destruct (unpack2 cached) as [[t p]|e]; intros [= <- <-].
Qed.

Lemma serial_process_cached c w src step pause table st r st' :
  (∀ y i pt st r st', is_Some (cache_of src st !! cache_key w y pt) →
     step y i pt st = (r, st') →
     cache_of src st' = cache_of src st ∧ log st' = log st) →
  assign_cells src c (df st) = Ok table →
  covers w src (cache_of src st) table →
  Serial.process c w src step pause st = (r, st') →
  no_request_since src st st'.
Proof.
  intros Hstep Hcells Hcov Hrun. unfold Serial.process in Hrun. unfold_M.
  rewrite Hcells in Hrun. unfold set_df in Hrun. unfold_M.
  cbv beta iota in Hrun.
  set (I := λ st1, no_request_since src st st1).
  assert (triple I
            (for_each (λ y, for_each (Serial.batch w src step pause y)
                              (batches 50 (unique_points w src table y)))
               (years_desc table))
            (λ _, I) (λ _, I)) as Hloop.
  { apply triple_for_each. intros y Hy.
    apply triple_for_each. intros b Hb.
    intros st1 r1 st2 HI. rewrite serial_batch_run.
    destruct (interrupt w src y b.1 PhLookup).
    { intros [= <- <-]. exact HI. }
    assert (triple I (for_each (step y b.1) b.2) (λ _, I) (λ _, I)) as Hpts.
    { apply triple_for_each. intros pt Hpt st3 r3 st4 HI3 Hrun3.
      assert (is_Some (cache_of src st3 !! cache_key w y pt)) as Hsome.
      { destruct HI3 as [-> _]. apply Hcov; [done|].
        eapply batch_points_in_coords; [|done..]. lia. }
      destruct (Hstep _ _ _ _ _ _ Hsome Hrun3) as [Hc Hl].
      assert (I st4) as HI4.
      { eapply (no_request_since_step _ _ _ _ []); [exact HI3|done| |done].
        by rewrite app_nil_r. }
      by destruct r3. }
    destruct (for_each (step y b.1) b.2 st1) as [[[]|s] st3] eqn:Hfor;
      pose proof (Hpts _ _ _ HI Hfor) as HI3; cbn in HI3.
    2:{ by intros [= <- <-]. }
    destruct (interrupt w src y b.1 PhPersist); intros [= <- <-]; [done|].
    eapply (no_request_since_step _ _ _ _
              [SaveCheckpoint; SaveCache src; Sleep pause]);
      [exact HI3 | by destruct src | | done].
    unfold flushed. destruct src; cbn; by rewrite <- !app_assoc. }
  assert (I {| df := table; gee_cache := gee_cache st; om_cache := om_cache st;
               SRC_CSV := SRC_CSV st; CHECKPOINT_CSV := CHECKPOINT_CSV st;
               GEE_CACHE := GEE_CACHE st; OM_CACHE := OM_CACHE st;
               log := log st |}) as HI0.
  { split; [by destruct src|]. exists []. by rewrite app_nil_r. }
  specialize (Hloop _ _ _ HI0 Hrun). by destruct r.
Qed.

(** X15: a cached table needs no request. When the cache already holds an
    entry for every unique point of every year of the rounded table, a
    pipeline of the serial variant asks its backend nothing and leaves the
    cache as it is, however the run ends. *)
Theorem serial_cached_table_needs_no_request (c : Config) (w : world)
    (st : state) (table : list row) (r : outcome unit) (st' : state) :
  (assign_cells GEE c (df st) = Ok table →
   covers w GEE (gee_cache st) table →
   Serial.process_ndvi c w st = (r, st') →
   no_request_since GEE st st') ∧
  (assign_cells OM c (df st) = Ok table →
   covers w OM (om_cache st) table →
   Serial.process_temp_precip c w st = (r, st') →
   no_request_since OM st st').
Proof.
  split; apply serial_process_cached.
  - intros y i pt. apply serial_ndvi_step_cached.
  - intros y i pt. apply serial_temp_precip_step_cached.
Qed.

Lemma serial_cached_table_witness :
  ∃ table r st',
    assign_cells GEE default_config (df (warm_state PNone)) = Ok table ∧
    covers healthy_world GEE (gee_cache (warm_state PNone)) table ∧
    Serial.process_ndvi default_config healthy_world (warm_state PNone)
    = (r, st') ∧
    no_request_since GEE (warm_state PNone) st'.
Proof.
  eexists _, _, _. split; [vm_compute; reflexivity|].
  assert (∀ table,
            Ok [set_row_cell GEE la_cell los_angeles] = Ok table →
            covers healthy_world GEE (gee_cache (warm_state PNone)) table)
    as Hcov.
  { intros table [= <-] y pt Hy Hpt.
    vm_compute in Hy. apply list_elem_of_singleton in Hy as ->.
    vm_compute in Hpt. apply list_elem_of_singleton in Hpt as ->.
    vm_compute. by eexists. }
  split; [apply Hcov; vm_compute; reflexivity|].
  split; [vm_compute; reflexivity|].
  eapply (proj1 (serial_cached_table_needs_no_request default_config
                   healthy_world (warm_state PNone) _ _ _));
    [vm_compute; reflexivity | apply Hcov; vm_compute; reflexivity
    | vm_compute; reflexivity].
Defined.

Section ThreadedCached.
Context (c : Config) (w : world) (p : Threaded.pipeline).
#[local] Abbreviation src := (Threaded.p_src p).

Lemma threaded_lookup_all_cached y pts to_fetch st r st' :
  (∀ pt, pt ∈ pts → is_Some (cache_of src st !! cache_key w y pt)) →
  Threaded.lookup_all w p y to_fetch pts st = (r, st') →
  ∀ to_fetch', r = Done to_fetch' → to_fetch' = to_fetch.
Proof.
  revert to_fetch st. induction pts as [|pt pts IH]; intros to_fetch st Hcov.
  - by intros [= <- <-] tf [= <-].
  - cbn [Threaded.lookup_all]. unfold mbind, M_bind.
    destruct (Threaded.lookup_step w p y to_fetch pt st) as [[tf1|s] st1] eqn:H1;
      [|by intros [= <- <-]].
    apply threaded_lookup_step_run in H1 as [Hsame Htf].
    destruct (Htf _ eq_refl) as [->|[_ Hnone]].
    + apply IH. intros pt' Hpt'.
      rewrite (same_store_cache src _ _ Hsame). apply Hcov. by right.
    + destruct (Hcov pt) as [v Hv]; [by left|]. congruence.
Qed.

Lemma threaded_batch_cached y b st r st' :
  (∀ pt, pt ∈ b.2 → is_Some (cache_of src st !! cache_key w y pt)) →
  Threaded.batch w p y b st = (r, st') →
  same_store st st' ∧ same_files st st'.
Proof.
  intros Hcov. rewrite threaded_batch_unfold.
  destruct (interrupt w src y b.1 PhLookup).
  { intros [= <- <-]. split; [apply same_store_refl | apply same_files_refl]. }
  destruct (Threaded.lookup_all w p y [] b.2 st) as [[to_fetch|s] st1] eqn:Hlook.
  - pose proof (threaded_lookup_all_cached _ _ _ _ _ _ Hcov Hlook _ eq_refl)
      as ->.
    intros [= <- <-]. split.
    + by apply threaded_lookup_all_run in Hlook as [? _].
    + by apply threaded_lookup_all_same_files in Hlook as [? _].
  - intros [= <- <-]. split.
    + by apply threaded_lookup_all_run in Hlook as [? _].
    + by apply threaded_lookup_all_same_files in Hlook as [? _].
Qed.

Lemma threaded_process_cached table st r st' :
  (0 < Threaded.p_batch_size p)%nat →
  assign_cells src c (df st) = Ok table →
  covers w src (cache_of src st) table →
  Threaded.process c w p st = (r, st') →
  same_store st st' ∧ same_files st st'.
Proof.
  intros Hsize Hcells Hcov Hrun. unfold Threaded.process in Hrun. unfold_M.
  rewrite Hcells in Hrun. unfold set_df in Hrun. unfold_M.
  cbv beta iota in Hrun.
  set (I := λ st1, same_store st st1 ∧ same_files st st1).
  assert (triple I
            (for_each (λ y, for_each (Threaded.batch w p y)
                              (batches (Threaded.p_batch_size p)
                                 (unique_points w src table y)))
               (years_desc table))
            (λ _, I) (λ _, I)) as Hloop.
  { apply triple_for_each. intros y Hy.
    apply triple_for_each. intros b Hb.
    intros st1 r1 st2 [Hs1 Hf1] Hrun1.
    apply threaded_batch_cached in Hrun1 as [Hs2 Hf2].
    - assert (I st2) as HI2.
      { split; [by eapply same_store_trans | by eapply same_files_trans]. }
      by destruct r1.
    - intros pt Hpt. rewrite (same_store_cache src _ _ Hs1).
      apply Hcov; [done|]. by eapply batch_points_in_coords. }
  assert (I {| df := table; gee_cache := gee_cache st; om_cache := om_cache st;
               SRC_CSV := SRC_CSV st; CHECKPOINT_CSV := CHECKPOINT_CSV st;
               GEE_CACHE := GEE_CACHE st; OM_CACHE := OM_CACHE st;
               log := log st |}) as HI0.
  { split; by repeat split. }
  specialize (Hloop _ _ _ HI0 Hrun). by destruct r.
Qed.
End ThreadedCached.

(** X16: in the threaded variant a cached table costs nothing. When the
    cache already holds an entry for every unique point of every year of
    the rounded table, a pipeline only fills the table: it asks its backend
    nothing, writes no file, does not pause, and leaves both caches and the
    trace as they were, however the run ends. *)
Theorem threaded_cached_table_only_fills_table (c : Config) (w : world)
    (st : state) (table : list row) (r : outcome unit) (st' : state) :
  (assign_cells GEE c (df st) = Ok table →
   covers w GEE (gee_cache st) table →
   Threaded.process_ndvi c w st = (r, st') →
   same_store st st' ∧ same_files st st') ∧
  (assign_cells OM c (df st) = Ok table →
   covers w OM (om_cache st) table →
   Threaded.process_temp_precip c w st = (r, st') →
   same_store st st' ∧ same_files st st').
Proof.
  split.
  - apply (threaded_process_cached c w (Threaded.ndvi_pipeline c w)).
    cbn. unfold Threaded.GEE_BATCH_SIZE. lia.
  - apply (threaded_process_cached c w (Threaded.temp_precip_pipeline c w)).
    cbn. unfold Threaded.OM_BATCH_SIZE. lia.
Qed.

Lemma threaded_cached_table_witness :
  ∃ table r st',
    assign_cells GEE default_config (df (warm_state (PDict []))) = Ok table ∧
    covers healthy_world GEE (gee_cache (warm_state (PDict []))) table ∧
    Threaded.process_ndvi default_config healthy_world (warm_state (PDict []))
    = (r, st') ∧
    same_store (warm_state (PDict [])) st' ∧
    same_files (warm_state (PDict [])) st'.
Proof.
  eexists _, _, _. split; [vm_compute; reflexivity|].
  assert (∀ table,
            Ok [set_row_cell GEE la_cell los_angeles] = Ok table →
            covers healthy_world GEE (gee_cache (warm_state (PDict []))) table)
    as Hcov.
  { intros table [= <-] y pt Hy Hpt.
    vm_compute in Hy. apply list_elem_of_singleton in Hy as ->.
    vm_compute in Hpt. apply list_elem_of_singleton in Hpt as ->.
    vm_compute. by eexists. }
  split; [apply Hcov; vm_compute; reflexivity|].
  split; [vm_compute; reflexivity|].
  eapply (proj1 (threaded_cached_table_only_fills_table default_config
                   healthy_world (warm_state (PDict [])) _ _ _));
    [vm_compute; reflexivity | apply Hcov; vm_compute; reflexivity
    | vm_compute; reflexivity].
Defined.

(** ** A second pass over the same table *)

Lemma same_places_refl st : same_places st st.
Proof.
  apply Forall2_same_length_lookup_2; [done|]. intros i r r' H1 H2.
  assert (r = r') as -> by congruence. by repeat split.
Qed.

Lemma same_place_tables_trans (t1 t2 t3 : list row) :
  Forall2 same_place t1 t2 → Forall2 same_place t2 t3 →
  Forall2 same_place t1 t3.
Proof.
  intros H12. revert t3.
  induction H12 as [|r1 r2 t1 t2 Hr H12 IH]; intros t3 H23.
  - by apply Forall2_nil_inv_l in H23 as ->.
  - apply Forall2_cons_inv_l in H23 as (r3 & t3' & Hr' & H23 & ->).
    constructor; [|by apply IH].
    destruct Hr as (?&?&?&?&?), Hr' as (?&?&?&?&?). repeat split; congruence.
Qed.

Lemma same_places_trans st1 st2 st3 :
  same_places st1 st2 → same_places st2 st3 → same_places st1 st3.
Proof. apply same_place_tables_trans. Qed.

Lemma loc_set_same_place m col v table :
  Forall2 same_place table (loc_set m col v table).
Proof.
  unfold loc_set. induction table as [|r table IH]; [constructor|].
  cbn [fmap list_fmap]. constructor; [|done]. by destruct (m r).
Qed.

Lemma preserves_places_quiet (m : M unit) :
  (∀ st, ∃ st', m st = (Done (), st') ∧ df st' = df st) →
  preserves same_places m.
Proof.
  intros Hm st r st' Hrun. destruct (Hm st) as (st1 & Hst1 & Hdf).
  rewrite Hst1 in Hrun. injection Hrun as <- <-.
  unfold same_places. rewrite Hdf. apply same_places_refl.
Qed.

Ltac places_bind :=
  apply preserves_bind; [apply same_places_trans | | intros ?].

Ltac places_step :=
  first
    [ apply preserves_check_interrupt, same_places_refl
    | apply preserves_places_quiet; intros ?;
      first [ eexists; split; reflexivity
            | match goal with
              | |- context [save_cache ?s] => destruct s
              end; eexists; split; reflexivity ]
    | apply preserves_lift, same_places_refl
    | apply preserves_ret, same_places_refl ].

Lemma serial_ndvi_step_places c w y i pt :
  preserves same_places (Serial.ndvi_step c w y i pt).
Proof.
  intros st r st' Hrun. unfold Serial.ndvi_step in Hrun. unfold_M.
  destruct (gee_cache st !! cache_key w y pt) as [cached|].
  - injection Hrun as <- <-. apply loc_set_same_place.
  - destruct (interrupt w GEE y i PhDispatch).
    + injection Hrun as <- <-. apply same_places_refl.
    + destruct (Serial.fetch_ndvi w pt.1 pt.2 y) as [evs ndvi].
      injection Hrun as <- <-. apply loc_set_same_place.
Qed.

Lemma serial_temp_precip_step_places c w y i pt :
  preserves same_places (Serial.temp_precip_step c w y i pt).
Proof.
  intros st r st' Hrun. unfold Serial.temp_precip_step in Hrun. unfold_M.
  assert (∀ t p, Forall2 same_place (df st)
            (loc_set (mask OM y pt) (PRECIP_COL c) p
               (loc_set (mask OM y pt) (TEMP_COL c) t (df st)))) as Hset.
  { intros t p. eapply same_place_tables_trans; apply loc_set_same_place. }
  destruct (om_cache st !! cache_key w y pt) as [cached|].
  - destruct (unpack2 cached) as [[temp precip]|e]; injection Hrun as <- <-.
    + apply Hset.
    + apply same_places_refl.
  - destruct (interrupt w OM y i PhDispatch).
    + injection Hrun as <- <-. apply same_places_refl.
    + destruct (Serial.fetch_temp_precip w pt.1 pt.2 y) as [evs [temp precip]].
      injection Hrun as <- <-. apply Hset.
Qed.

Lemma serial_loops_places w src step pause (table : list row) :
  (∀ y i pt, preserves same_places (step y i pt)) →
  preserves same_places
    (for_each (λ y, for_each (Serial.batch w src step pause y)
                      (batches 50 (unique_points w src table y)))
       (years_desc table)).
Proof.
  intros Hstep.
  apply preserves_for_each; [apply same_places_refl | apply same_places_trans|].
  intros y _.
  apply preserves_for_each; [apply same_places_refl | apply same_places_trans|].
  intros b _. unfold Serial.batch.
  places_bind; [places_step|]. places_bind.
  { apply preserves_for_each;
      [apply same_places_refl | apply same_places_trans |].
    intros pt _. apply Hstep. }
  repeat (places_bind; [places_step|]). places_step.
Qed.

(** Rounding a table again gives the years and the cells it has. *)
Lemma rounded_cells_again src c (t0 table t1 : list row) :
  rounded_cells src c t0 = Ok table →
  Forall2 same_place table t1 →
  ∃ table1, rounded_cells src c t1 = Ok table1 ∧
    Forall2 (λ a b, year b = year a ∧ row_cell src b = row_cell src a)
      table table1.
Proof.
  unfold rounded_cells. intros H0%mapM_res_Forall2 H1. revert t1 H1.
  induction H0 as [|r0 r t0 table Hr H0 IH]; intros t1 H1.
  - apply Forall2_nil_inv_l in H1 as ->. exists []. by split.
  - apply Forall2_cons_inv_l in H1 as (r1 & t1' & Hr1 & H1 & ->).
    destruct (IH _ H1) as (table1 & Hmap & Hall).
    destruct Hr1 as (Hlat & Hlon & Hy & Hg & Ho).
    cbn [mapM]. cbn in Hr.
    assert (lat_center r = lat_center r0 ∧ lon_center r = lon_center r0 ∧
            year r = year r0 ∧
            ∃ q, match src with
                 | GEE => round_coord_gee c (lat_center r0) (lon_center r0)
                 | OM => round_coord_om c (lat_center r0) (lon_center r0)
                 end = Ok q ∧ row_cell src r = Some q) as (Ha & Hb & Hc & q & Hq & Hcell).
    { destruct src;
        [destruct (round_coord_gee c (lat_center r0) (lon_center r0))
        |destruct (round_coord_om c (lat_center r0) (lon_center r0))];
        cbn in Hr; try done; injection Hr as <-; repeat split; by eexists. }
    exists (set_row_cell src q r1 :: table1). split.
    + rewrite Hlat, Hlon, Ha, Hb. destruct src; rewrite Hq; cbn [mbind res_bind];
        by rewrite Hmap.
    + constructor; [|done]. split; [by destruct src; cbn; congruence|].
      rewrite Hcell. by destruct src.
Qed.

Lemma assign_cells_again src c (t0 table t1 : list row) :
  assign_cells src c t0 = Ok table →
  Forall2 same_place table t1 →
  ∃ table1, assign_cells src c t1 = Ok table1 ∧
    Forall2 (λ a b, year b = year a ∧ row_cell src b = row_cell src a)
      table table1.
Proof.
  intros [Hne H0]%assign_cells_rounded H1.
  destruct (rounded_cells_again _ _ _ _ _ H0 H1) as (table1 & Hcells & Hall).
  exists table1. split; [|done]. unfold assign_cells.
  destruct t1 as [|r1 t1]; [|done].
  apply Forall2_nil_inv_r in H1 as ->. unfold rounded_cells in H0.
  destruct t0 as [|r0 t0]; [done|]. cbn [mapM] in H0.
  destruct (_ ← _; Ok _) as [b|e] in H0; [|done]. cbn [mbind res_bind] in H0.
  by destruct (mapM _ t0).
Qed.

Lemma same_cells_same_loops w src (t1 t2 : list row) :
  Forall2 (λ a b, year b = year a ∧ row_cell src b = row_cell src a) t1 t2 →
  years_desc t2 = years_desc t1 ∧
  ∀ y, unique_points w src t2 y = unique_points w src t1 y.
Proof.
  intros H. split.
  - unfold years_desc. f_equal.
    induction H as [|a b t1 t2 [Hy _] H IH]; [done|]. cbn. by rewrite Hy, IH.
  - intros y. unfold unique_points. do 2 f_equal.
    induction H as [|a b t1 t2 [Hy Hc] H IH]; [done|]. cbn.
    by rewrite Hy, Hc, IH.
Qed.

Lemma serial_second_pass c w src step pause st st1 r st2 :
  (∀ y i pt, preserves (grows src w) (step y i pt)) →
  (∀ y i pt st st', step y i pt st = (Done (), st') →
     is_Some (cache_of src st' !! cache_key w y pt)) →
  (∀ y i pt, preserves same_places (step y i pt)) →
  (∀ y i pt st r st', is_Some (cache_of src st !! cache_key w y pt) →
     step y i pt st = (r, st') →
     cache_of src st' = cache_of src st ∧ log st' = log st) →
  Serial.process c w src step pause st = (Done (), st1) →
  Serial.process c w src step pause st1 = (r, st2) →
  no_request_since src st1 st2.
Proof.
  intros Hgrows Hcaches Hplaces Hcached Hrun1 Hrun2.
  destruct (serial_process_covers _ _ _ _ _ _ _ Hgrows Hcaches Hrun1)
    as (table & Hcells & Hcov).
  assert (Forall2 same_place table (df st1)) as Hsame.
  { unfold Serial.process in Hrun1. unfold_M. rewrite Hcells in Hrun1.
    unfold set_df in Hrun1. unfold_M. cbv beta iota in Hrun1.
    by apply (serial_loops_places w src step pause table Hplaces) in Hrun1. }
  destruct (assign_cells_again _ _ _ _ _ Hcells Hsame)
    as (table1 & Hcells1 & Hall).
  destruct (same_cells_same_loops w src _ _ Hall) as [Hyears Hpoints].
  eapply serial_process_cached; [exact Hcached | exact Hcells1 | | exact Hrun2].
  intros y pt Hy Hpt. rewrite Hyears in Hy. rewrite Hpoints in Hpt.
  by apply Hcov.
Qed.

(** X17: a second pass is free. When a pipeline of the serial variant has
    returned, running it again on the table and the cache it left asks the
    backend nothing and leaves the cache as it is: every point of the table
    is found in the cache. *)
Theorem serial_second_pass_asks_nothing (c : Config) (w : world)
    (st st1 : state) (r : outcome unit) (st2 : state) :
  (Serial.process_ndvi c w st = (Done (), st1) →
   Serial.process_ndvi c w st1 = (r, st2) →
   no_request_since GEE st1 st2) ∧
  (Serial.process_temp_precip c w st = (Done (), st1) →
   Serial.process_temp_precip c w st1 = (r, st2) →
   no_request_since OM st1 st2).
Proof.
  split; apply serial_second_pass; intros y i pt.
  - apply serial_ndvi_step_grows.
  - apply serial_ndvi_step_caches.
  - apply serial_ndvi_step_places.
  - apply serial_ndvi_step_cached.
  - apply serial_temp_precip_step_grows.
  - apply serial_temp_precip_step_caches.
  - apply serial_temp_precip_step_places.
  - apply serial_temp_precip_step_cached.
Qed.

Lemma serial_second_pass_witness :
  ∃ st1 r st2,
    Serial.process_ndvi default_config healthy_world cold_state
    = (Done (), st1) ∧
    Serial.process_ndvi default_config healthy_world st1 = (r, st2) ∧
    no_request_since GEE st1 st2.
Proof.
  eexists _, _, _. split; [vm_compute; reflexivity|].
  split; [vm_compute; reflexivity|].
  eapply (proj1 (serial_second_pass_asks_nothing default_config healthy_world
                  cold_state _ _ _)); vm_compute; reflexivity.
Defined.

(** ** The table agrees with the cache *)

Lemma mask_set_col src y pt col v r :
  mask src y pt (set_col col v r) = mask src y pt r.
Proof. by destruct src. Qed.

Lemma pairwise_distinct_before (l1 l2 : list cell) (x x' : cell) :
  pairwise_distinct (l1 ++ x :: l2) → x' ∈ l1 → cell_eqb x' x = false.
Proof.
  intros Hd [i Hi]%list_elem_of_lookup.
  apply (Hd i (length l1) x' x).
  - apply lookup_lt_Some in Hi. lia.
  - by apply lookup_app_l_Some.
  - by rewrite list_lookup_middle.
Qed.

Lemma strictly_descending_before (l1 l2 : list Z) (y y' : Z) :
  strictly_descending (l1 ++ y :: l2) → y' ∈ l1 → y < y'.
Proof.
  intros Hd [i Hi]%list_elem_of_lookup.
  apply (Hd i (length l1) y' y).
  - by apply lookup_lt_Some in Hi.
  - by apply lookup_app_l_Some.
  - by rewrite list_lookup_middle.
Qed.

Lemma masks_disjoint src y y' pt pt' r :
  (y' ≠ y ∨ cell_eqb pt' pt = false) →
  mask src y' pt' r = true → mask src y pt r = false.
Proof.
  unfold mask. intros Hne [Hy' Hc']%andb_prop.
  apply Z.eqb_eq in Hy'.
  destruct (year r =? y) eqn:Hy; [|done]. apply Z.eqb_eq in Hy. cbn.
  destruct Hne as [Hne|Hne]; [congruence|].
  destruct (row_cell src r) as [own|]; [|done].
  destruct (cell_eqb own pt) eqn:Hc; [|done].
  assert (cell_eqb pt' pt = true); [|congruence].
  eapply cell_eqb_trans; [by apply cell_eqb_sym|done].
Qed.

Section NdviAgrees.
Context (c : Config) (w : world).

Lemma ndvi_agrees_same visited st st' :
  df st' = df st → gee_cache st' = gee_cache st →
  ndvi_agrees c w visited st → ndvi_agrees c w visited st'.
Proof.
  intros Hdf Hcache H y pt r Hv Hr Hm. rewrite Hdf in Hr. rewrite Hcache.
  by apply H.
Qed.

Lemma ndvi_agrees_write visited y pt v st st' :
  ndvi_agrees c w visited st →
  (∀ y' pt' r, (y', pt') ∈ visited → r ∈ df st →
     mask GEE y' pt' r = true → mask GEE y pt r = false) →
  df st' = loc_set (mask GEE y pt) (NDVI_COL c) v (df st) →
  gee_cache st' !! cache_key w y pt = Some v →
  (∀ k v', gee_cache st !! k = Some v' → gee_cache st' !! k = Some v') →
  ndvi_agrees c w (visited ++ [(y, pt)]) st'.
Proof.
  intros Hagree Hdisj Hdf Hkey Hkeep y0 pt0 r' Hvis Hr' Hmask.
  rewrite Hdf in Hr'. unfold loc_set in Hr'.
  apply list_elem_of_fmap in Hr' as (r & -> & Hr).
  assert (mask GEE y0 pt0 r = true) as Hmask0.
  { destruct (mask GEE y pt r); [by rewrite mask_set_col in Hmask | done]. }
  apply elem_of_app in Hvis as [Hvis|Hvis%list_elem_of_singleton].
  - rewrite (Hdisj _ _ _ Hvis Hr Hmask0).
    destruct (Hagree _ _ _ Hvis Hr Hmask0) as (v0 & Hc0 & Hcol0).
    exists v0. split; [by apply Hkeep | done].
  - injection Hvis as -> ->. rewrite Hmask0. exists v. split; [done|].
    cbn. apply lookup_insert_eq.
Qed.

Lemma serial_ndvi_step_agrees visited y i pt :
  apart visited y pt →
  triple (ndvi_agrees c w visited) (Serial.ndvi_step c w y i pt)
    (λ _, ndvi_agrees c w (visited ++ [(y, pt)])) (λ _ _, True).
Proof.
  intros Hapart st r st' Hagree Hrun.
  destruct r as [[]|s]; [|done].
  assert (∀ y' pt' r, (y', pt') ∈ visited → r ∈ df st →
            mask GEE y' pt' r = true → mask GEE y pt r = false) as Hdisj.
  { intros y' pt' r Hv _. apply masks_disjoint. by apply Hapart. }
  unfold Serial.ndvi_step in Hrun. unfold_M.
  destruct (gee_cache st !! cache_key w y pt) as [cached|] eqn:Hlook.
  - injection Hrun as <-.
    by eapply (ndvi_agrees_write visited y pt cached st).
  - destruct (interrupt w GEE y i PhDispatch); [done|].
    destruct (Serial.fetch_ndvi w pt.1 pt.2 y) as [evs ndvi].
    injection Hrun as <-.
    eapply (ndvi_agrees_write visited y pt (of_opt ndvi) st);
      [done | done | done | apply lookup_insert_eq |].
    intros k v' Hk. cbn. rewrite lookup_insert_ne; [done|]. congruence.
Qed.

(** One batch, entered with the points [visited] behind it. *)
Lemma serial_ndvi_batch_agrees visited y b :
  (∀ before pt after, b.2 = before ++ pt :: after →
     apart (visited ++ (pair y <$> before)) y pt) →
  triple (ndvi_agrees c w visited)
    (Serial.batch w GEE (Serial.ndvi_step c w) 2 y b)
    (λ _, ndvi_agrees c w (visited ++ (pair y <$> b.2))) (λ _ _, True).
Proof.
  intros Hapart st r st' Hagree. rewrite serial_batch_run.
  destruct (interrupt w GEE y b.1 PhLookup); [by intros [= <- <-]|].
  assert (triple (ndvi_agrees c w (visited ++ (pair y <$> [])))
            (for_each (Serial.ndvi_step c w y b.1) b.2)
            (λ _, ndvi_agrees c w (visited ++ (pair y <$> ([] ++ b.2))))
            (λ _ _, True)) as Hloop.
  { apply (triple_for_each_visited
             (λ seen, ndvi_agrees c w (visited ++ (pair y <$> seen)))).
    intros before pt after Hsplit. cbn [app].
    eapply triple_weaken;
      [apply (serial_ndvi_step_agrees (visited ++ (pair y <$> before)) y b.1 pt);
       by eapply Hapart | done | | done].
    intros [] st1. by rewrite fmap_app, app_assoc. }
  cbn [fmap list_fmap app] in Hloop. rewrite app_nil_r in Hloop.
  destruct (for_each (Serial.ndvi_step c w y b.1) b.2 st) as [[[]|s] st1] eqn:Hfor;
    [|by intros [= <- <-]].
  pose proof (Hloop _ _ _ Hagree Hfor) as H1. cbn in H1.
  destruct (interrupt w GEE y b.1 PhPersist); intros [= <- <-]; [done|].
  by eapply ndvi_agrees_same.
Qed.

Lemma bind_snoc {A B} (f : A → list B) (l : list A) (x : A) :
  (l ++ [x]) ≫= f = (l ≫= f) ++ f x.
Proof. by rewrite bind_app, bind_singleton. Qed.

Lemma concat_snoc {A} (ls : list (list A)) (l : list A) :
  concat (ls ++ [l]) = concat ls ++ l.
Proof. by rewrite concat_app; cbn; rewrite app_nil_r. Qed.

(** The loops of the pipeline over a rounded table. *)
Lemma serial_ndvi_loops_agree (table : list row) :
  lists_the_set w →
  triple (ndvi_agrees c w [])
    (for_each (λ y, for_each (Serial.batch w GEE (Serial.ndvi_step c w) 2 y)
                      (batches 50 (unique_points w GEE table y)))
       (years_desc table))
    (λ _, ndvi_agrees c w (all_points w GEE table)) (λ _ _, True).
Proof.
  intros Hset.
  set (points := λ y, unique_points w GEE table y).
  set (behind := λ ys : list Z, ys ≫= λ y, pair y <$> points y).
  apply (triple_for_each_visited (λ ys, ndvi_agrees c w (behind ys)) _ _ []).
  intros ys y ys_after Hyears. cbn [app].
  assert (∀ y' pt', (y', pt') ∈ behind ys → y' ≠ y) as Hearlier.
  { intros y' pt' (y0 & Hin & Hy0)%list_elem_of_bind.
    apply list_elem_of_fmap in Hin as (pt0 & [= -> ->] & _).
    pose proof (years_desc_descending table) as Hdesc.
    rewrite Hyears in Hdesc.
    pose proof (strictly_descending_before _ _ _ _ Hdesc Hy0). lia. }
  destruct (batches_spec 50 (points y)) as [Hcat _]; [lia|].
  eapply triple_weaken;
    [apply (triple_for_each_visited
              (λ bs, ndvi_agrees c w
                       (behind ys ++ (pair y <$> concat (snd <$> bs)))) _ _ [])
    | by intros st; cbn; rewrite app_nil_r
    | intros [] st; cbn [app]; rewrite Hcat; unfold behind;
      by rewrite bind_snoc
    | done].
  intros bs b bs_after Hbatches. cbn [app].
  eapply triple_weaken;
    [apply (serial_ndvi_batch_agrees
              (behind ys ++ (pair y <$> concat (snd <$> bs))) y b)
    | done
    | intros [] st; rewrite fmap_app, concat_app;
      cbn [fmap list_fmap concat]; by rewrite app_nil_r, fmap_app, app_assoc
    | done].
  intros before pt after Hpts y' pt' Hin.
  rewrite <- app_assoc, <- fmap_app in Hin.
  apply elem_of_app in Hin as [Hin|Hin]; [left; by eapply Hearlier|].
  apply list_elem_of_fmap in Hin as (pt0 & [= -> ->] & Hin). right.
  assert (pairwise_distinct (points y)) as Hdist.
  { by apply unique_points_distinct. }
  rewrite <- Hcat, Hbatches, fmap_app, concat_app in Hdist.
  cbn [fmap list_fmap concat] in Hdist. rewrite Hpts in Hdist.
  rewrite <- !app_assoc in Hdist. cbn [app] in Hdist.
  rewrite app_assoc in Hdist.
  by eapply pairwise_distinct_before.
Qed.
End NdviAgrees.

Lemma ndvi_agrees_nil c w st : ndvi_agrees c w [] st.
Proof. intros y pt r Hin. by apply elem_of_nil in Hin. Qed.

Lemma all_points_elem w src table y pt :
  y ∈ years_desc table → pt ∈ unique_points w src table y →
  (y, pt) ∈ all_points w src table.
Proof.
  intros Hy Hpt. unfold all_points. apply list_elem_of_bind. exists y.
  split; [|done]. by apply list_elem_of_fmap_2.
Qed.

(** X18: the table agrees with the cache. When the NDVI cache holds
    numbers and nulls only, the entries the serial variant writes, and the
    NDVI pipeline of the serial variant returns, every record whose rounded
    coordinates are numbers holds, in the NDVI column, the cache entry of
    its own year and cell: the value just fetched for that cell, or the one
    cached before (the sets of unique points being listed element by
    element). *)
Theorem serial_ndvi_table_agrees_with_cache (c : Config) (w : world)
    (st st' : state) :
  lists_the_set w →
  entries_are is_scalar GEE st →
  Serial.process_ndvi c w st = (Done (), st') →
  ∀ r own, r ∈ df st' → gee_cell r = Some own → cell_eqb own own = true →
    ∃ pt v, cell_eqb own pt = true ∧
            gee_cache st' !! cache_key w (year r) pt = Some v ∧
            cols r !! NDVI_COL c = Some v.
Proof.
  intros Hset Hscalar Hrun r own Hr Hown Hself.
  assert (entries_are is_scalar GEE st') as Hscalar'.
  { intros k v Hk.
    destruct (serial_process_entries is_scalar c w GEE (Serial.ndvi_step c w) 2
                (serial_ndvi_step_entries c w) _ _ _ Hrun k v Hk) as [Hold|Hnew];
      [by eapply Hscalar | done]. }
  unfold Serial.process_ndvi, Serial.process in Hrun. unfold_M.
  destruct (assign_cells GEE c (df st)) as [table|e] eqn:Hcells; [|done].
  unfold set_df in Hrun. unfold_M. cbv beta iota in Hrun.
  pose proof (serial_loops_places w GEE (Serial.ndvi_step c w) 2 table
                (λ y i pt, serial_ndvi_step_places c w y i pt) _ _ _ Hrun)
    as Hplaces.
  pose proof (serial_ndvi_loops_agree c w table Hset _ _ _
                (ndvi_agrees_nil c w _) Hrun) as Hagree.
  cbn in Hplaces, Hagree. unfold same_places in Hplaces. cbn in Hplaces.
  apply list_elem_of_lookup in Hr as [i Hi].
  destruct (Forall2_lookup_r _ _ _ _ _ Hplaces Hi)
    as (rt & Hrt & Hlat & Hlon & Hyear & Hgee & Hom).
  assert (rt ∈ table) as Hin by (by eapply list_elem_of_lookup_2).
  destruct (unique_points_covers w GEE table (year rt) rt own Hset Hin eq_refl)
    as (pt & Hpt & Hmask & _); [cbn; congruence | done |].
  assert (mask GEE (year r) pt r = true) as Hmask'.
  { unfold mask in *. cbn in *. by rewrite Hyear, Hgee. }
  destruct (Hagree (year r) pt r) as (v & Hv & Hcol).
  - apply all_points_elem; rewrite Hyear; [|done].
    apply years_desc_elem. by exists rt.
  - by eapply list_elem_of_lookup_2.
  - done.
  - exists pt, v. split; [|split; [done|]].
    + unfold mask in Hmask'. cbn [row_cell] in Hmask'. rewrite Hown in Hmask'.
      by apply andb_prop in Hmask' as [_ ?].
    + destruct (Hscalar' _ _ Hv) as [x ->]. rewrite Hcol. by destruct x.
Qed.

Lemma serial_ndvi_table_agrees_witness :
  ∃ st', Serial.process_ndvi default_config healthy_world cold_state
         = (Done (), st') ∧
    ∀ r own, r ∈ df st' → gee_cell r = Some own → cell_eqb own own = true →
      ∃ pt v, cell_eqb own pt = true ∧
              gee_cache st' !! cache_key healthy_world (year r) pt = Some v ∧
              cols r !! NDVI_COL default_config = Some v.
Proof.
  eexists. split; [vm_compute; reflexivity|].
  apply (serial_ndvi_table_agrees_with_cache default_config healthy_world
           cold_state).
  - intros l. reflexivity.
  - intros k v Hk. cbn in Hk. by rewrite lookup_empty in Hk.
  - vm_compute. reflexivity.
Defined.

(** ** A completed pipeline of the threaded variant has cached every point *)

Lemma is_pipeline_raises c w p lat lon y e :
  is_pipeline c w p →
  (Threaded.p_fetch p lat lon y).2 = Raise e →
  e = RuntimeError (Threaded.p_marker p) ∧
  contains (Threaded.p_marker p) (Threaded.p_marker p) = true.
Proof.
  intros [->| ->]; cbn [Threaded.p_fetch Threaded.p_marker
    Threaded.ndvi_pipeline Threaded.temp_precip_pipeline]; intros He.
  - destruct (threaded_fetch_ndvi_spec c w lat lon y) as [_ [[x Hx]|Hx]];
      rewrite Hx in He; [done|]. by injection He as <-.
  - destruct (threaded_fetch_temp_precip_spec c w lat lon y)
      as [_ [(t & q & Hx)|Hx]]; rewrite Hx in He; [done|].
    by injection He as <-.
Qed.

Section ThreadedCovers.
Context (c : Config) (w : world) (p : Threaded.pipeline).
#[local] Abbreviation src := (Threaded.p_src p).

Lemma threaded_lookup_all_covers y pts to_fetch st to_fetch' st' :
  Threaded.lookup_all w p y to_fetch pts st = (Done to_fetch', st') →
  (∀ pt, pt ∈ to_fetch → pt ∈ to_fetch') ∧
  (∀ pt, pt ∈ to_fetch' → pt ∈ to_fetch ∨ pt ∈ pts) ∧
  ∀ pt, pt ∈ pts →
        is_Some (cache_of src st !! cache_key w y pt) ∨ pt ∈ to_fetch'.
Proof.
  revert to_fetch st. induction pts as [|pt0 pts IH]; intros to_fetch st.
  - intros [= <- <-]. split; [done|]. split; [by left|].
    intros pt Hpt. by apply elem_of_nil in Hpt.
  - cbn [Threaded.lookup_all]. unfold mbind, M_bind.
    destruct (Threaded.lookup_step w p y to_fetch pt0 st) as [[tf1|s] st1] eqn:H1;
      [|done].
    intros (Hkeep & Hfrom & Hcov)%IH.
    pose proof (threaded_lookup_step_run _ _ _ _ _ _ _ _ H1) as [Hsame _].
    unfold Threaded.lookup_step in H1. unfold_M.
    destruct (cache_of src st !! cache_key w y pt0) as [vals|] eqn:Hlook.
    + destruct (items vals) as [kvs|e]; [|done]. injection H1 as <- _.
      split; [done|]. split.
      * intros pt [?|?]%Hfrom; [by left | right; by right].
      * intros pt [->|Hpt]%elem_of_cons; [left; by eexists|].
        destruct (Hcov pt Hpt) as [Hs|?]; [|by right]. left.
        by rewrite <- (same_store_cache src _ _ Hsame).
    + injection H1 as <- <-. split.
      * intros pt Hpt. apply Hkeep, elem_of_app. by left.
      * split.
        -- intros pt [[?| ->%list_elem_of_singleton]%elem_of_app|?]%Hfrom;
             [by left | right; by left | right; by right].
        -- intros pt [->|Hpt]%elem_of_cons.
           ++ right. apply Hkeep, elem_of_app. right. by left.
           ++ by apply Hcov.
Qed.

Lemma dict_set_keeps k v d entry :
  entry ∈ d → ∃ entry', entry' ∈ Threaded.dict_set k v d ∧ entry'.1 = entry.1.
Proof.
  induction d as [|[k' v'] d IH]; [by intros ?%elem_of_nil|].
  cbn [Threaded.dict_set]. intros [->|Hin]%elem_of_cons.
  - destruct (cell_eqb k' k); eexists; (split; [by left | done]).
  - destruct (cell_eqb k' k).
    + exists entry. split; [by right | done].
    + destruct (IH Hin) as (e' & He' & Hk). exists e'. split; [by right | done].
Qed.

Lemma dict_set_has k v d :
  ∃ entry, entry ∈ Threaded.dict_set k v d ∧
           (entry.1 = k ∨ cell_eqb entry.1 k = true).
Proof.
  induction d as [|[k' v'] d IH]; cbn [Threaded.dict_set].
  - exists (k, v). split; [by left | by left].
  - destruct (cell_eqb k' k) eqn:Hk.
    + exists (k', v). split; [by left | by right].
    + destruct IH as (e' & He' & Hk'). exists e'. split; [by right | done].
Qed.

Lemma threaded_collect_covers done new_data st new_data' st' :
  Threaded.collect p new_data done st = (Done new_data', st') →
  (∀ entry, entry ∈ new_data →
     ∃ entry', entry' ∈ new_data' ∧ entry'.1 = entry.1) ∧
  (∀ entry, entry ∈ new_data' →
     entry.1 ∈ new_data.*1 ∨ entry.1 ∈ done.*1) ∧
  ∀ pt v, (pt, Ok v) ∈ done →
    ∃ entry, entry ∈ new_data' ∧ (entry.1 = pt ∨ cell_eqb entry.1 pt = true).
Proof.
  revert new_data. induction done as [|[pt0 res] done IH]; intros new_data.
  - intros [= <- <-]. split; [by eauto|]. split.
    + intros entry Hin. left. by apply list_elem_of_fmap_2.
    + intros pt v Hin. by apply elem_of_nil in Hin.
  - cbn [Threaded.collect]. intros Hrun.
    assert (∀ nd, Threaded.collect p nd done st = (Done new_data', st') →
              (∀ entry, entry ∈ new_data →
                        ∃ entry', entry' ∈ nd ∧ entry'.1 = entry.1) →
              (∀ entry, entry ∈ nd →
                        entry.1 ∈ new_data.*1 ∨ entry.1 = pt0) →
              (∀ v, res = Ok v →
                 ∃ entry, entry ∈ nd ∧
                          (entry.1 = pt0 ∨ cell_eqb entry.1 pt0 = true)) →
              (∀ entry, entry ∈ new_data →
                 ∃ entry', entry' ∈ new_data' ∧ entry'.1 = entry.1) ∧
              (∀ entry, entry ∈ new_data' →
                 entry.1 ∈ new_data.*1 ∨ entry.1 ∈ ((pt0, res) :: done).*1) ∧
              ∀ pt v, (pt, Ok v) ∈ (pt0, res) :: done →
                ∃ entry, entry ∈ new_data' ∧
                         (entry.1 = pt ∨ cell_eqb entry.1 pt = true)) as Hrest.
    { intros nd Hnd Hkeep Hkeys Hhead.
      destruct (IH _ Hnd) as (Hkeep' & Hkeys' & Hcov'). split; [|split].
      - intros entry Hin. destruct (Hkeep _ Hin) as (e1 & He1 & Hk1).
        destruct (Hkeep' _ He1) as (e2 & He2 & Hk2). exists e2.
        split; [done | congruence].
      - intros entry Hin. destruct (Hkeys' _ Hin) as [Hk|Hk].
        + apply list_elem_of_fmap in Hk as (e1 & -> & He1).
          destruct (Hkeys _ He1) as [?| ->]; [by left | right; cbn; by left].
        + right. cbn. by right.
      - intros pt v [[= -> <-]|Hin]%elem_of_cons; [|by eapply Hcov'].
        destruct (Hhead v eq_refl) as (e1 & He1 & Hk1).
        destruct (Hkeep' _ He1) as (e2 & He2 & Hk2). exists e2.
        split; [done | by rewrite Hk2]. }
    destruct res as [vals|e].
    + apply Hrest in Hrun; [done|..].
      * intros entry Hin. by apply dict_set_keeps.
      * intros entry [_ Hk]%dict_set_elem. destruct Hk; [by right | by left].
      * intros v _. apply dict_set_has.
    + destruct (is_RuntimeError e).
      * destruct (contains (Threaded.p_marker p) (exn_str e)); [done|].
        apply Hrest in Hrun; [done|by eauto| |done].
        intros entry Hin. left. by apply list_elem_of_fmap_2.
      * destruct (is_Exception e); [|done].
        apply Hrest in Hrun; [done|..|done].
        -- intros entry Hin. by apply dict_set_keeps.
        -- intros entry [_ Hk]%dict_set_elem. destruct Hk; [by right | by left].
Qed.

Lemma threaded_merge_covers y new_data st st' :
  for_each (Threaded.merge_step w p y) new_data st = (Done (), st') →
  (∀ k, is_Some (cache_of src st !! k) → is_Some (cache_of src st' !! k)) ∧
  ∀ entry, entry ∈ new_data →
           is_Some (cache_of src st' !! cache_key w y entry.1).
Proof.
  revert st. induction new_data as [|entry0 new_data IH]; intros st.
  - intros [= <-]. split; [done|]. intros entry Hin. by apply elem_of_nil in Hin.
  - cbn [for_each]. unfold mbind at 1, M_bind at 1.
    destruct (Threaded.merge_step w p y entry0 st) as [[[]|s] st1] eqn:H1; [|done].
    intros [Hmono Hcov]%IH.
    assert (cache_of src st1
            = <[cache_key w y entry0.1 := entry0.2]> (cache_of src st)) as Hc1.
    { unfold Threaded.merge_step in H1. unfold_M.
      destruct (items entry0.2) as [kvs|e]; [|done].
      injection H1 as <-. by destruct src. }
    split.
    + intros k Hk. apply Hmono. rewrite Hc1.
      destruct (decide (cache_key w y entry0.1 = k)) as [->|Hne];
        [rewrite lookup_insert_eq; by eexists | by rewrite lookup_insert_ne].
    + intros entry [->|Hin]%elem_of_cons; [|by apply Hcov].
      apply Hmono. rewrite Hc1, lookup_insert_eq. by eexists.
Qed.

Lemma threaded_batch_covers y b st st' :
  is_pipeline c w p → completes_submitted w →
  (∀ k pt, k ∈ b.2 → pt ∈ b.2 → cell_eqb k pt = true → k = pt) →
  Threaded.batch w p y b st = (Done (), st') →
  ∀ pt, pt ∈ b.2 → is_Some (cache_of src st' !! cache_key w y pt).
Proof.
  intros Hp Hperm Huniq. rewrite threaded_batch_unfold.
  pose proof (is_pipeline_well_behaved c w p Hp) as Hwb.
  destruct (interrupt w src y b.1 PhLookup); [done|].
  destruct (Threaded.lookup_all w p y [] b.2 st) as [[to_fetch|s] st1] eqn:Hlook;
    [|done].
  pose proof (threaded_lookup_all_run _ _ _ _ _ _ _ _ Hlook) as [Hsame _].
  apply threaded_lookup_all_covers in Hlook as (_ & Hfrom & Hcov).
  assert (∀ pt, pt ∈ to_fetch → pt ∈ b.2) as Hsub.
  { intros pt [Hnil|?]%Hfrom; [by apply elem_of_nil in Hnil | done]. }
  destruct to_fetch as [|pt0 to_fetch].
  { intros [= <-] pt Hpt. destruct (Hcov pt Hpt) as [Hs|Hnil];
      [|by apply elem_of_nil in Hnil].
    by rewrite (same_store_cache src _ _ Hsame). }
  rewrite threaded_dispatch_run. cbv zeta.
  set (st2 := logged _ st1).
  destruct (interrupt w src y b.1 PhDispatch); [done|].
  destruct (threaded_submit_all_spec p y (pt0 :: to_fetch) Hwb)
    as (_ & Hres & Hin).
  unfold completes_submitted in Hperm.
  destruct (Threaded.collect p [] _ st2) as [[new_data|s] st3] eqn:Hcollect;
    [|done].
  pose proof (threaded_collect_outcome _ _ _ _ _ _ Hcollect) as Hst3.
  destruct Hst3 as [(nd & _ & ->)|(code & [=] & _)].
  destruct (for_each (Threaded.merge_step w p y) new_data st2)
    as [[[]|s] st4] eqn:Hmerge; [|done].
  apply threaded_merge_covers in Hmerge as [Hmono Hmerged].
  destruct (interrupt w src y b.1 PhPersist); [done|].
  intros [= <-] pt Hpt.
  assert (is_Some (cache_of src st4 !! cache_key w y pt)) as Hsome;
    [|by destruct src].
  destruct (Hcov pt Hpt) as [Hs|Hfetch].
  { apply Hmono. subst st2. rewrite <- (same_store_cache src _ _ Hsame) in Hs.
    by destruct src. }
  pose proof (Hin pt Hfetch) as Hdone. rewrite <- Hperm in Hdone.
  destruct (Threaded.p_fetch p pt.1 pt.2 y).2 as [v|e] eqn:Hr.
  - destruct (threaded_collect_covers _ _ _ _ _ Hcollect) as (_ & Hkeys & Hok).
    destruct (Hok pt v Hdone) as (entry & Hentry & Hk).
    assert (entry.1 = pt) as <-; [|by apply Hmerged].
    destruct Hk as [?|Hk]; [done|]. apply Huniq; [|done..].
    destruct (Hkeys _ Hentry) as [Hnil|Hk'];
      [by apply elem_of_nil in Hnil|].
    apply list_elem_of_fmap in Hk' as ([pt' r'] & -> & Hd).
    rewrite Hperm in Hd. apply Hsub. by destruct (Hres _ _ Hd).
  - destruct (is_pipeline_raises c w p _ _ _ _ Hp Hr) as [-> Hmarker].
    rewrite (threaded_collect_rate_limit p _ [] st2 pt
               (Threaded.p_marker p)) in Hcollect; [done| |done..].
    intros pt' res e Hd ->. rewrite Hperm in Hd.
    destruct (Hres _ _ Hd) as [_ He].
    by apply (wb_raises p Hwb pt'.1 pt'.2 y).
Qed.

Lemma threaded_process_covers st st' :
  is_pipeline c w p → completes_submitted w → lists_the_set w →
  (0 < Threaded.p_batch_size p)%nat →
  Threaded.process c w p st = (Done (), st') →
  ∃ table, assign_cells src c (df st) = Ok table ∧
           covers w src (cache_of src st') table.
Proof.
  intros Hp Hperm Hset Hsize Hrun.
  pose proof (is_pipeline_well_behaved c w p Hp) as Hwb.
  unfold Threaded.process in Hrun. unfold_M.
  destruct (assign_cells src c (df st)) as [table|e] eqn:Hcells; [|done].
  exists table. split; [done|].
  unfold set_df in Hrun. unfold_M. cbv beta iota in Hrun.
  intros y pt Hy Hpt.
  eapply (for_each_establishes src w
            (λ y st, ∀ pt, pt ∈ unique_points w src table y →
                           is_Some (cache_of src st !! cache_key w y pt)));
    [| | |exact Hrun|exact Hy|exact Hpt].
  - intros y' st2 st3 Hc Hg pt' Hpt'. eapply is_Some_grows; [by apply Hc|done].
  - intros y'. apply preserves_for_each; [apply grows_refl | apply grows_trans|].
    intros b _. by apply threaded_batch_grows.
  - clear y pt Hy Hpt. intros y st2 st3 _ Hyear pt Hpt.
    destruct (batches_spec (Threaded.p_batch_size p)
                (unique_points w src table y) Hsize) as [Hcat _].
    rewrite <- Hcat in Hpt.
    apply list_elem_of_In, in_concat in Hpt
      as (pts & Hpts%list_elem_of_In & Hpt%list_elem_of_In).
    apply list_elem_of_fmap in Hpts as (b & -> & Hb).
    eapply (for_each_establishes src w
              (λ b st, ∀ pt, pt ∈ b.2 →
                             is_Some (cache_of src st !! cache_key w y pt)));
      [| | |exact Hyear|exact Hb|exact Hpt].
    + intros b' st4 st5 Hc Hg pt' Hpt'.
      eapply is_Some_grows; [by apply Hc|done].
    + intros b'. by apply threaded_batch_grows.
    + intros b' st4 st5 Hb' Hbatch.
      eapply threaded_batch_covers; [done..| |exact Hbatch].
      intros k pt' Hk Hpt' Heq.
      eapply (pairwise_distinct_same (unique_points w src table y));
        [by apply unique_points_distinct | | | done];
        by eapply batch_points_in_coords.
Qed.
End ThreadedCovers.

(** X19: a pipeline of the threaded variant that returns has cached every
    point, too: when the completed futures are the submitted ones and the
    sets of unique points are listed element by element, the cache holds an
    entry for every unique point of every year of the rounded table. *)
Theorem threaded_completed_pipeline_covers_table (c : Config) (w : world)
    (st st' : state) :
  completes_submitted w → lists_the_set w →
  (Threaded.process_ndvi c w st = (Done (), st') →
   ∃ table, assign_cells GEE c (df st) = Ok table ∧
            covers w GEE (gee_cache st') table) ∧
  (Threaded.process_temp_precip c w st = (Done (), st') →
   ∃ table, assign_cells OM c (df st) = Ok table ∧
            covers w OM (om_cache st') table).
Proof.
  intros Hperm Hset. split.
  - apply (threaded_process_covers c w (Threaded.ndvi_pipeline c w));
      [by left | done | done |]. cbn. unfold Threaded.GEE_BATCH_SIZE. lia.
  - apply (threaded_process_covers c w (Threaded.temp_precip_pipeline c w));
      [by right | done | done |]. cbn. unfold Threaded.OM_BATCH_SIZE. lia.
Qed.

Lemma threaded_completed_pipeline_covers_witness :
  completes_submitted healthy_world ∧ lists_the_set healthy_world ∧
  ∃ st', Threaded.process_ndvi default_config healthy_world cold_state
         = (Done (), st') ∧
    ∃ table, assign_cells GEE default_config (df cold_state) = Ok table ∧
             covers healthy_world GEE (gee_cache st') table.
Proof.
  assert (completes_submitted healthy_world) as Hperm by (intros l; reflexivity).
  assert (lists_the_set healthy_world) as Hset by (intros l; reflexivity).
  split; [done|]. split; [done|]. eexists. split; [vm_compute; reflexivity|].
  apply (threaded_completed_pipeline_covers_table default_config healthy_world
           cold_state _ Hperm Hset).
  vm_compute. reflexivity.
Defined.

(** ** The claims about the cache entries *)

(** *** A hit broadcasts an entry of the variant's own format *)

Lemma loc_set_broadcast m col v table :
  loc_value v = v → broadcast m col v table (loc_set m col v table).
Proof.
  intros Hv. unfold broadcast, loc_set.
  induction table as [|r table IH]; [constructor|].
  cbn [fmap list_fmap]. constructor; [|done].
  destruct (m r); [|done]. rewrite Hv. cbn. split; [apply lookup_insert_eq|].
  split; [|done]. repeat split. intros k Hk. by apply lookup_insert_ne.
Qed.

Lemma loc_set_items_rows src y pt kvs table :
  loc_set_items (mask src y pt) kvs table
  = (λ r, if mask src y pt r then set_cols kvs r else r) <$> table.
Proof.
  unfold loc_set_items, set_cols. revert table.
  induction kvs as [|kv kvs IH]; intros table; cbn [foldl].
  - induction table as [|r table IHt]; [done|]. cbn. rewrite <- IHt.
    by destruct (mask src y pt r).
  - rewrite IH. unfold loc_set. rewrite <- list_fmap_compose.
    apply list_fmap_ext. intros i r _. cbn.
    destruct (mask src y pt r) eqn:Hm; [|by rewrite Hm].
    by rewrite mask_set_col, Hm.
Qed.

Lemma set_cols_snoc kvs kv r :
  set_cols (kvs ++ [kv]) r = set_col kv.1 (loc_value kv.2) (set_cols kvs r).
Proof. unfold set_cols. by rewrite foldl_app. Qed.

Lemma set_cols_spec kvs r :
  NoDup kvs.*1 → (∀ k v, (k, v) ∈ kvs → loc_value v = v) →
  (∀ k v, (k, v) ∈ kvs → cols (set_cols kvs r) !! k = Some v) ∧
  same_record (λ k, k ∈ kvs.*1) r (set_cols kvs r) ∧
  same_place r (set_cols kvs r).
Proof.
  induction kvs as [|[k0 v0] kvs IH] using rev_ind; intros Hnd Hval.
  - cbn. split; [by intros k v ?%elem_of_nil|]. by repeat split.
  - rewrite fmap_app in Hnd. apply NoDup_app in Hnd as (Hnd & Hfresh & _).
    destruct IH as (Hcols & Hrec & Hplace); [done | |].
    { intros k v Hin. apply (Hval k v), elem_of_app. by left. }
    rewrite set_cols_snoc. cbn [fst snd].
    rewrite (Hval k0 v0) by (apply elem_of_app; right; by left).
    split; [|split].
    + intros k v [Hin|Hin%list_elem_of_singleton]%elem_of_app.
      * cbn. rewrite lookup_insert_ne; [by apply Hcols|].
        intros <-. apply (Hfresh k0); [|cbn; by left].
        apply list_elem_of_fmap. by exists (k0, v).
      * injection Hin as -> ->. cbn. apply lookup_insert_eq.
    + destruct Hrec as (? & ? & ? & Hother). repeat split; [done..|].
      intros k Hk. cbn. rewrite lookup_insert_ne.
      * apply Hother. intros Hin. apply Hk. rewrite fmap_app.
        apply elem_of_app. by left.
      * intros <-. apply Hk. rewrite fmap_app. apply elem_of_app. right.
        cbn. by left.
    + by destruct Hplace as (?&?&?&?&?).
Qed.

Lemma loc_set_items_broadcast src y pt d table :
  NoDup d.*1 → (∀ k v, (k, v) ∈ d → loc_value v = v) →
  broadcast_all (mask src y pt) d table (loc_set_items (mask src y pt) d table).
Proof.
  intros Hnd Hval. rewrite loc_set_items_rows. unfold broadcast_all.
  induction table as [|r table IH]; [constructor|].
  cbn [fmap list_fmap]. constructor; [|done].
  destruct (mask src y pt r); [|done]. by apply set_cols_spec.
Qed.

Lemma is_scalar_loc_value v : is_scalar v → loc_value v = v.
Proof. intros [x ->]. by destruct x. Qed.

(** C1 (as amended): a key that the cache holds is never fetched, and the
    lookup leaves the caches, their files and the trace as they are, whatever
    the entry. An entry of the format the variant writes is broadcast: in
    the serial variant a number or a null goes to the NDVI column of every
    matching record, in the threaded variant every value of a record of
    numbers and nulls goes to the column it names; no other cell changes.
    Every step of the serial variant and every batch of the threaded one
    asks only for keys that the cache did not hold when it began, and over
    any run the cache and its file only gain entries. *)
Theorem cache_hits_short_circuit_and_cache_grows (c : Config) (w : world)
    (st : state) :
  (∀ y i pt cached r st',
     gee_cache st !! cache_key w y pt = Some cached →
     Serial.ndvi_step c w y i pt st = (r, st') → same_store st st') ∧
  (∀ y i pt x,
     gee_cache st !! cache_key w y pt = Some (of_opt x) →
     ∃ st', Serial.ndvi_step c w y i pt st = (Done (), st') ∧
            broadcast (mask GEE y pt) (NDVI_COL c) (of_opt x) (df st) (df st')) ∧
  (∀ y to_fetch pt cached r st',
     gee_cache st !! cache_key w y pt = Some cached →
     Threaded.lookup_step w (Threaded.ndvi_pipeline c w) y to_fetch pt st
     = (r, st') →
     same_store st st' ∧ ∀ to_fetch', r = Done to_fetch' → to_fetch' = to_fetch) ∧
  (∀ y to_fetch pt d,
     gee_cache st !! cache_key w y pt = Some (PDict d) →
     NoDup d.*1 → (∀ k v, (k, v) ∈ d → is_scalar v) →
     ∃ st', Threaded.lookup_step w (Threaded.ndvi_pipeline c w) y to_fetch pt st
            = (Done to_fetch, st') ∧
            broadcast_all (mask GEE y pt) d (df st) (df st')) ∧
  (∀ y i pt r st', Serial.ndvi_step c w y i pt st = (r, st') →
                   grows GEE w st st') ∧
  (completes_submitted w →
   ∀ y b r st', Threaded.batch w (Threaded.ndvi_pipeline c w) y b st = (r, st') →
                grows GEE w st st') ∧
  (∀ r st', Serial.process_ndvi c w st = (r, st') → grows GEE w st st') ∧
  (completes_submitted w →
   ∀ r st', Threaded.process_ndvi c w st = (r, st') → grows GEE w st st') ∧
  (∀ f r st', GEE_CACHE st = Some f → Serial.main c w st = (r, st') →
              file_grows GEE w f st st') ∧
  (completes_submitted w →
   ∀ f r st', GEE_CACHE st = Some f → Threaded.main c w st = (r, st') →
              file_grows GEE w f st st').
Proof.
  repeat apply conj.
  - intros y i pt cached r st' Hhit Hrun.
    rewrite (serial_ndvi_hit _ _ _ _ _ _ _ Hhit) in Hrun.
    injection Hrun as <- <-. by repeat split.
  - intros y i pt x Hhit. eexists.
    split; [by apply serial_ndvi_hit|]. cbn [df].
    apply loc_set_broadcast. by destruct x.
  - intros y to_fetch pt cached r st' Hhit Hrun.
    apply threaded_lookup_step_run in Hrun as [Hsame Hfetch].
    split; [done|]. intros to_fetch' ->.
    destruct (Hfetch _ eq_refl) as [?|[_ Hnone]]; [done|].
    cbn in Hnone. congruence.
  - intros y to_fetch pt d Hhit Hnd Hval. eexists.
    split; [by apply (threaded_lookup_hit w (Threaded.ndvi_pipeline c w))|].
    cbn [df]. apply (loc_set_items_broadcast GEE); [done|].
    intros k v Hin. by eapply is_scalar_loc_value, Hval.
  - intros y i pt r st'. apply serial_ndvi_step_grows.
  - intros Hperm y b r st'.
    by apply (threaded_batch_grows w (Threaded.ndvi_pipeline c w) GEE y b
                (ndvi_pipeline_well_behaved c w)).
  - intros r st'. apply serial_process_ndvi_grows.
  - intros Hperm r st'.
    by apply (threaded_process_grows c w (Threaded.ndvi_pipeline c w) GEE
                (ndvi_pipeline_well_behaved c w)).
  - intros f r st'. apply (serial_main_file_grows c w GEE).
  - intros Hperm f r st'. by apply (threaded_main_file_grows c w GEE).
Qed.

Lemma cache_hits_short_circuit_witness :
  (∃ st', Serial.ndvi_step default_config healthy_world 2020 0 la_cell
            (warm_state PNone) = (Done (), st') ∧
          broadcast (mask GEE 2020 la_cell) (NDVI_COL default_config) PNone
            (df (warm_state PNone)) (df st')) ∧
  (∃ st', Threaded.lookup_step healthy_world
            (Threaded.ndvi_pipeline default_config healthy_world) 2020 []
            la_cell (warm_state (PDict [(NDVI_COL default_config, PNone)]))
          = (Done [], st') ∧
          broadcast_all (mask GEE 2020 la_cell)
            [(NDVI_COL default_config, PNone)]
            (df (warm_state (PDict [(NDVI_COL default_config, PNone)])))
            (df st')) ∧
  file_grows GEE healthy_world
    {[ cache_key healthy_world 2020 la_cell
         := PDict [(NDVI_COL default_config, PNone)] ]}
    (warm_state (PDict [(NDVI_COL default_config, PNone)]))
    (Threaded.main default_config healthy_world
       (warm_state (PDict [(NDVI_COL default_config, PNone)]))).2.
Proof.
  split; [|split].
  - destruct (cache_hits_short_circuit_and_cache_grows default_config
                healthy_world (warm_state PNone)) as (_ & Hserial & _).
    apply (Hserial 2020 0%nat la_cell None). vm_compute. reflexivity.
  - destruct (cache_hits_short_circuit_and_cache_grows default_config
                healthy_world
                (warm_state (PDict [(NDVI_COL default_config, PNone)])))
      as (_ & _ & _ & Hthreaded & _).
    apply Hthreaded.
    + vm_compute. reflexivity.
    + apply NoDup_singleton.
    + intros k v Hin%list_elem_of_singleton. injection Hin as _ ->.
      by exists None.
  - destruct (cache_hits_short_circuit_and_cache_grows default_config
                healthy_world
                (warm_state (PDict [(NDVI_COL default_config, PNone)])))
      as (_ & _ & _ & _ & _ & _ & _ & _ & _ & Hmain).
    eapply Hmain.
    + intros l. reflexivity.
    + reflexivity.
    + apply surjective_pairing.
Defined.

(** C1 (as stated) fails for an entry of the other variant's format. In the
    serial variant a cached record is not broadcast: pandas leaves NaN in
    the NDVI column of the matching record. In the threaded variant a cached
    bare [null] is not broadcast either: the lookup raises
    [AttributeError]. *)
Lemma foreign_entry_is_not_broadcast :
  (∃ st', Serial.ndvi_step default_config healthy_world 2020 0 la_cell
            (warm_state threaded_entry) = (Done (), st') ∧
          (∀ r, r ∈ df st' → cols r !! NDVI_COL default_config = Some PNan) ∧
          ¬ broadcast (mask GEE 2020 la_cell) (NDVI_COL default_config)
              threaded_entry (df (warm_state threaded_entry)) (df st')) ∧
  Threaded.lookup_step healthy_world
    (Threaded.ndvi_pipeline default_config healthy_world) 2020 [] la_cell
    (warm_state PNone)
  = (Stop (Uncaught AttributeError), warm_state PNone).
Proof.
  split; [|vm_compute; reflexivity].
  eexists. split; [vm_compute; reflexivity|]. split.
  - intros r Hr. apply list_elem_of_singleton in Hr as ->.
    vm_compute. reflexivity.
  - intros Hb. unfold broadcast in Hb. cbn [df warm_state] in Hb.
    apply Forall2_cons_1 in Hb as [Hb _].
    assert (mask GEE 2020 la_cell (set_row_cell GEE la_cell los_angeles) = true)
      as Hm by (vm_compute; reflexivity).
    rewrite Hm in Hb. destruct Hb as [Hb _]. vm_compute in Hb. discriminate.
Qed.

(** *** An exhausted rate limit leaves an absent entry in the cache file *)

Section Exhausted.
Context (c : Config) (w : world) (y : Z) (pt : cell).

(** The entry of [pt] is missing or absent. *)
#[local] Abbreviation undecided st :=
  (gee_cache st !! cache_key w y pt = None ∨
   gee_cache st !! cache_key w y pt = Some PNone).

Lemma serial_ndvi_step_exhausted i x st st' :
  (cache_key w y x = cache_key w y pt → gee_rate_limited w y x) →
  Serial.ndvi_step c w y i x st = (Done (), st') →
  undecided st →
  undecided st' ∧
  (gee_cache st !! cache_key w y pt = Some PNone →
   gee_cache st' !! cache_key w y pt = Some PNone) ∧
  (x = pt → gee_cache st' !! cache_key w y pt = Some PNone).
Proof.
  intros Hlimited Hrun Hinv.
  destruct (gee_cache st !! cache_key w y x) as [cached|] eqn:Hlook.
  - rewrite (serial_ndvi_hit _ _ _ _ _ _ _ Hlook) in Hrun.
    injection Hrun as <-. cbn [gee_cache]. split; [done|]. split; [done|].
    intros ->. destruct Hinv; congruence.
  - destruct (interrupt w GEE y i PhDispatch) eqn:Hintr.
    { unfold Serial.ndvi_step in Hrun. unfold_M.
      by rewrite Hlook, Hintr in Hrun. }
    rewrite (serial_ndvi_miss _ _ _ _ _ _ Hlook Hintr) in Hrun.
    injection Hrun as <-. cbn [gee_cache].
    destruct (decide (cache_key w y x = cache_key w y pt)) as [Heq|Hne].
    + rewrite (serial_fetch_ndvi_rate_limited w y x (Hlimited Heq)).
      cbn [snd of_opt]. rewrite Heq, lookup_insert_eq. by repeat split; [right|..].
    + rewrite lookup_insert_ne by done. split; [done|]. split; [done|].
      by intros ->.
Qed.

Lemma serial_ndvi_points_exhausted i pts :
  (∀ x, x ∈ pts → cache_key w y x = cache_key w y pt → gee_rate_limited w y x) →
  triple (λ st, undecided st)
    (for_each (Serial.ndvi_step c w y i) pts)
    (λ _ st, undecided st ∧
             (pt ∈ pts → gee_cache st !! cache_key w y pt = Some PNone))
    (λ _ _, True).
Proof.
  intros Hlimited.
  eapply triple_weaken;
    [apply (triple_for_each_visited
              (λ seen st, undecided st ∧
                 (pt ∈ seen → gee_cache st !! cache_key w y pt = Some PNone))
              (λ _ _, True) _ [] pts)
    | | done | done].
  - intros before x after Hpts st r st' [Hinv Hseen] Hrun. cbn [app] in *.
    destruct r as [[]|s]; [|done].
    destruct (serial_ndvi_step_exhausted i x st st') as (Hinv' & Hkeep & Hown);
      [|done|done|].
    { apply Hlimited. rewrite Hpts. apply elem_of_app. right. by left. }
    split; [done|].
    intros [Hin| ->%list_elem_of_singleton]%elem_of_app; [|by apply Hown].
    by apply Hkeep, Hseen.
  - intros st Hinv. split; [done|]. by intros ?%elem_of_nil.
Qed.

Lemma serial_ndvi_batch_exhausted b st st1 :
  pt ∈ b.2 →
  (∀ x, x ∈ b.2 → cache_key w y x = cache_key w y pt → gee_rate_limited w y x) →
  gee_cache st !! cache_key w y pt = None →
  Serial.batch w GEE (Serial.ndvi_step c w) 2 y b st = (Done (), st1) →
  gee_cache st1 !! cache_key w y pt = Some PNone ∧
  GEE_CACHE st1 = Some (gee_cache st1).
Proof.
  intros Hin Hlimited Hnone. rewrite serial_batch_run.
  destruct (interrupt w GEE y b.1 PhLookup); [done|].
  destruct (for_each (Serial.ndvi_step c w y b.1) b.2 st) as [[[]|s] st0] eqn:Hloop;
    [|done].
  apply (serial_ndvi_points_exhausted b.1 b.2 Hlimited) in Hloop as [_ Hentry];
    [|by left].
  destruct (interrupt w GEE y b.1 PhPersist); [done|].
  intros [= <-]. cbn. split; [by apply Hentry | done].
Qed.
End Exhausted.

(** C9: in the serial variant, when every attempt for a point meets a
    rate-limit signal, [fetch_ndvi] sleeps 10, 20 and 40 seconds and falls off
    its loop with [None]; the step of [process_ndvi] stores that [None] under
    the cell key and in the NDVI column of the matching records, as it does
    for a backend without images for the period; the batch, when it
    completes, has written the entry to the cache file; and every later run
    that starts from that file keeps the entry and never requests the
    point. *)
Theorem serial_rate_limit_exhaustion_cached_as_absent (c : Config) (w : world)
    (st : state) (y : Z) (b : nat * list cell) (pt : cell) :
  gee_rate_limited w y pt →
  pt ∈ b.2 →
  (∀ x, x ∈ b.2 → cache_key w y x = cache_key w y pt → gee_rate_limited w y x) →
  gee_cache st !! cache_key w y pt = None →
  Serial.fetch_ndvi w pt.1 pt.2 y
  = ([Request GEE y pt.1 pt.2; Sleep 10; Request GEE y pt.1 pt.2; Sleep 20;
      Request GEE y pt.1 pt.2; Sleep 40], None) ∧
  (∀ i st0,
     gee_cache st0 !! cache_key w y pt = None →
     interrupt w GEE y i PhDispatch = false →
     ∃ st1,
       Serial.ndvi_step c w y i pt st0 = (Done (), st1) ∧
       gee_cache st1 = <[cache_key w y pt := PNone]> (gee_cache st0) ∧
       broadcast (mask GEE y pt) (NDVI_COL c) PNone (df st0) (df st1) ∧
       ∀ w', cache_key w' y pt = cache_key w y pt →
             interrupt w' GEE y i PhDispatch = false →
             gee w' y pt.1 pt.2 0 = GeeNoImages →
             ∃ st1', Serial.ndvi_step c w' y i pt st0 = (Done (), st1') ∧
                     gee_cache st1' = gee_cache st1 ∧ df st1' = df st1) ∧
  (∀ st1,
     Serial.batch w GEE (Serial.ndvi_step c w) 2 y b st = (Done (), st1) →
     gee_cache st1 !! cache_key w y pt = Some PNone ∧
     GEE_CACHE st1 = Some (gee_cache st1) ∧
     ∀ c2 w2 st2 r st3,
       cache_key w2 y pt = cache_key w y pt →
       GEE_CACHE st2 = GEE_CACHE st1 →
       Serial.main c2 w2 st2 = (r, st3) →
       (∃ f', GEE_CACHE st3 = Some f' ∧
              f' !! cache_key w2 y pt = Some PNone) ∧
       ∀ evs, log st3 = log st2 ++ evs → Request GEE y pt.1 pt.2 ∉ evs).
Proof.
  intros Hlimited Hin Hothers Hnone.
  pose proof (serial_fetch_ndvi_rate_limited w y pt Hlimited) as Hfetch.
  split; [done|]. split.
  - intros i st0 Hmiss Hintr. eexists.
    split; [by apply serial_ndvi_miss|].
    rewrite Hfetch. cbn [fst snd of_opt df gee_cache].
    split; [done|]. split; [by apply loc_set_broadcast|].
    intros w' Hkey Hintr' Hnoimg. eexists.
    split; [apply serial_ndvi_miss; [by rewrite Hkey | done]|].
    unfold Serial.fetch_ndvi, max_retries. cbn [Serial.fetch_ndvi_loop].
    rewrite Hnoimg. cbn [fst snd of_opt df gee_cache]. by rewrite Hkey.
  - intros st1 Hbatch.
    destruct (serial_ndvi_batch_exhausted c w y pt b st st1 Hin Hothers Hnone
                Hbatch) as [Hentry Hfile].
    split; [done|]. split; [done|].
    intros c2 w2 st2 r st3 Hkey Hstart Hrun. rewrite Hfile in Hstart.
    apply (later_main_keeps_entry GEE w2 (gee_cache st1) st2 st3 y pt PNone).
    + by eapply serial_main_file_grows.
    + by rewrite Hkey.
Qed.

Lemma serial_rate_limit_exhaustion_witness :
  ∃ st1,
    Serial.batch quota_world GEE
      (Serial.ndvi_step default_config quota_world) 2 2020
      (0%nat, [la_cell]) cold_state = (Done (), st1) ∧
    gee_cache st1 !! cache_key quota_world 2020 la_cell = Some PNone ∧
    GEE_CACHE st1 = Some (gee_cache st1).
Proof.
  destruct (serial_rate_limit_exhaustion_cached_as_absent default_config
              quota_world cold_state 2020 (0%nat, [la_cell]) la_cell)
    as (_ & _ & Hbatch).
  - apply quota_world_rate_limited.
  - by left.
  - intros x _ _. apply quota_world_rate_limited.
  - vm_compute. reflexivity.
  - eassert (Serial.batch quota_world GEE
               (Serial.ndvi_step default_config quota_world) 2 2020
               (0%nat, [la_cell]) cold_state = (Done (), _)) as Hrun
      by (vm_compute; reflexivity).
    eexists. split; [exact Hrun|].
    destruct (Hbatch _ Hrun) as (Hentry & Hfile & _). by split.
Defined.

(** *** The formats of the entries that a completed run has written *)

Section ThreadedFormats.
Context (c : Config) (w : world) (p : Threaded.pipeline) (P : pyval → Prop).
Hypothesis Hwb : well_behaved p.
Hypothesis Hfetch : ∀ lat lon y v, (Threaded.p_fetch p lat lon y).2 = Ok v → P v.
Hypothesis Habsent : P (Threaded.p_absent p).
#[local] Abbreviation src := (Threaded.p_src p).

Lemma threaded_collect_format done new_data st nd st' :
  (∀ pt v, (pt, Ok v) ∈ done → P v) →
  (∀ entry, entry ∈ new_data → P entry.2) →
  Threaded.collect p new_data done st = (Done nd, st') →
  ∀ entry, entry ∈ nd → P entry.2.
Proof.
  revert new_data. induction done as [|[pt res] done IH];
    intros new_data Hdone Hnew.
  - by intros [= <- <-].
  - assert (∀ pt v, (pt, Ok v) ∈ done → P v) as Hdone'.
    { intros pt' v Hin. apply (Hdone pt' v). by right. }
    cbn [Threaded.collect]. destruct res as [vals|e].
    + apply IH; [done|].
      intros entry [[Hin| ->] _]%dict_set_elem; [by apply Hnew|].
      apply (Hdone pt vals). by left.
    + destruct (is_RuntimeError e).
      * destruct (contains (Threaded.p_marker p) (exn_str e));
          [by unfold Threaded.flush_and_exit; unfold_M | by apply IH].
      * destruct (is_Exception e);
          [|by unfold Threaded.flush_and_exit; unfold_M].
        apply IH; [done|].
        intros entry [[Hin| ->] _]%dict_set_elem; [by apply Hnew | done].
Qed.

Lemma threaded_merge_format y new_data :
  (∀ entry, entry ∈ new_data → P entry.2) →
  preserves (new_entries P src)
    (for_each (Threaded.merge_step w p y) new_data).
Proof.
  intros Hformat.
  apply preserves_for_each; [apply new_entries_refl | apply new_entries_trans |].
  intros entry Hentry st r st' Hrun. unfold Threaded.merge_step in Hrun.
  unfold_M.
  destruct (items entry.2) as [kvs|e]; injection Hrun as <- <-;
    (eapply new_entries_insert; [by destruct src | by apply Hformat]).
Qed.

Lemma threaded_batch_format y b :
  completes_submitted w →
  preserves (new_entries P src) (Threaded.batch w p y b).
Proof.
  intros Hperm st r st'. rewrite threaded_batch_unfold.
  destruct (interrupt w src y b.1 PhLookup).
  { intros [= <- <-]. apply new_entries_refl. }
  destruct (Threaded.lookup_all w p y [] b.2 st) as [[to_fetch|s] st1] eqn:Hlook;
    apply threaded_lookup_all_run in Hlook as [Hsame _].
  2:{ intros [= <- <-]. apply new_entries_same_cache.
      by apply same_store_cache. }
  assert (new_entries P src st st1) as H1.
  { apply new_entries_same_cache. by apply same_store_cache. }
  destruct to_fetch as [|pt to_fetch]; [by intros [= <- <-]|].
  rewrite threaded_dispatch_run. cbv zeta.
  set (st2 := logged _ st1).
  assert (new_entries P src st st2) as H2.
  { eapply new_entries_trans; [exact H1|].
    apply new_entries_same_cache. by destruct src. }
  assert (∀ st3, new_entries P src st st3 →
                 new_entries P src st (flushed src st3)) as Hflush.
  { intros st3 H3. eapply new_entries_trans; [exact H3|].
    apply new_entries_same_cache. by destruct src. }
  destruct (interrupt w src y b.1 PhDispatch).
  { intros [= <- <-]. by apply Hflush. }
  destruct (threaded_submit_all_spec p y (pt :: to_fetch) Hwb) as (_ & Hres & _).
  destruct (Threaded.collect p [] _ st2) as [[new_data|s] st3] eqn:Hcollect.
  2:{ apply threaded_collect_outcome in Hcollect
        as [(nd & [=] & _)|(code & _ & ->)].
      intros [= <- <-]. by apply Hflush. }
  pose proof (threaded_collect_outcome _ _ _ _ _ _ Hcollect)
    as [(nd & _ & ->)|(code & [=] & _)].
  assert (∀ entry, entry ∈ new_data → P entry.2) as Hformat.
  { eapply threaded_collect_format; [| |exact Hcollect].
    - intros pt' v Hin. rewrite (Hperm _) in Hin.
      destruct (Hres _ _ Hin) as [_ Hv]. by eapply Hfetch.
    - by intros entry ?%elem_of_nil. }
  destruct (for_each (Threaded.merge_step w p y) new_data st2)
    as [[[]|s] st4] eqn:Hmerge;
    apply (threaded_merge_format y new_data Hformat) in Hmerge.
  2:{ intros [= <- <-]. by eapply new_entries_trans. }
  assert (new_entries P src st st4) as H4 by (by eapply new_entries_trans).
  destruct (interrupt w src y b.1 PhPersist); intros [= <- <-]; [done|].
  eapply new_entries_trans; [by apply Hflush|].
  apply new_entries_same_cache. by destruct src.
Qed.

Lemma threaded_process_format :
  completes_submitted w →
  preserves (new_entries P src) (Threaded.process c w p).
Proof.
  intros Hperm. unfold Threaded.process.
  apply preserves_get_bind. intros st r st'.
  entries_bind; [entries_step|]. entries_bind; [entries_step|].
  apply preserves_for_each; [apply new_entries_refl | apply new_entries_trans |].
  intros y _.
  apply preserves_for_each; [apply new_entries_refl | apply new_entries_trans |].
  intros b _. by apply threaded_batch_format.
Qed.
End ThreadedFormats.

Lemma new_entry_format P src st st' k v :
  new_entries P src st st' → cache_of src st !! k = None →
  cache_of src st' !! k = Some v → P v.
Proof. intros Hnew Hnone Hk. destruct (Hnew k v Hk); [congruence | done]. Qed.

Lemma serial_process_format P c w src step pause st st' y pt :
  (∀ y i pt, preserves (grows src w) (step y i pt)) →
  (∀ y i pt st st', step y i pt st = (Done (), st') →
     is_Some (cache_of src st' !! cache_key w y pt)) →
  (∀ y i pt, preserves (new_entries P src) (step y i pt)) →
  uncached_point c w src st y pt →
  Serial.process c w src step pause st = (Done (), st') →
  ∃ v, cache_of src st' !! cache_key w y pt = Some v ∧ P v.
Proof.
  intros Hgrows Hcaches Hentries (table & Hcells & Hy & Hpt & Hnone) Hrun.
  destruct (serial_process_covers _ _ _ _ _ _ _ Hgrows Hcaches Hrun)
    as (table' & Hcells' & Hcov).
  assert (table' = table) as -> by congruence.
  destruct (Hcov y pt Hy Hpt) as [v Hv]. exists v. split; [done|].
  eapply new_entry_format; [|exact Hnone|exact Hv].
  by eapply serial_process_entries.
Qed.

Lemma threaded_process_record P c w p st st' y pt :
  is_pipeline c w p → completes_submitted w → lists_the_set w →
  (0 < Threaded.p_batch_size p)%nat →
  (∀ lat lon y v, (Threaded.p_fetch p lat lon y).2 = Ok v → P v) →
  P (Threaded.p_absent p) →
  uncached_point c w (Threaded.p_src p) st y pt →
  Threaded.process c w p st = (Done (), st') →
  ∃ v, cache_of (Threaded.p_src p) st' !! cache_key w y pt = Some v ∧ P v.
Proof.
  intros Hp Hperm Hset Hsize Hfetch Habsent
    (table & Hcells & Hy & Hpt & Hnone) Hrun.
  destruct (threaded_process_covers c w p st st' Hp Hperm Hset Hsize Hrun)
    as (table' & Hcells' & Hcov).
  assert (table' = table) as -> by congruence.
  destruct (Hcov y pt Hy Hpt) as [v Hv]. exists v. split; [done|].
  eapply new_entry_format; [|exact Hnone|exact Hv].
  eapply (threaded_process_format c w p P); [|done..|exact Hrun].
  by eapply is_pipeline_well_behaved.
Qed.

Lemma threaded_ndvi_returns_record c w lat lon y v :
  (Threaded.fetch_ndvi_single c w lat lon y).2 = Ok v → is_ndvi_record c v.
Proof.
  intros Hv. destruct (threaded_fetch_ndvi_spec c w lat lon y) as [_ [[x Hx]|Hx]];
    rewrite Hx in Hv; [|done]. injection Hv as <-. by exists x.
Qed.

Lemma threaded_climate_returns_record c w lat lon y v :
  (Threaded.fetch_temp_precip_single c w lat lon y).2 = Ok v →
  is_climate_record c v.
Proof.
  intros Hv.
  destruct (threaded_fetch_temp_precip_spec c w lat lon y)
    as [_ [(t & q & Hx)|Hx]]; rewrite Hx in Hv; [|done].
  injection Hv as <-. by exists t, q.
Qed.

(** C10: under the key of every point that a completed pipeline had to
    fetch, the serial variant leaves a bare number or a null (NDVI) or a
    pair (climate), and the threaded variant leaves a record from the
    result column name(s) to the value(s); so after a run of each variant
    from the same table and cache the two entries of such a key differ. A
    threaded lookup of an entry that the serial NDVI path wrote raises
    [AttributeError] at [vals.items()], and so does the batch that holds the
    point. *)
Theorem cache_entry_formats_differ (c : Config) (w : world) (st : state)
    (y : Z) (pt : cell) :
  (uncached_point c w GEE st y pt →
   ∀ ss, Serial.process_ndvi c w st = (Done (), ss) →
         ∃ v, gee_cache ss !! cache_key w y pt = Some v ∧ is_scalar v) ∧
  (uncached_point c w OM st y pt →
   ∀ ss, Serial.process_temp_precip c w st = (Done (), ss) →
         ∃ v, om_cache ss !! cache_key w y pt = Some v ∧ is_pair v) ∧
  (completes_submitted w → lists_the_set w →
   (uncached_point c w GEE st y pt →
    ∀ st', Threaded.process_ndvi c w st = (Done (), st') →
           ∃ v, gee_cache st' !! cache_key w y pt = Some v ∧
                is_ndvi_record c v) ∧
   (uncached_point c w OM st y pt →
    ∀ st', Threaded.process_temp_precip c w st = (Done (), st') →
           ∃ v, om_cache st' !! cache_key w y pt = Some v ∧
                is_climate_record c v) ∧
   (uncached_point c w GEE st y pt →
    ∀ ss st', Serial.process_ndvi c w st = (Done (), ss) →
              Threaded.process_ndvi c w st = (Done (), st') →
              gee_cache ss !! cache_key w y pt
              ≠ gee_cache st' !! cache_key w y pt) ∧
   (uncached_point c w OM st y pt →
    ∀ ss st', Serial.process_temp_precip c w st = (Done (), ss) →
              Threaded.process_temp_precip c w st = (Done (), st') →
              om_cache ss !! cache_key w y pt
              ≠ om_cache st' !! cache_key w y pt)) ∧
  (∀ v ss, is_scalar v → gee_cache ss !! cache_key w y pt = Some v →
     (∀ to_fetch,
        Threaded.lookup_step w (Threaded.ndvi_pipeline c w) y to_fetch pt ss
        = (Stop (Uncaught AttributeError), ss)) ∧
     (∀ j rest,
        interrupt w GEE y j PhLookup = false →
        Threaded.batch w (Threaded.ndvi_pipeline c w) y (j, pt :: rest) ss
        = (Stop (Uncaught AttributeError), ss))).
Proof.
  assert (uncached_point c w GEE st y pt →
          ∀ ss, Serial.process_ndvi c w st = (Done (), ss) →
                ∃ v, gee_cache ss !! cache_key w y pt = Some v ∧ is_scalar v)
    as Hsn.
  { intros Hpt ss.
    apply (serial_process_format is_scalar c w GEE); [| | |done];
      intros y' i pt'.
    - apply serial_ndvi_step_grows.
    - apply serial_ndvi_step_caches.
    - apply serial_ndvi_step_entries. }
  assert (uncached_point c w OM st y pt →
          ∀ ss, Serial.process_temp_precip c w st = (Done (), ss) →
                ∃ v, om_cache ss !! cache_key w y pt = Some v ∧ is_pair v)
    as Hsc.
  { intros Hpt ss.
    apply (serial_process_format is_pair c w OM); [| | |done];
      intros y' i pt'.
    - apply serial_temp_precip_step_grows.
    - apply serial_temp_precip_step_caches.
    - apply serial_temp_precip_step_entries. }
  split; [exact Hsn|]. split; [exact Hsc|]. split.
  - intros Hperm Hset.
    assert (uncached_point c w GEE st y pt →
            ∀ st', Threaded.process_ndvi c w st = (Done (), st') →
                   ∃ v, gee_cache st' !! cache_key w y pt = Some v ∧
                        is_ndvi_record c v) as Htn.
    { intros Hpt st'.
      apply (threaded_process_record (is_ndvi_record c) c w
               (Threaded.ndvi_pipeline c w)); [by left|done|done| | | |done].
      - cbn. unfold Threaded.GEE_BATCH_SIZE. lia.
      - intros lat lon y' v. apply threaded_ndvi_returns_record.
      - by exists PNone. }
    assert (uncached_point c w OM st y pt →
            ∀ st', Threaded.process_temp_precip c w st = (Done (), st') →
                   ∃ v, om_cache st' !! cache_key w y pt = Some v ∧
                        is_climate_record c v) as Htc.
    { intros Hpt st'.
      apply (threaded_process_record (is_climate_record c) c w
               (Threaded.temp_precip_pipeline c w));
        [by right|done|done| | | |done].
      - cbn. unfold Threaded.OM_BATCH_SIZE. lia.
      - intros lat lon y' v. apply threaded_climate_returns_record.
      - by exists PNone, PNone. }
    split; [exact Htn|]. split; [exact Htc|]. split.
    + intros Hpt ss st' Hs Ht.
      destruct (Hsn Hpt ss Hs) as (vs & -> & [x ->]).
      destruct (Htn Hpt st' Ht) as (vt & -> & [x' ->]). by destruct x.
    + intros Hpt ss st' Hs Ht.
      destruct (Hsc Hpt ss Hs) as (vs & -> & (t & q & ->)).
      by destruct (Htc Hpt st' Ht) as (vt & -> & (t' & q' & ->)).
  - intros v ss [x ->] Hhit.
    assert (∀ to_fetch,
      Threaded.lookup_step w (Threaded.ndvi_pipeline c w) y to_fetch pt ss
        = (Stop (Uncaught AttributeError), ss)) as Hlookup.
    { intros to_fetch.
      eapply (threaded_lookup_not_dict w (Threaded.ndvi_pipeline c w));
        [exact Hhit|]. by destruct x. }
    split; [done|].
    intros j rest Hj. rewrite threaded_batch_unfold. cbn [fst snd].
    cbn [Threaded.p_src Threaded.ndvi_pipeline]. rewrite Hj.
    cbn [Threaded.lookup_all]. unfold mbind at 1, M_bind at 1.
    by rewrite Hlookup.
Qed.

Lemma cold_point_uncached src :
  uncached_point default_config healthy_world src cold_state 2020 la_cell.
Proof.
  eexists. split; [destruct src; vm_compute; reflexivity|].
  split; [destruct src; vm_compute; by left|].
  split; [destruct src; vm_compute; by left|].
  by destruct src.
Qed.

Lemma cache_entry_formats_witness :
  ∃ ss st' x x',
    Serial.process_ndvi default_config healthy_world cold_state
    = (Done (), ss) ∧
    Threaded.process_ndvi default_config healthy_world cold_state
    = (Done (), st') ∧
    gee_cache ss !! cache_key healthy_world 2020 la_cell = Some (of_opt x) ∧
    gee_cache st' !! cache_key healthy_world 2020 la_cell
    = Some (PDict [(NDVI_COL default_config, x')]) ∧
    Threaded.batch healthy_world
      (Threaded.ndvi_pipeline default_config healthy_world) 2020
      (0%nat, [la_cell]) ss
    = (Stop (Uncaught AttributeError), ss).
Proof.
  destruct (cache_entry_formats_differ default_config healthy_world cold_state
              2020 la_cell) as (Hs & _ & Ht & Hread).
  destruct Ht as (Ht & _); [by intros l | by intros l |].
  eassert (Serial.process_ndvi default_config healthy_world cold_state
           = (Done (), _)) as Hrs by (vm_compute; reflexivity).
  eassert (Threaded.process_ndvi default_config healthy_world cold_state
           = (Done (), _)) as Hrt by (vm_compute; reflexivity).
  destruct (Hs (cold_point_uncached GEE) _ Hrs) as (vs & Hvs & [x ->]).
  destruct (Ht (cold_point_uncached GEE) _ Hrt) as (vt & Hvt & [x' ->]).
  eexists _, _, x, x'. split; [exact Hrs|]. split; [exact Hrt|].
  split; [exact Hvs|]. split; [exact Hvt|].
  destruct (Hread (of_opt x) _ (ex_intro _ x eq_refl) Hvs) as [_ Hbatch].
  by apply Hbatch.
Defined.
